(** * Verification of the FSO protocol simulator core

    A shallow embedding of the forward-error-correction, modulation, channel
    and beam-tracking code of the repository, and the properties the
    specification states about it.

    Conventions of the embedding:
    - a C [int] or [size_t] is a [Z]; every value that occurs stays far below
      2^31, so no wrap-around is modelled;
    - a [uint8_t] is a [Z] in [0, 256); stores into byte buffers truncate
      with [mod 256];
    - a C array is a [list]; [sel] reads and [upd] writes one cell;
    - a [for] loop is [for_range lo hi body], the body being a state
      transformer that receives the loop index;
    - a [double] that only ever holds exactly representable values and is only
      compared is a [Q]; where the code calls the math library ([log10],
      [cos], [tanh], ...) a [double] is idealised as a real number [R];
    - functions that return an [FSOErrorCode] next to their outputs return a
      [result]; [Fault] stands for an out-of-bounds array access, which is
      undefined behaviour in C. Pointer arguments are assumed non-null and
      allocations are assumed to succeed. *)

From Stdlib Require Import ZArith List Bool Lia Arith.
From Stdlib Require Import QArith Qabs.
From Stdlib Require Import Reals Lra.
From Stdlib Require Import Permutation FinFun.
Import ListNotations.

Local Open Scope Z_scope.

(* ================================================================== *)
(** * Part I: the embedding                                            *)
(* ================================================================== *)

(** ** Common types (src/fso.h) *)

Inductive FSOErrorCode : Set :=
| FSO_SUCCESS
| FSO_ERROR_INVALID_PARAM
| FSO_ERROR_MEMORY
| FSO_ERROR_NOT_INITIALIZED
| FSO_ERROR_CONVERGENCE
| FSO_ERROR_UNSUPPORTED
| FSO_ERROR_IO.

Inductive result (A : Type) : Type :=
| Ok (a : A)
| Err (e : FSOErrorCode)
| Fault.

Arguments Ok {A} a.
Arguments Err {A} e.
Arguments Fault {A}.

Definition bind {A B : Type} (r : result A) (f : A -> result B) : result B :=
  match r with
  | Ok a => f a
  | Err e => Err e
  | Fault => Fault
  end.

(** [FSO_MAX] and [FSO_MIN] of fso.h, on integers. *)
Definition FSO_MAX (a b : Z) : Z := if b <? a then a else b.
Definition FSO_MIN (a b : Z) : Z := if a <? b then a else b.

(** ** Arrays and loops *)

Definition sel {A : Type} (d : A) (l : list A) (i : Z) : A :=
  nth (Z.to_nat i) l d.

Fixpoint set_nth {A : Type} (n : nat) (v : A) (l : list A) : list A :=
  match l with
  | [] => []
  | x :: r =>
      match n with
      | O => v :: r
      | S n' => x :: set_nth n' v r
      end
  end.

Definition upd {A : Type} (l : list A) (i : Z) (v : A) : list A :=
  if i <? 0 then l else set_nth (Z.to_nat i) v l.

(** A bounds-checked store: the write is undefined behaviour in C when the
    index leaves the allocation. *)
Definition store (l : list Z) (i v : Z) : result (list Z) :=
  if (0 <=? i) && (i <? Z.of_nat (length l)) then Ok (upd l i v) else Fault.

(** [for (i = lo; count times; i++) s = body i s]. *)
Fixpoint for_loop {St : Type} (count : nat) (i : Z) (body : Z -> St -> St) (s : St) : St :=
  match count with
  | O => s
  | S c => for_loop c (i + 1) body (body i s)
  end.

(** [for (i = lo; i < hi; i++) s = body i s]. *)
Definition for_range {St : Type} (lo hi : Z) (body : Z -> St -> St) (s : St) : St :=
  for_loop (Z.to_nat (hi - lo)) lo body s.

(** [for (i = hi; i >= lo; i--) s = body i s]. *)
Fixpoint for_down_loop {St : Type} (count : nat) (i : Z) (body : Z -> St -> St) (s : St) : St :=
  match count with
  | O => s
  | S c => for_down_loop c (i - 1) body (body i s)
  end.

Definition for_down {St : Type} (hi lo : Z) (body : Z -> St -> St) (s : St) : St :=
  for_down_loop (Z.to_nat (hi - lo + 1)) hi body s.

(** ** Galois-field arithmetic (src/fec/reed_solomon.h, reed_solomon.c) *)

Definition RS_MAX_SYMBOL_SIZE : Z := 16.
Definition RS_MAX_CODE_LENGTH : Z := 65535.
Definition RS_MAX_PARITY_SYMBOLS : Z := 255.

Record GaloisField : Type := mkGF {
  symbol_size : Z;
  field_size : Z;
  primitive_poly : Z;
  exp_table : list Z;
  log_table : list Z;
  inv_table : list Z
}.

(** [gf_add]: addition is XOR. *)
Definition gf_add (a b : Z) : Z := Z.lxor a b.
Definition gf_sub (a b : Z) : Z := gf_add a b.

(** The [while (b > 0)] loop of [gf_mul_no_table]; [b] is halved in every
    round, so [b] rounds of fuel are never exhausted. *)
Fixpoint gf_mul_no_table_loop (fuel : nat) (a b res poly fsize : Z) : Z :=
  match fuel with
  | O => res
  | S f =>
      if 0 <? b then
        let res := if Z.testbit b 0 then Z.lxor res a else res in
        let a := Z.shiftl a 1 in
        let a := if fsize <=? a then Z.lxor a poly else a in
        gf_mul_no_table_loop f a (Z.shiftr b 1) res poly fsize
      else res
  end.

Definition gf_mul_no_table (a b poly fsize : Z) : Z :=
  gf_mul_no_table_loop (Z.to_nat b) a b 0 poly fsize.

(** [gf_build_tables]. The only data-dependent index is the one of
    [log_table[x] = i]; it is written through the checked [store]. *)
Definition gf_build_tables (gf : GaloisField) : result GaloisField :=
  let q := field_size gf in
  let exp0 := upd (exp_table gf) 0 1 in
  let log0 := upd (upd (log_table gf) 0 0) 1 0 in
  bind
    (for_range 1 (q - 1)
       (fun i st =>
          bind st (fun '(x, exp, log) =>
            let x := gf_mul_no_table x 2 (primitive_poly gf) q in
            let exp := upd exp i x in
            bind (store log x i) (fun log => Ok (x, exp, log))))
       (Ok (1, exp0, log0)))
    (fun '(_, exp, log) =>
       let exp :=
         for_range (q - 1) (2 * q - 2)
           (fun i exp => upd exp i (sel 0 exp (i - (q - 1)))) exp in
       let inv0 := upd (inv_table gf) 0 0 in
       let inv :=
         for_range 1 q
           (fun i inv => upd inv i (sel 0 exp (q - 1 - sel 0 log i))) inv0 in
       Ok (mkGF (symbol_size gf) q (primitive_poly gf) exp log inv)).

(** [gf_init]: the two parameter checks, the zeroed tables of [calloc], then
    the table construction. *)
Definition gf_init (symbol_size primitive_poly : Z) : result GaloisField :=
  if negb ((3 <=? symbol_size) && (symbol_size <=? RS_MAX_SYMBOL_SIZE)) then
    Err FSO_ERROR_INVALID_PARAM
  else if negb (0 <? primitive_poly) then
    Err FSO_ERROR_INVALID_PARAM
  else
    let q := Z.shiftl 1 symbol_size in
    gf_build_tables
      (mkGF symbol_size q primitive_poly
            (repeat 0 (Z.to_nat (2 * q)))
            (repeat 0 (Z.to_nat q))
            (repeat 0 (Z.to_nat q))).

(** [gf_mul], [gf_div], [gf_pow] and [gf_inv] work through the tables and
    index them with their operands as they come, without a check. The
    operands are elements of the field, [0 <= a < field_size]: there the
    look-ups below are the reads of the C code. An operand outside the
    field, or a negative exponent of [gf_pow] whose remainder is negative,
    makes the C code read outside its table, which is undefined; [sel]
    returns 0 there, and nothing is claimed of that value. *)
Definition gf_mul (gf : GaloisField) (a b : Z) : Z :=
  if (a =? 0) || (b =? 0) then 0
  else
    let log_sum := sel 0 (log_table gf) a + sel 0 (log_table gf) b in
    let log_sum :=
      if field_size gf - 1 <=? log_sum then log_sum - (field_size gf - 1)
      else log_sum in
    sel 0 (exp_table gf) log_sum.

Definition gf_div (gf : GaloisField) (a b : Z) : Z :=
  if a =? 0 then 0
  else if b =? 0 then 0
  else
    let log_diff := sel 0 (log_table gf) a - sel 0 (log_table gf) b in
    let log_diff :=
      if log_diff <? 0 then log_diff + (field_size gf - 1) else log_diff in
    sel 0 (exp_table gf) log_diff.

Definition gf_pow (gf : GaloisField) (base exponent : Z) : Z :=
  if base =? 0 then 0
  else if exponent =? 0 then 1
  else
    let log_result :=
      Z.rem (sel 0 (log_table gf) base * exponent) (field_size gf - 1) in
    sel 0 (exp_table gf) log_result.

Definition gf_inv (gf : GaloisField) (a : Z) : Z :=
  if a =? 0 then 0 else sel 0 (inv_table gf) a.

(** [rs_is_primitive_poly_valid]: the degree of the polynomial is counted by
    shifting it out; the loop runs once per bit. *)
Fixpoint poly_degree_loop (fuel : nat) (temp degree : Z) : Z :=
  match fuel with
  | O => degree
  | S f =>
      if 0 <? temp then poly_degree_loop f (Z.shiftr temp 1) (degree + 1)
      else degree
  end.

Definition rs_is_primitive_poly_valid (symbol_size primitive_poly : Z) : bool :=
  if (symbol_size <? 3) || (RS_MAX_SYMBOL_SIZE <? symbol_size) then false
  else if primitive_poly <=? 0 then false
  else
    let expected_degree := symbol_size in
    let degree := poly_degree_loop (Z.to_nat primitive_poly) primitive_poly 0 in
    let degree := degree - 1 in
    degree =? expected_degree.

(** The table of default polynomials, [primitive_polys]. *)
Definition primitive_polys : list (Z * Z) :=
  [(3, 0x0b); (4, 0x13); (5, 0x25); (6, 0x43); (7, 0x89); (8, 0x11d);
   (9, 0x211); (10, 0x409); (11, 0x805); (12, 0x1053)].

Fixpoint rs_get_default_primitive_poly_in (tbl : list (Z * Z)) (symbol_size : Z) : Z :=
  match tbl with
  | [] => 0
  | (s, p) :: rest =>
      if s =? symbol_size then p else rs_get_default_primitive_poly_in rest symbol_size
  end.

Definition rs_get_default_primitive_poly (symbol_size : Z) : Z :=
  rs_get_default_primitive_poly_in primitive_polys symbol_size.

(** The powers of the field generator [alpha = 2] as the table construction
    computes them: [alpha_pow i] is [x] after [i] rounds of
    [x = gf_mul_no_table(x, 2, poly, q)]. *)
Fixpoint alpha_pow (poly fsize : Z) (i : nat) : Z :=
  match i with
  | O => 1
  | S j => gf_mul_no_table (alpha_pow poly fsize j) 2 poly fsize
  end.

(** A polynomial of degree [m] is primitive when [alpha] has multiplicative
    order [2^m - 1] modulo it. The check walks once through the powers. *)
Fixpoint order_check (poly fsize : Z) (steps : nat) (x : Z) : bool :=
  match steps with
  | O => true
  | S O => gf_mul_no_table x 2 poly fsize =? 1
  | S s =>
      let x' := gf_mul_no_table x 2 poly fsize in
      negb (x' =? 1) && order_check poly fsize s x'
  end.

Definition is_primitive (m poly : Z) : bool :=
  let q := Z.shiftl 1 m in
  (q <=? poly) && (poly <? 2 * q) && order_check poly q (Z.to_nat (q - 1)) 1.

(** ** Reed-Solomon codec (src/fec/fec.h, reed_solomon.h, reed_solomon.c) *)

Record RSConfig : Type := mkRSConfig {
  cfg_symbol_size : Z;
  cfg_num_roots : Z;
  cfg_first_root : Z;
  cfg_primitive_poly : Z;
  cfg_fcr : Z
}.

Record RSCodec : Type := mkRS {
  rs_gf : GaloisField;
  rs_n : Z;
  rs_k : Z;
  rs_t : Z;
  rs_num_roots : Z;
  rs_first_root : Z;
  rs_fcr : Z;
  generator_poly : list Z;
  gen_poly_degree : Z;
  syndrome : list Z
}.

Definition set_generator (rs : RSCodec) (g : list Z) (deg : Z) : RSCodec :=
  mkRS (rs_gf rs) (rs_n rs) (rs_k rs) (rs_t rs) (rs_num_roots rs)
       (rs_first_root rs) (rs_fcr rs) g deg (syndrome rs).

Definition set_syndrome (rs : RSCodec) (s : list Z) : RSCodec :=
  mkRS (rs_gf rs) (rs_n rs) (rs_k rs) (rs_t rs) (rs_num_roots rs)
       (rs_first_root rs) (rs_fcr rs) (generator_poly rs) (gen_poly_degree rs) s.

(** [poly_eval]: Horner's rule, [poly[0]] being the leading coefficient. *)
Definition poly_eval (gf : GaloisField) (poly : list Z) (degree x : Z) : Z :=
  if degree <? 0 then 0
  else
    for_range 1 (degree + 1)
      (fun i res => gf_add (gf_mul gf res x) (sel 0 poly i))
      (sel 0 poly 0).

(** [poly_mul]; the result buffer is returned with its degree. *)
Definition poly_mul (gf : GaloisField) (a : list Z) (a_degree : Z)
           (b : list Z) (b_degree : Z) (res : list Z) : list Z * Z :=
  if (a_degree <? 0) || (b_degree <? 0) then (res, -1)
  else
    let result_degree := a_degree + b_degree in
    let res := for_range 0 (result_degree + 1) (fun i r => upd r i 0) res in
    let res :=
      for_range 0 (a_degree + 1)
        (fun i r =>
           for_range 0 (b_degree + 1)
             (fun j r =>
                upd r (i + j)
                    (gf_add (sel 0 r (i + j)) (gf_mul gf (sel 0 a i) (sel 0 b j))))
             r)
        res in
    (res, result_degree).

(** [rs_generate_generator_polynomial]. The scratch array [temp] has
    [RS_MAX_PARITY_SYMBOLS + 1] cells; copying more than that into it is
    undefined behaviour. *)
Definition rs_generate_generator_polynomial (rs : RSCodec) : result RSCodec :=
  let g0 := upd (generator_poly rs) 0 1 in
  bind
    (for_range 0 (rs_num_roots rs)
       (fun i st =>
          bind st (fun '(g, deg) =>
            let root := gf_pow (rs_gf rs) 2 (rs_fcr rs + i) in
            if RS_MAX_PARITY_SYMBOLS + 1 <? deg + 1 then Fault
            else
              let temp := firstn (Z.to_nat (deg + 1)) g in
              let g := for_down deg 0 (fun j g => upd g (j + 1) (sel 0 temp j)) g in
              let g := upd g 0 0 in
              let deg := deg + 1 in
              let g :=
                for_range 0 deg
                  (fun j g =>
                     upd g j (gf_add (sel 0 g j)
                                     (gf_mul (rs_gf rs) root (sel 0 temp j))))
                  g in
              Ok (g, deg)))
       (Ok (g0, 0)))
    (fun '(g, deg) => Ok (set_generator rs g deg)).

(** [rs_init]. *)
Definition rs_init (config : RSConfig) (n k : Z) : result RSCodec :=
  if negb ((k <? n) && (0 <? k)) then Err FSO_ERROR_INVALID_PARAM
  else if negb (n <=? Z.shiftl 1 (cfg_symbol_size config) - 1) then
    Err FSO_ERROR_INVALID_PARAM
  else
    let num_roots := n - k in
    let t := Z.quot num_roots 2 in
    bind (gf_init (cfg_symbol_size config) (cfg_primitive_poly config))
      (fun gf =>
         rs_generate_generator_polynomial
           (mkRS gf n k t num_roots (cfg_first_root config) (cfg_fcr config)
                 (repeat 0 (Z.to_nat (num_roots + 1))) 0
                 (repeat 0 (Z.to_nat num_roots)))).

(** [rs_encode]. [data] holds [uint8_t] symbols; [encoded_len] is the
    capacity of the caller's output buffer. The function returns the [n]
    cells it wrote. The symbols are not checked against the field: with
    symbols below [2^m] every feedback value is below [2^m] as well and the
    look-ups of [gf_mul] stay inside the tables. *)
Definition rs_encode (rs : RSCodec) (data : list Z) (encoded_len : Z)
  : result (list Z) :=
  let data_len := Z.of_nat (length data) in
  if negb (data_len =? rs_k rs) then Err FSO_ERROR_INVALID_PARAM
  else if negb (rs_n rs <=? encoded_len) then Err FSO_ERROR_INVALID_PARAM
  else
    let encoded := repeat 0 (Z.to_nat encoded_len) in
    let encoded :=
      for_range 0 (rs_k rs) (fun i e => upd e i (sel 0 data i)) encoded in
    let encoded :=
      for_range (rs_k rs) (rs_n rs) (fun i e => upd e i 0) encoded in
    let temp := repeat 0 (Z.to_nat RS_MAX_CODE_LENGTH) in
    let temp := for_range 0 (rs_k rs) (fun i t => upd t i (sel 0 data i)) temp in
    let temp := for_range (rs_k rs) (rs_n rs) (fun i t => upd t i 0) temp in
    let temp :=
      for_range 0 (rs_k rs)
        (fun i t =>
           let feedback := sel 0 t i in
           if negb (feedback =? 0) then
             for_range 0 (gen_poly_degree rs + 1)
               (fun j t =>
                  upd t (i + j)
                      (gf_add (sel 0 t (i + j))
                              (gf_mul (rs_gf rs) feedback
                                      (sel 0 (generator_poly rs) j))))
               t
           else t)
        temp in
    let encoded :=
      for_range 0 (rs_num_roots rs)
        (fun i e => upd e (rs_k rs + i) (sel 0 temp (rs_k rs + i) mod 256))
        encoded in
    Ok (firstn (Z.to_nat (rs_n rs)) encoded).

(** [rs_calculate_syndrome]: the syndromes are left in the codec's
    workspace. *)
Definition rs_calculate_syndrome (rs : RSCodec) (received : list Z)
  : result RSCodec :=
  if negb (Z.of_nat (length received) =? rs_n rs) then
    Err FSO_ERROR_INVALID_PARAM
  else
    Ok (set_syndrome rs
          (for_range 0 (rs_num_roots rs)
             (fun i syn =>
                let alpha_power := gf_pow (rs_gf rs) 2 (rs_fcr rs + i) in
                let syn := upd syn i 0 in
                for_range 0 (rs_n rs)
                  (fun j syn =>
                     upd syn i
                         (gf_add (sel 0 syn i)
                                 (gf_mul (rs_gf rs) (sel 0 received j)
                                         (gf_pow (rs_gf rs) alpha_power j))))
                  syn)
             (syndrome rs))).

(** [rs_has_errors]. *)
Definition rs_has_errors (rs : RSCodec) : bool :=
  existsb (fun s => negb (s =? 0))
          (firstn (Z.to_nat (rs_num_roots rs)) (syndrome rs)).

(** *** The Reed-Solomon decoder

    [rs_decode], [rs_berlekamp_massey], [rs_chien_search] and
    [rs_forney_algorithm] are declared in reed_solomon.h; their definitions
    are not part of the sources. They are modelled from section 4.B of the
    specification, on top of [rs_calculate_syndrome] and [rs_has_errors],
    which are. Polynomials of the decoder are coefficient lists, constant
    term first. *)

(** [FECStats] of fec.h; its fields [iterations] and [syndrome_weight] are
    never written and are left out. *)
Record FECStats : Type := mkStats {
  errors_detected : Z;
  errors_corrected : Z;
  uncorrectable : bool
}.

(** Value of a polynomial (constant term first) at [x]. *)
Fixpoint poly_eval_low (gf : GaloisField) (p : list Z) (x : Z) : Z :=
  match p with
  | [] => 0
  | c :: rest => gf_add c (gf_mul gf x (poly_eval_low gf rest x))
  end.

(** Index of the highest non-zero coefficient; 0 for the zero polynomial. *)
Fixpoint poly_degree_low (p : list Z) : Z :=
  match p with
  | [] => 0
  | c :: rest =>
      if existsb (fun c' => negb (c' =? 0)) rest then 1 + poly_degree_low rest
      else 0
  end.

(** [a + s * x^m * b]. *)
Fixpoint poly_add_low (a b : list Z) : list Z :=
  match a, b with
  | [], _ => b
  | _, [] => a
  | x :: a', y :: b' => gf_add x y :: poly_add_low a' b'
  end.

Definition poly_scale_shift (gf : GaloisField) (s : Z) (m : nat) (b : list Z) : list Z :=
  repeat 0 m ++ map (gf_mul gf s) b.

(** Modelled from the spec: [rs_berlekamp_massey] is missing from the
    sources. "Given syndromes, compute the error-locator polynomial of
    minimal degree satisfying the standard recursion": the textbook
    Berlekamp-Massey iteration over the [r] syndromes. The state is the
    current locator [C], the previous locator [B], the register length [L],
    the gap [m] and the previous discrepancy [b]. *)
Definition bm_discrepancy (gf : GaloisField) (syn C : list Z) (n L : Z) : Z :=
  for_range 1 (L + 1)
    (fun i d => gf_add d (gf_mul gf (sel 0 C i) (sel 0 syn (n - i))))
    (sel 0 syn n).

Definition rs_berlekamp_massey (rs : RSCodec) : list Z :=
  let gf := rs_gf rs in
  let '(C, _, _, _, _) :=
    for_range 0 (rs_num_roots rs)
      (fun n '(C, B, L, m, b) =>
         let d := bm_discrepancy gf (syndrome rs) C n L in
         if d =? 0 then (C, B, L, m + 1, b)
         else
           let C' := poly_add_low C (poly_scale_shift gf (gf_div gf d b) (Z.to_nat m) B) in
           if 2 * L <=? n then (C', C, n + 1 - L, 1, d)
           else (C', B, L, m + 1, b))
      ([1], [1], 0, 1, 1) in
  C.

(** Modelled from the spec: [rs_chien_search] is missing from the sources.
    "Evaluate Lambda(x) at x = alpha^-i for i = 0..n-1; each root identifies
    an error position." *)
Definition alpha_inv_pow (gf : GaloisField) (i : Z) : Z :=
  gf_inv gf (gf_pow gf 2 i).

Definition rs_chien_search (rs : RSCodec) (lambda : list Z) : list Z :=
  filter (fun i => poly_eval_low (rs_gf rs) lambda (alpha_inv_pow (rs_gf rs) i) =? 0)
         (map Z.of_nat (seq 0 (Z.to_nat (rs_n rs)))).

(** Modelled from the spec: [rs_forney_algorithm] is missing from the
    sources. "Form Omega(x) = (S(x) * Lambda(x)) mod x^r. For each error
    position j, error magnitude is -Omega(alpha^-j) / Lambda'(alpha^-j),
    where Lambda' is the formal derivative." *)
Definition poly_mul_low (gf : GaloisField) (a b : list Z) : list Z :=
  fold_right
    (fun c acc => poly_add_low (map (gf_mul gf c) b) (0 :: acc))
    [] a.

Fixpoint formal_derivative_from (i : Z) (p : list Z) : list Z :=
  match p with
  | [] => []
  | c :: rest => (if Z.odd i then c else 0) :: formal_derivative_from (i + 1) rest
  end.

Definition formal_derivative (p : list Z) : list Z :=
  match p with
  | [] => []
  | _ :: rest => formal_derivative_from 1 rest
  end.

Definition rs_forney_algorithm (rs : RSCodec) (lambda : list Z) (positions : list Z)
  : list Z :=
  let gf := rs_gf rs in
  let r := Z.to_nat (rs_num_roots rs) in
  let omega := firstn r (poly_mul_low gf (firstn r (syndrome rs)) lambda) in
  let lambda' := formal_derivative lambda in
  map (fun j =>
         let x := alpha_inv_pow gf j in
         gf_div gf (poly_eval_low gf omega x) (poly_eval_low gf lambda' x))
      positions.

Fixpoint apply_corrections (word : list Z) (positions values : list Z) : list Z :=
  match positions, values with
  | p :: ps, v :: vs =>
      apply_corrections (upd word p (gf_add (sel 0 word p) v)) ps vs
  | _, _ => word
  end.

(** Modelled from the spec: [rs_decode] is missing from the sources.
    Zero syndromes: the first [k] received symbols and no corrections.
    Otherwise Berlekamp-Massey, Chien and Forney; a locator of degree above
    [t] or with too few roots is uncorrectable, and the first [k] received
    symbols are passed through. *)
Definition rs_decode (rs : RSCodec) (received : list Z)
  : result (list Z * FECStats) :=
  bind (rs_calculate_syndrome rs received) (fun rs =>
    let k := Z.to_nat (rs_k rs) in
    if negb (rs_has_errors rs) then
      Ok (firstn k received, mkStats 0 0 false)
    else
      let lambda := rs_berlekamp_massey rs in
      let nu := poly_degree_low lambda in
      if rs_t rs <? nu then Ok (firstn k received, mkStats nu 0 true)
      else
        let positions := rs_chien_search rs lambda in
        if Z.of_nat (length positions) <? nu then
          Ok (firstn k received, mkStats nu 0 true)
        else
          let values := rs_forney_algorithm rs lambda positions in
          let corrected := apply_corrections received positions values in
          Ok (firstn k corrected, mkStats nu nu false)).

(** Symbol-wise XOR of a word with an error pattern, and the weight of a
    pattern. *)
Fixpoint xor_words (a b : list Z) : list Z :=
  match a, b with
  | x :: a', y :: b' => Z.lxor x y :: xor_words a' b'
  | _, _ => a
  end.

Definition weight (e : list Z) : Z :=
  Z.of_nat (length (filter (fun s => negb (s =? 0)) e)).

(** ** LDPC codec (src/fec/ldpc.h, ldpc.c): matrices and encoder *)

Definition LDPC_MAX_CODE_LENGTH : Z := 8192.
Definition LDPC_MAX_ITERATIONS : Z := 100.
Definition LDPC_RATE_1_2 : Q := 0.5.
Definition LDPC_RATE_2_3 : Q := 0.6666666666666666.
Definition LDPC_RATE_3_4 : Q := 0.75.
Definition LDPC_RATE_5_6 : Q := 0.8333333333333334.

Record SparseElement : Type := mkElem {
  row : Z;
  col : Z;
  value : Z
}.

Definition elem0 : SparseElement := mkElem 0 0 0.

(** A [NULL] array is the empty list. *)
Record SparseMatrix : Type := mkSparse {
  rows : Z;
  cols : Z;
  nnz : Z;
  elements : list SparseElement;
  row_ptr : list Z;
  col_indices : list Z;
  values : list Z
}.

Definition set_elements (mx : SparseMatrix) (es : list SparseElement) (count : Z)
  : SparseMatrix :=
  mkSparse (rows mx) (cols mx) count es (row_ptr mx) (col_indices mx) (values mx).

(** [sparse_matrix_init]. *)
Definition sparse_matrix_init (rows cols nnz : Z) : result SparseMatrix :=
  if negb ((0 <? rows) && (0 <? cols) && (0 <=? nnz)) then
    Err FSO_ERROR_INVALID_PARAM
  else if 0 <? nnz then
    Ok (mkSparse rows cols nnz
                 (repeat elem0 (Z.to_nat nnz))
                 (repeat 0 (Z.to_nat (rows + 1)))
                 (repeat 0 (Z.to_nat nnz))
                 (repeat 0 (Z.to_nat nnz)))
  else Ok (mkSparse rows cols nnz [] [] [] []).

(** The comparison of the exchange sort in [sparse_matrix_to_csr]. *)
Definition elem_gt (a b : SparseElement) : bool :=
  (row b <? row a) || ((row a =? row b) && (col b <? col a)).

(** The [while (current_row < bound)] loops of [sparse_matrix_to_csr]; each
    round advances [current_row], so [bound - current_row] rounds suffice. *)
Fixpoint fill_row_ptr (fuel : nat) (current_row bound : Z) (rp : list Z) (i : Z)
  : Z * list Z :=
  match fuel with
  | O => (current_row, rp)
  | S f =>
      if current_row <? bound then
        let current_row := current_row + 1 in
        fill_row_ptr f current_row bound (upd rp current_row i) i
      else (current_row, rp)
  end.

(** [sparse_matrix_to_csr]. *)
Definition sparse_matrix_to_csr (mx : SparseMatrix) : SparseMatrix :=
  if nnz mx =? 0 then mx
  else
    let es :=
      for_range 0 (nnz mx - 1)
        (fun i es =>
           for_range (i + 1) (nnz mx)
             (fun j es =>
                if elem_gt (sel elem0 es i) (sel elem0 es j) then
                  let temp := sel elem0 es i in
                  upd (upd es i (sel elem0 es j)) j temp
                else es)
             es)
        (elements mx) in
    let rp := upd (row_ptr mx) 0 0 in
    let '(current_row, rp, ci, vs) :=
      for_range 0 (nnz mx)
        (fun i '(current_row, rp, ci, vs) =>
           let '(current_row, rp) :=
             fill_row_ptr (Z.to_nat (row (sel elem0 es i) - current_row))
                          current_row (row (sel elem0 es i)) rp i in
           (current_row, rp,
            upd ci i (col (sel elem0 es i)),
            upd vs i (value (sel elem0 es i))))
        (0, rp, col_indices mx, values mx) in
    let '(_, rp) :=
      fill_row_ptr (Z.to_nat (rows mx - current_row)) current_row (rows mx) rp
                   (nnz mx) in
    mkSparse (rows mx) (cols mx) (nnz mx) es rp ci vs.

(** The part of [LDPCCodec] the encoder and the graph construction use. The
    decoder's message buffers follow further down. *)
Record LDPCGraph : Type := mkGraph {
  var_degree : list Z;
  check_degree : list Z;
  var_to_check_edges : list (list Z);
  check_to_var_edges : list (list Z)
}.

Record LDPCCodec : Type := mkLDPC {
  ldpc_n : Z;
  ldpc_k : Z;
  ldpc_m : Z;
  ldpc_H : SparseMatrix;
  ldpc_G : SparseMatrix;
  max_iterations : Z;
  graph : LDPCGraph
}.

Definition null_matrix : SparseMatrix := mkSparse 0 0 0 [] [] [] [].

(** [ldpc_init]; [config_max_iterations] is [config->max_iterations]. The
    structures of [H] and [G] come from [malloc] and nothing is written to
    them here: their contents are indeterminate until [sparse_matrix_init]
    has run on them. [null_matrix] holds their place in the record; no
    function below reads it, each matrix is read only after
    [sparse_matrix_init] has replaced it. *)
Definition ldpc_init (config_max_iterations n k : Z) : result LDPCCodec :=
  if negb ((k <? n) && (0 <? k)) then Err FSO_ERROR_INVALID_PARAM
  else if negb (n <=? LDPC_MAX_CODE_LENGTH) then Err FSO_ERROR_INVALID_PARAM
  else
    let m := n - k in
    Ok (mkLDPC n k m null_matrix null_matrix
               (if 0 <? config_max_iterations then config_max_iterations
                else LDPC_MAX_ITERATIONS)
               (mkGraph (repeat 0 (Z.to_nat n)) (repeat 0 (Z.to_nat m))
                        (repeat [] (Z.to_nat n)) (repeat [] (Z.to_nat m)))).

(** [ldpc_init_message_graph]: degrees first, then the edge lists, filled
    in the order of the (sorted) elements of [H]. *)
Definition ldpc_init_message_graph (ldpc : LDPCCodec) : LDPCCodec :=
  let n := ldpc_n ldpc in
  let m := ldpc_m ldpc in
  let H := ldpc_H ldpc in
  let '(vd, cd) :=
    for_range 0 (nnz H)
      (fun i '(vd, cd) =>
         let r := row (sel elem0 (elements H) i) in
         let c := col (sel elem0 (elements H) i) in
         if (r <? m) && (c <? n) then
           (upd vd c (sel 0 vd c + 1), upd cd r (sel 0 cd r + 1))
         else (vd, cd))
      (repeat 0 (Z.to_nat n), repeat 0 (Z.to_nat m)) in
  let v2c := map (fun d => repeat 0 (Z.to_nat d)) vd in
  let c2v := map (fun d => repeat 0 (Z.to_nat d)) cd in
  let '(v2c, c2v, _, _) :=
    for_range 0 (nnz H)
      (fun i '(v2c, c2v, vcount, ccount) =>
         let r := row (sel elem0 (elements H) i) in
         let c := col (sel elem0 (elements H) i) in
         if (r <? m) && (c <? n) then
           let '(v2c, vcount) :=
             if negb (sel 0 vd c =? 0) && (sel 0 vcount c <? sel 0 vd c) then
               (upd v2c c (upd (sel [] v2c c) (sel 0 vcount c) r),
                upd vcount c (sel 0 vcount c + 1))
             else (v2c, vcount) in
           let '(c2v, ccount) :=
             if negb (sel 0 cd r =? 0) && (sel 0 ccount r <? sel 0 cd r) then
               (upd c2v r (upd (sel [] c2v r) (sel 0 ccount r) c),
                upd ccount r (sel 0 ccount r + 1))
             else (c2v, ccount) in
           (v2c, c2v, vcount, ccount)
         else (v2c, c2v, vcount, ccount))
      (v2c, c2v, repeat 0 (Z.to_nat n), repeat 0 (Z.to_nat m)) in
  mkLDPC n (ldpc_k ldpc) m H (ldpc_G ldpc) (max_iterations ldpc)
         (mkGraph vd cd v2c c2v).

(** Is the edge [(check, v)] among the first [edge_count] elements? *)
Definition edge_present (es : list SparseElement) (edge_count check v : Z) : bool :=
  existsb (fun e => (row e =? check) && (col e =? v))
          (firstn (Z.to_nat edge_count) es).

(** [ldpc_create_regular_matrix]. The probing loop
    [for (alt = 1; alt < m && edge_count < num_edges; alt++)] leaves at the
    first free check node; [placed] records that it has. *)
Definition ldpc_create_regular_matrix (ldpc : LDPCCodec) (dv dc : Z)
  : result LDPCCodec :=
  let m := ldpc_m ldpc in
  let n := ldpc_n ldpc in
  let num_edges := n * dv in
  if negb (num_edges =? m * dc) then Err FSO_ERROR_INVALID_PARAM
  else
    bind (sparse_matrix_init m n num_edges) (fun H =>
      let shift_increment := FSO_MAX 1 (Z.quot m dv) in
      let '(es, edge_count) :=
        for_range 0 n
          (fun v st =>
             for_range 0 dv
               (fun d '(es, edge_count) =>
                  let base_check := Z.rem (v * dv + d) m in
                  let check_node := Z.rem (base_check + d * shift_increment) m in
                  if negb (edge_present es edge_count check_node v) then
                    (upd es edge_count (mkElem check_node v 1), edge_count + 1)
                  else
                    let '(es, edge_count, _) :=
                      for_range 1 m
                        (fun alt '(es, edge_count, placed) =>
                           if placed || negb (edge_count <? num_edges) then
                             (es, edge_count, placed)
                           else
                             let alt_check := Z.rem (check_node + alt) m in
                             if negb (edge_present es edge_count alt_check v) then
                               (upd es edge_count (mkElem alt_check v 1),
                                edge_count + 1, true)
                             else (es, edge_count, placed))
                        (es, edge_count, false) in
                    (es, edge_count))
               st)
          (elements H, 0) in
      let H := sparse_matrix_to_csr (set_elements H es edge_count) in
      Ok (ldpc_init_message_graph
            (mkLDPC n (ldpc_k ldpc) m H (ldpc_G ldpc) (max_iterations ldpc)
                    (graph ldpc)))).

(** [ldpc_generate_standard_matrix]. The rate is the quotient of two
    integers. *)
Definition ldpc_generate_standard_matrix (ldpc : LDPCCodec) (code_rate : Q)
  : result LDPCCodec :=
  if negb (Qle_bool code_rate 0) && negb (Qle_bool 1 code_rate) then
    let close (r : Q) : bool :=
      negb (Qle_bool 1e-6 (Qabs (code_rate - r))) in
    let '(dv, dc) :=
      if close LDPC_RATE_1_2 then (3, 6)
      else if close LDPC_RATE_2_3 then (4, 8)
      else if close LDPC_RATE_3_4 then (5, 10)
      else if close LDPC_RATE_5_6 then (6, 12)
      else (3, 6) in
    ldpc_create_regular_matrix ldpc dv dc
  else Err FSO_ERROR_INVALID_PARAM.

(** [ldpc_gaussian_elimination]: [H] is made dense, reduced over GF(2) with
    pivots searched in the columns [k .. n-1], and [G] is filled from the
    result. *)
Definition get2 (M : list (list Z)) (r c : Z) : Z := sel 0 (sel [] M r) c.
Definition set2 (M : list (list Z)) (r c v : Z) : list (list Z) :=
  upd M r (upd (sel [] M r) c v).

(** The pivot search [for (row = pivot_row; row < m; row++)] with its
    [break]: the first row at or below [pivot_row] with a 1 in [col]. *)
Fixpoint find_pivot (fuel : nat) (M : list (list Z)) (r m col : Z) : option Z :=
  match fuel with
  | O => None
  | S f =>
      if r <? m then
        if get2 M r col =? 1 then Some r else find_pivot f M (r + 1) m col
      else None
  end.

Definition ldpc_gaussian_elimination (H G : SparseMatrix) (k : Z) : SparseMatrix :=
  let n := cols H in
  let m := rows H in
  let H_temp := repeat (repeat 0 (Z.to_nat n)) (Z.to_nat m) in
  let H_temp :=
    for_range 0 (nnz H)
      (fun i M =>
         let e := sel elem0 (elements H) i in
         if (row e <? m) && (col e <? n) then set2 M (row e) (col e) (value e)
         else M)
      H_temp in
  let '(H_temp, _) :=
    for_range k n
      (fun col '(M, pivot_row) =>
         if negb (pivot_row <? m) then (M, pivot_row)
         else
           match find_pivot (Z.to_nat (m - pivot_row)) M pivot_row m col with
           | None => (M, pivot_row)
           | Some r =>
               let M :=
                 if negb (r =? pivot_row) then
                   for_range 0 n
                     (fun c M =>
                        let temp := get2 M pivot_row c in
                        set2 (set2 M pivot_row c (get2 M r c)) r c temp)
                     M
                 else M in
               let M :=
                 for_range 0 m
                   (fun r' M =>
                      if negb (r' =? pivot_row) && (get2 M r' col =? 1) then
                        for_range 0 n
                          (fun c M =>
                             set2 M r' c (Z.lxor (get2 M r' c) (get2 M pivot_row c)))
                          M
                      else M)
                   M in
               (M, pivot_row + 1)
           end)
      (H_temp, 0) in
  let '(es, nnz_count) :=
    for_range 0 k
      (fun i '(es, nnz_count) =>
         if nnz_count <? nnz G then
           (upd es nnz_count (mkElem i i 1), nnz_count + 1)
         else (es, nnz_count))
      (elements G, 0) in
  let '(es, nnz_count) :=
    for_range 0 (FSO_MIN k m)
      (fun i st =>
         for_range k n
           (fun j '(es, nnz_count) =>
              if (get2 H_temp i j =? 1) && (nnz_count <? nnz G) then
                (upd es nnz_count (mkElem i j 1), nnz_count + 1)
              else (es, nnz_count))
           st)
      (es, nnz_count) in
  set_elements G es nnz_count.

(** [ldpc_generate_generator_matrix]. *)
Definition ldpc_generate_generator_matrix (ldpc : LDPCCodec) : result LDPCCodec :=
  bind (sparse_matrix_init (ldpc_k ldpc) (ldpc_n ldpc) (ldpc_k ldpc * ldpc_k ldpc))
    (fun G =>
       let G := ldpc_gaussian_elimination (ldpc_H ldpc) G (ldpc_k ldpc) in
       let G := sparse_matrix_to_csr G in
       Ok (mkLDPC (ldpc_n ldpc) (ldpc_k ldpc) (ldpc_m ldpc) (ldpc_H ldpc) G
                  (max_iterations ldpc) (graph ldpc))).

(** The clean-up of [fec_init] after a failed matrix step, [ldpc_free]
    followed by [free]. [ldpc_free] hands [ldpc->H] and [ldpc->G] to
    [sparse_matrix_free], which tests the four array pointers of the
    structure and frees those that are not null. [H_set] and [G_set] say
    whether [sparse_matrix_init] has got past its parameter check on the
    structure and cleared it; a structure still as [malloc] left it holds
    indeterminate pointers, and testing and freeing them is undefined. *)
Definition fec_init_ldpc_cleanup (H_set G_set : bool) (code : FSOErrorCode)
  : result LDPCCodec :=
  if H_set && G_set then Err code else Fault.

(** The LDPC branch of [fec_init]: [ldpc_init], the standard matrix for the
    rate [k / n], then the generator matrix. A failure of [ldpc_init] is
    returned as it is. A failure of [ldpc_generate_standard_matrix] comes
    before anything has touched [G], and before [H] is touched when it is
    the degree check of [ldpc_create_regular_matrix]. The one failure
    [ldpc_generate_generator_matrix] has here is the parameter check of
    [sparse_matrix_init] on [G], which leaves [G] untouched. Either way the
    clean-up runs on a structure that was never initialised. *)
Definition fec_init_ldpc (config_max_iterations data_length code_length : Z)
  : result LDPCCodec :=
  if negb ((data_length <? code_length) && (0 <? data_length)) then
    Err FSO_ERROR_INVALID_PARAM
  else
    let code_rate := Qmake data_length (Z.to_pos code_length) in
    bind (ldpc_init config_max_iterations code_length data_length) (fun ldpc =>
    match ldpc_generate_standard_matrix ldpc code_rate with
    | Ok ldpc =>
        match ldpc_generate_generator_matrix ldpc with
        | Ok ldpc => Ok ldpc
        | Err code => fec_init_ldpc_cleanup true false code
        | Fault => Fault
        end
    | Err code => fec_init_ldpc_cleanup false false code
    | Fault => Fault
    end).

(** [ldpc_encode]; bits travel one per byte. *)
Definition ldpc_encode (ldpc : LDPCCodec) (data : list Z) (encoded_len : Z)
  : result (list Z) :=
  if negb (Z.of_nat (length data) =? ldpc_k ldpc) then Err FSO_ERROR_INVALID_PARAM
  else if negb (ldpc_n ldpc <=? encoded_len) then Err FSO_ERROR_INVALID_PARAM
  else
    match row_ptr (ldpc_G ldpc) with
    | [] => Err FSO_ERROR_NOT_INITIALIZED
    | _ =>
        let G := ldpc_G ldpc in
        let encoded := repeat 0 (Z.to_nat encoded_len) in
        let encoded :=
          for_range 0 (ldpc_k ldpc)
            (fun i e => upd e i (Z.land (sel 0 data i) 1)) encoded in
        let encoded :=
          for_range 0 (ldpc_k ldpc)
            (fun i e =>
               if Z.land (sel 0 data i) 1 =? 1 then
                 for_range (sel 0 (row_ptr G) i) (sel 0 (row_ptr G) (i + 1))
                   (fun j e =>
                      let c := sel 0 (col_indices G) j in
                      if (ldpc_k ldpc <=? c) && (sel 0 (values G) j =? 1) then
                        upd e c (Z.lxor (sel 0 e c) 1)
                      else e)
                   e
               else e)
            encoded in
        Ok (firstn (Z.to_nat (ldpc_n ldpc)) encoded)
    end.

(** The syndrome computation of [ldpc_calculate_syndrome], on a word given
    explicitly: bit [r] is the XOR of the word's bits in the columns of row
    [r] of [H] (CSR form). *)
Definition syndrome_of (H : SparseMatrix) (m n : Z) (word : list Z) : list Z :=
  for_range 0 m
    (fun r syn =>
       let syndrome_bit :=
         for_range (sel 0 (row_ptr H) r) (sel 0 (row_ptr H) (r + 1))
           (fun j bit =>
              let c := sel 0 (col_indices H) j in
              if (c <? n) && (sel 0 (values H) j =? 1) then
                Z.lxor bit (sel 0 word c)
              else bit)
           0 in
       upd syn r syndrome_bit)
    (repeat 0 (Z.to_nat m)).

(** [ldpc_check_convergence] on a syndrome vector. *)
Definition syndrome_is_zero (m : Z) (syn : list Z) : bool :=
  forallb (fun s => s =? 0) (firstn (Z.to_nat m) syn).

(** ** LDPC codec: belief-propagation decoder (src/fec/ldpc.c)

    Log-likelihood ratios are [double]s run through [tanh], [log], [exp] and
    [atanh]; they are real numbers here. *)

Section LDPCDecoderDefs.
Local Open Scope R_scope.

(** The C library's [atanh]. *)
Definition atanh (x : R) : R := / 2 * ln ((1 + x) / (1 - x)).

(** The decoder's workspace inside [LDPCCodec]. It is zeroed by
    [ldpc_init] and keeps its contents from one call to the next. *)
Record LDPCWork : Type := mkWork {
  variable_to_check : list R;
  check_to_variable : list R;
  posterior_llr : list R;
  channel_llr : list R;
  decoded_bits : list Z;
  ldpc_syndrome : list Z
}.

Definition ldpc_init_work (n m : Z) : LDPCWork :=
  mkWork (repeat 0 (Z.to_nat (n * m))) (repeat 0 (Z.to_nat (n * m)))
         (repeat 0 (Z.to_nat n)) (repeat 0 (Z.to_nat n))
         (repeat 0%Z (Z.to_nat n)) (repeat 0%Z (Z.to_nat m)).

(** The two inline blocks of [ldpc_update_check_messages]: [phi] of one
    incoming magnitude, and the magnitude sent out for a sum of [phi]s. *)
Definition check_phi (abs_msg : R) : R :=
  if Rlt_dec abs_msg 1e-10 then 10.0
  else if Rgt_dec abs_msg 10.0 then exp (- abs_msg)
  else
    let tanh_val := tanh (abs_msg / 2.0) in
    if Rgt_dec tanh_val 1e-10 then - ln tanh_val else 10.0.

Definition check_magnitude (sum_phi : R) : R :=
  if Rlt_dec sum_phi 1e-10 then 10.0
  else if Rgt_dec sum_phi 10.0 then exp (- sum_phi)
  else
    let tanh_val := exp (- sum_phi) in
    if Rlt_dec tanh_val (1.0 - 1e-10) then 2.0 * atanh tanh_val else 10.0.

(** [ldpc_update_check_messages]. *)
Definition ldpc_update_check_messages (ldpc : LDPCCodec) (w : LDPCWork) : LDPCWork :=
  let n := ldpc_n ldpc in
  let m := ldpc_m ldpc in
  let c2v :=
    for_range 0 m
      (fun c c2v =>
         let degree := sel 0%Z (check_degree (graph ldpc)) c in
         if (degree =? 0)%Z then c2v
         else
           let connected_vars := sel [] (check_to_var_edges (graph ldpc)) c in
           for_range 0 degree
             (fun e c2v =>
                let v := sel 0%Z connected_vars e in
                if (n <=? v)%Z then c2v
                else
                  let '(product_sign, sum_phi) :=
                    for_range 0 degree
                      (fun e2 '(product_sign, sum_phi) =>
                         if (e2 =? e)%Z then (product_sign, sum_phi)
                         else
                           let v2 := sel 0%Z connected_vars e2 in
                           if (n <=? v2)%Z then (product_sign, sum_phi)
                           else
                             let msg_idx := (v2 * m + c)%Z in
                             if (n * m <=? msg_idx)%Z then (product_sign, sum_phi)
                             else
                               let msg := sel 0 (variable_to_check w) msg_idx in
                               let product_sign :=
                                 if Rlt_dec msg 0.0 then product_sign * -1.0
                                 else product_sign in
                               let abs_msg := Rabs msg in
                               (product_sign, sum_phi + check_phi abs_msg))
                      (1.0, 0.0) in
                  let msg_magnitude := check_magnitude sum_phi in
                  let msg_idx := (c * n + v)%Z in
                  if (msg_idx <? n * m)%Z then
                    upd c2v msg_idx (product_sign * msg_magnitude)
                  else c2v)
             c2v)
      (check_to_variable w) in
  mkWork (variable_to_check w) c2v (posterior_llr w) (channel_llr w)
         (decoded_bits w) (ldpc_syndrome w).

(** [ldpc_update_variable_messages]. *)
Definition ldpc_update_variable_messages (ldpc : LDPCCodec) (w : LDPCWork) : LDPCWork :=
  let n := ldpc_n ldpc in
  let m := ldpc_m ldpc in
  let v2c :=
    for_range 0 n
      (fun v v2c =>
         let degree := sel 0%Z (var_degree (graph ldpc)) v in
         if (degree =? 0)%Z then v2c
         else
           let connected_checks := sel [] (var_to_check_edges (graph ldpc)) v in
           for_range 0 degree
             (fun e v2c =>
                let c := sel 0%Z connected_checks e in
                if (m <=? c)%Z then v2c
                else
                  let msg_sum :=
                    for_range 0 degree
                      (fun e2 msg_sum =>
                         if (e2 =? e)%Z then msg_sum
                         else
                           let c2 := sel 0%Z connected_checks e2 in
                           if (m <=? c2)%Z then msg_sum
                           else
                             let msg_idx := (c2 * n + v)%Z in
                             if (msg_idx <? n * m)%Z then
                               msg_sum + sel 0 (check_to_variable w) msg_idx
                             else msg_sum)
                      (sel 0 (channel_llr w) v) in
                  let msg_idx := (v * m + e)%Z in
                  if (msg_idx <? n * m)%Z then upd v2c msg_idx msg_sum
                  else v2c)
             v2c)
      (variable_to_check w) in
  mkWork v2c (check_to_variable w) (posterior_llr w) (channel_llr w)
         (decoded_bits w) (ldpc_syndrome w).

(** [ldpc_update_posteriors]. *)
Definition ldpc_update_posteriors (ldpc : LDPCCodec) (w : LDPCWork) : LDPCWork :=
  let n := ldpc_n ldpc in
  let m := ldpc_m ldpc in
  let '(post, bits) :=
    for_range 0 n
      (fun v '(post, bits) =>
         let posterior := sel 0 (channel_llr w) v in
         let degree := sel 0%Z (var_degree (graph ldpc)) v in
         let posterior :=
           if (0 <? degree)%Z then
             let connected_checks := sel [] (var_to_check_edges (graph ldpc)) v in
             for_range 0 degree
               (fun e posterior =>
                  let c := sel 0%Z connected_checks e in
                  if (m <=? c)%Z then posterior
                  else
                    let msg_idx := (c * n + v)%Z in
                    if (msg_idx <? n * m)%Z then
                      posterior + sel 0 (check_to_variable w) msg_idx
                    else posterior)
               posterior
           else posterior in
         (upd post v posterior,
          upd bits v (if Rlt_dec posterior 0.0 then 1%Z else 0%Z)))
      (posterior_llr w, decoded_bits w) in
  mkWork (variable_to_check w) (check_to_variable w) post (channel_llr w)
         bits (ldpc_syndrome w).

(** [ldpc_calculate_syndrome]: through the CSR arrays of [H] when they
    exist, else element by element. *)
Definition ldpc_calculate_syndrome (ldpc : LDPCCodec) (w : LDPCWork) : LDPCWork :=
  let n := ldpc_n ldpc in
  let m := ldpc_m ldpc in
  let H := ldpc_H ldpc in
  let syn0 := repeat 0%Z (Z.to_nat m) in
  let syn :=
    match row_ptr H, col_indices H with
    | _ :: _, _ :: _ => syndrome_of H m n (decoded_bits w)
    | _, _ =>
        for_range 0 (nnz H)
          (fun i syn =>
             let e := sel elem0 (elements H) i in
             if ((row e <? m) && (col e <? n) && (value e =? 1))%Z then
               upd syn (row e)
                   (Z.lxor (sel 0%Z syn (row e)) (sel 0%Z (decoded_bits w) (col e)))
             else syn)
          syn0
    end in
  mkWork (variable_to_check w) (check_to_variable w) (posterior_llr w)
         (channel_llr w) (decoded_bits w) syn.

(** [ldpc_check_convergence]. *)
Definition ldpc_check_convergence (ldpc : LDPCCodec) (w : LDPCWork) : bool :=
  syndrome_is_zero (ldpc_m ldpc) (ldpc_syndrome w).

(** One round of the iteration loop of [ldpc_decode]. *)
Definition bp_iteration (ldpc : LDPCCodec) (w : LDPCWork) : LDPCWork :=
  let w := ldpc_update_check_messages ldpc w in
  let w := ldpc_update_variable_messages ldpc w in
  let w := ldpc_update_posteriors ldpc w in
  ldpc_calculate_syndrome ldpc w.

(** The loop [for (iteration = 0; iteration < max_iterations; iteration++)]
    with its [break] on convergence: the workspace it leaves and the final
    value of the local [converged]. *)
Fixpoint bp_loop (rounds : nat) (ldpc : LDPCCodec) (w : LDPCWork) : LDPCWork * bool :=
  match rounds with
  | O => (w, false)
  | S r =>
      let w := bp_iteration ldpc w in
      if ldpc_check_convergence ldpc w then (w, true)
      else bp_loop r ldpc w
  end.

(** The initialisation of [ldpc_decode] followed by the loop. *)
Definition bp_run (ldpc : LDPCCodec) (w : LDPCWork) (received : list Z)
  : LDPCWork * bool :=
  let n := ldpc_n ldpc in
  let m := ldpc_m ldpc in
  let hard_llr_magnitude := 10.0 in
  let llr :=
    for_range 0 n
      (fun i llr =>
         upd llr i (if (sel 0%Z received i =? 0)%Z then hard_llr_magnitude
                    else - hard_llr_magnitude))
      (channel_llr w) in
  let v2c :=
    for_range 0 n
      (fun v v2c =>
         for_range 0 (sel 0%Z (var_degree (graph ldpc)) v)
           (fun e v2c =>
              let edge_idx := (v * m + e)%Z in
              if (edge_idx <? n * m)%Z then upd v2c edge_idx (sel 0 llr v)
              else v2c)
           v2c)
      (variable_to_check w) in
  let c2v := map (fun _ => 0) (check_to_variable w) in
  bp_loop (Z.to_nat (max_iterations ldpc)) ldpc
          (mkWork v2c c2v (posterior_llr w) llr (decoded_bits w)
                  (ldpc_syndrome w)).

(** [ldpc_decode]: the return code, the [k] decoded bits, the value stored
    through [errors_corrected], and the workspace left behind. The local
    [converged] only selects a log message. *)
Definition ldpc_decode (ldpc : LDPCCodec) (w : LDPCWork) (received : list Z)
           (decoded_len : Z) : FSOErrorCode * list Z * Z * LDPCWork :=
  if negb (Z.of_nat (length received) =? ldpc_n ldpc)%Z then
    (FSO_ERROR_INVALID_PARAM, [], 0%Z, w)
  else if negb (ldpc_k ldpc <=? decoded_len)%Z then
    (FSO_ERROR_INVALID_PARAM, [], 0%Z, w)
  else
    let '(w, converged) := bp_run ldpc w received in
    let decoded :=
      for_range 0 (ldpc_k ldpc)
        (fun i d => upd d i (sel 0%Z (decoded_bits w) i mod 256)%Z)
        (repeat 0%Z (Z.to_nat decoded_len)) in
    let errors_corrected :=
      for_range 0 (ldpc_k ldpc)
        (fun i errors =>
           if negb (sel 0%Z decoded i =? sel 0%Z received i)%Z then (errors + 1)%Z
           else errors)
        0%Z in
    (FSO_SUCCESS, firstn (Z.to_nat (ldpc_k ldpc)) decoded, errors_corrected, w).

(** The LDPC branch of [fec_decode]: the statistics the caller sees. *)
Definition fec_decode_ldpc (ldpc : LDPCCodec) (w : LDPCWork) (received : list Z)
           (decoded_len : Z) : FSOErrorCode * list Z * FECStats :=
  let '(code, decoded, errors, _) := ldpc_decode ldpc w received decoded_len in
  (code, decoded,
   mkStats errors errors
           (match code with FSO_SUCCESS => false | _ => true end)).

End LDPCDecoderDefs.

(** ** Atmospheric channel (src/turbulence/channel.h, channel.c)

    The channel computes with [double] and the math library; it is modelled
    over the real numbers. *)

Section ChannelModelDefs.
Local Open Scope R_scope.

(** [FSO_PI] of fso.h. *)
Definition FSO_PI : R := 3.14159265358979323846.

(** The C library's [log10]. *)
Definition log10 (x : R) : R := ln x / ln 10.





(** [channel_calculate_scintillation_index]. *)
Definition channel_calculate_scintillation_index (rytov_variance : R) : R :=
  if Rlt_dec rytov_variance 0.3 then 4.0 * rytov_variance
  else
    let scint_index := exp (4.0 * rytov_variance) - 1.0 in
    if Rgt_dec scint_index 10.0 then 10.0 else scint_index.

(** [channel_calculate_path_loss]. *)
Definition channel_calculate_path_loss (distance wavelength : R) : R :=
  let ratio := (4.0 * FSO_PI * distance) / wavelength in
  let path_loss_db := 20.0 * log10 ratio in
  path_loss_db.








End ChannelModelDefs.

(** ** Modulation (src/modulation/modulation.h, ook.c, ppm.c, dpsk.c,
    modulation.c; complex helpers of src/utils/math_utils.c)

    Symbols are [double]s (OOK, PPM) or pairs of them (DPSK). The OOK
    threshold goes through [pow], DPSK through [cos], [sin] and [atan2]:
    symbols are real numbers. A symbol buffer that is filled front to back
    is a list that grows at its end. *)

Section ModulationDefs.
Local Open Scope R_scope.

(** [fso_db_to_linear]: [pow(10.0, db / 10.0)]. *)
Definition fso_db_to_linear (db_value : R) : R := Rpower 10.0 (db_value / 10.0).

(** *** OOK *)

(** [ook_modulate]. *)
Definition ook_modulate (data : list Z) : result (list R) :=
  let data_len := Z.of_nat (length data) in
  if negb (0 <? data_len)%Z then Err FSO_ERROR_INVALID_PARAM
  else
    Ok (for_range 0 data_len
          (fun byte_idx symbols =>
             let byte := sel 0%Z data byte_idx in
             for_down 7 0
               (fun bit_idx symbols =>
                  let bit := Z.land (Z.shiftr byte bit_idx) 1 in
                  symbols ++ [if (bit =? 0)%Z then 0.0 else 1.0])
               symbols)
          []).

(** [ook_calculate_threshold]. *)
Definition ook_calculate_threshold (snr : R) : R :=
  if Rge_dec snr 10.0 then 0.5
  else
    let snr_linear := fso_db_to_linear snr in
    let signal_power := 0.5 in
    let noise_variance := signal_power / snr_linear in
    let threshold := 0.5 + 0.1 * noise_variance in
    let threshold := if Rgt_dec threshold 0.7 then 0.7 else threshold in
    let threshold := if Rlt_dec threshold 0.3 then 0.3 else threshold in
    threshold.

(** [ook_demodulate]. *)
Definition ook_demodulate (symbols : list R) (snr : R) : result (list Z) :=
  let symbol_len := Z.of_nat (length symbols) in
  if negb (0 <? symbol_len)%Z then Err FSO_ERROR_INVALID_PARAM
  else if negb (Z.rem symbol_len 8 =? 0)%Z then Err FSO_ERROR_INVALID_PARAM
  else
    let threshold := ook_calculate_threshold snr in
    let num_bytes := Z.quot symbol_len 8 in
    let '(data, _) :=
      for_range 0 num_bytes
        (fun byte_idx '(data, symbol_idx) =>
           let '(byte, symbol_idx) :=
             for_down 7 0
               (fun bit_idx '(byte, symbol_idx) =>
                  let symbol := sel 0 symbols symbol_idx in
                  let byte :=
                    if Rge_dec symbol threshold
                    then Z.lor byte (Z.shiftl 1 bit_idx) else byte in
                  (byte, (symbol_idx + 1)%Z))
               (0%Z, symbol_idx) in
           (data ++ [byte], symbol_idx))
        ([], 0%Z) in
    Ok data.

(** *** PPM *)

Definition ppm_bits_per_symbol (ppm_order : Z) : Z :=
  if (ppm_order =? 2)%Z then 1
  else if (ppm_order =? 4)%Z then 2
  else if (ppm_order =? 8)%Z then 3
  else if (ppm_order =? 16)%Z then 4
  else (-1).

Definition ppm_order_ok (ppm_order : Z) : bool :=
  ((ppm_order =? 2) || (ppm_order =? 4) || (ppm_order =? 8)
   || (ppm_order =? 16))%Z.

(** [extract_bits]. Every round of the [while] loop takes at least one
    bit, so [num_bits] rounds of fuel suffice. Values kept in [uint8_t]
    variables are reduced modulo 256. *)
Fixpoint extract_bits_loop (fuel : nat) (data : list Z)
         (byte_idx bit_in_byte res bits_extracted num_bits : Z) : Z :=
  match fuel with
  | O => res
  | S f =>
      if (bits_extracted <? num_bits)%Z then
        let bits_available := (8 - bit_in_byte)%Z in
        let bits_to_extract :=
          FSO_MIN (num_bits - bits_extracted) bits_available in
        let mask := ((Z.shiftl 1 bits_to_extract - 1) mod 256)%Z in
        let bits :=
          Z.land (Z.shiftr (sel 0%Z data byte_idx)
                           (bits_available - bits_to_extract)) mask in
        let res := (Z.lor (Z.shiftl res bits_to_extract) bits mod 256)%Z in
        extract_bits_loop f data (byte_idx + 1)%Z 0%Z res
                          (bits_extracted + bits_to_extract)%Z num_bits
      else res
  end.

Definition extract_bits (data : list Z) (bit_offset num_bits : Z) : Z :=
  extract_bits_loop (Z.to_nat num_bits) data (Z.quot bit_offset 8)
                    (Z.rem bit_offset 8) 0 0 num_bits.

(** [insert_bits]. *)
Fixpoint insert_bits_loop (fuel : nat) (data : list Z)
         (byte_idx bit_in_byte bits bits_inserted num_bits : Z) : list Z :=
  match fuel with
  | O => data
  | S f =>
      if (bits_inserted <? num_bits)%Z then
        let bits_available := (8 - bit_in_byte)%Z in
        let bits_to_insert :=
          FSO_MIN (num_bits - bits_inserted) bits_available in
        let mask := ((Z.shiftl 1 bits_to_insert - 1) mod 256)%Z in
        let bits_value :=
          Z.land (Z.shiftr bits (num_bits - bits_inserted - bits_to_insert))
                 mask in
        let clear_mask :=
          (Z.lnot (Z.shiftl mask (bits_available - bits_to_insert)) mod 256)%Z in
        let data := upd data byte_idx (Z.land (sel 0%Z data byte_idx) clear_mask) in
        let data :=
          upd data byte_idx
              (Z.lor (sel 0%Z data byte_idx)
                     (Z.shiftl bits_value (bits_available - bits_to_insert))
               mod 256)%Z in
        insert_bits_loop f data (byte_idx + 1)%Z 0%Z bits
                         (bits_inserted + bits_to_insert)%Z num_bits
      else data
  end.

Definition insert_bits (data : list Z) (bit_offset bits num_bits : Z) : list Z :=
  insert_bits_loop (Z.to_nat num_bits) data (Z.quot bit_offset 8)
                   (Z.rem bit_offset 8) bits 0 num_bits.

(** [ppm_modulate]. *)
Definition ppm_modulate (data : list Z) (ppm_order : Z) : result (list R) :=
  let data_len := Z.of_nat (length data) in
  if negb (0 <? data_len)%Z then Err FSO_ERROR_INVALID_PARAM
  else if negb (ppm_order_ok ppm_order) then Err FSO_ERROR_INVALID_PARAM
  else
    let bits_per_sym := ppm_bits_per_symbol ppm_order in
    let total_bits := (data_len * 8)%Z in
    let num_symbols := Z.quot (total_bits + bits_per_sym - 1) bits_per_sym in
    let total_slots := (num_symbols * ppm_order)%Z in
    let symbols := repeat 0.0 (Z.to_nat total_slots) in
    let '(symbols, _, _) :=
      for_range 0 num_symbols
        (fun sym_idx '(symbols, bit_offset, slot_offset) =>
           let bits :=
             if (bit_offset + bits_per_sym <=? total_bits)%Z then
               extract_bits data bit_offset bits_per_sym
             else
               let remaining_bits := (total_bits - bit_offset)%Z in
               if (0 <? remaining_bits)%Z then
                 (Z.shiftl (extract_bits data bit_offset remaining_bits)
                           (bits_per_sym - remaining_bits) mod 256)%Z
               else 0%Z in
           let pulse_slot := bits in
           (upd symbols (slot_offset + pulse_slot) 1.0,
            (bit_offset + bits_per_sym)%Z, (slot_offset + ppm_order)%Z))
        (symbols, 0%Z, 0%Z) in
    Ok symbols.

(** [ppm_demodulate]. *)
Definition ppm_demodulate (symbols : list R) (ppm_order : Z) : result (list Z) :=
  let symbol_len := Z.of_nat (length symbols) in
  if negb (0 <? symbol_len)%Z then Err FSO_ERROR_INVALID_PARAM
  else if negb (Z.rem symbol_len ppm_order =? 0)%Z then Err FSO_ERROR_INVALID_PARAM
  else if negb (ppm_order_ok ppm_order) then Err FSO_ERROR_INVALID_PARAM
  else
    let bits_per_sym := ppm_bits_per_symbol ppm_order in
    let num_symbols := Z.quot symbol_len ppm_order in
    let total_bits := (num_symbols * bits_per_sym)%Z in
    let num_bytes := Z.quot (total_bits + 7) 8 in
    let data := repeat 0%Z (Z.to_nat num_bytes) in
    let '(data, _, _) :=
      for_range 0 num_symbols
        (fun sym_idx '(data, bit_offset, slot_offset) =>
           let '(max_slot, _) :=
             for_range 1 ppm_order
               (fun slot '(max_slot, max_value) =>
                  if Rgt_dec (sel 0 symbols (slot_offset + slot)) max_value
                  then (slot, sel 0 symbols (slot_offset + slot))
                  else (max_slot, max_value))
               (0%Z, sel 0 symbols slot_offset) in
           let bits := (max_slot mod 256)%Z in
           let data :=
             if (bit_offset + bits_per_sym <=? total_bits)%Z then
               insert_bits data bit_offset bits bits_per_sym
             else
               let remaining_bits := (total_bits - bit_offset)%Z in
               if (0 <? remaining_bits)%Z then
                 insert_bits data bit_offset
                             (Z.shiftr bits (bits_per_sym - remaining_bits))
                             remaining_bits
               else data in
           (data, (bit_offset + bits_per_sym)%Z, (slot_offset + ppm_order)%Z))
        (data, 0%Z, 0%Z) in
    Ok data.

(** *** DPSK *)

Record ComplexSample : Type := mkComplex {
  real : R;
  imag : R
}.

Definition fso_complex_mul (a b : ComplexSample) : ComplexSample :=
  mkComplex (real a * real b - imag a * imag b)
            (real a * imag b + imag a * real b).

Definition fso_complex_conjugate (c : ComplexSample) : ComplexSample :=
  mkComplex (real c) (- imag c).

Definition fso_complex_from_polar (magnitude phase : R) : ComplexSample :=
  mkComplex (magnitude * cos phase) (magnitude * sin phase).

(** The C library's [atan2]. *)
Definition atan2 (y x : R) : R :=
  if Rlt_dec 0 x then atan (y / x)
  else if Rlt_dec x 0 then
    if Rle_dec 0 y then atan (y / x) + PI else atan (y / x) - PI
  else if Rlt_dec 0 y then PI / 2
  else if Rlt_dec y 0 then - (PI / 2)
  else 0.

Definition fso_complex_phase (c : ComplexSample) : R := atan2 (imag c) (real c).

Record DPSKState : Type := mkDPSK {
  last_phase : R;
  dpsk_initialized : Z
}.

(** The two phase-wrapping [while] loops of [dpsk_modulate], run for at
    most [fuel] rounds each. *)
Fixpoint wrap_above (fuel : nat) (phase : R) : R :=
  match fuel with
  | O => phase
  | S f =>
      if Rgt_dec phase FSO_PI then wrap_above f (phase - 2.0 * FSO_PI)
      else phase
  end.

Fixpoint wrap_below (fuel : nat) (phase : R) : R :=
  match fuel with
  | O => phase
  | S f =>
      if Rlt_dec phase (- FSO_PI) then wrap_below f (phase + 2.0 * FSO_PI)
      else phase
  end.

(** [dpsk_modulate]: the symbols and the state left behind. *)
Definition dpsk_modulate (fuel : nat) (data : list Z) (state : DPSKState)
  : result (list ComplexSample * DPSKState) :=
  let data_len := Z.of_nat (length data) in
  if negb (0 <? data_len)%Z then Err FSO_ERROR_INVALID_PARAM
  else
    let current_phase :=
      if (dpsk_initialized state =? 0)%Z then 0.0 else last_phase state in
    let '(symbols, current_phase) :=
      for_range 0 data_len
        (fun byte_idx st =>
           let byte := sel 0%Z data byte_idx in
           for_down 7 0
             (fun bit_idx '(symbols, current_phase) =>
                let bit := Z.land (Z.shiftr byte bit_idx) 1 in
                let phase_change := if (bit =? 0)%Z then 0.0 else FSO_PI in
                let current_phase := current_phase + phase_change in
                let current_phase := wrap_above fuel current_phase in
                let current_phase := wrap_below fuel current_phase in
                (symbols ++ [fso_complex_from_polar 1.0 current_phase],
                 current_phase))
             st)
        ([], current_phase) in
    Ok (symbols, mkDPSK current_phase 1).

(** [dpsk_demodulate]: the bytes and the state left behind. *)
Definition dpsk_demodulate (symbols : list ComplexSample) (state : DPSKState)
  : result (list Z * DPSKState) :=
  let symbol_len := Z.of_nat (length symbols) in
  if negb (0 <? symbol_len)%Z then Err FSO_ERROR_INVALID_PARAM
  else if negb (Z.rem symbol_len 8 =? 0)%Z then Err FSO_ERROR_INVALID_PARAM
  else
    let num_bytes := Z.quot symbol_len 8 in
    let prev_symbol :=
      if (dpsk_initialized state =? 0)%Z then fso_complex_from_polar 1.0 0.0
      else fso_complex_from_polar 1.0 (last_phase state) in
    let '(data, prev_symbol, _) :=
      for_range 0 num_bytes
        (fun byte_idx '(data, prev_symbol, symbol_idx) =>
           let '(byte, prev_symbol, symbol_idx) :=
             for_down 7 0
               (fun bit_idx '(byte, prev_symbol, symbol_idx) =>
                  let current_symbol :=
                    sel (mkComplex 0 0) symbols symbol_idx in
                  let diff :=
                    fso_complex_mul current_symbol
                                    (fso_complex_conjugate prev_symbol) in
                  let byte :=
                    if Rlt_dec (real diff) 0.0
                    then Z.lor byte (Z.shiftl 1 bit_idx) else byte in
                  (byte, current_symbol, (symbol_idx + 1)%Z))
               (0%Z, prev_symbol, symbol_idx) in
           (data ++ [byte], prev_symbol, symbol_idx))
        ([], prev_symbol, 0%Z) in
    Ok (data, mkDPSK (fso_complex_phase prev_symbol) 1).

(** *** The [Modulator] front end *)

Inductive ModulationType : Set := MOD_OOK | MOD_PPM | MOD_DPSK.

Record Modulator : Type := mkModulator {
  mod_type : ModulationType;
  bits_per_symbol : Z;
  ppm_order : Z;
  dpsk_state : DPSKState;
  mod_initialized : Z
}.

(** [modulate] and [demodulate]: the dispatch on the modulator type. *)
Definition modulate (modulator : Modulator) (data : list Z) : result (list R) :=
  if (mod_initialized modulator =? 0)%Z then Err FSO_ERROR_INVALID_PARAM
  else if negb (0 <? Z.of_nat (length data))%Z then Err FSO_ERROR_INVALID_PARAM
  else
    match mod_type modulator with
    | MOD_OOK => ook_modulate data
    | MOD_PPM => ppm_modulate data (ppm_order modulator)
    | MOD_DPSK => Err FSO_ERROR_UNSUPPORTED
    end.

Definition demodulate (modulator : Modulator) (symbols : list R) (snr : R)
  : result (list Z) :=
  if (mod_initialized modulator =? 0)%Z then Err FSO_ERROR_INVALID_PARAM
  else if negb (0 <? Z.of_nat (length symbols))%Z then Err FSO_ERROR_INVALID_PARAM
  else
    match mod_type modulator with
    | MOD_OOK => ook_demodulate symbols snr
    | MOD_PPM => ppm_demodulate symbols (ppm_order modulator)
    | MOD_DPSK => Err FSO_ERROR_UNSUPPORTED
    end.

End ModulationDefs.

(** ** Beam tracker: misalignment detection
    (src/beam_tracking/beam_tracking.h, misalignment.c)

    Signal strengths and thresholds are only stored and compared; they are
    rationals here. The signal map, the PID controller and the
    gradient-descent state of [BeamTracker] are not touched by the functions
    below and are left out of the record. *)

Record BeamTracker : Type := mkTracker {
  azimuth : Q;
  elevation : Q;
  signal_strength : Q;
  signal_threshold : Q;
  misaligned : Z;
  reacquisition_mode : Z
}.

(** [beam_track_set_threshold]. *)
Definition beam_track_set_threshold (tracker : BeamTracker) (threshold : Q)
  : FSOErrorCode * BeamTracker :=
  if Qlt_le_dec threshold 0 then (FSO_ERROR_INVALID_PARAM, tracker)
  else if Qlt_le_dec 1 threshold then (FSO_ERROR_INVALID_PARAM, tracker)
  else
    (FSO_SUCCESS,
     mkTracker (azimuth tracker) (elevation tracker) (signal_strength tracker)
               threshold (misaligned tracker) (reacquisition_mode tracker)).

(** [beam_track_check_misalignment]: the tracker after the call, and the
    value returned. *)
Definition beam_track_check_misalignment (tracker : BeamTracker)
           (measured_strength : Q) : BeamTracker * Z :=
  if Qlt_le_dec measured_strength 0 then (tracker, 0)
  else
    let tracker :=
      mkTracker (azimuth tracker) (elevation tracker) measured_strength
                (signal_threshold tracker) (misaligned tracker)
                (reacquisition_mode tracker) in
    if Qlt_le_dec measured_strength (signal_threshold tracker) then
      if misaligned tracker =? 0 then
        (mkTracker (azimuth tracker) (elevation tracker)
                   (signal_strength tracker) (signal_threshold tracker)
                   1 (reacquisition_mode tracker), 1)
      else (tracker, 1)
    else
      if negb (misaligned tracker =? 0) then
        (mkTracker (azimuth tracker) (elevation tracker)
                   (signal_strength tracker) (signal_threshold tracker)
                   0 (reacquisition_mode tracker), 0)
      else (tracker, 0).

(** ** Block interleaver (src/fec/fec.h, fec.c) *)

(** [InterleaverConfig]; the permutation table is never allocated. *)
Record InterleaverConfig : Type := mkInterleaver {
  block_size : Z;
  depth : Z
}.

(** [interleaver_init]. *)
Definition interleaver_init (block_size depth : Z) : result InterleaverConfig :=
  if negb (0 <? block_size) then Err FSO_ERROR_INVALID_PARAM
  else if negb (0 <? depth) then Err FSO_ERROR_INVALID_PARAM
  else Ok (mkInterleaver block_size depth).

(** [interleave]: [input] holds the [input_len] bytes to interleave,
    [output] is the caller's buffer of [output_len] bytes; the buffer is
    returned as the function leaves it. *)
Definition interleave (config : InterleaverConfig) (input output : list Z)
  : result (list Z) :=
  let input_len := Z.of_nat (length input) in
  let output_len := Z.of_nat (length output) in
  if negb (0 <? block_size config) then Err FSO_ERROR_INVALID_PARAM
  else if negb (0 <? depth config) then Err FSO_ERROR_INVALID_PARAM
  else if negb (input_len <=? output_len) then Err FSO_ERROR_INVALID_PARAM
  else
    let total_size := block_size config * depth config in
    let full_blocks := Z.quot input_len total_size in
    let remaining := Z.rem input_len total_size in
    let '(output, out_idx, in_idx) :=
      for_range 0 full_blocks
        (fun block '(output, out_idx, in_idx) =>
           let '(output, out_idx) :=
             for_range 0 (block_size config)
               (fun col st =>
                  for_range 0 (depth config)
                    (fun row '(output, out_idx) =>
                       let src_idx := in_idx + row * block_size config + col in
                       (upd output out_idx (sel 0 input src_idx), out_idx + 1))
                    st)
               (output, out_idx) in
           (output, out_idx, in_idx + total_size))
        (output, 0, 0) in
    let output :=
      if 0 <? remaining then
        fst (for_range 0 remaining
               (fun i '(output, out_idx) =>
                  (upd output out_idx (sel 0 input (in_idx + i)), out_idx + 1))
               (output, out_idx))
      else output in
    Ok output.

(** [deinterleave]. *)
Definition deinterleave (config : InterleaverConfig) (input output : list Z)
  : result (list Z) :=
  let input_len := Z.of_nat (length input) in
  let output_len := Z.of_nat (length output) in
  if negb (0 <? block_size config) then Err FSO_ERROR_INVALID_PARAM
  else if negb (0 <? depth config) then Err FSO_ERROR_INVALID_PARAM
  else if negb (input_len <=? output_len) then Err FSO_ERROR_INVALID_PARAM
  else
    let total_size := block_size config * depth config in
    let full_blocks := Z.quot input_len total_size in
    let remaining := Z.rem input_len total_size in
    let '(output, in_idx, out_idx) :=
      for_range 0 full_blocks
        (fun block '(output, in_idx, out_idx) =>
           let '(output, in_idx) :=
             for_range 0 (block_size config)
               (fun col st =>
                  for_range 0 (depth config)
                    (fun row '(output, in_idx) =>
                       let dst_idx := out_idx + row * block_size config + col in
                       (upd output dst_idx (sel 0 input in_idx), in_idx + 1))
                    st)
               (output, in_idx) in
           (output, in_idx, out_idx + total_size))
        (output, 0, 0) in
    let output :=
      if 0 <? remaining then
        fst (for_range 0 remaining
               (fun i '(output, in_idx) =>
                  (upd output (out_idx + i) (sel 0 input in_idx), in_idx + 1))
               (output, in_idx))
      else output in
    Ok output.

(** Where byte [j] of a run of full blocks is taken from by [interleave]
    and put by [deinterleave]: [j = block * T + col * depth + row] goes with
    [block * T + row * block_size + col]. *)
Definition interleave_index (block_size depth j : Z) : Z :=
  let T := block_size * depth in
  (j / T) * T + ((j mod T) mod depth) * block_size + (j mod T) / depth.

(** ** Sparse-matrix access and hard/soft conversion (src/fec/ldpc.c) *)

(** [sparse_matrix_set]. The search loop leaves at the first stored element
    with the given position; [found] holds its index. Otherwise the
    elements from the insertion point on are moved up by one cell with
    [memmove] and the new element is written; cell [nnz] and above exist
    only if the array was allocated with more than [nnz] cells, so these
    writes are checked against the length of [elements]. The count [nnz] is
    left as it is. *)
Definition sparse_matrix_set (matrix : SparseMatrix) (r c v : Z)
  : result SparseMatrix :=
  if negb ((0 <=? r) && (r <? rows matrix)) then Err FSO_ERROR_INVALID_PARAM
  else if negb ((0 <=? c) && (c <? cols matrix)) then Err FSO_ERROR_INVALID_PARAM
  else
    let es := elements matrix in
    let '(found, insert_idx) :=
      for_range 0 (nnz matrix)
        (fun i '(found, insert_idx) =>
           match found with
           | Some _ => (found, insert_idx)
           | None =>
               let e := sel elem0 es i in
               if (row e =? r) && (col e =? c) then (Some i, insert_idx)
               else if (row e <? r) || ((row e =? r) && (col e <? c)) then
                 (None, i + 1)
               else (None, insert_idx)
           end)
        (None, 0) in
    match found with
    | Some i =>
        let e := sel elem0 es i in
        Ok (set_elements matrix (upd es i (mkElem (row e) (col e) v))
                         (nnz matrix))
    | None =>
        bind
          (if insert_idx <? nnz matrix then
             if nnz matrix <? Z.of_nat (length es) then
               Ok (for_range insert_idx (nnz matrix)
                     (fun j es' => upd es' (j + 1) (sel elem0 es j)) es)
             else Fault
           else Ok es)
          (fun es =>
             if insert_idx <? Z.of_nat (length es) then
               Ok (set_elements matrix (upd es insert_idx (mkElem r c v))
                                (nnz matrix))
             else Fault)
    end.

(** [sparse_matrix_get]. *)
Definition sparse_matrix_get (matrix : SparseMatrix) (r c : Z) : Z :=
  if (r <? 0) || (rows matrix <=? r) || (c <? 0) || (cols matrix <=? c) then 0
  else
    match
      for_range 0 (nnz matrix)
        (fun i found =>
           match found with
           | Some _ => found
           | None =>
               let e := sel elem0 (elements matrix) i in
               if (row e =? r) && (col e =? c) then Some (value e) else None
           end)
        None
    with
    | Some v => v
    | None => 0
    end.

Section LDPCSoftHardDefs.
Local Open Scope R_scope.

(** [ldpc_soft_to_hard]: [llr] holds the [length] values to convert,
    [bits] is the caller's buffer, which has to hold as many cells. *)
Definition ldpc_soft_to_hard (llr : list R) (bits : list Z) : result (list Z) :=
  if (Z.of_nat (length bits) <? Z.of_nat (length llr))%Z then Fault
  else
    Ok (for_range 0 (Z.of_nat (length llr))
          (fun i bits =>
             upd bits i (if Rlt_dec (sel 0 llr i) 0.0 then 1%Z else 0%Z))
          bits).

(** [ldpc_hard_to_soft]. *)
Definition ldpc_hard_to_soft (bits : list Z) (llr : list R) (snr_db : R)
  : result (list R) :=
  if Rgt_dec snr_db 0.0 then
    if (Z.of_nat (length llr) <? Z.of_nat (length bits))%Z then Fault
    else
      let snr_linear := fso_db_to_linear snr_db in
      let llr_magnitude := 2.0 * snr_linear in
      Ok (for_range 0 (Z.of_nat (length bits))
            (fun i llr =>
               upd llr i (if (sel 0%Z bits i =? 0)%Z then llr_magnitude
                          else - llr_magnitude))
            llr)
  else Err FSO_ERROR_INVALID_PARAM.

End LDPCSoftHardDefs.

(** ** Channel losses (src/turbulence/channel.c) *)

Section ChannelLossDefs.
Local Open Scope R_scope.

(** [calculate_fog_attenuation] (Kim model), in dB/km. [Rpower] stands for
    [pow] on a positive base, that is for a positive wavelength, the only
    ones [channel_validate_params] lets through; for a base that is zero
    or negative [pow] gives an infinity or a NaN and [Rpower] does not
    follow it. *)
Definition calculate_fog_attenuation (visibility wavelength : R) : R :=
  let V_km := visibility / 1000.0 in
  let V_km := if Rlt_dec V_km 0.01 then 0.01 else V_km in
  let lambda_nm := wavelength * 1e9 in
  let q := 1.3 in
  let wavelength_factor := Rpower (lambda_nm / 550.0) (- q) in
  let attenuation := (3.91 / V_km) * wavelength_factor in
  attenuation.

(** [channel_calculate_geometric_loss]. *)
Definition channel_calculate_geometric_loss
           (distance divergence receiver_aperture : R) : R :=
  let beam_radius := divergence * distance in
  let receiver_radius := receiver_aperture / 2.0 in
  if Rle_dec beam_radius receiver_radius then 0.0
  else
    let ratio := beam_radius / receiver_radius in
    let geometric_loss_db := 20.0 * log10 ratio in
    geometric_loss_db.

End ChannelLossDefs.

(* ================================================================== *)
(** * Part I, continued: notions the properties are stated with        *)
(* ================================================================== *)

(** ** Galois field: multiplication by alpha and its iterates *)

Definition mulx (m poly x : Z) : Z := gf_mul_no_table x 2 poly (Z.shiftl 1 m).

(** Powers of alpha, started anywhere. *)
Fixpoint pow_from (m poly x : Z) (i : nat) : Z :=
  match i with
  | O => x
  | S j => mulx m poly (pow_from m poly x j)
  end.

(** ** Reed-Solomon *)

(** The scenario codec of the specification, RS(255, 223) over GF(2^8), and
    a small one, RS(7, 3) over GF(2^3); both with [fcr = 1]. *)
Definition rs_255_223 : result RSCodec :=
  rs_init (mkRSConfig 8 32 1 0x11d 1) 255 223.

Definition rs_7_3 : result RSCodec :=
  rs_init (mkRSConfig 3 4 1 0xb 1) 7 3.

(** The round trip through encoder and decoder, for one codec, one
    information vector and one error pattern. *)
Definition rs_round_trip (rs : RSCodec) (u e : list Z) : Prop :=
  exists c stats,
    rs_encode rs u (rs_n rs) = Ok c /\
    rs_decode rs (xor_words c e) = Ok (u, stats) /\
    errors_corrected stats = weight e.

(** ** Beam tracker *)

(** The tracker of the repository's unit test: threshold 0.5, aligned. *)
Definition tracker_aligned : BeamTracker :=
  mkTracker 0 0 0 (1 # 2) 0 0.

(** ** LDPC *)

(** The codec [fec_init] builds, or an empty one when it refuses. *)
Definition ldpc_codec (max_iter k n : Z) : LDPCCodec :=
  match fec_init_ldpc max_iter k n with
  | Ok l => l
  | _ => mkLDPC 0 0 0 null_matrix null_matrix 0 (mkGraph [] [] [] [])
  end.

(** All bit vectors of a given length. *)
Fixpoint all_words (k : nat) : list (list Z) :=
  match k with
  | O => [[]]
  | S j => flat_map (fun w => [0 :: w; 1 :: w]) (all_words j)
  end.

(** [H * encode(u) = 0], with the code's own syndrome computation. *)
Definition encodes_to_code_word (ldpc : LDPCCodec) (u : list Z) : bool :=
  match ldpc_encode ldpc u (ldpc_n ldpc) with
  | Ok c =>
      syndrome_is_zero (ldpc_m ldpc)
        (syndrome_of (ldpc_H ldpc) (ldpc_m ldpc) (ldpc_n ldpc) c)
  | _ => false
  end.

(** Positions below [k] at which two words differ. *)
Definition disagreements (k : Z) (a b : list Z) : Z :=
  Z.of_nat
    (length (filter (fun i => negb (sel 0 a i =? sel 0 b i))
                    (map Z.of_nat (seq 0 (Z.to_nat k))))).

(** The codec: [H] is the all-ones 2 x 4 matrix. *)
Definition ldpc_4_2 : LDPCCodec := ldpc_codec 1 2 4.

(** ** Modulation *)

(** Bit [i] of a byte sequence, most significant bit of byte 0 first. *)
Definition data_bit (data : list Z) (i : Z) : Z :=
  Z.land (Z.shiftr (sel 0 data (i / 8)) (7 - i mod 8)) 1.

(** The byte a demodulator assembles from eight decisions. *)
Definition assemble (decision : Z -> bool) : Z :=
  for_down 7 0
    (fun bit_idx byte =>
       if decision bit_idx then Z.lor byte (Z.shiftl 1 bit_idx) else byte)
    0.

(** The bytes assembled from a sequence of decisions, eight per byte. *)
Definition bytes_of_decisions (decision : Z -> bool) (num_bytes : Z) : list Z :=
  map (fun j => assemble (fun bit_idx => decision (8 * j + (7 - bit_idx))))
      (map Z.of_nat (seq 0 (Z.to_nat num_bytes))).

Definition bytes (data : list Z) : Prop := Forall (fun b => 0 <= b < 256) data.

Definition ook_symbol (bit : Z) : R := if bit =? 0 then 0.0%R else 1.0%R.

(** The decision of the OOK receiver on symbol [i]. *)
Definition ook_decision (symbols : list R) (threshold : R) (i : Z) : bool :=
  if Rge_dec (sel 0%R symbols i) threshold then true else false.

(** One bit of [dpsk_modulate]: add the phase change, wrap. *)
Definition dpsk_step (fuel : nat) (phase : R) (bit : Z) : R :=
  wrap_below fuel
    (wrap_above fuel (phase + (if bit =? 0 then 0.0 else FSO_PI))%R).

(** The transmitter phase after [n] bits of [data], starting from [phi0]. *)
Fixpoint dpsk_phase (fuel : nat) (data : list Z) (phi0 : R) (n : nat) : R :=
  match n with
  | O => phi0
  | S k => dpsk_step fuel (dpsk_phase fuel data phi0 k) (data_bit data (Z.of_nat k))
  end.

(** The phase a DPSK state makes the next call start from. *)
Definition dpsk_reference (state : DPSKState) : R :=
  if dpsk_initialized state =? 0 then 0.0%R else last_phase state.

(** The symbol the receiver compares symbol [i] with. *)
Definition dpsk_previous (symbols : list ComplexSample) (ref : ComplexSample)
           (i : Z) : ComplexSample :=
  if i =? 0 then ref else sel (mkComplex 0 0) symbols (i - 1).

(** The decision of the DPSK receiver on symbol [i]. *)
Definition dpsk_decision (symbols : list ComplexSample) (ref : ComplexSample)
           (i : Z) : bool :=
  if Rlt_dec
       (real (fso_complex_mul (sel (mkComplex 0 0) symbols i)
                (fso_complex_conjugate (dpsk_previous symbols ref i))))
       0.0%R
  then true else false.

(** The byte [x] with all but its [r] most significant bits cleared. *)
Definition keep_top (r x : Z) : Z :=
  if r <=? 0 then 0
  else if 8 <=? r then x
  else Z.shiftl (Z.shiftr x (8 - r)) (8 - r).

(** The byte sequence [data] with every bit from bit offset [p] on cleared:
    what the PPM receiver has written once [p] bits are in place. *)
Definition clear_from (data : list Z) (p : Z) : list Z :=
  firstn (Z.to_nat (p / 8)) data ++
  match skipn (Z.to_nat (p / 8)) data with
  | [] => []
  | x :: post => keep_top (p mod 8) x :: map (fun _ => 0) post
  end.

Fixpoint list_eqb (l1 l2 : list Z) : bool :=
  match l1, l2 with
  | [], [] => true
  | x :: r1, y :: r2 => (x =? y) && list_eqb r1 r2
  | _, _ => false
  end.

(** Reading [nb] bits at bit [r] of a window and writing them into the
    window cleared from [r] on gives the window cleared from [r + nb] on. *)
Definition window_ok (w : list Z) (r nb : Z) : bool :=
  let c := extract_bits_loop (Z.to_nat nb) w 0 r 0 0 nb in
  (0 <=? c) && (c <? 2 ^ nb) &&
  list_eqb (insert_bits_loop (Z.to_nat nb) (clear_from w r) 0 r c 0 nb)
           (clear_from w (r + nb)).

Definition byte_values : list Z := map Z.of_nat (seq 0 256).

(** The slot of symbol [j]: the next [bits_per_sym] bits of the data. *)
Definition ppm_pulse_slot (data : list Z) (bits_per_sym j : Z) : Z :=
  extract_bits data (j * bits_per_sym) bits_per_sym.

(** The orders the code accepts, with their bits per symbol. *)
Definition ppm_order_bits (ppm_order bits_per_sym : Z) : Prop :=
  (ppm_order = 2 /\ bits_per_sym = 1) \/ (ppm_order = 4 /\ bits_per_sym = 2) \/
  (ppm_order = 8 /\ bits_per_sym = 3) \/ (ppm_order = 16 /\ bits_per_sym = 4).

(** ** Real-valued scenarios *)

Section RealScenarios.
Local Open Scope R_scope.

(** [phi] of a full-strength message and the magnitude a check of degree
  four sends back when its three other inputs are at full strength. *)
Definition phi_10 : R := check_phi 10.0.

Definition mag_3 : R := check_magnitude (0.0 + phi_10 + phi_10 + phi_10).

(** The workspace after the initialisation of [ldpc_decode] for the
  received word [1 0 0 0]. *)
Definition work_4_2 : LDPCWork :=
mkWork [- (10.0); - (10.0); 10.0; 10.0; 10.0; 10.0; 10.0; 10.0]
       [0; 0; 0; 0; 0; 0; 0; 0]
       [0; 0; 0; 0]
       [- (10.0); 10.0; 10.0; 10.0]
       [0; 0; 0; 0]%Z [0; 0]%Z.

End RealScenarios.

(** ** Sparse matrices *)

(** A small matrix whose elements are stored out of order. *)
Definition matrix_2_3 : SparseMatrix :=
  mkSparse 2 3 3 [mkElem 1 2 1; mkElem 0 1 1; mkElem 1 0 1]
           [0; 0; 0] [0; 0; 0] [0; 0; 0].

(* ================================================================== *)
(** * Part II: properties                                              *)
(* ================================================================== *)

(** ** Arrays and loops *)

Lemma length_set_nth {A : Type} (n : nat) (v : A) (l : list A) :
  length (set_nth n v l) = length l.
Proof.
  revert n; induction l as [|x r IH]; intros [|n]; simpl; auto.
Qed.

Lemma length_upd {A : Type} (l : list A) (i : Z) (v : A) :
  length (upd l i v) = length l.
Proof.
  unfold upd; destruct (i <? 0); auto using length_set_nth.
Qed.

Lemma nth_set_nth_same {A : Type} (d : A) (n : nat) (v : A) (l : list A) :
  (n < length l)%nat -> nth n (set_nth n v l) d = v.
Proof.
  revert n; induction l as [|x r IH]; intros [|n] H; simpl in *; try lia; auto.
  apply IH; lia.
Qed.

Lemma nth_set_nth_other {A : Type} (d : A) (n p : nat) (v : A) (l : list A) :
  n <> p -> nth p (set_nth n v l) d = nth p l d.
Proof.
  revert n p; induction l as [|x r IH]; intros [|n] [|p] H; simpl; auto; try lia.
Qed.

Lemma sel_upd_same {A : Type} (d : A) (l : list A) (i : Z) (v : A) :
  0 <= i < Z.of_nat (length l) -> sel d (upd l i v) i = v.
Proof.
  intros H; unfold sel, upd.
  destruct (Z.ltb_spec i 0); [lia|].
  apply nth_set_nth_same; lia.
Qed.

Lemma sel_upd_other {A : Type} (d : A) (l : list A) (i j : Z) (v : A) :
  0 <= j -> i <> j -> sel d (upd l i v) j = sel d l j.
Proof.
  intros Hj Hij; unfold sel, upd.
  destruct (Z.ltb_spec i 0); [reflexivity|].
  apply nth_set_nth_other; lia.
Qed.

Lemma firstn_set_nth_ge {A : Type} (k n : nat) (v : A) (l : list A) :
  (k <= n)%nat -> firstn k (set_nth n v l) = firstn k l.
Proof.
  revert k n; induction l as [|x r IH]; intros [|k] [|n] H; simpl; auto; try lia.
  f_equal; apply IH; lia.
Qed.

Lemma firstn_upd_ge {A : Type} (k : nat) (l : list A) (i : Z) (v : A) :
  Z.of_nat k <= i -> firstn k (upd l i v) = firstn k l.
Proof.
  intros H; unfold upd.
  destruct (Z.ltb_spec i 0); [reflexivity|].
  apply firstn_set_nth_ge; lia.
Qed.

Lemma sel_repeat {A : Type} (d : A) (n : nat) (i : Z) :
  sel d (repeat d n) i = d.
Proof.
  unfold sel; generalize (Z.to_nat i); induction n as [|n IH]; intros [|p];
    simpl; auto.
Qed.

(** The invariant rule of a counted loop. *)
Lemma for_loop_invariant {St : Type} (P : Z -> St -> Prop)
      (body : Z -> St -> St) (count : nat) (lo : Z) (s : St) :
  P lo s ->
  (forall i s', lo <= i < lo + Z.of_nat count -> P i s' -> P (i + 1) (body i s')) ->
  P (lo + Z.of_nat count) (for_loop count lo body s).
Proof.
  revert lo s; induction count as [|c IH]; intros lo s H0 Hstep.
  - simpl; replace (lo + 0) with lo by lia; exact H0.
  - cbn [for_loop].
    replace (lo + Z.of_nat (S c)) with ((lo + 1) + Z.of_nat c) by lia.
    apply IH.
    + apply Hstep; [lia | exact H0].
    + intros i s' Hi; apply Hstep; lia.
Qed.

Lemma for_range_invariant {St : Type} (P : Z -> St -> Prop)
      (body : Z -> St -> St) (lo hi : Z) (s : St) :
  lo <= hi ->
  P lo s ->
  (forall i s', lo <= i < hi -> P i s' -> P (i + 1) (body i s')) ->
  P hi (for_range lo hi body s).
Proof.
  intros Hle H0 Hstep; unfold for_range.
  replace hi with (lo + Z.of_nat (Z.to_nat (hi - lo))) at 1 by lia.
  apply for_loop_invariant; [exact H0|].
  intros i s' Hi; apply Hstep; lia.
Qed.

Lemma for_range_empty {St : Type} (body : Z -> St -> St) (lo hi : Z) (s : St) :
  hi <= lo -> for_range lo hi body s = s.
Proof.
  intros H; unfold for_range.
  replace (Z.to_nat (hi - lo)) with 0%nat by lia; reflexivity.
Qed.

(** ** Galois-field arithmetic *)

Section GaloisFieldTables.

Variables m poly : Z.
Let q : Z := Z.shiftl 1 m.

Lemma mulx_unfold (x : Z) :
  mulx m poly x = if q <=? Z.shiftl x 1 then Z.lxor (Z.shiftl x 1) poly
           else Z.shiftl x 1.
Proof.
  unfold mulx, gf_mul_no_table.
  change (Z.to_nat 2) with 2%nat.
  cbn [gf_mul_no_table_loop].
  change (0 <? 2) with true; change (Z.testbit 2 0) with false.
  change (Z.shiftr 2 1) with 1.
  change (0 <? 1) with true; change (Z.testbit 1 0) with true.
  cbv iota.
  apply Z.lxor_0_l.
Qed.

Hypothesis Hm : 0 <= m.
Hypothesis Hdeg : q <= poly < 2 * q.

Lemma q_pow : q = 2 ^ m.
Proof. unfold q; apply Z.shiftl_1_l. Qed.

Lemma q_pos : 0 < q.
Proof. rewrite q_pow; apply Z.pow_pos_nonneg; lia. Qed.

Lemma mulx_0 : mulx m poly 0 = 0.
Proof.
  rewrite mulx_unfold. change (Z.shiftl 0 1) with 0.
  pose proof q_pos.
  destruct (Z.leb_spec q 0) as [H0|H0]; [lia | reflexivity].
Qed.

Lemma lxor_top_bits (a b : Z) :
  q <= a < 2 * q -> q <= b < 2 * q -> 0 <= Z.lxor a b < q.
Proof.
  intros Ha Hb. pose proof q_pos as Hq. rewrite q_pow in *.
  assert (Hla : Z.log2 a = m)
    by (apply Z.log2_unique; [lia | rewrite Z.pow_succ_r by lia; lia]).
  assert (Hlb : Z.log2 b = m)
    by (apply Z.log2_unique; [lia | rewrite Z.pow_succ_r by lia; lia]).
  assert (Hnn : 0 <= Z.lxor a b) by (apply Z.lxor_nonneg; lia).
  split; [exact Hnn|].
  destruct (Z.eq_dec (Z.lxor a b) 0) as [Hz|Hz]; [lia|].
  apply Z.log2_lt_pow2; [lia|].
  destruct (Z.lt_ge_cases (Z.log2 (Z.lxor a b)) m) as [Hl|Hl]; [exact Hl|].
  exfalso.
  assert (Hbit : Z.testbit (Z.lxor a b) (Z.log2 (Z.lxor a b)) = true)
    by (apply Z.bit_log2; lia).
  rewrite Z.lxor_spec in Hbit.
  destruct (Z.eq_dec (Z.log2 (Z.lxor a b)) m) as [He|He].
  - rewrite He in Hbit.
    assert (Ta : Z.testbit a m = true)
      by (rewrite <- Hla; apply Z.bit_log2; lia).
    assert (Tb : Z.testbit b m = true)
      by (rewrite <- Hlb; apply Z.bit_log2; lia).
    rewrite Ta, Tb in Hbit. discriminate.
  - rewrite !Z.bits_above_log2 in Hbit by lia. discriminate.
Qed.

Lemma mulx_range (x : Z) : 0 <= x < q -> 0 <= mulx m poly x < q.
Proof.
  intros Hx. rewrite mulx_unfold.
  rewrite Z.shiftl_mul_pow2 by lia. change (2 ^ 1) with 2.
  destruct (Z.leb_spec q (x * 2)) as [H|H]; [|lia].
  apply lxor_top_bits; lia.
Qed.

Lemma alpha_pow_from (i : nat) : alpha_pow poly q i = pow_from m poly 1 i.
Proof. induction i as [|i IH]; simpl; [reflexivity | rewrite IH; reflexivity]. Qed.

Lemma pow_from_shift (x : Z) (i : nat) : pow_from m poly (mulx m poly x) i = mulx m poly (pow_from m poly x i).
Proof. induction i as [|i IH]; simpl; [reflexivity | rewrite IH; reflexivity]. Qed.

Lemma pow_from_add (x : Z) (i j : nat) :
  pow_from m poly (pow_from m poly x i) j = pow_from m poly x (i + j).
Proof.
  induction i as [|i IH]; simpl; [reflexivity|].
  rewrite pow_from_shift, IH; reflexivity.
Qed.

Lemma pow_from_0 (i : nat) : pow_from m poly 0 i = 0.
Proof. induction i as [|i IH]; simpl; [reflexivity | rewrite IH; apply mulx_0]. Qed.

Lemma pow_from_S (x : Z) (i : nat) : pow_from m poly x (S i) = pow_from m poly (mulx m poly x) i.
Proof. symmetry; apply pow_from_shift. Qed.

Lemma order_check_spec (steps : nat) (x : Z) :
  order_check poly q (S steps) x = true <->
  pow_from m poly x (S steps) = 1 /\
  forall i, (0 < i < S steps)%nat -> pow_from m poly x i <> 1.
Proof.
  revert x; induction steps as [|s IH]; intros x.
  - cbn [order_check pow_from]. fold (mulx m poly x). rewrite Z.eqb_eq.
    split; [intros H; split; [exact H | intros i Hi; lia] | intros [H _]; exact H].
  - change (order_check poly q (S (S s)) x)
      with (negb (mulx m poly x =? 1) && order_check poly q (S s) (mulx m poly x)).
    rewrite andb_true_iff, negb_true_iff, Z.eqb_neq, IH.
    rewrite (pow_from_S x (S s)).
    split.
    + intros [Hne [Hend Hmid]]. split; [exact Hend|].
      intros [|[|i]] Hi; [lia | exact Hne |].
      rewrite pow_from_S. apply Hmid; lia.
    + intros [Hend Hmid]. repeat split.
      * apply (Hmid 1%nat); lia.
      * exact Hend.
      * intros i Hi. rewrite <- pow_from_S. apply Hmid; lia.
Qed.

End GaloisFieldTables.

Section GaloisFieldPrimitive.

Variables m poly : Z.
Hypothesis Hm : 3 <= m <= 16.
Hypothesis Hprim : is_primitive m poly = true.

Let q : Z := Z.shiftl 1 m.
Let a (i : Z) : Z := alpha_pow poly q (Z.to_nat i).

Lemma prim_q_ge : 8 <= q.
Proof.
  unfold q. rewrite Z.shiftl_1_l.
  change 8 with (2 ^ 3). apply Z.pow_le_mono_r; lia.
Qed.

Lemma prim_deg : q <= poly < 2 * q.
Proof.
  unfold is_primitive in Hprim. fold q in Hprim.
  apply andb_true_iff in Hprim as [H _].
  apply andb_true_iff in H as [H1 H2].
  apply Z.leb_le in H1. apply Z.ltb_lt in H2. lia.
Qed.

Lemma prim_order :
  a (q - 1) = 1 /\ forall i, 0 < i < q - 1 -> a i <> 1.
Proof.
  pose proof prim_q_ge as Hq.
  unfold is_primitive in Hprim. fold q in Hprim.
  apply andb_true_iff in Hprim as [_ H].
  destruct (Z.to_nat (q - 1)) as [|n] eqn:En; [lia|].
  apply order_check_spec in H as [Hend Hmid].
  unfold a. split.
  - rewrite En. unfold q. rewrite alpha_pow_from. exact Hend.
  - intros i Hi. unfold q. rewrite alpha_pow_from. apply Hmid. lia.
Qed.

Lemma a_0 : a 0 = 1.
Proof. reflexivity. Qed.

Lemma a_succ (i : Z) : 0 <= i -> a (i + 1) = mulx m poly (a i).
Proof.
  intros Hi. unfold a.
  replace (Z.to_nat (i + 1)) with (S (Z.to_nat i)) by lia.
  reflexivity.
Qed.

Lemma a_range (i : Z) : 0 <= a i < q.
Proof.
  pose proof prim_q_ge as Hq. pose proof prim_deg as Hd.
  unfold a. induction (Z.to_nat i) as [|n IH]; simpl.
  - lia.
  - apply (mulx_range m poly); [lia | exact Hd | exact IH].
Qed.

Lemma a_add (i d : Z) :
  0 <= i -> 0 <= d -> pow_from m poly (a i) (Z.to_nat d) = a (i + d).
Proof.
  intros Hi Hd. unfold a, q. rewrite !alpha_pow_from, pow_from_add.
  f_equal. lia.
Qed.

Lemma a_nonzero (i : Z) : 0 <= i <= q - 1 -> a i <> 0.
Proof.
  intros Hi Hz. destruct prim_order as [Hend _].
  pose proof (a_add i (q - 1 - i) ltac:(lia) ltac:(lia)) as H.
  rewrite Hz, pow_from_0 in H by lia.
  replace (i + (q - 1 - i)) with (q - 1) in H by lia. lia.
Qed.

Lemma a_inj (i j : Z) :
  0 <= i <= q - 2 -> 0 <= j <= q - 2 -> a i = a j -> i = j.
Proof.
  assert (Hlt : forall i j, 0 <= i -> i < j -> j <= q - 2 -> a i <> a j).
  { intros i0 j0 Hi0 Hij Hj0 Heq. destruct prim_order as [Hend Hmid].
    pose proof (a_add i0 (q - 1 - j0) ltac:(lia) ltac:(lia)) as H1.
    pose proof (a_add j0 (q - 1 - j0) ltac:(lia) ltac:(lia)) as H2.
    rewrite Heq, H2 in H1.
    replace (j0 + (q - 1 - j0)) with (q - 1) in H1 by lia.
    apply (Hmid (i0 + (q - 1 - j0))); [lia | congruence]. }
  intros Hi Hj Heq.
  destruct (Z.lt_trichotomy i j) as [H|[H|H]]; [|exact H|].
  - exfalso; apply (Hlt i j); lia || assumption.
  - exfalso; apply (Hlt j i); lia || auto.
Qed.

(** The tables [gf_build_tables] leaves behind. *)
Let tables_ok (gf : GaloisField) : Prop :=
  field_size gf = q /\
  (forall j, 0 <= j <= q - 2 -> sel 0 (exp_table gf) j = a j) /\
  sel 0 (exp_table gf) (q - 1) = 1 /\
  (forall j, 1 <= j <= q - 2 -> sel 0 (log_table gf) (a j) = j) /\
  sel 0 (log_table gf) 1 = 0 /\
  (forall y, 0 <= y -> 0 <= sel 0 (log_table gf) y <= q - 2) /\
  (forall x, 1 <= x < q ->
     sel 0 (inv_table gf) x
     = sel 0 (exp_table gf) (q - 1 - sel 0 (log_table gf) x)).

Let gf0 : GaloisField :=
  mkGF m q poly (repeat 0 (Z.to_nat (2 * q))) (repeat 0 (Z.to_nat q))
       (repeat 0 (Z.to_nat q)).

Let exp_log_inv (i : Z) (st : result (Z * list Z * list Z)) : Prop :=
  exists x exp log,
    st = Ok (x, exp, log) /\
    x = a (i - 1) /\
    Z.of_nat (length exp) = 2 * q /\
    Z.of_nat (length log) = q /\
    (forall j, 0 <= j < i -> sel 0 exp j = a j) /\
    (forall j, 1 <= j < i -> sel 0 log (a j) = j) /\
    sel 0 log 1 = 0 /\
    (forall y, 0 <= y -> 0 <= sel 0 log y < i).

Lemma gf_build_tables_ok :
  exists gf, gf_build_tables gf0 = Ok gf /\ tables_ok gf.
Proof.
  pose proof prim_q_ge as Hq. pose proof prim_deg as Hd.
  destruct prim_order as [Hend Hmid].
  unfold gf_build_tables.
  cbn [field_size exp_table log_table inv_table primitive_poly symbol_size gf0].
  match goal with
  | |- context [bind (for_range 1 (q - 1) ?body ?init) _] =>
      assert (H1 : exp_log_inv (q - 1) (for_range 1 (q - 1) body init))
  end.
  { apply for_range_invariant; [lia| |].
    - exists 1, (upd (repeat 0 (Z.to_nat (2 * q))) 0 1),
        (upd (upd (repeat 0 (Z.to_nat q)) 0 0) 1 0).
      repeat split.
      + rewrite length_upd, repeat_length; lia.
      + rewrite !length_upd, repeat_length; lia.
      + intros j Hj. replace j with 0 by lia.
        rewrite sel_upd_same by (rewrite repeat_length; lia). reflexivity.
      + intros j Hj; lia.
      + rewrite sel_upd_same; [reflexivity|].
        rewrite length_upd, repeat_length; lia.
      + destruct (Z.eq_dec y 1) as [->|Hy1].
        * rewrite sel_upd_same; [lia|].
          rewrite length_upd, repeat_length; lia.
        * rewrite sel_upd_other by lia.
          destruct (Z.eq_dec y 0) as [->|Hy0].
          -- rewrite sel_upd_same; [lia | rewrite repeat_length; lia].
          -- rewrite sel_upd_other by lia. rewrite sel_repeat; lia.
      + destruct (Z.eq_dec y 1) as [->|Hy1].
        * rewrite sel_upd_same; [lia|].
          rewrite length_upd, repeat_length; lia.
        * rewrite sel_upd_other by lia.
          destruct (Z.eq_dec y 0) as [->|Hy0].
          -- rewrite sel_upd_same; [lia | rewrite repeat_length; lia].
          -- rewrite sel_upd_other by lia. rewrite sel_repeat; lia.
    - intros i st Hi (x & exp & log & -> & Hx & Lexp & Llog & Hexp & Hlog & Hl1 & Hrng).
      cbn [bind].
      assert (Hxi : gf_mul_no_table x 2 poly q = a i).
      { rewrite Hx. replace i with ((i - 1) + 1) at 2 by lia.
        rewrite a_succ by lia. reflexivity. }
      rewrite Hxi.
      pose proof (a_range i) as Hai.
      unfold store.
      replace ((0 <=? a i) && (a i <? Z.of_nat (length log))) with true
        by (symmetry; apply andb_true_iff; split;
            [apply Z.leb_le | apply Z.ltb_lt]; lia).
      cbn [bind].
      exists (a i), (upd exp i (a i)), (upd log (a i) i).
      repeat split.
      + f_equal; lia.
      + rewrite length_upd; exact Lexp.
      + rewrite length_upd; exact Llog.
      + intros j Hj. destruct (Z.eq_dec j i) as [->|Hne].
        * apply sel_upd_same; lia.
        * rewrite sel_upd_other by lia. apply Hexp; lia.
      + intros j Hj. destruct (Z.eq_dec j i) as [->|Hne].
        * apply sel_upd_same; lia.
        * rewrite sel_upd_other; [apply Hlog; lia | apply a_range |].
          intros Heq. apply Hne. symmetry. apply a_inj; [lia | lia | exact Heq].
      + rewrite sel_upd_other; [exact Hl1 | lia |].
        apply Hmid; lia.
      + destruct (Z.eq_dec y (a i)) as [->|Hne].
        * rewrite sel_upd_same by lia. lia.
        * rewrite sel_upd_other by auto. apply Hrng; exact H.
      + destruct (Z.eq_dec y (a i)) as [->|Hne].
        * rewrite sel_upd_same by lia. lia.
        * rewrite sel_upd_other by auto.
          pose proof (Hrng y H); lia. }
  destruct H1 as (x & exp & log & -> & Hx & Lexp & Llog & Hexp & Hlog & Hl1 & Hrng).
  cbn [bind].
  eexists; split; [reflexivity|].
  set (exp' := for_range (q - 1) (2 * q - 2) _ exp).
  assert (H2 : Z.of_nat (length exp') = 2 * q /\
               (forall j, 0 <= j <= q - 2 -> sel 0 exp' j = a j) /\
               (q - 1 < 2 * q - 2 -> sel 0 exp' (q - 1) = 1)).
  { subst exp'.
    apply (for_range_invariant
             (fun i e => Z.of_nat (length e) = 2 * q /\
                         (forall j, 0 <= j <= q - 2 -> sel 0 e j = a j) /\
                         (q - 1 < i -> sel 0 e (q - 1) = 1))); [lia| |].
    - repeat split; [exact Lexp | intros j Hj; apply Hexp; lia | lia].
    - intros i e Hi (Le & He & Hq1). repeat split.
      + rewrite length_upd; exact Le.
      + intros j Hj. rewrite sel_upd_other by lia. apply He; exact Hj.
      + intros Hlt. destruct (Z.eq_dec i (q - 1)) as [->|Hne].
        * rewrite sel_upd_same by lia.
          replace (q - 1 - (q - 1)) with 0 by lia.
          rewrite He by lia. apply a_0.
        * rewrite sel_upd_other by lia. apply Hq1; lia. }
  destruct H2 as (Lexp' & Hexp' & Hq1).
  set (inv' := for_range 1 q _ _).
  assert (H3 : forall x0, 1 <= x0 < q ->
                 sel 0 inv' x0 = sel 0 exp' (q - 1 - sel 0 log x0)).
  { subst inv'.
    assert (H3' : Z.of_nat (length (for_range 1 q
                    (fun i inv => upd inv i (sel 0 exp' (q - 1 - sel 0 log i)))
                    (upd (repeat 0 (Z.to_nat q)) 0 0))) = q /\
                  forall x0, 1 <= x0 < q ->
                    sel 0 (for_range 1 q
                      (fun i inv => upd inv i (sel 0 exp' (q - 1 - sel 0 log i)))
                      (upd (repeat 0 (Z.to_nat q)) 0 0)) x0
                    = sel 0 exp' (q - 1 - sel 0 log x0)).
    { apply (for_range_invariant
               (fun i inv => Z.of_nat (length inv) = q /\
                  forall x0, 1 <= x0 < i ->
                    sel 0 inv x0 = sel 0 exp' (q - 1 - sel 0 log x0)));
        [lia| |].
      - split; [rewrite length_upd, repeat_length; lia | intros; lia].
      - intros i inv Hi (Li & Hinv). split.
        + rewrite length_upd; exact Li.
        + intros x0 Hx0. destruct (Z.eq_dec x0 i) as [->|Hne].
          * apply sel_upd_same; lia.
          * rewrite sel_upd_other by lia. apply Hinv; lia. }
    apply H3'. }
  unfold tables_ok.
  cbn [field_size exp_table log_table inv_table].
  repeat split.
  - exact Hexp'.
  - apply Hq1; lia.
  - intros j Hj. apply Hlog; lia.
  - exact Hl1.
  - apply Hrng; exact H.
  - pose proof (Hrng y H); lia.
  - exact H3.
Qed.

End GaloisFieldPrimitive.

(** C6. In every field built by [gf_init] from a symbol size [m] in [3, 16]
    and a primitive polynomial of degree [m], every non-zero element [x]
    satisfies [gf_mul x (gf_inv x) = 1] and [gf_div x x = 1]; and [gf_init]
    does build the field. *)
Theorem gf_mul_inv_div_self (m poly : Z) :
  3 <= m <= 16 ->
  is_primitive m poly = true ->
  exists gf,
    gf_init m poly = Ok gf /\
    forall x, 1 <= x < 2 ^ m ->
      gf_mul gf x (gf_inv gf x) = 1 /\ gf_div gf x x = 1.
Proof.
  intros Hm Hprim.
  pose proof (prim_q_ge m Hm) as Hq.
  pose proof (prim_deg m poly Hprim) as Hd.
  destruct (gf_build_tables_ok m poly Hm Hprim)
    as (gf & Hbuild & Hfs & Hexp & Hexpq & Hlog & Hlog1 & Hrng & Hinv).
  exists gf. split.
  - unfold gf_init, RS_MAX_SYMBOL_SIZE.
    replace ((3 <=? m) && (m <=? 16)) with true
      by (symmetry; apply andb_true_iff; split; apply Z.leb_le; lia).
    replace (0 <? poly) with true by (symmetry; apply Z.ltb_lt; lia).
    exact Hbuild.
  - intros x Hx. rewrite <- Z.shiftl_1_l in Hx.
    set (q := Z.shiftl 1 m) in *.
    pose proof (Hrng x ltac:(lia)) as HL.
    assert (Hx0 : (x =? 0) = false) by (apply Z.eqb_neq; lia).
    split.
    + unfold gf_mul, gf_inv. rewrite Hx0, Hfs, Hinv by lia. cbn [orb].
      destruct (Z.eq_dec (sel 0 (log_table gf) x) 0) as [HL0|HL0].
      * rewrite HL0. replace (q - 1 - 0) with (q - 1) by lia.
        rewrite Hexpq. change (1 =? 0) with false. cbv iota.
        rewrite Hlog1.
        destruct (Z.leb_spec (q - 1) (0 + 0)); [lia|].
        apply (Hexp 0); lia.
      * set (j := q - 1 - sel 0 (log_table gf) x).
        assert (Hj : 1 <= j <= q - 2) by (subst j; lia).
        rewrite (Hexp j) by lia.
        pose proof (a_nonzero m poly Hm Hprim j ltac:(fold q; lia)) as Hnz.
        replace (alpha_pow poly q (Z.to_nat j) =? 0) with false
          by (symmetry; apply Z.eqb_neq; exact Hnz).
        cbv iota. rewrite (Hlog j) by lia.
        replace (sel 0 (log_table gf) x + j) with (q - 1) by (subst j; lia).
        destruct (Z.leb_spec (q - 1) (q - 1)); [|lia].
        replace (q - 1 - (q - 1)) with 0 by lia.
        apply (Hexp 0); lia.
    + unfold gf_div. rewrite Hx0.
      replace (sel 0 (log_table gf) x - sel 0 (log_table gf) x) with 0 by lia.
      change (0 <? 0) with false. cbv iota.
      apply (Hexp 0); lia.
Qed.

Lemma gf_mul_inv_div_self_witness :
  exists gf,
    gf_init 8 0x11d = Ok gf /\
    forall x, 1 <= x < 2 ^ 8 ->
      gf_mul gf x (gf_inv gf x) = 1 /\ gf_div gf x x = 1.
Proof.
  apply (gf_mul_inv_div_self 8 0x11d); [lia | vm_compute; reflexivity].
Defined.

(** Every default polynomial of the codec's table is primitive in this
    sense. *)
Lemma primitive_polys_are_primitive :
  forallb (fun mp => is_primitive (fst mp) (snd mp)) primitive_polys = true.
Proof. vm_compute; reflexivity. Qed.

(** The symbol-size half of C7: a symbol size outside [3, 16] is rejected. *)
Lemma gf_init_rejects_symbol_size (m poly : Z) :
  m < 3 \/ 16 < m -> gf_init m poly = Err FSO_ERROR_INVALID_PARAM.
Proof.
  intros H. unfold gf_init, RS_MAX_SYMBOL_SIZE.
  replace ((3 <=? m) && (m <=? 16)) with false; [reflexivity|].
  symmetry. apply andb_false_iff.
  destruct H; [left | right]; apply Z.leb_gt; lia.
Qed.

Lemma gf_init_rejects_nonpositive_poly (m poly : Z) :
  poly <= 0 -> gf_init m poly = Err FSO_ERROR_INVALID_PARAM.
Proof.
  intros H. unfold gf_init.
  destruct (negb _); [reflexivity|].
  replace (0 <? poly) with false by (symmetry; apply Z.ltb_ge; lia).
  reflexivity.
Qed.

(** [gf_build_tables] has no failure return: its loop either completes or
    writes outside [log_table]. *)
Lemma for_loop_no_error {A : Type} (body : Z -> result A -> result A)
      (c : nat) (lo : Z) (st : result A) :
  (forall i st', (forall e, st' <> Err e) -> forall e, body i st' <> Err e) ->
  (forall e, st <> Err e) ->
  forall e, for_loop c lo body st <> Err e.
Proof.
  intros Hbody. revert lo st.
  induction c as [|c IH]; intros lo st Hst e; cbn [for_loop].
  - apply Hst.
  - apply IH. apply Hbody. exact Hst.
Qed.

Lemma gf_build_tables_no_error (gf : GaloisField) (e : FSOErrorCode) :
  gf_build_tables gf <> Err e.
Proof.
  unfold gf_build_tables.
  match goal with
  | |- bind (for_range ?lo ?hi ?body ?init) _ <> _ =>
      assert (H : forall e', for_range lo hi body init <> Err e')
  end.
  { apply for_loop_no_error; [|intros; discriminate].
    intros i st Hst e'.
    destruct st as [[[x ex] lg]|e0|]; cbn [bind].
    - unfold store. destruct (_ && _); cbn [bind]; discriminate.
    - exfalso; apply (Hst e0); reflexivity.
    - discriminate. }
  destruct (for_range _ _ _ _) as [[[x ex] lg]|e'|] eqn:E; cbn [bind].
  - discriminate.
  - exfalso; apply (H e'); reflexivity.
  - discriminate.
Qed.

(** The degree half of C7, in general: once the symbol size is in range and
    the polynomial is positive, [gf_init] never answers [InvalidParam],
    whatever the degree of the polynomial. *)
Lemma gf_init_never_checks_degree (m poly : Z) :
  3 <= m <= 16 -> 0 < poly -> gf_init m poly <> Err FSO_ERROR_INVALID_PARAM.
Proof.
  intros Hm Hp. unfold gf_init, RS_MAX_SYMBOL_SIZE.
  replace ((3 <=? m) && (m <=? 16)) with true
    by (symmetry; apply andb_true_iff; split; apply Z.leb_le; lia).
  replace (0 <? poly) with true by (symmetry; apply Z.ltb_lt; lia).
  apply gf_build_tables_no_error.
Qed.

(** C7. [gf_init] is to answer [InvalidParam] when the polynomial does not
    have degree [m]. For [m = 8] and the degree-4 polynomial [0x1d], which
    [rs_is_primitive_poly_valid] rejects, [gf_init] passes both parameter
    checks and then writes [log_table[285]], outside the 256-entry table. *)
Theorem gf_init_wrong_degree_not_rejected :
  rs_is_primitive_poly_valid 8 0x1d = false /\
  gf_init 8 0x1d = Fault /\
  gf_init 8 0x1d <> Err FSO_ERROR_INVALID_PARAM.
Proof.
  split; [vm_compute; reflexivity|].
  split; [vm_compute; reflexivity|].
  apply gf_init_never_checks_degree; lia.
Qed.

(** ** Reed-Solomon codec *)

Lemma firstn_eq_by_sel (k : nat) (l u : list Z) :
  (k <= length l)%nat -> length u = k ->
  (forall j, 0 <= j < Z.of_nat k -> sel 0 l j = sel 0 u j) ->
  firstn k l = u.
Proof.
  intros Hl Hu Hsel.
  apply (nth_ext _ _ 0 0).
  - rewrite length_firstn; lia.
  - intros p Hp. rewrite length_firstn in Hp.
    rewrite nth_firstn.
    destruct (Nat.ltb_spec p k); [|lia].
    specialize (Hsel (Z.of_nat p) ltac:(lia)).
    unfold sel in Hsel. rewrite Nat2Z.id in Hsel. exact Hsel.
Qed.

Lemma rs_init_fields (cfg : RSConfig) (n k : Z) (rs : RSCodec) :
  rs_init cfg n k = Ok rs ->
  rs_n rs = n /\ rs_k rs = k /\ rs_num_roots rs = n - k /\
  rs_t rs = Z.quot (n - k) 2 /\ 0 < k < n.
Proof.
  unfold rs_init.
  destruct ((k <? n) && (0 <? k)) eqn:E1; cbn [negb]; [|discriminate].
  destruct (n <=? _); cbn [negb]; [|discriminate].
  apply andb_true_iff in E1 as [Hkn Hk].
  apply Z.ltb_lt in Hkn. apply Z.ltb_lt in Hk.
  destruct (gf_init _ _) as [gf| |]; cbn [bind]; try discriminate.
  unfold rs_generate_generator_polynomial.
  destruct (for_range _ _ _ _) as [[g deg]| |]; cbn [bind]; try discriminate.
  intros H; injection H as <-.
  unfold set_generator; cbn. repeat split; lia.
Qed.

(** C8. Systematic encoding: for a codec built by [rs_init] and every
    information vector [u] of length [k] whose symbols are elements of the
    field, [0 <= u_i < 2^m], [rs_encode] succeeds on an output buffer of at
    least [n] symbols, writes [n] symbols, and the first [k] of them are
    [u]. The range of the symbols is what keeps the table look-ups of
    [gf_mul] in the parity loop inside [log_table]; for [m = 8] every byte
    is in range. *)
Theorem rs_encode_systematic (cfg : RSConfig) (n k : Z) (rs : RSCodec)
        (u : list Z) (encoded_len : Z) :
  rs_init cfg n k = Ok rs ->
  Z.of_nat (length u) = k ->
  Forall (fun s => 0 <= s < 2 ^ cfg_symbol_size cfg) u ->
  n <= encoded_len ->
  exists c,
    rs_encode rs u encoded_len = Ok c /\
    Z.of_nat (length c) = n /\
    firstn (Z.to_nat k) c = u.
Proof.
  intros Hinit Hlen Hfield Hcap.
  destruct (rs_init_fields _ _ _ _ Hinit) as (Hn & Hk & Hr & _ & Hkn).
  unfold rs_encode. rewrite Hn, Hk, Hr, Hlen.
  rewrite Z.eqb_refl. cbn [negb].
  replace (n <=? encoded_len) with true by (symmetry; apply Z.leb_le; lia).
  cbn [negb].
  eexists; split; [reflexivity|].
  set (e1 := for_range 0 k (fun i e => upd e i (sel 0 u i))
                      (repeat 0 (Z.to_nat encoded_len))).
  assert (H1 : Z.of_nat (length e1) = encoded_len /\
               forall j, 0 <= j < k -> sel 0 e1 j = sel 0 u j).
  { subst e1.
    apply (for_range_invariant
             (fun i e => Z.of_nat (length e) = encoded_len /\
                         forall j, 0 <= j < i -> sel 0 e j = sel 0 u j));
      [lia| |].
    - split; [rewrite repeat_length; lia | intros; lia].
    - intros i e Hi (Le & He). split; [rewrite length_upd; exact Le|].
      intros j Hj. destruct (Z.eq_dec j i) as [->|Hne].
      + apply sel_upd_same; lia.
      + rewrite sel_upd_other by lia. apply He; lia. }
  destruct H1 as (L1 & S1).
  set (e2 := for_range k n (fun i e => upd e i 0) e1).
  assert (H2 : Z.of_nat (length e2) = encoded_len /\
               forall j, 0 <= j < k -> sel 0 e2 j = sel 0 u j).
  { subst e2.
    apply (for_range_invariant
             (fun (i : Z) e => Z.of_nat (length e) = encoded_len /\
                         forall j, 0 <= j < k -> sel 0 e j = sel 0 u j));
      [lia| |].
    - split; assumption.
    - intros i e Hi (Le & He). split; [rewrite length_upd; exact Le|].
      intros j Hj. rewrite sel_upd_other by lia. apply He; lia. }
  destruct H2 as (L2 & S2).
  set (e3 := for_range 0 (n - k) _ e2).
  assert (H3 : Z.of_nat (length e3) = encoded_len /\
               forall j, 0 <= j < k -> sel 0 e3 j = sel 0 u j).
  { subst e3.
    apply (for_range_invariant
             (fun (i : Z) e => Z.of_nat (length e) = encoded_len /\
                         forall j, 0 <= j < k -> sel 0 e j = sel 0 u j));
      [lia| |].
    - split; assumption.
    - intros i e Hi (Le & He). split; [rewrite length_upd; exact Le|].
      intros j Hj. rewrite sel_upd_other by lia. apply He; lia. }
  destruct H3 as (L3 & S3).
  split.
  - rewrite length_firstn. lia.
  - rewrite firstn_firstn.
    replace (Nat.min (Z.to_nat k) (Z.to_nat n)) with (Z.to_nat k) by lia.
    apply firstn_eq_by_sel; [lia | lia |].
    intros j Hj. apply S3; lia.
Qed.

Lemma rs_encode_systematic_witness :
  Forall (fun s => 0 <= s < 2 ^ 3) [1; 2; 3] /\
  exists c,
    rs_encode
      (match rs_init (mkRSConfig 3 4 1 0xb 1) 7 3 with
       | Ok rs => rs
       | _ => mkRS (mkGF 0 0 0 [] [] []) 0 0 0 0 0 0 [] 0 []
       end) [1; 2; 3] 7 = Ok c /\
    Z.of_nat (length c) = 7 /\
    firstn (Z.to_nat 3) c = [1; 2; 3].
Proof.
  assert (Hfield : Forall (fun s => 0 <= s < 2 ^ 3) [1; 2; 3])
    by (repeat (apply Forall_cons; [lia|]); apply Forall_nil).
  split; [exact Hfield|].
  apply (rs_encode_systematic (mkRSConfig 3 4 1 0xb 1) 7 3);
    [vm_compute; reflexivity | reflexivity | exact Hfield | lia].
Defined.

(** The decoder model does its work on a genuine code word: the generator
    polynomial itself, [3 2 1 3 1 0 0], is one of RS(7, 3); two symbol errors
    are located and removed. *)
Lemma rs_decode_corrects_code_word :
  bind rs_7_3 (fun rs =>
    bind (rs_calculate_syndrome rs [3; 2; 1; 3; 1; 0; 0]) (fun rs' =>
      Ok (rs_has_errors rs'))) = Ok false /\
  bind rs_7_3 (fun rs =>
    rs_decode rs (xor_words [3; 2; 1; 3; 1; 0; 0] [0; 5; 0; 0; 0; 0; 4]))
  = Ok ([3; 2; 1], mkStats 2 2 false).
Proof. split; vm_compute; reflexivity. Qed.

(** The code word [rs_encode] produces is not one: its syndromes are not
    zero, already without any channel error. *)
Lemma rs_encode_syndrome_nonzero :
  bind rs_7_3 (fun rs =>
    bind (rs_encode rs [1; 0; 0] 7) (fun c =>
      bind (rs_calculate_syndrome rs c) (fun rs' =>
        Ok (c, syndrome rs', rs_has_errors rs'))))
  = Ok ([1; 0; 0; 0; 2; 6; 5], [5; 2; 0; 5], true).
Proof. vm_compute; reflexivity. Qed.

Lemma rs_encode_syndrome_nonzero_255_223 :
  bind rs_255_223 (fun rs =>
    bind (rs_encode rs (map Z.of_nat (seq 0 223)) 255) (fun c =>
      bind (rs_calculate_syndrome rs c) (fun rs' =>
        Ok (rs_has_errors rs'))))
  = Ok true.
Proof. vm_compute; reflexivity. Qed.

(** C1. On RS(7, 3), [t = 2], the information vector [1 0 0] and the
    one-symbol error pattern [0 1 0 0 0 0 0]: the word [rs_encode] returns
    has non-zero syndromes, the decoder finds no locator of degree at most
    [t] and passes the corrupted symbols through, with no error corrected.
    The round trip of the claim fails. *)
Theorem rs_round_trip_fails :
  exists rs,
    rs_7_3 = Ok rs /\
    rs_t rs = 2 /\
    weight [0; 1; 0; 0; 0; 0; 0] = 1 /\
    rs_encode rs [1; 0; 0] (rs_n rs) = Ok [1; 0; 0; 0; 2; 6; 5] /\
    rs_decode rs (xor_words [1; 0; 0; 0; 2; 6; 5] [0; 1; 0; 0; 0; 0; 0])
    = Ok ([1; 1; 0], mkStats 3 0 true) /\
    ~ rs_round_trip rs [1; 0; 0] [0; 1; 0; 0; 0; 0; 0].
Proof.
  destruct rs_7_3 as [rs| |] eqn:E; try (vm_compute in E; discriminate).
  exists rs. split; [reflexivity|].
  assert (Hrs : Ok rs = rs_7_3) by (symmetry; exact E).
  vm_compute in Hrs. injection Hrs as ->.
  split; [reflexivity|]. split; [reflexivity|].
  split; [vm_compute; reflexivity|].
  split; [vm_compute; reflexivity|].
  intros (c & stats & Henc & Hdec & Hcorr).
  vm_compute in Henc. injection Henc as <-.
  vm_compute in Hdec. discriminate.
Qed.

(** The same on the scenario codec RS(255, 223), [t = 16], with the
    information bytes 0..222 and one corrupted symbol. *)
Lemma rs_round_trip_fails_255_223 :
  exists rs,
    rs_255_223 = Ok rs /\
    rs_t rs = 16 /\
    ~ rs_round_trip rs (map Z.of_nat (seq 0 223))
        (repeat 0 5 ++ [72] ++ repeat 0 249).
Proof.
  destruct rs_255_223 as [rs| |] eqn:E; try (vm_compute in E; discriminate).
  exists rs. split; [reflexivity|].
  assert (Hrs : Ok rs = rs_255_223) by (symmetry; exact E).
  vm_compute in Hrs. injection Hrs as ->.
  split; [reflexivity|].
  intros (c & stats & Henc & Hdec & Hcorr).
  vm_compute in Henc. injection Henc as <-.
  vm_compute in Hdec. discriminate.
Qed.

(** ** Atmospheric channel *)

Section ChannelPathLoss.
Local Open Scope R_scope.












End ChannelPathLoss.

(** ** Beam tracker: the misalignment flag *)

Section Misalignment.
Local Open Scope Q_scope.

Variable tracker : BeamTracker.
Variable s : Q.

Let after : BeamTracker := fst (beam_track_check_misalignment tracker s).

(** The guard at the head of the function: a negative strength is
    reported and nothing is changed. *)
Lemma check_misalignment_negative :
  s < 0 -> beam_track_check_misalignment tracker s = (tracker, 0%Z).
Proof.
  intros H. unfold beam_track_check_misalignment.
  destruct (Qlt_le_dec s 0) as [_|H']; [reflexivity|].
  exfalso. apply (Qlt_not_le _ _ H H').
Qed.

Lemma check_misalignment_threshold_kept :
  signal_threshold after = signal_threshold tracker.
Proof.
  unfold after, beam_track_check_misalignment.
  destruct (Qlt_le_dec s 0); [reflexivity|]. cbn.
  destruct (Qlt_le_dec s (signal_threshold tracker));
    destruct (misaligned tracker =? 0)%Z; reflexivity.
Qed.

(** C9. For a signal strength in the documented range, [0 <= s]: below
    the threshold the flag is set afterwards, at or above it the flag is
    clear; the flag changes only from clear to set below the threshold and
    from set to clear at or above it. *)
Theorem check_misalignment_state_machine :
  0 <= s ->
  (s < signal_threshold tracker -> misaligned after <> 0%Z) /\
  (signal_threshold tracker <= s -> misaligned after = 0%Z) /\
  (misaligned after <> misaligned tracker ->
     (misaligned tracker = 0%Z /\ s < signal_threshold tracker /\
      misaligned after = 1%Z) \/
     (misaligned tracker <> 0%Z /\ signal_threshold tracker <= s /\
      misaligned after = 0%Z)).
Proof.
  intros Hs. unfold after, beam_track_check_misalignment.
  destruct (Qlt_le_dec s 0) as [Hneg|_];
    [exfalso; apply (Qlt_not_le _ _ Hneg Hs)|].
  cbn [signal_threshold misaligned].
  destruct (Qlt_le_dec s (signal_threshold tracker)) as [Hlt|Hge].
  - destruct (Z.eqb_spec (misaligned tracker) 0) as [E|E]; cbn;
      (split; [|split]).
    + intros _; discriminate.
    + intros H; exfalso; apply (Qlt_not_le _ _ Hlt H).
    + intros _. left. auto.
    + intros _; exact E.
    + intros H; exfalso; apply (Qlt_not_le _ _ Hlt H).
    + intros H; exfalso; apply H; reflexivity.
  - destruct (Z.eqb_spec (misaligned tracker) 0) as [E|E]; cbn;
      (split; [|split]).
    + intros H; exfalso; apply (Qlt_not_le _ _ H Hge).
    + intros _; exact E.
    + intros H; exfalso; apply H; reflexivity.
    + intros H; exfalso; apply (Qlt_not_le _ _ H Hge).
    + intros _; reflexivity.
    + intros _. right. auto.
Qed.

End Misalignment.

Lemma check_misalignment_state_machine_witness :
  (0 <= 3 # 10)%Q /\
  misaligned (fst (beam_track_check_misalignment tracker_aligned (3 # 10))) <> 0.
Proof.
  split; [discriminate|].
  apply (check_misalignment_state_machine tracker_aligned (3 # 10));
    [discriminate | reflexivity].
Defined.

(** The unit test's two calls: 0.8 leaves the flag clear, 0.3 sets it, and
    0.8 again clears it. *)
Example check_misalignment_test_sequence :
  let t1 := fst (beam_track_check_misalignment tracker_aligned (8 # 10)) in
  let t2 := fst (beam_track_check_misalignment t1 (3 # 10)) in
  let t3 := fst (beam_track_check_misalignment t2 (8 # 10)) in
  (misaligned t1, misaligned t2, misaligned t3) = (0, 1, 0).
Proof. reflexivity. Qed.

(** ** LDPC codec *)

(** C2. The rate-1/2 codec LDPC(12, 6) is built by the standard matrix
    construction and the generator construction without complaint. For the
    information word [0 0 1 0 0 0] the encoder emits no parity bit at all,
    and the parity checks 0, 1 and 3 of [H] fail on the result. *)
Theorem ldpc_encode_parity_check_fails :
  exists ldpc,
    fec_init_ldpc 50 6 12 = Ok ldpc /\
    ldpc_encode ldpc [0; 0; 1; 0; 0; 0] 12
    = Ok [0; 0; 1; 0; 0; 0; 0; 0; 0; 0; 0; 0] /\
    syndrome_of (ldpc_H ldpc) 6 12 [0; 0; 1; 0; 0; 0; 0; 0; 0; 0; 0; 0]
    = [1; 1; 0; 1; 0; 0] /\
    encodes_to_code_word ldpc [0; 0; 1; 0; 0; 0] = false.
Proof.
  destruct (fec_init_ldpc 50 6 12) as [l| |] eqn:E;
    try (vm_compute in E; discriminate).
  exists l. split; [reflexivity|].
  assert (Hl : Ok l = fec_init_ldpc 50 6 12) by (symmetry; exact E).
  vm_compute in Hl. injection Hl as ->.
  repeat split; vm_compute; reflexivity.
Qed.

(** On LDPC(12, 6) three quarters of the information words are encoded to
    words that fail a parity check; on LDPC(16, 8), where the last [m]
    columns of [H] are invertible, every word passes. *)
Lemma ldpc_encode_12_6_failures :
  length (filter (fun u => negb (encodes_to_code_word (ldpc_codec 50 6 12) u))
                 (all_words 6)) = 48%nat.
Proof. vm_compute; reflexivity. Qed.

Lemma ldpc_encode_16_8_passes :
  forallb (encodes_to_code_word (ldpc_codec 50 8 16)) (all_words 8) = true.
Proof. vm_compute; reflexivity. Qed.

(** The standard construction only serves rate 1/2: every degree pair of
    the table has [dc = 2 * dv], so [n * dv = m * dc] forces [n = 2 * m].
    A request for rate 2/3 fails the degree check, and [fec_init] then
    cleans up matrices that were never initialised. *)
Lemma ldpc_rate_2_3_rejected :
  bind (ldpc_init 50 1536 1024)
       (fun ldpc => ldpc_generate_standard_matrix ldpc (1024 # 1536))
  = Err FSO_ERROR_INVALID_PARAM /\
  fec_init_ldpc 50 1024 1536 = Fault.
Proof. split; vm_compute; reflexivity. Qed.

(** *** The decoder *)

Lemma count_loop (p : Z -> bool) (count : nat) (lo acc : Z) :
  for_loop count lo (fun i errors => if p i then errors + 1 else errors) acc
  = acc + Z.of_nat (length (filter p (map (fun j => lo + Z.of_nat j) (seq 0 count)))).
Proof.
  revert lo acc; induction count as [|c IH]; intros lo acc.
  - simpl. lia.
  - cbn [for_loop]. rewrite IH.
    cbn [seq map filter]. rewrite Z.add_0_r.
    rewrite <- seq_shift, map_map.
    rewrite (map_ext (fun j => lo + 1 + Z.of_nat j)
                     (fun j => lo + Z.of_nat (S j))) by (intros; lia).
    destruct (p lo); cbn [length]; lia.
Qed.

Lemma sel_firstn (l : list Z) (k : nat) (i : Z) :
  0 <= i < Z.of_nat k -> sel 0 (firstn k l) i = sel 0 l i.
Proof.
  intros H. unfold sel. rewrite nth_firstn.
  destruct (Nat.ltb_spec (Z.to_nat i) k); [reflexivity | lia].
Qed.

Lemma filter_ext_in_map (p p' : Z -> bool) (l : list Z) :
  (forall i, In i l -> p i = p' i) -> filter p l = filter p' l.
Proof.
  induction l as [|x r IH]; intros H; simpl; [reflexivity|].
  rewrite (H x) by (left; reflexivity).
  rewrite IH by (intros i Hi; apply H; right; exact Hi).
  reflexivity.
Qed.

(** What [ldpc_decode] returns once its two parameter checks pass. *)
Lemma ldpc_decode_unfold (ldpc : LDPCCodec) (w : LDPCWork) (received : list Z)
      (decoded_len : Z) :
  Z.of_nat (length received) = ldpc_n ldpc ->
  ldpc_k ldpc <= decoded_len ->
  exists decoded,
    ldpc_decode ldpc w received decoded_len
    = (FSO_SUCCESS, decoded, disagreements (ldpc_k ldpc) decoded received,
       fst (bp_run ldpc w received)) /\
    forall i, 0 <= i < ldpc_k ldpc ->
      sel 0 decoded i = sel 0 (decoded_bits (fst (bp_run ldpc w received))) i mod 256.
Proof.
  intros Hlen Hcap. unfold ldpc_decode.
  rewrite Hlen, Z.eqb_refl. cbn [negb].
  replace (ldpc_k ldpc <=? decoded_len) with true by (symmetry; apply Z.leb_le; lia).
  cbn [negb].
  destruct (bp_run ldpc w received) as [w' converged]. cbn [fst].
  set (k := ldpc_k ldpc) in *.
  set (buf := for_range 0 k _ (repeat 0 (Z.to_nat decoded_len))).
  assert (Hbuf : forall i, 0 <= i < k ->
                   sel 0 buf i = sel 0 (decoded_bits w') i mod 256).
  { destruct (Z.le_gt_cases 0 k) as [Hk|Hk]; [|intros; lia].
    assert (H : Z.of_nat (length buf) = decoded_len /\
                forall i, 0 <= i < k ->
                  sel 0 buf i = sel 0 (decoded_bits w') i mod 256).
    { subst buf.
      apply (for_range_invariant
               (fun j d => Z.of_nat (length d) = decoded_len /\
                  forall i, 0 <= i < j ->
                    sel 0 d i = sel 0 (decoded_bits w') i mod 256)); [lia| |].
      - split; [rewrite repeat_length; lia | intros; lia].
      - intros j d Hj (Ld & Hd). split; [rewrite length_upd; exact Ld|].
        intros i Hi. destruct (Z.eq_dec i j) as [->|Hne].
        + apply sel_upd_same; lia.
        + rewrite sel_upd_other by lia. apply Hd; lia. }
    apply H. }
  exists (firstn (Z.to_nat k) buf). split.
  - f_equal. f_equal. unfold for_range, disagreements.
    rewrite Z.sub_0_r.
    rewrite (count_loop (fun i => negb (sel 0 buf i =? sel 0 received i))).
    rewrite Z.add_0_l. f_equal. f_equal.
    apply filter_ext_in_map.
    intros i Hi. apply in_map_iff in Hi as (j & <- & Hj). apply in_seq in Hj.
    rewrite sel_firstn by lia. reflexivity.
  - intros i Hi. rewrite sel_firstn by lia. apply Hbuf; exact Hi.
Qed.

(** C10. When [ldpc_decode] has accepted its arguments, the count it
    stores through [errors_corrected] is the number of positions [i < k] at
    which the decoded word it returns differs from the received word; this
    holds whether the iteration converged or not. *)
Theorem ldpc_decode_error_count (ldpc : LDPCCodec) (w : LDPCWork)
        (received : list Z) (decoded_len : Z) :
  Z.of_nat (length received) = ldpc_n ldpc ->
  ldpc_k ldpc <= decoded_len ->
  forall code decoded errors w',
    ldpc_decode ldpc w received decoded_len = (code, decoded, errors, w') ->
    code = FSO_SUCCESS /\
    errors = disagreements (ldpc_k ldpc) decoded received.
Proof.
  intros Hlen Hcap code decoded errors w' H.
  destruct (ldpc_decode_unfold ldpc w received decoded_len Hlen Hcap)
    as (d & E & _).
  rewrite E in H. injection H as <- <- <- <-. split; reflexivity.
Qed.

(** The local [converged] of [ldpc_decode] is the answer of
    [ldpc_check_convergence] on the workspace the loop leaves behind, once
    the loop has run at least one round. *)
Lemma bp_loop_converged_is_check (rounds : nat) (ldpc : LDPCCodec) (w : LDPCWork) :
  (0 < rounds)%nat ->
  ldpc_check_convergence ldpc (fst (bp_loop rounds ldpc w))
  = snd (bp_loop rounds ldpc w).
Proof.
  revert w. induction rounds as [|r IH]; intros w Hr; [lia|].
  cbn [bp_loop].
  destruct (ldpc_check_convergence ldpc (bp_iteration ldpc w)) eqn:E.
  - cbn [fst snd]. exact E.
  - destruct r as [|r'].
    + cbn [bp_loop fst snd]. exact E.
    + apply IH. lia.
Qed.

Lemma bp_run_converged_is_check (ldpc : LDPCCodec) (w : LDPCWork)
      (received : list Z) :
  0 < max_iterations ldpc ->
  ldpc_check_convergence ldpc (fst (bp_run ldpc w received))
  = snd (bp_run ldpc w received).
Proof.
  intros Hmax. unfold bp_run. cbv zeta.
  apply bp_loop_converged_is_check. lia.
Qed.

(** C4, as the code has it. When the iteration runs out without a zero
    syndrome, [ldpc_decode] returns the current hard decisions of the [k]
    information positions together with [FSO_SUCCESS], and the statistics
    [fec_decode] derives from that are not marked uncorrectable: neither
    the return code nor the statistics report the failure. It shows in the
    codec only, where the non-zero syndrome of the last round is left and
    [ldpc_check_convergence] answers 0. *)
Theorem ldpc_decode_not_converged (ldpc : LDPCCodec) (w : LDPCWork)
        (received : list Z) (decoded_len : Z) :
  Z.of_nat (length received) = ldpc_n ldpc ->
  ldpc_k ldpc <= decoded_len ->
  0 < max_iterations ldpc ->
  snd (bp_run ldpc w received) = false ->
  exists decoded errors,
    ldpc_decode ldpc w received decoded_len
    = (FSO_SUCCESS, decoded, errors, fst (bp_run ldpc w received)) /\
    (forall i, 0 <= i < ldpc_k ldpc ->
       sel 0 decoded i
       = sel 0 (decoded_bits (fst (bp_run ldpc w received))) i mod 256) /\
    ldpc_check_convergence ldpc (fst (bp_run ldpc w received)) = false /\
    fec_decode_ldpc ldpc w received decoded_len
    = (FSO_SUCCESS, decoded, mkStats errors errors false).
Proof.
  intros Hlen Hcap Hmax Hnot.
  destruct (ldpc_decode_unfold ldpc w received decoded_len Hlen Hcap)
    as (d & E & Hd).
  exists d, (disagreements (ldpc_k ldpc) d received).
  split; [exact E|]. split; [exact Hd|]. split.
  - rewrite (bp_run_converged_is_check ldpc w received Hmax). exact Hnot.
  - unfold fec_decode_ldpc. rewrite E. reflexivity.
Qed.

(** *** A run that does not converge: LDPC(4, 2), one iteration *)

Section NotConverged.
Local Open Scope R_scope.

Lemma tanh_5_value :
  tanh (10.0 / 2.0) = (exp 5 - / exp 5) / (exp 5 + / exp 5).
Proof.
  replace (10.0 / 2.0) with 5 by lra.
  unfold tanh, sinh, cosh. rewrite exp_Ropp.
  assert (0 < exp 5) by apply exp_pos.
  assert (0 < / exp 5) by (apply Rinv_0_lt_compat; assumption).
  field. split; nra.
Qed.

Lemma exp_5_gt_6 : 6 < exp 5.
Proof. pose proof (exp_ineq1 5 ltac:(lra)). lra. Qed.

(** The magnitude is never exactly 5, the value at which the posterior of
    a received bit would vanish. *)
Lemma mag_3_cases : 5 < mag_3 \/ mag_3 < 5.
Proof.
  unfold mag_3, check_magnitude.
  set (s := 0.0 + phi_10 + phi_10 + phi_10).
  destruct (Rlt_dec s 1e-10) as [_|Hs1]; [left; lra|].
  destruct (Rgt_dec s 10.0) as [Hs2|Hs2].
  { right. assert (exp (- s) < exp 0) by (apply exp_increasing; lra).
    rewrite exp_0 in *. lra. }
  destruct (Rlt_dec (exp (- s)) (1.0 - 1e-10)) as [Ht|_]; [|left; lra].
  left.
  assert (Hphi : phi_10 = - ln (tanh (10.0 / 2.0))).
  { unfold phi_10, check_phi.
    destruct (Rlt_dec 10.0 1e-10) as [H|_]; [exfalso; lra|].
    destruct (Rgt_dec 10.0 10.0) as [H|_]; [exfalso; lra|].
    destruct (Rgt_dec (tanh (10.0 / 2.0)) 1e-10) as [_|Hn]; [reflexivity|].
    exfalso. apply Hs2. unfold s, phi_10, check_phi.
    destruct (Rlt_dec 10.0 1e-10) as [H|_]; [exfalso; lra|].
    destruct (Rgt_dec 10.0 10.0) as [H|_]; [exfalso; lra|].
    destruct (Rgt_dec (tanh (10.0 / 2.0)) 1e-10) as [H|_];
      [exfalso; apply Hn; exact H | lra]. }
  pose proof exp_5_gt_6 as Ha.
  set (a := exp 5) in *.
  assert (Ha' : 0 < / a) by (apply Rinv_0_lt_compat; lra).
  assert (HT : tanh (10.0 / 2.0) = (a - / a) / (a + / a))
    by apply tanh_5_value.
  set (T := tanh (10.0 / 2.0)) in *.
  assert (Hd : 1 - T = 2 / (a * a + 1)) by (rewrite HT; field; nra).
  assert (Hd0 : 0 < 2 / (a * a + 1))
    by (apply Rdiv_lt_0_compat; nra).
  assert (Hd1 : a * (2 / (a * a + 1)) < 1 / 3).
  { apply (Rmult_lt_reg_r (a * a + 1)); [nra|].
    replace (a * (2 / (a * a + 1)) * (a * a + 1)) with (2 * a) by (field; nra).
    nra. }
  assert (HT0 : 0 < T) by nra.
  assert (Het : exp (- s) = T * T * T).
  { unfold s. rewrite Hphi.
    replace (- (0.0 + - ln T + - ln T + - ln T)) with (ln T + ln T + ln T) by lra.
    rewrite !exp_plus, !exp_ln by exact HT0. reflexivity. }
  rewrite Het in *.
  set (t := T * T * T) in *.
  assert (Ht1 : 1 - t <= 3 * (1 - T)).
  { unfold t. set (d := 1 - T) in *. replace T with (1 - d) by (unfold d; lra).
    assert (0 < d) by lra. assert (d < 1) by nra. nra. }
  assert (Ht0 : 0 < t)
    by (unfold t; apply Rmult_lt_0_compat;
        [apply Rmult_lt_0_compat|]; exact HT0).
  assert (Ht2 : t < 1) by lra.
  unfold atanh.
  replace (2.0 * (/ 2 * ln ((1 + t) / (1 - t)))) with (ln ((1 + t) / (1 - t)))
    by lra.
  replace 5 with (ln a) by (unfold a; apply ln_exp).
  apply ln_increasing; [lra|].
  apply (Rmult_lt_reg_r (1 - t)); [lra|].
  replace ((1 + t) / (1 - t) * (1 - t)) with (1 + t) by (field; lra).
  nra.
Qed.

Lemma ldpc_4_2_value :
  ldpc_4_2
  = mkLDPC 4 2 2
      (mkSparse 2 4 8
         [mkElem 0 0 1; mkElem 0 1 1; mkElem 0 2 1; mkElem 0 3 1;
          mkElem 1 0 1; mkElem 1 1 1; mkElem 1 2 1; mkElem 1 3 1;
          elem0; elem0; elem0; elem0]
         [0; 4; 8]%Z
         [0; 1; 2; 3; 0; 1; 2; 3; 0; 0; 0; 0]%Z
         [1; 1; 1; 1; 1; 1; 1; 1; 0; 0; 0; 0]%Z)
      (mkSparse 2 4 4
         [mkElem 0 0 1; mkElem 0 2 1; mkElem 0 3 1; mkElem 1 1 1]
         [0; 3; 4]%Z [0; 2; 3; 1]%Z [1; 1; 1; 1]%Z)
      1
      (mkGraph [2; 2; 2; 2]%Z [4; 4]%Z
               [[0; 1]; [0; 1]; [0; 1]; [0; 1]]%Z
               [[0; 1; 2; 3]; [0; 1; 2; 3]]%Z).
Proof. vm_compute. reflexivity. Qed.

Ltac eval_codec :=
  cbv - [Rplus Rmult Ropp Rminus Rdiv Rinv IZR Q2R Rlt_dec Rgt_dec Rabs
         check_phi check_magnitude phi_10 mag_3 exp ln tanh atanh bp_loop].

Ltac decide_signs :=
  repeat match goal with
         | |- context [Rlt_dec ?a ?b] =>
             destruct (Rlt_dec a b); [try (exfalso; lra) | try (exfalso; lra)]
         end.

Lemma bp_run_4_2 :
  bp_run ldpc_4_2 (ldpc_init_work 4 2) [1; 0; 0; 0]%Z
  = bp_loop 1 ldpc_4_2 work_4_2.
Proof.
  rewrite ldpc_4_2_value. unfold bp_run, work_4_2. eval_codec. reflexivity.
Qed.

Lemma Rabs_10 : Rabs 10.0 = 10.0.
Proof. apply Rabs_pos_eq; lra. Qed.

Lemma Rabs_m10 : Rabs (- (10.0)) = 10.0.
Proof. rewrite Rabs_Ropp; apply Rabs_10. Qed.

(** The check-node update: both checks send [+mag_3] to the flipped bit
    and [-mag_3] to the three others. *)
Lemma check_messages_4_2 :
  check_to_variable (ldpc_update_check_messages ldpc_4_2 work_4_2)
  = [1.0 * mag_3; 1.0 * -1.0 * mag_3; 1.0 * -1.0 * mag_3; 1.0 * -1.0 * mag_3;
     1.0 * mag_3; 1.0 * -1.0 * mag_3; 1.0 * -1.0 * mag_3; 1.0 * -1.0 * mag_3].
Proof.
  rewrite ldpc_4_2_value.
  unfold ldpc_update_check_messages, work_4_2. eval_codec.
  decide_signs.
  rewrite Rabs_10, Rabs_m10.
  fold phi_10. fold mag_3. reflexivity.
Qed.

(** The variable-node update leaves the check messages, the channel
    values and the hard decisions alone. *)
Lemma posteriors_after_variable_update (ldpc : LDPCCodec) (w : LDPCWork) :
  decoded_bits (ldpc_update_posteriors ldpc (ldpc_update_variable_messages ldpc w))
  = decoded_bits (ldpc_update_posteriors ldpc w).
Proof.
  unfold ldpc_update_posteriors, ldpc_update_variable_messages.
  cbn [channel_llr check_to_variable posterior_llr decoded_bits].
  destruct (for_range _ _ _ _) as [post bits]. reflexivity.
Qed.

Lemma check_messages_keep (ldpc : LDPCCodec) (w : LDPCWork) :
  channel_llr (ldpc_update_check_messages ldpc w) = channel_llr w /\
  decoded_bits (ldpc_update_check_messages ldpc w) = decoded_bits w /\
  posterior_llr (ldpc_update_check_messages ldpc w) = posterior_llr w.
Proof. repeat split. Qed.

(** The hard decisions after the first iteration. *)
Lemma hard_decisions_4_2 (v2c post : list R) (syn : list Z) (M : R) :
  let w := mkWork v2c
             [1.0 * M; 1.0 * -1.0 * M; 1.0 * -1.0 * M; 1.0 * -1.0 * M;
              1.0 * M; 1.0 * -1.0 * M; 1.0 * -1.0 * M; 1.0 * -1.0 * M]
             post [- (10.0); 10.0; 10.0; 10.0] [0; 0; 0; 0]%Z syn in
  (5 < M -> decoded_bits (ldpc_update_posteriors ldpc_4_2 w) = [0; 1; 1; 1]%Z) /\
  (M < 5 -> decoded_bits (ldpc_update_posteriors ldpc_4_2 w) = [1; 0; 0; 0]%Z).
Proof.
  cbv zeta. rewrite ldpc_4_2_value.
  unfold ldpc_update_posteriors.
  split; intros HM; eval_codec; decide_signs; reflexivity.
Qed.

Lemma convergence_by_bits (ldpc : LDPCCodec) (w : LDPCWork) :
  row_ptr (ldpc_H ldpc) <> [] -> col_indices (ldpc_H ldpc) <> [] ->
  ldpc_check_convergence ldpc (ldpc_calculate_syndrome ldpc w)
  = syndrome_is_zero (ldpc_m ldpc)
      (syndrome_of (ldpc_H ldpc) (ldpc_m ldpc) (ldpc_n ldpc) (decoded_bits w)).
Proof.
  intros Hr Hc. unfold ldpc_check_convergence, ldpc_calculate_syndrome.
  cbn [ldpc_syndrome decoded_bits].
  destruct (row_ptr (ldpc_H ldpc)); [contradiction|].
  destruct (col_indices (ldpc_H ldpc)); [contradiction|].
  reflexivity.
Qed.

(** With one iteration allowed, the received word [1 0 0 0] leaves the
    decoder with both parity checks violated. *)
Lemma bp_run_4_2_not_converged :
  snd (bp_run ldpc_4_2 (ldpc_init_work 4 2) [1; 0; 0; 0]%Z) = false.
Proof.
  rewrite bp_run_4_2. cbn [bp_loop].
  assert (Hconv : ldpc_check_convergence ldpc_4_2 (bp_iteration ldpc_4_2 work_4_2)
                  = false).
  { unfold bp_iteration.
    rewrite convergence_by_bits
      by (rewrite ldpc_4_2_value; cbn; discriminate).
    rewrite posteriors_after_variable_update.
    set (w1 := ldpc_update_check_messages ldpc_4_2 work_4_2).
    assert (Hw1 : w1 = mkWork (variable_to_check w1)
                         [1.0 * mag_3; 1.0 * -1.0 * mag_3; 1.0 * -1.0 * mag_3;
                          1.0 * -1.0 * mag_3; 1.0 * mag_3; 1.0 * -1.0 * mag_3;
                          1.0 * -1.0 * mag_3; 1.0 * -1.0 * mag_3]
                         (posterior_llr w1) [- (10.0); 10.0; 10.0; 10.0]
                         [0; 0; 0; 0]%Z (ldpc_syndrome w1)).
    { pose proof check_messages_4_2 as Hc. fold w1 in Hc.
      destruct (check_messages_keep ldpc_4_2 work_4_2) as (Hl & Hb & _).
      fold w1 in Hl, Hb.
      destruct w1 as [a b c d e f]. cbn in *. subst. reflexivity. }
    rewrite Hw1.
    destruct (hard_decisions_4_2 (variable_to_check w1) (posterior_llr w1)
                                 (ldpc_syndrome w1) mag_3) as [Hgt Hlt].
    destruct mag_3_cases as [H|H].
    - rewrite (Hgt H). rewrite ldpc_4_2_value. vm_compute. reflexivity.
    - rewrite (Hlt H). rewrite ldpc_4_2_value. vm_compute. reflexivity. }
  rewrite Hconv. reflexivity.
Qed.

End NotConverged.

Lemma ldpc_decode_not_converged_witness :
  exists decoded errors,
    ldpc_decode ldpc_4_2 (ldpc_init_work 4 2) [1; 0; 0; 0] 2
    = (FSO_SUCCESS, decoded, errors,
       fst (bp_run ldpc_4_2 (ldpc_init_work 4 2) [1; 0; 0; 0])) /\
    (forall i, 0 <= i < ldpc_k ldpc_4_2 ->
       sel 0 decoded i
       = sel 0 (decoded_bits
                  (fst (bp_run ldpc_4_2 (ldpc_init_work 4 2) [1; 0; 0; 0]))) i
         mod 256) /\
    ldpc_check_convergence ldpc_4_2
      (fst (bp_run ldpc_4_2 (ldpc_init_work 4 2) [1; 0; 0; 0])) = false /\
    fec_decode_ldpc ldpc_4_2 (ldpc_init_work 4 2) [1; 0; 0; 0] 2
    = (FSO_SUCCESS, decoded, mkStats errors errors false).
Proof.
  apply (ldpc_decode_not_converged ldpc_4_2 (ldpc_init_work 4 2) [1; 0; 0; 0] 2);
    [vm_compute; reflexivity
    | vm_compute; discriminate
    | vm_compute; reflexivity
    | apply bp_run_4_2_not_converged].
Defined.

Lemma ldpc_decode_error_count_witness :
  fst (fst (fst (ldpc_decode ldpc_4_2 (ldpc_init_work 4 2) [1; 0; 0; 0] 2)))
  = FSO_SUCCESS /\
  snd (fst (ldpc_decode ldpc_4_2 (ldpc_init_work 4 2) [1; 0; 0; 0] 2))
  = disagreements (ldpc_k ldpc_4_2)
      (snd (fst (fst (ldpc_decode ldpc_4_2 (ldpc_init_work 4 2)
                                  [1; 0; 0; 0] 2))))
      [1; 0; 0; 0].
Proof.
  apply (ldpc_decode_error_count ldpc_4_2 (ldpc_init_work 4 2) [1; 0; 0; 0] 2)
    with (w' := snd (ldpc_decode ldpc_4_2 (ldpc_init_work 4 2) [1; 0; 0; 0] 2));
    [vm_compute; reflexivity | vm_compute; discriminate |].
  destruct (ldpc_decode ldpc_4_2 (ldpc_init_work 4 2) [1; 0; 0; 0] 2)
    as [[[code decoded] errors] w'].
  reflexivity.
Defined.

(** C4, as the specification words it, fails: on LDPC(4, 2) with one
    iteration allowed and the received word [1 0 0 0] the iteration ends
    with a non-zero syndrome, and the caller is handed [FSO_SUCCESS], an
    unqualified success, and statistics that are not marked
    uncorrectable. *)
Lemma ldpc_decode_not_converged_unreported :
  snd (bp_run ldpc_4_2 (ldpc_init_work 4 2) [1; 0; 0; 0]) = false /\
  fst (fst (fst (ldpc_decode ldpc_4_2 (ldpc_init_work 4 2) [1; 0; 0; 0] 2)))
  = FSO_SUCCESS /\
  fst (fst (fst (ldpc_decode ldpc_4_2 (ldpc_init_work 4 2) [1; 0; 0; 0] 2)))
  <> FSO_ERROR_CONVERGENCE /\
  uncorrectable
    (snd (fec_decode_ldpc ldpc_4_2 (ldpc_init_work 4 2) [1; 0; 0; 0] 2)) = false.
Proof.
  split; [apply bp_run_4_2_not_converged|].
  destruct (ldpc_decode_unfold ldpc_4_2 (ldpc_init_work 4 2) [1; 0; 0; 0] 2)
    as (d & E & _); [vm_compute; reflexivity | vm_compute; discriminate|].
  unfold fec_decode_ldpc. rewrite E. cbn [fst snd uncorrectable].
  repeat split. discriminate.
Qed.

(** ** Modulation *)

Lemma sel_app_l {A : Type} (d : A) (l r : list A) (i : Z) :
  0 <= i < Z.of_nat (length l) -> sel d (l ++ r) i = sel d l i.
Proof. intros H. unfold sel. apply app_nth1. lia. Qed.

Lemma sel_app_r {A : Type} (d : A) (l r : list A) (i : Z) :
  0 <= i -> sel d (l ++ r) (Z.of_nat (length l) + i) = sel d r i.
Proof.
  intros H. unfold sel. rewrite app_nth2 by lia. f_equal. lia.
Qed.

Lemma firstn_succ_sel {A : Type} (d : A) (l : list A) (j : Z) :
  0 <= j < Z.of_nat (length l) ->
  firstn (Z.to_nat j) l ++ [sel d l j] = firstn (Z.to_nat (j + 1)) l.
Proof.
  intros H. unfold sel.
  replace (Z.to_nat (j + 1)) with (S (Z.to_nat j)) by lia.
  assert (Hn : (Z.to_nat j < length l)%nat) by lia.
  revert Hn. generalize (Z.to_nat j). clear H j.
  induction l as [|x r IH]; intros [|n] Hn; simpl in *; try lia; auto.
  f_equal. apply IH. lia.
Qed.

Lemma for_down_loop_ext {St : Type} (f g : Z -> St -> St) (n : nat) (hi : Z) (s : St) :
  (forall i s', hi - Z.of_nat n < i <= hi -> f i s' = g i s') ->
  for_down_loop n hi f s = for_down_loop n hi g s.
Proof.
  revert hi s; induction n as [|n IH]; intros hi s H; cbn [for_down_loop].
  - reflexivity.
  - rewrite (H hi s) by lia. apply IH. intros i s' Hi. apply H. lia.
Qed.

Lemma div_mod_8 (j u : Z) :
  0 <= u < 8 -> (8 * j + u) / 8 = j /\ (8 * j + u) mod 8 = u.
Proof. intros H. Z.div_mod_to_equations. lia. Qed.

(** *** Bits and bytes *)

Lemma assemble_byte_bits :
  forallb
    (fun b => assemble (fun bit_idx => negb (Z.land (Z.shiftr b bit_idx) 1 =? 0)) =? b)
    (map Z.of_nat (seq 0 256)) = true.
Proof. vm_compute. reflexivity. Qed.

Lemma assemble_byte (b : Z) :
  0 <= b < 256 ->
  assemble (fun bit_idx => negb (Z.land (Z.shiftr b bit_idx) 1 =? 0)) = b.
Proof.
  intros Hb. pose proof assemble_byte_bits as H.
  rewrite forallb_forall in H.
  apply Z.eqb_eq. apply H. apply in_map_iff.
  exists (Z.to_nat b). split; [lia|]. apply in_seq. lia.
Qed.

Lemma assemble_ext (d d' : Z -> bool) :
  (forall i, 0 <= i <= 7 -> d i = d' i) -> assemble d = assemble d'.
Proof.
  intros H. unfold assemble, for_down.
  apply for_down_loop_ext. intros i s Hi. rewrite H; [reflexivity|].
  change (Z.of_nat (Z.to_nat (7 - 0 + 1))) with 8 in Hi. lia.
Qed.

Lemma bytes_sel (data : list Z) (j : Z) :
  bytes data -> 0 <= sel 0 data j < 256.
Proof.
  intros H. unfold sel.
  destruct (Nat.lt_ge_cases (Z.to_nat j) (length data)) as [Hlt|Hge].
  - unfold bytes in H. rewrite Forall_forall in H. apply H. apply nth_In. exact Hlt.
  - rewrite nth_overflow by exact Hge. lia.
Qed.

(** Decisions that equal the bits give back the bytes. *)
Lemma bytes_of_decisions_bits (decision : Z -> bool) (data : list Z) :
  bytes data ->
  (forall i, 0 <= i < 8 * Z.of_nat (length data) ->
     decision i = negb (data_bit data i =? 0)) ->
  bytes_of_decisions decision (Z.of_nat (length data)) = data.
Proof.
  intros Hb Hd. unfold bytes_of_decisions. rewrite Nat2Z.id.
  set (f := fun j => assemble (fun bit_idx => decision (8 * j + (7 - bit_idx)))).
  apply (nth_ext _ _ (f 0) 0).
  - rewrite !length_map, length_seq. reflexivity.
  - intros n Hn. rewrite !length_map, length_seq in Hn.
    rewrite (map_nth f _ 0 n). unfold f.
    assert (E : nth n (map Z.of_nat (seq 0 (length data))) 0 = Z.of_nat n).
    { rewrite (map_nth Z.of_nat _ 0%nat n), seq_nth by lia. reflexivity. }
    rewrite E.
    rewrite <- (assemble_byte (nth n data 0)).
    + apply assemble_ext. intros i Hi.
      rewrite Hd by lia. unfold data_bit.
      destruct (div_mod_8 (Z.of_nat n) (7 - i) ltac:(lia)) as [-> ->].
      unfold sel. rewrite Nat2Z.id.
      replace (7 - (7 - i)) with i by lia. reflexivity.
    + pose proof (bytes_sel data (Z.of_nat n) Hb) as H.
      unfold sel in H. rewrite Nat2Z.id in H. exact H.
Qed.

(** *** Loops that append one symbol per bit *)

Lemma append_loop_sel {A : Type} (d : A) (h : Z -> A) (n : nat) (hi : Z)
      (syms : list A) :
  let r := for_down_loop n hi (fun bit_idx s => s ++ [h bit_idx]) syms in
  Z.of_nat (length r) = Z.of_nat (length syms) + Z.of_nat n /\
  (forall i, 0 <= i < Z.of_nat (length syms) -> sel d r i = sel d syms i) /\
  (forall t, 0 <= t < Z.of_nat n ->
     sel d r (Z.of_nat (length syms) + t) = h (hi - t)).
Proof.
  revert hi syms; induction n as [|n IH]; intros hi syms; cbn [for_down_loop].
  - split; [lia|]. split; [auto|]. intros; lia.
  - specialize (IH (hi - 1) (syms ++ [h hi])). cbv zeta in IH.
    destruct IH as (Hl & Hold & Hnew).
    rewrite length_app in Hl, Hold, Hnew. cbn [length] in Hl, Hold, Hnew.
    split; [lia|]. split.
    + intros i Hi. rewrite Hold by lia. apply sel_app_l. lia.
    + intros t Ht. destruct (Z.eq_dec t 0) as [->|Hne].
      * rewrite Hold by lia. rewrite sel_app_r by lia.
        rewrite Z.sub_0_r. reflexivity.
      * replace (Z.of_nat (length syms) + t)
          with (Z.of_nat (length syms + 1) + (t - 1)) by lia.
        rewrite Hnew by lia. f_equal. lia.
Qed.

Lemma bytes_of_decisions_succ (decision : Z -> bool) (j : Z) :
  0 <= j ->
  bytes_of_decisions decision (j + 1) =
  bytes_of_decisions decision j
    ++ [assemble (fun bit_idx => decision (8 * j + (7 - bit_idx)))].
Proof.
  intros Hj. unfold bytes_of_decisions.
  replace (Z.to_nat (j + 1)) with (S (Z.to_nat j)) by lia.
  rewrite seq_S, !map_app. cbn [map Nat.add].
  rewrite Z2Nat.id by lia. reflexivity.
Qed.

Lemma bytes_of_decisions_ext (d d' : Z -> bool) (num_bytes : Z) :
  (forall i, 0 <= i < 8 * num_bytes -> d i = d' i) ->
  bytes_of_decisions d num_bytes = bytes_of_decisions d' num_bytes.
Proof.
  intros H. unfold bytes_of_decisions. apply map_ext_in.
  intros j Hj. apply in_map_iff in Hj. destruct Hj as (n & <- & Hn).
  apply in_seq in Hn. apply assemble_ext. intros i Hi. apply H. lia.
Qed.

(** *** OOK *)

Lemma ook_modulate_symbols (data : list Z) :
  data <> [] ->
  exists symbols,
    ook_modulate data = Ok symbols /\
    Z.of_nat (length symbols) = 8 * Z.of_nat (length data) /\
    forall i, 0 <= i < 8 * Z.of_nat (length data) ->
      sel 0%R symbols i = ook_symbol (data_bit data i).
Proof.
  intros Hne. unfold ook_modulate.
  assert (Hlen : 0 < Z.of_nat (length data)).
  { destruct data; [congruence | cbn [length]; lia]. }
  destruct (Z.ltb_spec 0 (Z.of_nat (length data))) as [_|]; [|lia].
  cbn [negb]. eexists. split; [reflexivity|].
  apply (for_range_invariant
           (fun j syms =>
              Z.of_nat (length syms) = 8 * j /\
              forall i, 0 <= i < 8 * j ->
                sel 0%R syms i = ook_symbol (data_bit data i))).
  - lia.
  - split; [reflexivity | intros; lia].
  - intros j syms Hj [Hl Hs].
    pose proof (append_loop_sel 0%R
                  (fun bit_idx =>
                     ook_symbol (Z.land (Z.shiftr (sel 0 data j) bit_idx) 1))
                  8 7 syms) as H.
    cbv zeta in H. destruct H as (Hl' & Hold & Hnew).
    split; [etransitivity; [exact Hl' | lia]|].
    intros i Hi. destruct (Z_lt_le_dec i (8 * j)) as [Hlt|Hge].
    + etransitivity; [apply Hold; lia | apply Hs; lia].
    + replace i with (Z.of_nat (length syms) + (i - 8 * j)) at 1 by lia.
      etransitivity; [apply Hnew; lia|].
      unfold data_bit.
      replace i with (8 * j + (i - 8 * j)) at 2 3 by lia.
      destruct (div_mod_8 j (i - 8 * j) ltac:(lia)) as [-> ->].
      reflexivity.
Qed.

Lemma ook_threshold_bounds (snr : R) :
  (0.3 <= ook_calculate_threshold snr <= 0.7)%R.
Proof.
  unfold ook_calculate_threshold.
  destruct (Rge_dec snr 10.0); [lra|].
  cbv zeta.
  destruct (Rgt_dec _ 0.7); destruct (Rlt_dec _ 0.3); lra.
Qed.

Lemma ook_demodulate_loop (symbols : list R) (threshold : R) (n : nat)
      (hi byte idx : Z) :
  for_down_loop n hi
    (fun bit_idx '(byte, symbol_idx) =>
       let symbol := sel 0%R symbols symbol_idx in
       let byte :=
         if Rge_dec symbol threshold
         then Z.lor byte (Z.shiftl 1 bit_idx) else byte in
       (byte, symbol_idx + 1))
    (byte, idx) =
  (for_down_loop n hi
     (fun bit_idx byte =>
        if ook_decision symbols threshold (idx + hi - bit_idx)
        then Z.lor byte (Z.shiftl 1 bit_idx) else byte)
     byte,
   idx + Z.of_nat n).
Proof.
  revert hi byte idx; induction n as [|n IH]; intros hi byte idx;
    cbn [for_down_loop].
  - f_equal. lia.
  - cbv zeta. rewrite IH.
    replace (idx + 1 + (hi - 1)) with (idx + hi) by lia.
    replace (idx + hi - hi) with idx by lia.
    replace (idx + 1 + Z.of_nat n) with (idx + Z.of_nat (S n)) by lia.
    assert (E : forall x y : Z,
               (if Rge_dec (sel 0%R symbols idx) threshold then x else y) =
               if ook_decision symbols threshold idx then x else y).
    { intros x y. unfold ook_decision.
      destruct (Rge_dec (sel 0%R symbols idx) threshold); reflexivity. }
    rewrite E. reflexivity.
Qed.

(** The OOK receiver assembles its threshold decisions into bytes. *)
Lemma ook_demodulate_decisions (symbols : list R) (snr : R) (num_bytes : Z) :
  0 < num_bytes ->
  Z.of_nat (length symbols) = 8 * num_bytes ->
  ook_demodulate symbols snr =
  Ok (bytes_of_decisions
        (ook_decision symbols (ook_calculate_threshold snr)) num_bytes).
Proof.
  intros Hn Hl. unfold ook_demodulate. rewrite Hl.
  destruct (Z.ltb_spec 0 (8 * num_bytes)) as [_|]; [|lia].
  replace (Z.rem (8 * num_bytes) 8) with 0
    by (rewrite Z.mul_comm, Z.rem_mul by lia; reflexivity).
  replace (Z.quot (8 * num_bytes) 8) with num_bytes
    by (rewrite Z.mul_comm, Z.quot_mul by lia; reflexivity).
  cbn [negb Z.eqb]. cbv zeta.
  set (thr := ook_calculate_threshold snr).
  match goal with
  | |- (let '(data, _) := for_range 0 num_bytes ?body ?s0 in _) = _ =>
      assert (H : for_range 0 num_bytes body s0 =
                  (bytes_of_decisions (ook_decision symbols thr) num_bytes,
                   8 * num_bytes))
  end.
  { apply (for_range_invariant
             (fun j st =>
                st = (bytes_of_decisions (ook_decision symbols thr) j, 8 * j))).
    - lia.
    - reflexivity.
    - intros j st Hj ->. unfold for_down.
      rewrite ook_demodulate_loop.
      rewrite bytes_of_decisions_succ by lia.
      f_equal; [|change (Z.of_nat (Z.to_nat (7 - 0 + 1))) with 8; lia].
      f_equal. f_equal. unfold assemble, for_down.
      apply for_down_loop_ext. intros i s' Hi.
      replace (8 * j + 7 - i) with (8 * j + (7 - i)) by lia. reflexivity. }
  rewrite H. reflexivity.
Qed.

Lemma ook_decision_symbol (threshold : R) (symbols : list R) (i bit : Z) :
  (0.3 <= threshold <= 0.7)%R ->
  sel 0%R symbols i = ook_symbol bit ->
  ook_decision symbols threshold i = negb (bit =? 0).
Proof.
  intros Ht Hs. unfold ook_decision. rewrite Hs. unfold ook_symbol.
  destruct (bit =? 0); cbn [negb]; destruct (Rge_dec _ threshold); auto; lra.
Qed.

(** OOK: demodulating what [ook_modulate] produced gives back the bytes,
    whatever the signal-to-noise ratio handed to the receiver. *)
Lemma ook_round_trip (data : list Z) (snr : R) :
  data <> [] -> bytes data ->
  exists symbols,
    ook_modulate data = Ok symbols /\ ook_demodulate symbols snr = Ok data.
Proof.
  intros Hne Hb.
  destruct (ook_modulate_symbols data Hne) as (symbols & Hm & Hl & Hs).
  exists symbols. split; [exact Hm|].
  assert (Hlen : 0 < Z.of_nat (length data)).
  { destruct data; [congruence | cbn [length]; lia]. }
  rewrite (ook_demodulate_decisions symbols snr _ Hlen Hl).
  f_equal. apply bytes_of_decisions_bits; [exact Hb|].
  intros i Hi. apply ook_decision_symbol.
  - apply ook_threshold_bounds.
  - apply Hs. exact Hi.
Qed.

(** *** DPSK *)

Lemma FSO_PI_pos : (0 < FSO_PI)%R.
Proof. unfold FSO_PI. lra. Qed.

Lemma cos_FSO_PI : (cos FSO_PI < 0)%R.
Proof.
  pose proof PI2_3_2. pose proof PI_4.
  apply cos_lt_0; unfold FSO_PI; lra.
Qed.

Lemma wrap_above_id (fuel : nat) (phase : R) :
  (phase <= FSO_PI)%R -> wrap_above fuel phase = phase.
Proof.
  intros H. destruct fuel; cbn [wrap_above]; [reflexivity|].
  destruct (Rgt_dec phase FSO_PI); [lra | reflexivity].
Qed.

Lemma wrap_below_id (fuel : nat) (phase : R) :
  (- FSO_PI <= phase)%R -> wrap_below fuel phase = phase.
Proof.
  intros H. destruct fuel; cbn [wrap_below]; [reflexivity|].
  destruct (Rlt_dec phase (- FSO_PI)); [lra | reflexivity].
Qed.

Lemma dpsk_step_spec (fuel : nat) (phase : R) (bit : Z) :
  (1 <= fuel)%nat ->
  (- FSO_PI <= phase <= FSO_PI)%R ->
  (- FSO_PI <= dpsk_step fuel phase bit <= FSO_PI)%R /\
  (bit = 0 -> dpsk_step fuel phase bit = phase) /\
  (bit <> 0 ->
   dpsk_step fuel phase bit = (phase + FSO_PI)%R \/
   dpsk_step fuel phase bit = (phase - FSO_PI)%R).
Proof.
  intros Hf Hp. pose proof FSO_PI_pos as Hpi. unfold dpsk_step.
  destruct (Z.eqb_spec bit 0) as [Hb|Hb].
  - rewrite wrap_above_id by lra. rewrite wrap_below_id by lra.
    split; [lra|]. split; [intros _; lra | intros; contradiction].
  - destruct fuel as [|f]; [lia|]. cbn [wrap_above].
    destruct (Rgt_dec (phase + FSO_PI) FSO_PI).
    + rewrite wrap_above_id by lra. rewrite wrap_below_id by lra.
      split; [lra|]. split; [intros; contradiction | right; lra].
    + rewrite wrap_below_id by lra.
      split; [lra|]. split; [intros; contradiction | left; reflexivity].
Qed.

Lemma dpsk_phase_bounds (fuel : nat) (data : list Z) (phi0 : R) (n : nat) :
  (1 <= fuel)%nat ->
  (- FSO_PI <= phi0 <= FSO_PI)%R ->
  (- FSO_PI <= dpsk_phase fuel data phi0 n <= FSO_PI)%R.
Proof.
  intros Hf H0. induction n as [|n IH]; cbn [dpsk_phase]; [exact H0|].
  apply dpsk_step_spec; assumption.
Qed.

Lemma dpsk_product (phi phi' : R) :
  real (fso_complex_mul (fso_complex_from_polar 1.0 phi')
          (fso_complex_conjugate (fso_complex_from_polar 1.0 phi)))
  = cos (phi' - phi).
Proof.
  unfold fso_complex_mul, fso_complex_conjugate, fso_complex_from_polar.
  cbn [real imag]. rewrite cos_minus. lra.
Qed.

(** Between two consecutive transmitter phases the receiver decides the bit. *)
Lemma dpsk_decide_bit (fuel : nat) (phase : R) (bit : Z) :
  (1 <= fuel)%nat ->
  (- FSO_PI <= phase <= FSO_PI)%R ->
  (if Rlt_dec
        (real (fso_complex_mul
                 (fso_complex_from_polar 1.0 (dpsk_step fuel phase bit))
                 (fso_complex_conjugate (fso_complex_from_polar 1.0 phase))))
        0.0%R
   then true else false) = negb (bit =? 0).
Proof.
  intros Hf Hp. rewrite dpsk_product.
  destruct (dpsk_step_spec fuel phase bit Hf Hp) as (_ & H0 & H1).
  pose proof cos_FSO_PI as Hc.
  destruct (Z.eqb_spec bit 0) as [Hb|Hb]; cbn [negb].
  - rewrite (H0 Hb). replace (phase - phase)%R with 0%R by lra.
    rewrite cos_0. destruct (Rlt_dec 1 0.0); [lra | reflexivity].
  - destruct (H1 Hb) as [-> | ->].
    + replace (phase + FSO_PI - phase)%R with FSO_PI by lra.
      destruct (Rlt_dec (cos FSO_PI) 0.0); [reflexivity | lra].
    + replace (phase - FSO_PI - phase)%R with (- FSO_PI)%R by lra.
      rewrite cos_neg.
      destruct (Rlt_dec (cos FSO_PI) 0.0); [reflexivity | lra].
Qed.

Lemma dpsk_modulate_loop (fuel : nat) (data : list Z) (phi0 : R) (byte : Z)
      (n : nat) (hi : Z) (syms : list ComplexSample) :
  (forall t, 0 <= t < Z.of_nat n ->
     Z.land (Z.shiftr byte (hi - t)) 1 =
     data_bit data (Z.of_nat (length syms) + t)) ->
  exists r,
    for_down_loop n hi
      (fun bit_idx '(symbols, current_phase) =>
         let bit := Z.land (Z.shiftr byte bit_idx) 1 in
         let phase_change := if bit =? 0 then 0.0%R else FSO_PI in
         let current_phase := (current_phase + phase_change)%R in
         let current_phase := wrap_above fuel current_phase in
         let current_phase := wrap_below fuel current_phase in
         (symbols ++ [fso_complex_from_polar 1.0 current_phase], current_phase))
      (syms, dpsk_phase fuel data phi0 (length syms))
    = (r, dpsk_phase fuel data phi0 (length syms + n)) /\
    length r = (length syms + n)%nat /\
    (forall i, 0 <= i < Z.of_nat (length syms) ->
       sel (mkComplex 0 0) r i = sel (mkComplex 0 0) syms i) /\
    (forall t, (length syms <= t < length syms + n)%nat ->
       sel (mkComplex 0 0) r (Z.of_nat t) =
       fso_complex_from_polar 1.0 (dpsk_phase fuel data phi0 (S t))).
Proof.
  revert hi syms; induction n as [|n IH]; intros hi syms Hbits;
    cbn [for_down_loop].
  - exists syms. rewrite Nat.add_0_r. split; [reflexivity|].
    split; [reflexivity|]. split; [auto|]. intros; lia.
  - cbv zeta.
    assert (Hstep :
      wrap_below fuel
        (wrap_above fuel
           (dpsk_phase fuel data phi0 (length syms) +
            (if Z.land (Z.shiftr byte hi) 1 =? 0 then 0.0 else FSO_PI))%R)
      = dpsk_phase fuel data phi0 (S (length syms))).
    { cbn [dpsk_phase]. unfold dpsk_step.
      pose proof (Hbits 0 ltac:(lia)) as Hb0.
      rewrite Z.sub_0_r, Z.add_0_r in Hb0. rewrite Hb0. reflexivity. }
    rewrite Hstep.
    set (syms' := syms ++
           [fso_complex_from_polar 1.0
              (dpsk_phase fuel data phi0 (S (length syms)))]).
    assert (Hl : length syms' = S (length syms)).
    { unfold syms'. rewrite length_app. cbn [length]. lia. }
    destruct (IH (hi - 1) syms') as (r & Hr & Hlr & Hold & Hnew).
    { intros t Ht. rewrite Hl.
      replace (hi - 1 - t) with (hi - (t + 1)) by lia.
      rewrite Hbits by lia. f_equal. lia. }
    rewrite Hl in Hr, Hlr, Hold, Hnew. cbv zeta in Hr.
    exists r. split.
    { rewrite Hr. f_equal. f_equal. lia. }
    split; [lia|]. split.
    + intros i Hi. rewrite Hold by lia. unfold syms'. apply sel_app_l. lia.
    + intros t Ht. destruct (Nat.eq_dec t (length syms)) as [->|Hne].
      * rewrite Hold by lia. unfold syms'.
        replace (Z.of_nat (length syms)) with (Z.of_nat (length syms) + 0) by lia.
        rewrite sel_app_r by lia. reflexivity.
      * apply Hnew. lia.
Qed.

Lemma dpsk_modulate_symbols (fuel : nat) (data : list Z) (state : DPSKState) :
  data <> [] ->
  exists symbols,
    dpsk_modulate fuel data state =
    Ok (symbols,
        mkDPSK (dpsk_phase fuel data (dpsk_reference state) (8 * length data)) 1) /\
    Z.of_nat (length symbols) = 8 * Z.of_nat (length data) /\
    forall i, (i < 8 * length data)%nat ->
      sel (mkComplex 0 0) symbols (Z.of_nat i) =
      fso_complex_from_polar 1.0
        (dpsk_phase fuel data (dpsk_reference state) (S i)).
Proof.
  intros Hne. unfold dpsk_modulate.
  assert (Hlen : 0 < Z.of_nat (length data)).
  { destruct data; [congruence | cbn [length]; lia]. }
  destruct (Z.ltb_spec 0 (Z.of_nat (length data))) as [_|]; [|lia].
  cbn [negb]. cbv zeta.
  fold (dpsk_reference state).
  set (phi0 := dpsk_reference state).
  pose (P := fun (j : Z) (st : list ComplexSample * R) =>
               exists symbols,
                 st = (symbols, dpsk_phase fuel data phi0 (length symbols)) /\
                 Z.of_nat (length symbols) = 8 * j /\
                 forall i, (i < length symbols)%nat ->
                   sel (mkComplex 0 0) symbols (Z.of_nat i) =
                   fso_complex_from_polar 1.0
                     (dpsk_phase fuel data phi0 (S i))).
  match goal with
  | |- exists _, (let '(_, _) := for_range 0 _ ?body ?s0 in _) = _ /\ _ =>
      assert (H : P (Z.of_nat (length data))
                    (for_range 0 (Z.of_nat (length data)) body s0))
  end.
  { apply (for_range_invariant P); unfold P.
    - lia.
    - exists []. split; [reflexivity|]. split; [reflexivity|].
      cbn [length]. intros; lia.
    - intros j st Hj (syms & -> & Hl & Hs).
      destruct (dpsk_modulate_loop fuel data phi0 (sel 0 data j) 8 7 syms)
        as (r & Hr & Hlr & Hold & Hnew).
      { intros t Ht. unfold data_bit.
        replace (Z.of_nat (length syms) + t) with (8 * j + t) by lia.
        destruct (div_mod_8 j t ltac:(lia)) as [-> ->]. reflexivity. }
      exists r. split.
      { unfold for_down.
        change (Z.to_nat (7 - 0 + 1)) with 8%nat.
        etransitivity; [exact Hr|]. rewrite Hlr. reflexivity. }
      split; [lia|].
      intros i Hi. destruct (Nat.lt_ge_cases i (length syms)) as [Hlt|Hge].
      + rewrite Hold by lia. apply Hs. exact Hlt.
      + apply Hnew. lia. }
  destruct H as (symbols & -> & Hl & Hs).
  exists symbols.
  replace (8 * length data)%nat with (length symbols) by lia.
  split; [reflexivity|]. split; [exact Hl | exact Hs].
Qed.

Lemma dpsk_demodulate_loop (symbols : list ComplexSample) (ref : ComplexSample)
      (n : nat) (hi byte idx : Z) :
  0 <= idx ->
  for_down_loop n hi
    (fun bit_idx '(byte, prev_symbol, symbol_idx) =>
       let current_symbol := sel (mkComplex 0 0) symbols symbol_idx in
       let diff :=
         fso_complex_mul current_symbol (fso_complex_conjugate prev_symbol) in
       let byte :=
         if Rlt_dec (real diff) 0.0%R
         then Z.lor byte (Z.shiftl 1 bit_idx) else byte in
       (byte, current_symbol, symbol_idx + 1))
    (byte, dpsk_previous symbols ref idx, idx) =
  (for_down_loop n hi
     (fun bit_idx byte =>
        if dpsk_decision symbols ref (idx + hi - bit_idx)
        then Z.lor byte (Z.shiftl 1 bit_idx) else byte)
     byte,
   dpsk_previous symbols ref (idx + Z.of_nat n),
   idx + Z.of_nat n).
Proof.
  revert hi byte idx; induction n as [|n IH]; intros hi byte idx Hidx;
    cbn [for_down_loop].
  - rewrite Z.add_0_r. reflexivity.
  - cbv zeta.
    assert (Hprev : sel (mkComplex 0 0) symbols idx =
                    dpsk_previous symbols ref (idx + 1)).
    { unfold dpsk_previous. destruct (Z.eqb_spec (idx + 1) 0); [lia|].
      f_equal. lia. }
    assert (E : forall x y : Z,
               (if Rlt_dec
                     (real (fso_complex_mul (sel (mkComplex 0 0) symbols idx)
                              (fso_complex_conjugate
                                 (dpsk_previous symbols ref idx))))
                     0.0%R
                then x else y) =
               if dpsk_decision symbols ref idx then x else y).
    { intros x y. unfold dpsk_decision.
      destruct (Rlt_dec _ 0.0%R); reflexivity. }
    rewrite E. rewrite Hprev at 1. rewrite IH by lia.
    replace (idx + 1 + (hi - 1)) with (idx + hi) by lia.
    replace (idx + hi - hi) with idx by lia.
    replace (idx + 1 + Z.of_nat n) with (idx + Z.of_nat (S n)) by lia.
    reflexivity.
Qed.

(** The DPSK receiver assembles its differential decisions into bytes; the
    first symbol is compared with the phase found in the state. *)
Lemma dpsk_demodulate_decisions (symbols : list ComplexSample)
      (state : DPSKState) (num_bytes : Z) :
  0 < num_bytes ->
  Z.of_nat (length symbols) = 8 * num_bytes ->
  exists state',
    dpsk_demodulate symbols state =
    Ok (bytes_of_decisions
          (dpsk_decision symbols
             (fso_complex_from_polar 1.0 (dpsk_reference state)))
          num_bytes,
        state').
Proof.
  intros Hn Hl. unfold dpsk_demodulate. rewrite Hl.
  destruct (Z.ltb_spec 0 (8 * num_bytes)) as [_|]; [|lia].
  replace (Z.rem (8 * num_bytes) 8) with 0
    by (rewrite Z.mul_comm, Z.rem_mul by lia; reflexivity).
  replace (Z.quot (8 * num_bytes) 8) with num_bytes
    by (rewrite Z.mul_comm, Z.quot_mul by lia; reflexivity).
  cbn [negb Z.eqb]. cbv zeta.
  set (ref := fso_complex_from_polar 1.0 (dpsk_reference state)).
  assert (Href : (if dpsk_initialized state =? 0
                  then fso_complex_from_polar 1.0 0.0
                  else fso_complex_from_polar 1.0 (last_phase state)) = ref).
  { unfold ref, dpsk_reference. destruct (dpsk_initialized state =? 0); reflexivity. }
  rewrite Href.
  match goal with
  | |- context [for_range 0 num_bytes ?body ?s0] =>
      assert (H : for_range 0 num_bytes body s0 =
                  (bytes_of_decisions (dpsk_decision symbols ref) num_bytes,
                   dpsk_previous symbols ref (8 * num_bytes),
                   8 * num_bytes))
  end.
  { apply (for_range_invariant
             (fun j st =>
                st = (bytes_of_decisions (dpsk_decision symbols ref) j,
                      dpsk_previous symbols ref (8 * j), 8 * j))).
    - lia.
    - reflexivity.
    - intros j st Hj ->. unfold for_down.
      rewrite dpsk_demodulate_loop by lia.
      rewrite bytes_of_decisions_succ by lia.
      change (Z.of_nat (Z.to_nat (7 - 0 + 1))) with 8.
      replace (8 * (j + 1)) with (8 * j + 8) by lia.
      f_equal. f_equal. f_equal. f_equal. unfold assemble, for_down.
      apply for_down_loop_ext. intros i s' Hi.
      replace (8 * j + 7 - i) with (8 * j + (7 - i)) by lia. reflexivity. }
  rewrite H. eexists. reflexivity.
Qed.

(** The decisions of the receiver on a modulated stream: every bit but the
    first is recovered whatever the receiver's reference phase is; the first
    one compares the first transmitted phase with that reference. *)
Lemma dpsk_decision_modulated (fuel : nat) (data : list Z) (phi0 : R)
      (symbols : list ComplexSample) (ref : ComplexSample) (i : Z) :
  (1 <= fuel)%nat ->
  (- FSO_PI <= phi0 <= FSO_PI)%R ->
  (forall i, (i < 8 * length data)%nat ->
     sel (mkComplex 0 0) symbols (Z.of_nat i) =
     fso_complex_from_polar 1.0 (dpsk_phase fuel data phi0 (S i))) ->
  0 <= i < 8 * Z.of_nat (length data) ->
  (i <> 0 \/ ref = fso_complex_from_polar 1.0 phi0) ->
  dpsk_decision symbols ref i = negb (data_bit data i =? 0).
Proof.
  intros Hf H0 Hs Hi Href.
  unfold dpsk_decision.
  assert (Hcur : sel (mkComplex 0 0) symbols i =
                 fso_complex_from_polar 1.0
                   (dpsk_phase fuel data phi0 (S (Z.to_nat i)))).
  { rewrite <- Hs by lia. f_equal. lia. }
  assert (Hprev : dpsk_previous symbols ref i =
                  fso_complex_from_polar 1.0
                    (dpsk_phase fuel data phi0 (Z.to_nat i))).
  { unfold dpsk_previous. destruct (Z.eqb_spec i 0) as [->|Hne].
    - destruct Href as [?| ->]; [contradiction | reflexivity].
    - replace (Z.to_nat i) with (S (Z.to_nat (i - 1))) by lia.
      rewrite <- Hs by lia. f_equal. lia. }
  rewrite Hcur, Hprev. cbn [dpsk_phase]. rewrite Z2Nat.id by lia.
  apply dpsk_decide_bit; [exact Hf|].
  apply dpsk_phase_bounds; assumption.
Qed.

(** DPSK: a receiver whose reference phase is the phase the transmitter
    started from gives back the bytes. *)
Lemma dpsk_round_trip (fuel : nat) (data : list Z) (tx rx : DPSKState) :
  (1 <= fuel)%nat ->
  data <> [] -> bytes data ->
  (- FSO_PI <= dpsk_reference tx <= FSO_PI)%R ->
  dpsk_reference rx = dpsk_reference tx ->
  exists symbols tx' rx',
    dpsk_modulate fuel data tx = Ok (symbols, tx') /\
    dpsk_demodulate symbols rx = Ok (data, rx').
Proof.
  intros Hf Hne Hb Hphi Hrx.
  destruct (dpsk_modulate_symbols fuel data tx Hne) as (symbols & Hm & Hl & Hs).
  assert (Hlen : 0 < Z.of_nat (length data)).
  { destruct data; [congruence | cbn [length]; lia]. }
  destruct (dpsk_demodulate_decisions symbols rx _ Hlen Hl) as (rx' & Hd).
  exists symbols. eexists. exists rx'. split; [exact Hm|].
  rewrite Hd. f_equal. f_equal.
  apply bytes_of_decisions_bits; [exact Hb|].
  intros i Hi.
  apply (dpsk_decision_modulated fuel data (dpsk_reference tx)); auto.
  right. rewrite Hrx. reflexivity.
Qed.

(** *** PPM: bit fields *)

Lemma list_eqb_eq (l1 l2 : list Z) : list_eqb l1 l2 = true -> l1 = l2.
Proof.
  revert l2; induction l1 as [|x r1 IH]; intros [|y r2]; cbn [list_eqb];
    try congruence.
  intros H. apply andb_prop in H. destruct H as [Hx Hr].
  apply Z.eqb_eq in Hx. subst y. f_equal. apply IH. exact Hr.
Qed.

Lemma in_byte_values (b : Z) : 0 <= b < 256 -> In b byte_values.
Proof.
  intros Hb. apply in_map_iff.
  exists (Z.to_nat b). split; [lia|]. apply in_seq. lia.
Qed.

(** A field that stays inside one byte. *)
Lemma window_ok_one_byte :
  forallb (fun nb =>
    forallb (fun r =>
      forallb (fun x0 => (8 <? r + nb) || window_ok [x0] r nb) byte_values)
      [0; 1; 2; 3; 4; 5; 6; 7])
    [1; 2; 3; 4] = true.
Proof. vm_compute. reflexivity. Qed.

Lemma window_step_one (x0 r nb : Z) :
  0 <= x0 < 256 -> 0 <= r -> 1 <= nb <= 4 -> r + nb <= 8 ->
  window_ok [x0] r nb = true.
Proof.
  intros Hx Hr Hnb Hfit. pose proof window_ok_one_byte as H.
  rewrite forallb_forall in H. specialize (H nb).
  rewrite forallb_forall in H.
  assert (Hin : In nb [1; 2; 3; 4]).
  { assert (nb = 1 \/ nb = 2 \/ nb = 3 \/ nb = 4) as [->|[->|[->| ->]]] by lia;
      cbn; auto. }
  specialize (H Hin r). rewrite forallb_forall in H.
  assert (Hinr : In r [0; 1; 2; 3; 4; 5; 6; 7]).
  { assert (r = 0 \/ r = 1 \/ r = 2 \/ r = 3 \/ r = 4 \/ r = 5 \/ r = 6 \/ r = 7)
      as [->|[->|[->|[->|[->|[->|[->| ->]]]]]]] by lia; cbn; auto 10. }
  specialize (H Hinr x0 (in_byte_values x0 Hx)).
  apply orb_prop in H. destruct H as [H|H]; [|exact H].
  apply Z.ltb_lt in H. lia.
Qed.

(** The two bit-field loops touch only the bytes the field lies in. *)

Lemma upd_app_l {A : Type} (w post : list A) (k : Z) (v : A) :
  0 <= k < Z.of_nat (length w) -> upd (w ++ post) k v = upd w k v ++ post.
Proof.
  intros Hk. unfold upd. destruct (Z.ltb_spec k 0); [lia|].
  assert (Hn : (Z.to_nat k < length w)%nat) by lia.
  revert Hn. generalize (Z.to_nat k). clear.
  induction w as [|x w IH]; intros [|n] Hn; cbn in *; try lia; auto.
  f_equal. apply IH. lia.
Qed.

Lemma upd_app_r {A : Type} (pre rest : list A) (k : Z) (v : A) :
  0 <= k ->
  upd (pre ++ rest) (Z.of_nat (length pre) + k) v = pre ++ upd rest k v.
Proof.
  intros Hk. unfold upd.
  destruct (Z.ltb_spec (Z.of_nat (length pre) + k) 0); [lia|].
  destruct (Z.ltb_spec k 0); [lia|].
  replace (Z.to_nat (Z.of_nat (length pre) + k))
    with (length pre + Z.to_nat k)%nat by lia.
  generalize (Z.to_nat k). clear.
  induction pre as [|x pre IH]; intros n; cbn; auto.
  f_equal. apply IH.
Qed.

Lemma extract_bits_loop_app_l (fuel : nat) (pre rest : list Z)
      (k bib res ext nb : Z) :
  0 <= k ->
  extract_bits_loop fuel (pre ++ rest) (Z.of_nat (length pre) + k) bib res ext nb
  = extract_bits_loop fuel rest k bib res ext nb.
Proof.
  revert k bib res ext; induction fuel as [|f IH]; intros k bib res ext Hk;
    cbn [extract_bits_loop]; [reflexivity|].
  destruct (ext <? nb); [|reflexivity]. cbv zeta.
  rewrite sel_app_r by lia.
  replace (Z.of_nat (length pre) + k + 1)
    with (Z.of_nat (length pre) + (k + 1)) by lia.
  apply IH. lia.
Qed.

Lemma insert_bits_loop_app_l (fuel : nat) (pre rest : list Z)
      (k bib bits ins nb : Z) :
  0 <= k ->
  insert_bits_loop fuel (pre ++ rest) (Z.of_nat (length pre) + k) bib bits ins nb
  = pre ++ insert_bits_loop fuel rest k bib bits ins nb.
Proof.
  revert rest k bib ins; induction fuel as [|f IH]; intros rest k bib ins Hk;
    cbn [insert_bits_loop]; [reflexivity|].
  destruct (ins <? nb); [|reflexivity]. cbv zeta.
  rewrite sel_app_r by lia. rewrite upd_app_r by lia.
  rewrite sel_app_r by lia. rewrite upd_app_r by lia.
  replace (Z.of_nat (length pre) + k + 1)
    with (Z.of_nat (length pre) + (k + 1)) by lia.
  apply IH. lia.
Qed.

Lemma extract_bits_loop_app_r (fuel : nat) (w post : list Z)
      (k bib res ext nb : Z) :
  0 <= k -> 0 <= bib < 8 ->
  nb - ext <= 8 * (Z.of_nat (length w) - k) - bib ->
  extract_bits_loop fuel (w ++ post) k bib res ext nb
  = extract_bits_loop fuel w k bib res ext nb.
Proof.
  revert k bib res ext; induction fuel as [|f IH];
    intros k bib res ext Hk Hbib Hfit; cbn [extract_bits_loop]; [reflexivity|].
  destruct (Z.ltb_spec ext nb) as [Hlt|]; [|reflexivity]. cbv zeta.
  rewrite sel_app_l by lia.
  apply IH; [lia | lia |].
  unfold FSO_MIN. destruct (Z.ltb_spec (nb - ext) (8 - bib)); lia.
Qed.

Lemma insert_bits_loop_app_r (fuel : nat) (w post : list Z)
      (k bib bits ins nb : Z) :
  0 <= k -> 0 <= bib < 8 ->
  nb - ins <= 8 * (Z.of_nat (length w) - k) - bib ->
  insert_bits_loop fuel (w ++ post) k bib bits ins nb
  = insert_bits_loop fuel w k bib bits ins nb ++ post.
Proof.
  revert w k bib ins; induction fuel as [|f IH];
    intros w k bib ins Hk Hbib Hfit; cbn [insert_bits_loop]; [reflexivity|].
  destruct (Z.ltb_spec ins nb) as [Hlt|]; [|reflexivity]. cbv zeta.
  rewrite sel_app_l by lia. rewrite upd_app_l by lia.
  rewrite sel_app_l by (rewrite length_upd; lia).
  rewrite upd_app_l by (rewrite length_upd; lia).
  apply IH; [lia | lia |].
  rewrite !length_upd.
  unfold FSO_MIN. destruct (Z.ltb_spec (nb - ins) (8 - bib)); lia.
Qed.

(** A field that straddles two bytes is handled one byte after the other. *)

Lemma extract_bits_loop_head (f : nat) (x0 : Z) (rest : list Z)
      (bib res ext nb : Z) :
  ext < nb ->
  extract_bits_loop (S f) (x0 :: rest) 0 bib res ext nb
  = extract_bits_loop f rest 0 0
      (extract_bits_loop 1 [x0] 0 bib res ext nb)
      (ext + FSO_MIN (nb - ext) (8 - bib)) nb.
Proof.
  intros H. cbn [extract_bits_loop].
  destruct (Z.ltb_spec ext nb); [|lia]. cbv zeta.
  change (sel 0 (x0 :: rest) 0) with x0. change (sel 0 [x0] 0) with x0.
  change (x0 :: rest) with ([x0] ++ rest).
  change (0 + 1) with (Z.of_nat (length [x0]) + 0).
  apply extract_bits_loop_app_l. lia.
Qed.

Lemma insert_bits_loop_head (f : nat) (y0 : Z) (rest : list Z)
      (bib bits ins nb : Z) :
  ins < nb ->
  insert_bits_loop (S f) (y0 :: rest) 0 bib bits ins nb
  = insert_bits_loop 1 [y0] 0 bib bits ins nb
    ++ insert_bits_loop f rest 0 0 bits
         (ins + FSO_MIN (nb - ins) (8 - bib)) nb.
Proof.
  intros H. cbn [insert_bits_loop].
  destruct (Z.ltb_spec ins nb); [|lia]. cbv zeta.
  unfold upd, sel. cbn [Z.ltb Z.compare Z.to_nat set_nth nth].
  match goal with
  | |- insert_bits_loop f (?b :: rest) _ _ _ _ _ = _ =>
      change (b :: rest) with ([b] ++ rest);
      change (0 + 1) with (Z.of_nat (length [b]) + 0)
  end.
  apply insert_bits_loop_app_l. lia.
Qed.

(** First byte of a three-bit field that starts at bit 6 or 7: the bits
    read are the low bits of the byte, and writing them back restores it. *)
Lemma straddle_first_byte :
  forallb (fun r =>
    forallb (fun x0 =>
      let e0 := extract_bits_loop 1 [x0] 0 r 0 0 3 in
      (0 <=? e0) && (e0 <? 2 ^ (8 - r)) &&
      forallb (fun c =>
                 negb (Z.shiftr c (r - 5) =? e0) ||
                 list_eqb (insert_bits_loop 1 [keep_top r x0] 0 r c 0 3) [x0])
              [0; 1; 2; 3; 4; 5; 6; 7])
      byte_values)
    [6; 7] = true.
Proof. vm_compute. reflexivity. Qed.

(** Second byte: the field is completed from the top bits of the byte. *)
Lemma straddle_second_byte :
  forallb (fun r =>
    forallb (fun e0 =>
      (2 ^ (8 - r) <=? e0) ||
      forallb (fun x1 =>
                 let c := extract_bits_loop 2 [x1] 0 0 e0 (8 - r) 3 in
                 (0 <=? c) && (c <? 8) && (Z.shiftr c (r - 5) =? e0) &&
                 list_eqb (insert_bits_loop 2 [0] 0 0 c (8 - r) 3)
                          [keep_top (r - 5) x1])
              byte_values)
      [0; 1; 2; 3])
    [6; 7] = true.
Proof. vm_compute. reflexivity. Qed.

Lemma list_eqb_refl (l : list Z) : list_eqb l l = true.
Proof.
  induction l as [|x l IH]; cbn [list_eqb]; [reflexivity|].
  rewrite Z.eqb_refl. exact IH.
Qed.

Lemma window_step_two (x0 x1 r : Z) :
  0 <= x0 < 256 -> 0 <= x1 < 256 -> 6 <= r < 8 ->
  window_ok [x0; x1] r 3 = true.
Proof.
  intros Hx0 Hx1 Hr.
  assert (Hinr : In r [6; 7]).
  { assert (r = 6 \/ r = 7) as [->| ->] by lia; cbn; auto. }
  assert (Hpow : 2 ^ (8 - r) <= 4).
  { assert (r = 6 \/ r = 7) as [->| ->] by lia; cbn; lia. }
  pose proof straddle_first_byte as H1.
  rewrite forallb_forall in H1. specialize (H1 r Hinr).
  rewrite forallb_forall in H1. specialize (H1 x0 (in_byte_values x0 Hx0)).
  cbv zeta in H1.
  apply andb_prop in H1. destruct H1 as [He Hc].
  apply andb_prop in He. destruct He as [He0 He1].
  apply Z.leb_le in He0. apply Z.ltb_lt in He1.
  set (e0 := extract_bits_loop 1 [x0] 0 r 0 0 3) in *.
  rewrite forallb_forall in Hc.
  pose proof straddle_second_byte as H2.
  rewrite forallb_forall in H2. specialize (H2 r Hinr).
  rewrite forallb_forall in H2.
  assert (Hine : In e0 [0; 1; 2; 3]).
  { assert (e0 = 0 \/ e0 = 1 \/ e0 = 2 \/ e0 = 3) as [->|[->|[->| ->]]] by lia;
      cbn; auto. }
  specialize (H2 e0 Hine).
  apply orb_prop in H2. destruct H2 as [H2|H2]; [apply Z.leb_le in H2; lia|].
  rewrite forallb_forall in H2. specialize (H2 x1 (in_byte_values x1 Hx1)).
  cbv zeta in H2.
  apply andb_prop in H2. destruct H2 as [H2 Hy1].
  apply andb_prop in H2. destruct H2 as [H2 Hsh].
  apply andb_prop in H2. destruct H2 as [Hc0 Hc1].
  set (c := extract_bits_loop 2 [x1] 0 0 e0 (8 - r) 3) in *.
  apply Z.leb_le in Hc0. apply Z.ltb_lt in Hc1.
  apply list_eqb_eq in Hy1.
  assert (Hinc : In c [0; 1; 2; 3; 4; 5; 6; 7]).
  { assert (c = 0 \/ c = 1 \/ c = 2 \/ c = 3 \/ c = 4 \/ c = 5 \/ c = 6 \/ c = 7)
      as [->|[->|[->|[->|[->|[->|[->| ->]]]]]]] by lia; cbn; auto 10. }
  specialize (Hc c Hinc). rewrite Hsh in Hc. cbn [negb orb] in Hc.
  apply list_eqb_eq in Hc.
  assert (Hmin : 0 + FSO_MIN (3 - 0) (8 - r) = 8 - r).
  { unfold FSO_MIN. destruct (Z.ltb_spec (3 - 0) (8 - r)); lia. }
  assert (Hcl : clear_from [x0; x1] r = [keep_top r x0; 0]).
  { unfold clear_from. rewrite Z.div_small, Z.mod_small by lia. reflexivity. }
  assert (Hcl' : clear_from [x0; x1] (r + 3) = [x0; keep_top (r - 5) x1]).
  { unfold clear_from.
    replace ((r + 3) / 8) with 1 by (Z.div_mod_to_equations; lia).
    replace ((r + 3) mod 8) with (r - 5) by (Z.div_mod_to_equations; lia).
    reflexivity. }
  unfold window_ok. rewrite Hcl, Hcl'.
  change (Z.to_nat 3) with 3%nat.
  rewrite extract_bits_loop_head by lia. rewrite Hmin.
  fold e0. fold c. cbv zeta.
  rewrite insert_bits_loop_head by lia. rewrite Hmin.
  rewrite Hc, Hy1. cbn [app]. rewrite list_eqb_refl.
  destruct (Z.leb_spec 0 c); [|lia].
  change (2 ^ 3) with 8. destruct (Z.ltb_spec c 8); [reflexivity | lia].
Qed.

(** [clear_from] on a sequence cut in two. *)

Lemma clear_from_app_l (pre rest : list Z) (q : Z) :
  0 <= q ->
  clear_from (pre ++ rest) (8 * Z.of_nat (length pre) + q)
  = pre ++ clear_from rest q.
Proof.
  intros Hq. unfold clear_from.
  assert (Hd : (8 * Z.of_nat (length pre) + q) / 8
               = Z.of_nat (length pre) + q / 8).
  { Z.div_mod_to_equations. lia. }
  assert (Hm : (8 * Z.of_nat (length pre) + q) mod 8 = q mod 8).
  { Z.div_mod_to_equations. lia. }
  rewrite Hd, Hm.
  assert (Hq8 : 0 <= q / 8) by (Z.div_mod_to_equations; lia).
  replace (Z.to_nat (Z.of_nat (length pre) + q / 8))
    with (length pre + Z.to_nat (q / 8))%nat by lia.
  rewrite firstn_app_2. rewrite skipn_app.
  rewrite skipn_all2 by lia.
  replace (length pre + Z.to_nat (q / 8) - length pre)%nat
    with (Z.to_nat (q / 8)) by lia.
  cbn [app]. rewrite <- app_assoc. reflexivity.
Qed.

Lemma clear_from_app_r (w post : list Z) (q : Z) :
  0 <= q <= 8 * Z.of_nat (length w) ->
  clear_from (w ++ post) q = clear_from w q ++ map (fun _ => 0) post.
Proof.
  intros Hq. unfold clear_from.
  assert (Hn : (Z.to_nat (q / 8) <= length w)%nat).
  { assert (q / 8 <= Z.of_nat (length w)) by (Z.div_mod_to_equations; lia).
    lia. }
  rewrite firstn_app, skipn_app.
  replace (Z.to_nat (q / 8) - length w)%nat with 0%nat by lia.
  cbn [firstn skipn]. rewrite app_nil_r.
  destruct (skipn (Z.to_nat (q / 8)) w) as [|x w'] eqn:Hsk.
  - assert (Hl : length (skipn (Z.to_nat (q / 8)) w) = 0%nat)
      by (rewrite Hsk; reflexivity).
    rewrite length_skipn in Hl.
    assert (Hm : q mod 8 = 0).
    { assert (q / 8 = Z.of_nat (length w)).
      { assert (0 <= q / 8) by (Z.div_mod_to_equations; lia). lia. }
      Z.div_mod_to_equations. lia. }
    rewrite Hm. cbn [app]. rewrite app_nil_r.
    destruct post as [|y post']; [reflexivity|]. reflexivity.
  - cbn [app]. rewrite map_app, <- app_assoc. reflexivity.
Qed.

Lemma length_clear_from (data : list Z) (p : Z) :
  length (clear_from data p) = length data.
Proof.
  unfold clear_from.
  rewrite <- (firstn_skipn (Z.to_nat (p / 8)) data) at 3.
  rewrite !length_app. f_equal.
  destruct (skipn (Z.to_nat (p / 8)) data); cbn [length]; [reflexivity|].
  rewrite length_map. reflexivity.
Qed.

Lemma map_zero_repeat (l : list Z) :
  map (fun _ => 0) l = repeat 0 (length l).
Proof. induction l as [|x l IH]; cbn; [reflexivity | f_equal; exact IH]. Qed.

Lemma clear_from_0 (data : list Z) :
  clear_from data 0 = repeat 0 (length data).
Proof.
  unfold clear_from. cbn. destruct data as [|x post]; [reflexivity|].
  cbn. f_equal. apply map_zero_repeat.
Qed.

Lemma clear_from_full (data : list Z) :
  clear_from data (8 * Z.of_nat (length data)) = data.
Proof.
  unfold clear_from.
  replace (8 * Z.of_nat (length data) / 8) with (Z.of_nat (length data))
    by (Z.div_mod_to_equations; lia).
  rewrite Nat2Z.id, firstn_all, skipn_all. apply app_nil_r.
Qed.

Lemma bytes_app (l1 l2 : list Z) : bytes (l1 ++ l2) -> bytes l1 /\ bytes l2.
Proof. unfold bytes. apply Forall_app. Qed.

(** The field of [nb] bits found at bit [r] of the first byte of [rest],
    written back into [rest] cleared from [r] on. *)
Lemma insert_extracted_front (rest : list Z) (r nb : Z) :
  bytes rest ->
  0 <= r < 8 -> 1 <= nb <= 4 ->
  r + nb <= 8 * Z.of_nat (length rest) ->
  r + nb <= 8 \/ nb = 3 ->
  let c := extract_bits_loop (Z.to_nat nb) rest 0 r 0 0 nb in
  0 <= c < 2 ^ nb /\
  insert_bits_loop (Z.to_nat nb) (clear_from rest r) 0 r c 0 nb
  = clear_from rest (r + nb).
Proof.
  intros Hb Hr Hnb Hlen Hcase.
  assert (Hw : exists w post,
             rest = w ++ post /\ window_ok w r nb = true /\
             r + nb <= 8 * Z.of_nat (length w)).
  { destruct rest as [|x0 post]; [cbn [length] in Hlen; lia|].
    destruct (Z_le_gt_dec (r + nb) 8) as [Hfit|Hcross].
    - exists [x0], post. split; [reflexivity|]. split; [|cbn [length]; lia].
      apply window_step_one; try lia.
      unfold bytes in Hb. apply Forall_inv in Hb. exact Hb.
    - destruct Hcase as [|Hnb3]; [lia|]. subst nb.
      destruct post as [|x1 post]; [cbn [length] in Hlen; lia|].
      exists [x0; x1], post. split; [reflexivity|]. split; [|cbn [length]; lia].
      unfold bytes in Hb. pose proof (Forall_inv Hb) as Hx0.
      pose proof (Forall_inv (Forall_inv_tail Hb)) as Hx1.
      apply window_step_two; [exact Hx0 | exact Hx1 | lia]. }
  destruct Hw as (w & post & -> & Hok & Hfit).
  cbv zeta.
  rewrite extract_bits_loop_app_r by lia.
  rewrite !clear_from_app_r by lia.
  rewrite insert_bits_loop_app_r by (rewrite ?length_clear_from; lia).
  unfold window_ok in Hok. cbv zeta in Hok.
  apply andb_prop in Hok. destruct Hok as [Hc Heq].
  apply andb_prop in Hc. destruct Hc as [Hc0 Hc1].
  apply Z.leb_le in Hc0. apply Z.ltb_lt in Hc1.
  apply list_eqb_eq in Heq.
  split; [lia|]. rewrite Heq. reflexivity.
Qed.

(** The same anywhere in a byte sequence: the PPM receiver, having put
    the bits before offset [p] in place, puts [nb] more in place. *)
Lemma insert_extracted (data : list Z) (p nb : Z) :
  bytes data ->
  0 <= p -> 1 <= nb <= 4 ->
  p + nb <= 8 * Z.of_nat (length data) ->
  p mod 8 + nb <= 8 \/ nb = 3 ->
  0 <= extract_bits data p nb < 2 ^ nb /\
  insert_bits (clear_from data p) p (extract_bits data p nb) nb
  = clear_from data (p + nb).
Proof.
  intros Hb Hp Hnb Hlen Hcase.
  set (idx := Z.to_nat (p / 8)).
  assert (Hidx : 0 <= p / 8 < Z.of_nat (length data))
    by (Z.div_mod_to_equations; lia).
  assert (Hr : 0 <= p mod 8 < 8) by (Z.div_mod_to_equations; lia).
  assert (Hsplit : data = firstn idx data ++ skipn idx data)
    by (symmetry; apply firstn_skipn).
  set (pre := firstn idx data) in *. set (rest := skipn idx data) in *.
  assert (Hlpre : Z.of_nat (length pre) = p / 8).
  { unfold pre. rewrite length_firstn. unfold idx. lia. }
  assert (Hlrest : Z.of_nat (length data)
                   = Z.of_nat (length pre) + Z.of_nat (length rest)).
  { rewrite Hsplit at 1. rewrite length_app. lia. }
  assert (Hbrest : bytes rest).
  { rewrite Hsplit in Hb. apply bytes_app in Hb. apply Hb. }
  assert (Hpeq : p = 8 * Z.of_nat (length pre) + p mod 8)
    by (rewrite Hlpre; Z.div_mod_to_equations; lia).
  destruct (insert_extracted_front rest (p mod 8) nb Hbrest Hr Hnb
              ltac:(lia) Hcase) as [Hc Hins].
  assert (Hq : Z.quot p 8 = Z.of_nat (length pre) + 0).
  { rewrite Z.quot_div_nonneg by lia. lia. }
  assert (Hrem : Z.rem p 8 = p mod 8) by (apply Z.rem_mod_nonneg; lia).
  assert (Hext : extract_bits data p nb
                 = extract_bits_loop (Z.to_nat nb) rest 0 (p mod 8) 0 0 nb).
  { unfold extract_bits. rewrite Hq, Hrem. rewrite Hsplit.
    apply extract_bits_loop_app_l. lia. }
  rewrite Hext. split; [exact Hc|].
  unfold insert_bits. rewrite Hq, Hrem.
  replace (clear_from data p) with (pre ++ clear_from rest (p mod 8)).
  2:{ rewrite Hsplit. rewrite Hpeq at 2. symmetry.
      apply clear_from_app_l. lia. }
  rewrite insert_bits_loop_app_l by lia.
  rewrite Hins.
  rewrite Hsplit.
  replace (p + nb) with (8 * Z.of_nat (length pre) + (p mod 8 + nb)) by lia.
  symmetry. apply clear_from_app_l. lia.
Qed.

(** *** PPM: symbols *)

Lemma ppm_order_ok_bits (ppm_order : Z) :
  ppm_order_ok ppm_order = true ->
  ppm_order_bits ppm_order (ppm_bits_per_symbol ppm_order).
Proof.
  unfold ppm_order_ok, ppm_order_bits, ppm_bits_per_symbol. intros H.
  destruct (Z.eqb_spec ppm_order 2); [auto|].
  destruct (Z.eqb_spec ppm_order 4); [auto|].
  destruct (Z.eqb_spec ppm_order 8); [auto 6|].
  destruct (Z.eqb_spec ppm_order 16); [auto 6|].
  discriminate H.
Qed.

Lemma ppm_pulse_slot_range (data : list Z) (ppm_order bits_per_sym j : Z) :
  bytes data ->
  ppm_order_bits ppm_order bits_per_sym ->
  0 <= j ->
  j * bits_per_sym + bits_per_sym <= 8 * Z.of_nat (length data) ->
  0 <= ppm_pulse_slot data bits_per_sym j < ppm_order /\
  insert_bits (clear_from data (j * bits_per_sym)) (j * bits_per_sym)
              (ppm_pulse_slot data bits_per_sym j) bits_per_sym
  = clear_from data (j * bits_per_sym + bits_per_sym).
Proof.
  intros Hb Ho Hj Hlen. unfold ppm_pulse_slot.
  assert (H : 0 <= extract_bits data (j * bits_per_sym) bits_per_sym
                < 2 ^ bits_per_sym /\
              insert_bits (clear_from data (j * bits_per_sym))
                (j * bits_per_sym)
                (extract_bits data (j * bits_per_sym) bits_per_sym)
                bits_per_sym
              = clear_from data (j * bits_per_sym + bits_per_sym)).
  { apply insert_extracted; [exact Hb | | | exact Hlen |];
      destruct Ho as [[_ ->]|[[_ ->]|[[_ ->]|[_ ->]]]]; try lia;
      left; Z.div_mod_to_equations; lia. }
  destruct H as [Hc Hins]. split; [|exact Hins].
  destruct Ho as [[-> ->]|[[-> ->]|[[-> ->]|[-> ->]]]];
    [change (2 ^ 1) with 2 in Hc | change (2 ^ 2) with 4 in Hc
     | change (2 ^ 3) with 8 in Hc | change (2 ^ 4) with 16 in Hc]; exact Hc.
Qed.

(** The maximum search of the receiver finds the pulse. *)
Lemma ppm_argmax (symbols : list R) (off ppm_order c : Z) :
  0 <= c < ppm_order ->
  (forall s, 0 <= s < ppm_order ->
     sel 0%R symbols (off + s) = if s =? c then 1.0%R else 0.0%R) ->
  for_range 1 ppm_order
    (fun slot '(max_slot, max_value) =>
       if Rgt_dec (sel 0%R symbols (off + slot)) max_value
       then (slot, sel 0%R symbols (off + slot))
       else (max_slot, max_value))
    (0, sel 0%R symbols off)
  = (c, 1.0%R).
Proof.
  intros Hc Hs.
  pose (P := fun (s : Z) (st : Z * R) =>
               st = if c <? s then (c, 1.0%R) else (0, 0.0%R)).
  match goal with
  | |- for_range 1 ppm_order ?body ?s0 = _ =>
      assert (H : P ppm_order (for_range 1 ppm_order body s0))
  end.
  { apply (for_range_invariant P); unfold P.
    - lia.
    - replace off with (off + 0) by lia. rewrite Hs by lia.
      destruct (Z.eqb_spec 0 c) as [<-|Hne].
      + reflexivity.
      + destruct (Z.ltb_spec c 1); [lia | reflexivity].
    - intros s st Hsr ->. rewrite Hs by lia.
      destruct (Z.ltb_spec c s) as [Hlt|Hge].
      + destruct (Z.eqb_spec s c); [lia|].
        destruct (Rgt_dec 0.0 1.0); [lra|].
        destruct (Z.ltb_spec c (s + 1)); [reflexivity | lia].
      + destruct (Z.eqb_spec s c) as [->|Hne].
        * destruct (Rgt_dec 1.0 0.0); [|lra].
          destruct (Z.ltb_spec c (c + 1)); [reflexivity | lia].
        * destruct (Rgt_dec 0.0 0.0); [lra|].
          destruct (Z.ltb_spec c (s + 1)); [lia | reflexivity]. }
  unfold P in H. rewrite H.
  destruct (Z.ltb_spec c ppm_order); [reflexivity | lia].
Qed.

Lemma ppm_modulate_symbols (data : list Z) (ppm_order num_symbols : Z) :
  data <> [] -> bytes data ->
  ppm_order_ok ppm_order = true ->
  8 * Z.of_nat (length data) = num_symbols * ppm_bits_per_symbol ppm_order ->
  exists symbols,
    ppm_modulate data ppm_order = Ok symbols /\
    Z.of_nat (length symbols) = num_symbols * ppm_order /\
    forall j s, 0 <= j < num_symbols -> 0 <= s < ppm_order ->
      sel 0%R symbols (j * ppm_order + s) =
      if s =? ppm_pulse_slot data (ppm_bits_per_symbol ppm_order) j
      then 1.0%R else 0.0%R.
Proof.
  intros Hne Hb Hok Hn. unfold ppm_modulate.
  assert (Hlen : 0 < Z.of_nat (length data)).
  { destruct data; [congruence | cbn [length]; lia]. }
  destruct (Z.ltb_spec 0 (Z.of_nat (length data))) as [_|]; [|lia].
  rewrite Hok. cbn [negb]. cbv zeta.
  pose proof (ppm_order_ok_bits ppm_order Hok) as Ho.
  set (b := ppm_bits_per_symbol ppm_order) in *.
  assert (Hb14 : 1 <= b <= 4 /\ 2 <= ppm_order <= 16)
    by (destruct Ho as [[-> ->]|[[-> ->]|[[-> ->]|[-> ->]]]]; lia).
  assert (Hns : Z.quot (Z.of_nat (length data) * 8 + b - 1) b = num_symbols).
  { rewrite Z.quot_div_nonneg by lia.
    replace (Z.of_nat (length data) * 8 + b - 1)
      with (num_symbols * b + (b - 1)) by lia.
    rewrite Z.div_add_l by lia. rewrite Z.div_small by lia. lia. }
  rewrite Hns.
  assert (Hnpos : 0 < num_symbols) by nia.
  pose (P := fun (j : Z) (st : list R * Z * Z) =>
     let '(syms, bit_offset, slot_offset) := st in
     bit_offset = j * b /\ slot_offset = j * ppm_order /\
     Z.of_nat (length syms) = num_symbols * ppm_order /\
     (forall j' s, 0 <= j' < j -> 0 <= s < ppm_order ->
        sel 0%R syms (j' * ppm_order + s) =
        if s =? ppm_pulse_slot data b j' then 1.0%R else 0.0%R) /\
     (forall i, j * ppm_order <= i -> sel 0%R syms i = 0.0%R)).
  match goal with
  | |- context [for_range 0 num_symbols ?body ?s0] =>
      assert (H : P num_symbols (for_range 0 num_symbols body s0))
  end.
  { apply (for_range_invariant P); unfold P.
    - lia.
    - split; [lia|]. split; [lia|]. split.
      + rewrite repeat_length. nia.
      + split; [intros; lia|]. intros i _.
        replace 0.0%R with 0%R by lra. apply sel_repeat.
    - intros j [[syms bo] so] Hj (-> & -> & Hl & Hdone & Hrest).
      assert (Hfit : j * b + b <= 8 * Z.of_nat (length data)) by nia.
      destruct (Z.leb_spec (j * b + b) (Z.of_nat (length data) * 8)); [|lia].
      destruct (ppm_pulse_slot_range data ppm_order b j Hb Ho ltac:(lia) Hfit)
        as [Hc _].
      fold (ppm_pulse_slot data b j).
      split; [lia|]. split; [lia|]. split; [rewrite length_upd; exact Hl|].
      split.
      + intros j' s Hj' Hs.
        destruct (Z.eq_dec j' j) as [->|Hjj].
        * destruct (Z.eqb_spec s (ppm_pulse_slot data b j)) as [->|Hsc].
          -- apply sel_upd_same. nia.
          -- rewrite sel_upd_other by nia. apply Hrest. lia.
        * rewrite sel_upd_other by nia. apply Hdone; lia.
      + intros i Hi. rewrite sel_upd_other by nia. apply Hrest. nia. }
  unfold P in H.
  destruct (for_range 0 num_symbols _ _) as [[syms bo] so].
  destruct H as (_ & _ & Hl & Hdone & _).
  exists syms. split; [reflexivity|]. split; [exact Hl|].
  intros j s Hj Hs. apply Hdone; assumption.
Qed.

(** The PPM receiver, on aligned data, puts the bits of one symbol after
    the other in place. *)
Lemma ppm_demodulate_symbols (data : list Z) (symbols : list R)
      (ppm_order num_symbols : Z) :
  data <> [] -> bytes data ->
  ppm_order_ok ppm_order = true ->
  8 * Z.of_nat (length data) = num_symbols * ppm_bits_per_symbol ppm_order ->
  Z.of_nat (length symbols) = num_symbols * ppm_order ->
  (forall j s, 0 <= j < num_symbols -> 0 <= s < ppm_order ->
     sel 0%R symbols (j * ppm_order + s) =
     if s =? ppm_pulse_slot data (ppm_bits_per_symbol ppm_order) j
     then 1.0%R else 0.0%R) ->
  ppm_demodulate symbols ppm_order = Ok data.
Proof.
  intros Hne Hb Hok Hn Hl Hs. unfold ppm_demodulate.
  assert (Hlen : 0 < Z.of_nat (length data)).
  { destruct data; [congruence | cbn [length]; lia]. }
  pose proof (ppm_order_ok_bits ppm_order Hok) as Ho.
  set (b := ppm_bits_per_symbol ppm_order) in *.
  assert (Hb14 : 1 <= b <= 4 /\ 2 <= ppm_order <= 16)
    by (destruct Ho as [[-> ->]|[[-> ->]|[[-> ->]|[-> ->]]]]; lia).
  assert (Hnpos : 0 < num_symbols) by nia.
  rewrite Hl.
  destruct (Z.ltb_spec 0 (num_symbols * ppm_order)) as [_|]; [|nia].
  rewrite Z.rem_mul by lia. rewrite Z.quot_mul by lia.
  rewrite Hok. cbn [negb Z.eqb]. cbv zeta.
  assert (Hnb : Z.quot (num_symbols * b + 7) 8 = Z.of_nat (length data)).
  { rewrite <- Hn. rewrite Z.quot_div_nonneg by lia.
    Z.div_mod_to_equations. lia. }
  rewrite Hnb. rewrite Nat2Z.id. rewrite <- clear_from_0.
  pose (P := fun (j : Z) (st : list Z * Z * Z) =>
               st = (clear_from data (j * b), j * b, j * ppm_order)).
  match goal with
  | |- context [for_range 0 num_symbols ?body ?s0] =>
      assert (H : P num_symbols (for_range 0 num_symbols body s0))
  end.
  { apply (for_range_invariant P); unfold P.
    - lia.
    - reflexivity.
    - intros j st Hj ->. cbv beta iota.
      assert (Hfit : j * b + b <= 8 * Z.of_nat (length data)) by nia.
      destruct (ppm_pulse_slot_range data ppm_order b j Hb Ho ltac:(lia) Hfit)
        as [Hc Hins].
      rewrite (ppm_argmax symbols (j * ppm_order) ppm_order
                 (ppm_pulse_slot data b j) Hc)
        by (intros s Hsr; apply Hs; lia).
      destruct (Z.leb_spec (j * b + b) (num_symbols * b)); [|nia].
      rewrite Z.mod_small by lia.
      rewrite Hins. f_equal; [f_equal|]; [f_equal; lia | lia | lia]. }
  unfold P in H. rewrite H. rewrite <- Hn. rewrite clear_from_full.
  reflexivity.
Qed.

(** PPM: when the bits of the data fill a whole number of symbols,
    demodulating what [ppm_modulate] produced gives back the bytes. *)
Lemma ppm_round_trip (data : list Z) (ppm_order : Z) :
  data <> [] -> bytes data ->
  ppm_order_ok ppm_order = true ->
  (8 * Z.of_nat (length data)) mod ppm_bits_per_symbol ppm_order = 0 ->
  exists symbols,
    ppm_modulate data ppm_order = Ok symbols /\
    ppm_demodulate symbols ppm_order = Ok data.
Proof.
  intros Hne Hb Hok Hal.
  pose proof (ppm_order_ok_bits ppm_order Hok) as Ho.
  assert (Hn : 8 * Z.of_nat (length data)
               = (8 * Z.of_nat (length data) / ppm_bits_per_symbol ppm_order)
                 * ppm_bits_per_symbol ppm_order).
  { revert Hal.
    destruct Ho as [[_ ->]|[[_ ->]|[[_ ->]|[_ ->]]]];
      intros Hal; Z.div_mod_to_equations; lia. }
  destruct (ppm_modulate_symbols data ppm_order _ Hne Hb Hok Hn)
    as (symbols & Hm & Hl & Hs).
  exists symbols. split; [exact Hm|].
  exact (ppm_demodulate_symbols data symbols ppm_order _ Hne Hb Hok Hn Hl Hs).
Qed.

(** *** Round trips *)

Lemma insert_bits_loop_length (fuel : nat) (data : list Z)
      (k bib bits ins nb : Z) :
  length (insert_bits_loop fuel data k bib bits ins nb) = length data.
Proof.
  revert data k bib ins; induction fuel as [|f IH]; intros data k bib ins;
    cbn [insert_bits_loop]; [reflexivity|].
  destruct (ins <? nb); [|reflexivity]. cbv zeta.
  rewrite IH, !length_upd. reflexivity.
Qed.

(** The PPM receiver returns as many bytes as the bits of the symbols
    need, a last partial byte included. *)
Lemma ppm_demodulate_length (symbols : list R) (ppm_order : Z) :
  0 < Z.of_nat (length symbols) ->
  Z.rem (Z.of_nat (length symbols)) ppm_order = 0 ->
  ppm_order_ok ppm_order = true ->
  exists decoded,
    ppm_demodulate symbols ppm_order = Ok decoded /\
    length decoded =
    Z.to_nat
      (Z.quot (Z.quot (Z.of_nat (length symbols)) ppm_order
               * ppm_bits_per_symbol ppm_order + 7) 8).
Proof.
  intros Hpos Hrem Hok. unfold ppm_demodulate.
  destruct (Z.ltb_spec 0 (Z.of_nat (length symbols))) as [_|]; [|lia].
  rewrite Hrem, Hok. cbn [negb Z.eqb]. cbv zeta.
  set (num_symbols := Z.quot (Z.of_nat (length symbols)) ppm_order).
  set (b := ppm_bits_per_symbol ppm_order).
  set (num_bytes := Z.to_nat (Z.quot (num_symbols * b + 7) 8)).
  pose (P := fun (j : Z) (st : list Z * Z * Z) =>
               length (fst (fst st)) = num_bytes).
  match goal with
  | |- context [for_range 0 num_symbols ?body ?s0] =>
      assert (H : P (FSO_MAX num_symbols 0)
                    (for_range 0 (FSO_MAX num_symbols 0) body s0) /\
                  for_range 0 (FSO_MAX num_symbols 0) body s0 =
                  for_range 0 num_symbols body s0)
  end.
  { split.
    - apply (for_range_invariant P); unfold P.
      + unfold FSO_MAX. destruct (Z.ltb_spec 0 num_symbols); lia.
      + cbn [fst]. apply repeat_length.
      + intros j [[d bo] so] Hj Hd. cbn [fst] in Hd. cbv beta iota.
        destruct (for_range 1 ppm_order _ _) as [max_slot max_value].
        cbn [fst].
        destruct (bo + b <=? num_symbols * b).
        * unfold insert_bits. rewrite insert_bits_loop_length. exact Hd.
        * destruct (0 <? num_symbols * b - bo); [|exact Hd].
          unfold insert_bits. rewrite insert_bits_loop_length. exact Hd.
    - unfold for_range, FSO_MAX.
      destruct (Z.ltb_spec 0 num_symbols); [reflexivity|].
      replace (Z.to_nat (num_symbols - 0)) with 0%nat by lia. reflexivity. }
  destruct H as [H E]. rewrite E in H. unfold P in H.
  destruct (for_range 0 num_symbols _ _) as [[d bo] so].
  exists d. split; [reflexivity | exact H].
Qed.

Lemma dpsk_step_zero (fuel : nat) (phase : R) :
  (- FSO_PI <= phase <= FSO_PI)%R -> dpsk_step fuel phase 0 = phase.
Proof.
  intros Hp. unfold dpsk_step. cbn [Z.eqb].
  rewrite wrap_above_id by lra. rewrite wrap_below_id by lra. lra.
Qed.

(** After the byte [0x80] the transmitter phase is the one it reached on
    the first bit. *)
Lemma dpsk_phase_0x80 (k : nat) :
  (1 <= k <= 8)%nat ->
  dpsk_phase 1 [128] 0.0%R k = dpsk_phase 1 [128] 0.0%R 1.
Proof.
  pose proof FSO_PI_pos as Hpi.
  induction k as [|k IH]; intros Hk; [lia|].
  destruct (Nat.eq_dec k 0) as [->|Hne]; [reflexivity|].
  rewrite <- IH by lia. cbn [dpsk_phase].
  assert (Hbit : data_bit [128] (Z.of_nat k) = 0).
  { do 8 (destruct k as [|k]; [try lia; vm_compute; reflexivity|]). lia. }
  rewrite Hbit. apply dpsk_step_zero.
  apply dpsk_phase_bounds; [lia | lra].
Qed.

(** The symbols of scenario S4: OOK sends the bits of [0xA5 0x5A], most
    significant bit first. *)
Lemma ook_modulate_0xA5_0x5A :
  ook_modulate [0xA5; 0x5A]
  = Ok [1.0; 0.0; 1.0; 0.0; 0.0; 1.0; 0.0; 1.0;
        0.0; 1.0; 0.0; 1.0; 1.0; 0.0; 1.0; 0.0]%R.
Proof. cbv - [IZR Q2R]. reflexivity. Qed.

(** The symbols of scenario S5: 4-PPM puts the pulses of [0x9C] in the
    slots 2, 1, 3, 0. *)
Lemma ppm_modulate_4_0x9C :
  ppm_modulate [0x9C] 4
  = Ok [0.0; 0.0; 1.0; 0.0;  0.0; 1.0; 0.0; 0.0;
        0.0; 0.0; 0.0; 1.0;  1.0; 0.0; 0.0; 0.0]%R.
Proof. cbv - [IZR Q2R]. reflexivity. Qed.

(** 8-PPM pads the one byte [0x9C] to three symbols, and the receiver
    returns two bytes for them. *)
Lemma ppm_8_one_byte_two_bytes :
  exists symbols decoded,
    ppm_modulate [0x9C] 8 = Ok symbols /\
    ppm_demodulate symbols 8 = Ok decoded /\
    length decoded = 2%nat.
Proof.
  eexists.
  assert (Hm : ppm_modulate [0x9C] 8
               = Ok [0.0; 0.0; 0.0; 0.0; 1.0; 0.0; 0.0; 0.0;
                     0.0; 0.0; 0.0; 0.0; 0.0; 0.0; 0.0; 1.0;
                     1.0; 0.0; 0.0; 0.0; 0.0; 0.0; 0.0; 0.0]%R).
  { cbv - [IZR Q2R]. reflexivity. }
  destruct (ppm_demodulate_length
              [0.0; 0.0; 0.0; 0.0; 1.0; 0.0; 0.0; 0.0;
               0.0; 0.0; 0.0; 0.0; 0.0; 0.0; 0.0; 1.0;
               1.0; 0.0; 0.0; 0.0; 0.0; 0.0; 0.0; 0.0]%R 8)
    as (decoded & Hd & Hl).
  - cbn [length]. lia.
  - reflexivity.
  - reflexivity.
  - exists decoded. split; [exact Hm|]. split; [exact Hd|].
    rewrite Hl. reflexivity.
Qed.

(** The front end does not handle DPSK at all. *)
Lemma modulate_dpsk_unsupported (modulator : Modulator) (data : list Z) :
  mod_initialized modulator <> 0 -> data <> [] ->
  mod_type modulator = MOD_DPSK ->
  modulate modulator data = Err FSO_ERROR_UNSUPPORTED.
Proof.
  intros Hi Hne Ht. unfold modulate.
  destruct (Z.eqb_spec (mod_initialized modulator) 0); [contradiction|].
  destruct data as [|x r]; [congruence|].
  cbn [length]. destruct (Z.ltb_spec 0 (Z.of_nat (S (length r)))); [|lia].
  cbn [negb]. rewrite Ht. reflexivity.
Qed.

(** Claim C3, as the specification states it, fails for DPSK: modulating
    the byte [0x80] from a fresh DPSK state and demodulating the symbols
    with the same state, which by then holds the transmitter's last
    phase, returns the byte [0x00]. *)
Lemma dpsk_round_trip_same_state_fails :
  exists symbols state' state'',
    dpsk_modulate 1 [0x80] (mkDPSK 0 0) = Ok (symbols, state') /\
    dpsk_demodulate symbols state' = Ok ([0x00], state'').
Proof.
  pose proof FSO_PI_pos as Hpi.
  destruct (dpsk_modulate_symbols 1 [128] (mkDPSK 0 0)) as (symbols & Hm & Hl & Hs);
    [discriminate|].
  change (dpsk_reference (mkDPSK 0 0)) with 0.0%R in Hm, Hs.
  change (8 * length [128%Z])%nat with 8%nat in Hm, Hs.
  set (state' := mkDPSK (dpsk_phase 1 [128] 0.0%R 8) 1) in *.
  destruct (dpsk_demodulate_decisions symbols state' 1 ltac:(lia) Hl)
    as (state'' & Hd).
  exists symbols, state', state''. split; [exact Hm|].
  rewrite Hd. f_equal. f_equal.
  rewrite (bytes_of_decisions_ext _
             (fun i => if i =? 0 then false
                       else negb (data_bit [128] i =? 0))).
  { vm_compute. reflexivity. }
  intros i Hi. destruct (Z.eqb_spec i 0) as [->|Hne].
  - unfold dpsk_decision, dpsk_previous. cbn [Z.eqb].
    pose proof (Hs 0%nat ltac:(lia)) as Hs0. cbn [Z.of_nat] in Hs0.
    rewrite Hs0.
    change (dpsk_reference state') with (dpsk_phase 1 [128] 0.0%R 8).
    rewrite dpsk_product.
    rewrite (dpsk_phase_0x80 8) by lia.
    rewrite Rminus_diag.
    rewrite cos_0. destruct (Rlt_dec 1 0.0); [lra | reflexivity].
  - apply (dpsk_decision_modulated 1 [128] 0.0%R); auto; lra.
Qed.

(** Claim C3, amended. A byte sequence comes back from the symbols it was
    modulated to
    - with OOK, whatever signal-to-noise ratio the receiver is given;
    - with PPM of order 2, 4, 8 or 16, when the bits of the data fill a
      whole number of symbols;
    - with DPSK, when the receiver's state holds the phase the transmitter
      started from (two fresh states, say) and not the state the
      transmitter has just updated.
    OOK and PPM go through the [Modulator] front end, DPSK through its own
    two functions; [fuel] bounds the rounds of the two phase-wrapping
    loops, of which one round each is all a phase in [-pi, pi] needs. *)
Theorem modulation_round_trip (data : list Z) :
  data <> [] -> bytes data ->
  (forall modulator snr,
     mod_initialized modulator <> 0 ->
     mod_type modulator = MOD_OOK ->
     exists symbols,
       modulate modulator data = Ok symbols /\
       demodulate modulator symbols snr = Ok data) /\
  (forall modulator snr,
     mod_initialized modulator <> 0 ->
     mod_type modulator = MOD_PPM ->
     ppm_order_ok (ppm_order modulator) = true ->
     (8 * Z.of_nat (length data))
       mod ppm_bits_per_symbol (ppm_order modulator) = 0 ->
     exists symbols,
       modulate modulator data = Ok symbols /\
       demodulate modulator symbols snr = Ok data) /\
  (forall fuel tx rx,
     (1 <= fuel)%nat ->
     (- FSO_PI <= dpsk_reference tx <= FSO_PI)%R ->
     dpsk_reference rx = dpsk_reference tx ->
     exists symbols tx' rx',
       dpsk_modulate fuel data tx = Ok (symbols, tx') /\
       dpsk_demodulate symbols rx = Ok (data, rx')).
Proof.
  intros Hne Hb.
  assert (Hlen : (0 <? Z.of_nat (length data)) = true).
  { apply Z.ltb_lt. destruct data; [congruence | cbn [length]; lia]. }
  split; [|split].
  - intros modulator snr Hi Ht.
    destruct (ook_round_trip data snr Hne Hb) as (symbols & Hm & Hd).
    exists symbols. unfold modulate, demodulate.
    destruct (Z.eqb_spec (mod_initialized modulator) 0); [contradiction|].
    rewrite Hlen, Ht. cbn [negb]. split; [exact Hm|].
    assert (Hs : (0 <? Z.of_nat (length symbols)) = true).
    { revert Hd. unfold ook_demodulate.
      destruct (0 <? Z.of_nat (length symbols)); [reflexivity | discriminate]. }
    rewrite Hs. exact Hd.
  - intros modulator snr Hi Ht Hok Hal.
    destruct (ppm_round_trip data (ppm_order modulator) Hne Hb Hok Hal)
      as (symbols & Hm & Hd).
    exists symbols. unfold modulate, demodulate.
    destruct (Z.eqb_spec (mod_initialized modulator) 0); [contradiction|].
    rewrite Hlen, Ht. cbn [negb]. split; [exact Hm|].
    assert (Hs : (0 <? Z.of_nat (length symbols)) = true).
    { revert Hd. unfold ppm_demodulate.
      destruct (0 <? Z.of_nat (length symbols)); [reflexivity | discriminate]. }
    rewrite Hs. exact Hd.
  - intros fuel tx rx Hf Hphi Hrx.
    exact (dpsk_round_trip fuel data tx rx Hf Hne Hb Hphi Hrx).
Qed.

Lemma modulation_round_trip_witness :
  (exists symbols,
     modulate (mkModulator MOD_OOK 1 0 (mkDPSK 0 0) 1) [0x9C] = Ok symbols /\
     demodulate (mkModulator MOD_OOK 1 0 (mkDPSK 0 0) 1) symbols 20 = Ok [0x9C]) /\
  (exists symbols,
     modulate (mkModulator MOD_PPM 2 4 (mkDPSK 0 0) 1) [0x9C] = Ok symbols /\
     demodulate (mkModulator MOD_PPM 2 4 (mkDPSK 0 0) 1) symbols 20 = Ok [0x9C]) /\
  (exists symbols tx' rx',
     dpsk_modulate 1 [0x9C] (mkDPSK 0 0) = Ok (symbols, tx') /\
     dpsk_demodulate symbols (mkDPSK 0 0) = Ok ([0x9C], rx')).
Proof.
  assert (Hne : [0x9C] <> []) by discriminate.
  assert (Hb : bytes [0x9C]) by (repeat constructor; lia).
  destruct (modulation_round_trip [0x9C] Hne Hb) as (Hook & Hppm & Hdpsk).
  split; [|split].
  - apply Hook; [cbn; lia | reflexivity].
  - apply Hppm; [cbn; lia | reflexivity | reflexivity | reflexivity].
  - apply Hdpsk; [lia | | reflexivity].
    pose proof FSO_PI_pos. unfold dpsk_reference. cbn. lra.
Defined.

(* ================================================================== *)
(** * Part III: further properties of the code                         *)
(* ================================================================== *)

(** ** Block interleaver *)

Lemma interleave_index_decomp (bs depth b c r : Z) :
  0 < bs -> 0 < depth -> 0 <= c < bs -> 0 <= r < depth ->
  interleave_index bs depth (b * (bs * depth) + c * depth + r)
  = b * (bs * depth) + r * bs + c.
Proof.
  intros Hbs Hd Hc Hr. unfold interleave_index.
  set (T := bs * depth).
  assert (HT : 0 < T) by (unfold T; nia).
  assert (Hx : 0 <= c * depth + r < T) by (unfold T; nia).
  assert (E1 : (b * T + c * depth + r) / T = b).
  { symmetry. apply (Z.div_unique _ _ _ (c * depth + r)); lia. }
  assert (E2 : (b * T + c * depth + r) mod T = c * depth + r).
  { symmetry. apply (Z.mod_unique _ _ b); lia. }
  rewrite E1, E2.
  assert (E3 : (c * depth + r) / depth = c).
  { symmetry. apply (Z.div_unique _ _ _ r); lia. }
  assert (E4 : (c * depth + r) mod depth = r).
  { symmetry. apply (Z.mod_unique _ _ c); lia. }
  rewrite E3, E4. reflexivity.
Qed.

(** Every index below [F] full blocks is of the form the loops visit. *)
Lemma interleave_index_split (bs depth F j : Z) :
  0 < bs -> 0 < depth -> 0 <= j < F * (bs * depth) ->
  exists b c r,
    0 <= b < F /\ 0 <= c < bs /\ 0 <= r < depth /\
    j = b * (bs * depth) + c * depth + r.
Proof.
  intros Hbs Hd Hj.
  set (T := bs * depth) in *.
  assert (HT : 0 < T) by (unfold T; nia).
  exists (j / T), ((j mod T) / depth), ((j mod T) mod depth).
  pose proof (Z.div_mod j T ltac:(lia)) as E.
  pose proof (Z.mod_pos_bound j T HT) as B.
  pose proof (Z.div_mod (j mod T) depth ltac:(lia)) as E'.
  pose proof (Z.mod_pos_bound (j mod T) depth Hd) as B'.
  assert (0 <= j / T) by (apply Z.div_pos; lia).
  assert (0 <= (j mod T) / depth) by (apply Z.div_pos; lia).
  assert (j / T < F) by (apply Z.div_lt_upper_bound; lia).
  assert ((j mod T) / depth < bs).
  { assert (HTe : T = depth * bs) by (unfold T; ring).
    apply Z.div_lt_upper_bound; lia. }
  repeat split; try lia.
Qed.

Lemma interleave_index_range (bs depth F j : Z) :
  0 < bs -> 0 < depth -> 0 <= j < F * (bs * depth) ->
  0 <= interleave_index bs depth j < F * (bs * depth).
Proof.
  intros Hbs Hd Hj.
  destruct (interleave_index_split bs depth F j Hbs Hd Hj)
    as (b & c & r & Hb & Hc & Hr & ->).
  rewrite interleave_index_decomp by lia.
  set (T := bs * depth) in *.
  assert (0 <= r * bs + c < T) by (unfold T; nia).
  assert (0 <= b * T) by (unfold T; nia).
  assert ((b + 1) * T <= F * T) by (apply Z.mul_le_mono_nonneg_r; unfold T; nia).
  lia.
Qed.

(** The index map of [deinterleave] undoes the one of [interleave]. *)
Lemma interleave_index_inverse (bs depth F j : Z) :
  0 < bs -> 0 < depth -> 0 <= j < F * (bs * depth) ->
  interleave_index depth bs (interleave_index bs depth j) = j.
Proof.
  intros Hbs Hd Hj.
  destruct (interleave_index_split bs depth F j Hbs Hd Hj)
    as (b & c & r & Hb & Hc & Hr & ->).
  rewrite interleave_index_decomp by lia.
  replace (b * (bs * depth)) with (b * (depth * bs)) by ring.
  rewrite interleave_index_decomp by lia. ring.
Qed.

Lemma quot_rem_blocks (len T : Z) :
  0 <= len -> 0 < T ->
  0 <= Z.quot len T /\ 0 <= Z.rem len T < T /\
  len = Z.quot len T * T + Z.rem len T.
Proof.
  intros Hl HT.
  rewrite Z.quot_div_nonneg, Z.rem_mod_nonneg by lia.
  pose proof (Z.div_mod len T ltac:(lia)).
  pose proof (Z.mod_pos_bound len T HT).
  assert (0 <= len / T) by (apply Z.div_pos; lia).
  lia.
Qed.

(** What [interleave] leaves in the caller's buffer. *)
Lemma interleave_spec (config : InterleaverConfig) (input output : list Z) :
  0 < block_size config -> 0 < depth config ->
  (length input <= length output)%nat ->
  let T := block_size config * depth config in
  let F := Z.quot (Z.of_nat (length input)) T in
  exists out,
    interleave config input output = Ok out /\
    length out = length output /\
    (forall j, 0 <= j < F * T ->
       sel 0 out j
       = sel 0 input (interleave_index (block_size config) (depth config) j)) /\
    (forall j, F * T <= j < Z.of_nat (length input) ->
       sel 0 out j = sel 0 input j) /\
    (forall j, Z.of_nat (length input) <= j -> sel 0 out j = sel 0 output j).
Proof.
  intros Hbs Hd Hlen T F. unfold interleave.
  destruct (Z.ltb_spec 0 (block_size config)); [|lia].
  destruct (Z.ltb_spec 0 (depth config)); [|lia].
  destruct (Z.leb_spec (Z.of_nat (length input)) (Z.of_nat (length output)));
    [|lia].
  cbn [negb]. cbv zeta. fold T. fold F.
  set (bs := block_size config) in *. set (dp := depth config) in *.
  set (len := Z.of_nat (length input)) in *.
  assert (HT : 0 < T) by (unfold T; nia).
  destruct (quot_rem_blocks len T ltac:(lia) HT) as (HF & HR & Hsum).
  fold F in HF, Hsum. set (R := Z.rem len T) in *.
  pose (inv := fun (k : Z) (out : list Z) =>
    length out = length output /\
    (forall j, 0 <= j < k -> sel 0 out j = sel 0 input (interleave_index bs dp j)) /\
    (forall j, k <= j -> sel 0 out j = sel 0 output j)).
  pose (P := fun (b : Z) (st : list Z * Z * Z) =>
    let '(out, oi, ii) := st in oi = b * T /\ ii = b * T /\ inv (b * T) out).
  match goal with
  | |- context [for_range 0 F ?body ?s0] =>
      assert (Hblk : P F (for_range 0 F body s0))
  end.
  { apply (for_range_invariant P); unfold P.
    - lia.
    - split; [lia|]. split; [lia|]. unfold inv.
      split; [reflexivity|]. split; [intros; lia | auto].
    - intros b [[out oi] ii] Hb (-> & -> & Hinv).
      pose (Pc := fun (c : Z) (st : list Z * Z) =>
        let '(out, oi) := st in
        oi = b * T + c * dp /\ inv (b * T + c * dp) out).
      match goal with
      | |- context [for_range 0 bs ?body ?s0] =>
          assert (Hcol : Pc bs (for_range 0 bs body s0))
      end.
      { apply (for_range_invariant Pc); unfold Pc.
        - lia.
        - split; [lia|]. replace (b * T + 0 * dp) with (b * T) by lia.
          exact Hinv.
        - intros c [out' oi'] Hc (-> & Hinv').
          pose (Pr := fun (r : Z) (st : list Z * Z) =>
            let '(out, oi) := st in
            oi = b * T + c * dp + r /\ inv (b * T + c * dp + r) out).
          match goal with
          | |- context [for_range 0 dp ?body ?s0] =>
              assert (Hrow : Pr dp (for_range 0 dp body s0))
          end.
          { apply (for_range_invariant Pr); unfold Pr.
            - lia.
            - split; [lia|].
              replace (b * T + c * dp + 0) with (b * T + c * dp) by lia.
              exact Hinv'.
            - intros r [out'' oi''] Hr (-> & Hl & Hlow & Hhigh).
              split; [lia|]. unfold inv.
              assert (Hin : 0 <= b * T + c * dp + r < Z.of_nat (length out'')).
              { rewrite Hl. unfold T. nia. }
              split; [rewrite length_upd; exact Hl|]. split.
              + intros j Hj.
                destruct (Z.eq_dec j (b * T + c * dp + r)) as [->|Hne].
                * rewrite sel_upd_same by exact Hin.
                  unfold T. rewrite interleave_index_decomp by lia.
                  reflexivity.
                * rewrite sel_upd_other by lia. apply Hlow. lia.
              + intros j Hj. rewrite sel_upd_other by lia. apply Hhigh. lia. }
          unfold Pr in Hrow.
          destruct (for_range 0 dp _ _) as [o3 i3].
          destruct Hrow as (-> & Hrow). split; [lia|].
          replace (b * T + (c + 1) * dp) with (b * T + c * dp + dp) by lia.
          exact Hrow. }
      unfold Pc in Hcol.
      destruct (for_range 0 bs _ _) as [o2 i2].
      destruct Hcol as (-> & Hcol).
      split; [unfold T; lia|]. split; [lia|].
      replace ((b + 1) * T) with (b * T + bs * dp) by (unfold T; lia).
      exact Hcol. }
  unfold P in Hblk.
  destruct (for_range 0 F _ _) as [[o1 oi1] ii1].
  destruct Hblk as (-> & -> & Hl & Hlow & Hhigh).
  pose (Pi := fun (i : Z) (st : list Z * Z) =>
    let '(out, oi) := st in
    oi = F * T + i /\ length out = length output /\
    (forall j, 0 <= j < F * T ->
       sel 0 out j = sel 0 input (interleave_index bs dp j)) /\
    (forall j, F * T <= j < F * T + i -> sel 0 out j = sel 0 input j) /\
    (forall j, F * T + i <= j -> sel 0 out j = sel 0 output j)).
  assert (Htail : Pi R (for_range 0 R
                       (fun i '(output0, out_idx) =>
                          (upd output0 out_idx (sel 0 input (F * T + i)),
                           out_idx + 1))
                       (o1, F * T))).
  { apply (for_range_invariant Pi); unfold Pi.
    - lia.
    - split; [lia|]. split; [exact Hl|]. split; [exact Hlow|].
      split; [intros; lia|]. intros j Hj. apply Hhigh. lia.
    - intros i [o oi] Hi (-> & Hl' & Hlow' & Hmid' & Hhigh').
      split; [lia|]. split; [rewrite length_upd; exact Hl'|].
      assert (Hin : 0 <= F * T + i < Z.of_nat (length o)) by (rewrite Hl'; lia).
      split; [|split].
      + intros j Hj. rewrite sel_upd_other by lia. apply Hlow'. lia.
      + intros j Hj. destruct (Z.eq_dec j (F * T + i)) as [->|Hne].
        * apply sel_upd_same. exact Hin.
        * rewrite sel_upd_other by lia. apply Hmid'. lia.
      + intros j Hj. rewrite sel_upd_other by lia. apply Hhigh'. lia. }
  unfold Pi in Htail.
  destruct (Z.ltb_spec 0 R) as [HRpos|HR0].
  - destruct (for_range 0 R _ _) as [o4 oi4]. cbn [fst].
    destruct Htail as (_ & Hl4 & Hlow4 & Hmid4 & Hhigh4).
    exists o4. split; [reflexivity|]. split; [exact Hl4|].
    split; [exact Hlow4|]. split.
    + intros j Hj. apply Hmid4. lia.
    + intros j Hj. apply Hhigh4. lia.
  - exists o1. split; [reflexivity|]. split; [exact Hl|].
    split; [exact Hlow|]. split.
    + intros j Hj. lia.
    + intros j Hj. apply Hhigh. lia.
Qed.

(** What [deinterleave] leaves in the caller's buffer. *)
Lemma deinterleave_spec (config : InterleaverConfig) (input output : list Z) :
  0 < block_size config -> 0 < depth config ->
  (length input <= length output)%nat ->
  let T := block_size config * depth config in
  let F := Z.quot (Z.of_nat (length input)) T in
  exists out,
    deinterleave config input output = Ok out /\
    length out = length output /\
    (forall j, 0 <= j < F * T ->
       sel 0 out (interleave_index (block_size config) (depth config) j)
       = sel 0 input j) /\
    (forall j, F * T <= j < Z.of_nat (length input) ->
       sel 0 out j = sel 0 input j) /\
    (forall j, Z.of_nat (length input) <= j -> sel 0 out j = sel 0 output j).
Proof.
  intros Hbs Hd Hlen T F. unfold deinterleave.
  destruct (Z.ltb_spec 0 (block_size config)); [|lia].
  destruct (Z.ltb_spec 0 (depth config)); [|lia].
  destruct (Z.leb_spec (Z.of_nat (length input)) (Z.of_nat (length output)));
    [|lia].
  cbn [negb]. cbv zeta. fold T. fold F.
  set (bs := block_size config) in *. set (dp := depth config) in *.
  set (len := Z.of_nat (length input)) in *.
  assert (HT : 0 < T) by (unfold T; nia).
  destruct (quot_rem_blocks len T ltac:(lia) HT) as (HF & HR & Hsum).
  fold F in HF, Hsum. set (R := Z.rem len T) in *.
  pose (inv := fun (k : Z) (out : list Z) =>
    length out = length output /\
    (forall j, 0 <= j < k ->
       sel 0 out (interleave_index bs dp j) = sel 0 input j) /\
    (forall p, F * T <= p -> sel 0 out p = sel 0 output p)).
  assert (Hstep : forall k out,
            0 <= k < F * T -> inv k out ->
            inv (k + 1) (upd out (interleave_index bs dp k) (sel 0 input k))).
  { intros k out Hk (Hl & Hdone & Hframe).
    pose proof (interleave_index_range bs dp F k Hbs Hd Hk) as Hrk.
    fold T in Hrk.
    split; [rewrite length_upd; exact Hl|]. split.
    - intros j Hj. destruct (Z.eq_dec j k) as [->|Hne].
      + apply sel_upd_same. lia.
      + pose proof (interleave_index_range bs dp F j Hbs Hd ltac:(fold T; lia))
          as Hrj.
        rewrite sel_upd_other; [apply Hdone; lia | lia |].
        intros E. apply Hne.
        rewrite <- (interleave_index_inverse bs dp F j Hbs Hd ltac:(fold T; lia)).
        rewrite <- (interleave_index_inverse bs dp F k Hbs Hd ltac:(fold T; lia)).
        rewrite E. reflexivity.
    - intros p Hp. rewrite sel_upd_other by lia. apply Hframe. exact Hp. }
  pose (P := fun (b : Z) (st : list Z * Z * Z) =>
    let '(out, ii, oi) := st in ii = b * T /\ oi = b * T /\ inv (b * T) out).
  match goal with
  | |- context [for_range 0 F ?body ?s0] =>
      assert (Hblk : P F (for_range 0 F body s0))
  end.
  { apply (for_range_invariant P); unfold P.
    - lia.
    - split; [lia|]. split; [lia|]. unfold inv.
      split; [reflexivity|]. split; [intros; lia | auto].
    - intros b [[out ii] oi] Hb (-> & -> & Hinv).
      pose (Pc := fun (c : Z) (st : list Z * Z) =>
        let '(out, ii) := st in
        ii = b * T + c * dp /\ inv (b * T + c * dp) out).
      match goal with
      | |- context [for_range 0 bs ?body ?s0] =>
          assert (Hcol : Pc bs (for_range 0 bs body s0))
      end.
      { apply (for_range_invariant Pc); unfold Pc.
        - lia.
        - split; [lia|]. replace (b * T + 0 * dp) with (b * T) by lia.
          exact Hinv.
        - intros c [out' ii'] Hc (-> & Hinv').
          pose (Pr := fun (r : Z) (st : list Z * Z) =>
            let '(out, ii) := st in
            ii = b * T + c * dp + r /\ inv (b * T + c * dp + r) out).
          match goal with
          | |- context [for_range 0 dp ?body ?s0] =>
              assert (Hrow : Pr dp (for_range 0 dp body s0))
          end.
          { apply (for_range_invariant Pr); unfold Pr.
            - lia.
            - split; [lia|].
              replace (b * T + c * dp + 0) with (b * T + c * dp) by lia.
              exact Hinv'.
            - intros r [out'' ii''] Hr (-> & Hinv'').
              split; [lia|].
              replace (b * T + r * bs + c)
                with (interleave_index bs dp (b * T + c * dp + r))
                by (unfold T; apply interleave_index_decomp; lia).
              replace (b * T + c * dp + (r + 1))
                with (b * T + c * dp + r + 1) by lia.
              apply Hstep; [|exact Hinv''].
              assert (0 <= c * dp + r < T) by (unfold T; nia).
              assert ((b + 1) * T <= F * T)
                by (apply Z.mul_le_mono_nonneg_r; lia).
              assert (0 <= b * T) by (apply Z.mul_nonneg_nonneg; lia).
              lia. }
          unfold Pr in Hrow.
          destruct (for_range 0 dp _ _) as [o3 i3].
          destruct Hrow as (-> & Hrow). split; [lia|].
          replace (b * T + (c + 1) * dp) with (b * T + c * dp + dp) by lia.
          exact Hrow. }
      unfold Pc in Hcol.
      destruct (for_range 0 bs _ _) as [o2 i2].
      destruct Hcol as (-> & Hcol).
      split; [unfold T; lia|]. split; [lia|].
      replace ((b + 1) * T) with (b * T + bs * dp) by (unfold T; lia).
      exact Hcol. }
  unfold P in Hblk.
  destruct (for_range 0 F _ _) as [[o1 ii1] oi1].
  destruct Hblk as (-> & -> & Hl & Hlow & Hhigh).
  pose (Pi := fun (i : Z) (st : list Z * Z) =>
    let '(out, ii) := st in
    ii = F * T + i /\ length out = length output /\
    (forall j, 0 <= j < F * T ->
       sel 0 out (interleave_index bs dp j) = sel 0 input j) /\
    (forall j, F * T <= j < F * T + i -> sel 0 out j = sel 0 input j) /\
    (forall j, F * T + i <= j -> sel 0 out j = sel 0 output j)).
  match goal with
  | |- context [for_range 0 R ?body ?s0] =>
      assert (Htail : Pi R (for_range 0 R body s0))
  end.
  { apply (for_range_invariant Pi); unfold Pi.
    - lia.
    - split; [lia|]. split; [exact Hl|]. split; [exact Hlow|].
      split; [intros; lia|]. intros j Hj. apply Hhigh. lia.
    - intros i [o ii] Hi (-> & Hl' & Hlow' & Hmid' & Hhigh').
      split; [lia|]. split; [rewrite length_upd; exact Hl'|].
      assert (Hin : 0 <= F * T + i < Z.of_nat (length o)) by (rewrite Hl'; lia).
      split; [|split].
      + intros j Hj.
        pose proof (interleave_index_range bs dp F j Hbs Hd ltac:(fold T; lia))
          as Hrj.
        fold T in Hrj.
        rewrite sel_upd_other by lia. apply Hlow'. lia.
      + intros j Hj. destruct (Z.eq_dec j (F * T + i)) as [->|Hne].
        * apply sel_upd_same. exact Hin.
        * rewrite sel_upd_other by lia. apply Hmid'. lia.
      + intros j Hj. rewrite sel_upd_other by lia. apply Hhigh'. lia. }
  unfold Pi in Htail.
  destruct (Z.ltb_spec 0 R) as [HRpos|HR0].
  - destruct (for_range 0 R _ _) as [o4 oi4]. cbn [fst].
    destruct Htail as (_ & Hl4 & Hlow4 & Hmid4 & Hhigh4).
    exists o4. split; [reflexivity|]. split; [exact Hl4|].
    split; [exact Hlow4|]. split.
    + intros j Hj. apply Hmid4. lia.
    + intros j Hj. apply Hhigh4. lia.
  - exists o1. split; [reflexivity|]. split; [exact Hl|].
    split; [exact Hlow|]. split.
    + intros j Hj. lia.
    + intros j Hj. apply Hhigh. lia.
Qed.

(** X1.  [interleave] followed by [deinterleave] on the same number of
    bytes gives the input back, for every block size and depth whose product
    is an [int], whatever the length of the input and whatever the two
    buffers held before. *)
Theorem interleave_deinterleave_round_trip
  (config : InterleaverConfig) (input buf1 buf2 : list Z) :
  0 < block_size config -> 0 < depth config ->
  block_size config * depth config <= 2147483647 ->
  (length input <= length buf1)%nat ->
  (length input <= length buf2)%nat ->
  exists mid out,
    interleave config input buf1 = Ok mid /\
    deinterleave config (firstn (length input) mid) buf2 = Ok out /\
    firstn (length input) out = input.
Proof.
  intros Hbs Hd _ Hl1 Hl2.
  destruct (interleave_spec config input buf1 Hbs Hd Hl1)
    as (mid & Hmid & Hlm & Hmlow & Hmtail & _).
  assert (Hlf : length (firstn (length input) mid) = length input)
    by (rewrite length_firstn; lia).
  destruct (deinterleave_spec config (firstn (length input) mid) buf2 Hbs Hd
              ltac:(rewrite Hlf; exact Hl2))
    as (out & Hout & Hlo & Holow & Hotail & _).
  rewrite Hlf in Holow, Hotail.
  exists mid, out. split; [exact Hmid|]. split; [exact Hout|].
  set (bs := block_size config) in *. set (dp := depth config) in *.
  set (T := bs * dp) in *.
  set (F := Z.quot (Z.of_nat (length input)) T) in *.
  assert (HT : 0 < T) by (unfold T; nia).
  destruct (quot_rem_blocks (Z.of_nat (length input)) T ltac:(lia) HT)
    as (HF & HR & Hsum).
  fold F in HF, Hsum.
  apply firstn_eq_by_sel; [lia | reflexivity |].
  intros p Hp.
  destruct (Z_lt_le_dec p (F * T)) as [Hlt|Hge].
  - assert (HTc : F * (dp * bs) = F * T) by (unfold T; ring).
    pose proof (interleave_index_range dp bs F p Hd Hbs ltac:(lia)) as Hq.
    pose proof (interleave_index_inverse dp bs F p Hd Hbs ltac:(lia)) as Hinv.
    rewrite HTc in Hq.
    set (q := interleave_index dp bs p) in *.
    rewrite <- Hinv.
    rewrite (Holow q Hq).
    rewrite sel_firstn by lia.
    rewrite (Hmlow q Hq). reflexivity.
  - rewrite (Hotail p ltac:(lia)).
    rewrite sel_firstn by lia.
    apply Hmtail. lia.
Qed.

Lemma interleave_deinterleave_round_trip_witness :
  exists mid out,
    interleave (mkInterleaver 4 3) [10; 11; 12; 13; 14; 15; 16; 17; 18; 19; 20; 21; 22; 23]
      (repeat 0 14) = Ok mid /\
    deinterleave (mkInterleaver 4 3)
      (firstn (length [10; 11; 12; 13; 14; 15; 16; 17; 18; 19; 20; 21; 22; 23]) mid)
      (repeat 0 16) = Ok out /\
    firstn (length [10; 11; 12; 13; 14; 15; 16; 17; 18; 19; 20; 21; 22; 23]) out
    = [10; 11; 12; 13; 14; 15; 16; 17; 18; 19; 20; 21; 22; 23].
Proof.
  apply (interleave_deinterleave_round_trip (mkInterleaver 4 3)
           [10; 11; 12; 13; 14; 15; 16; 17; 18; 19; 20; 21; 22; 23]
           (repeat 0 14) (repeat 0 16));
    simpl; lia.
Defined.

(** X2.  [deinterleave] followed by [interleave] on the same number of
    bytes gives the input back as well: the two are inverse to each other in
    both orders. *)
Theorem deinterleave_interleave_round_trip
  (config : InterleaverConfig) (input buf1 buf2 : list Z) :
  0 < block_size config -> 0 < depth config ->
  block_size config * depth config <= 2147483647 ->
  (length input <= length buf1)%nat ->
  (length input <= length buf2)%nat ->
  exists mid out,
    deinterleave config input buf1 = Ok mid /\
    interleave config (firstn (length input) mid) buf2 = Ok out /\
    firstn (length input) out = input.
Proof.
  intros Hbs Hd _ Hl1 Hl2.
  destruct (deinterleave_spec config input buf1 Hbs Hd Hl1)
    as (mid & Hmid & Hlm & Hmlow & Hmtail & _).
  assert (Hlf : length (firstn (length input) mid) = length input)
    by (rewrite length_firstn; lia).
  destruct (interleave_spec config (firstn (length input) mid) buf2 Hbs Hd
              ltac:(rewrite Hlf; exact Hl2))
    as (out & Hout & Hlo & Holow & Hotail & _).
  rewrite Hlf in Holow, Hotail.
  exists mid, out. split; [exact Hmid|]. split; [exact Hout|].
  set (bs := block_size config) in *. set (dp := depth config) in *.
  set (T := bs * dp) in *.
  set (F := Z.quot (Z.of_nat (length input)) T) in *.
  assert (HT : 0 < T) by (unfold T; nia).
  destruct (quot_rem_blocks (Z.of_nat (length input)) T ltac:(lia) HT)
    as (HF & HR & Hsum).
  fold F in HF, Hsum.
  apply firstn_eq_by_sel; [lia | reflexivity |].
  intros p Hp.
  destruct (Z_lt_le_dec p (F * T)) as [Hlt|Hge].
  - pose proof (interleave_index_range bs dp F p Hbs Hd ltac:(fold T; lia))
      as Hq.
    fold T in Hq.
    rewrite (Holow p ltac:(lia)).
    rewrite sel_firstn by lia.
    apply Hmlow. lia.
  - rewrite (Hotail p ltac:(lia)).
    rewrite sel_firstn by lia.
    apply Hmtail. lia.
Qed.

Lemma deinterleave_interleave_round_trip_witness :
  exists mid out,
    deinterleave (mkInterleaver 2 3) [1; 2; 3; 4; 5; 6; 7; 8] (repeat 0 8)
    = Ok mid /\
    interleave (mkInterleaver 2 3) (firstn (length [1; 2; 3; 4; 5; 6; 7; 8]) mid)
      (repeat 0 8) = Ok out /\
    firstn (length [1; 2; 3; 4; 5; 6; 7; 8]) out = [1; 2; 3; 4; 5; 6; 7; 8].
Proof.
  apply (deinterleave_interleave_round_trip (mkInterleaver 2 3)
           [1; 2; 3; 4; 5; 6; 7; 8] (repeat 0 8) (repeat 0 8));
    simpl; lia.
Defined.

(** X3.  Inside a full block [interleave] reads the block as a matrix of
    [depth] rows and [block_size] columns column by column: output byte
    [block * T + col * depth + row] is input byte
    [block * T + row * block_size + col], with [T = block_size * depth].
    Bytes that are neighbours in the output and in the same column are
    therefore [block_size] apart in the input. *)
Theorem interleave_column_wise
  (config : InterleaverConfig) (input output : list Z) (block col row : Z) :
  0 < block_size config -> 0 < depth config ->
  block_size config * depth config <= 2147483647 ->
  (length input <= length output)%nat ->
  0 <= block ->
  (block + 1) * (block_size config * depth config)
    <= Z.of_nat (length input) ->
  0 <= col < block_size config -> 0 <= row < depth config ->
  exists out,
    interleave config input output = Ok out /\
    sel 0 out (block * (block_size config * depth config)
               + col * depth config + row)
    = sel 0 input (block * (block_size config * depth config)
                   + row * block_size config + col).
Proof.
  intros Hbs Hd _ Hl Hb Hfull Hc Hr.
  destruct (interleave_spec config input output Hbs Hd Hl)
    as (out & Hout & _ & Hlow & _).
  exists out. split; [exact Hout|].
  set (bs := block_size config) in *. set (dp := depth config) in *.
  set (T := bs * dp) in *.
  set (F := Z.quot (Z.of_nat (length input)) T) in *.
  assert (HT : 0 < T) by (unfold T; nia).
  destruct (quot_rem_blocks (Z.of_nat (length input)) T ltac:(lia) HT)
    as (HF & HR & Hsum).
  fold F in HF, Hsum.
  assert (HbF : block < F).
  { destruct (Z_lt_le_dec block F) as [|Hge]; [assumption|].
    assert (F * T <= block * T) by (apply Z.mul_le_mono_nonneg_r; lia).
    lia. }
  assert (0 <= col * dp + row < T) by (unfold T; nia).
  assert ((block + 1) * T <= F * T) by (apply Z.mul_le_mono_nonneg_r; lia).
  assert (0 <= block * T) by (apply Z.mul_nonneg_nonneg; lia).
  rewrite Hlow by lia.
  unfold T. rewrite interleave_index_decomp by lia. reflexivity.
Qed.

Lemma interleave_column_wise_witness :
  exists out,
    interleave (mkInterleaver 4 3) [0; 1; 2; 3; 4; 5; 6; 7; 8; 9; 10; 11]
      (repeat 0 12) = Ok out /\
    sel 0 out (0 * (block_size (mkInterleaver 4 3) * depth (mkInterleaver 4 3))
               + 1 * depth (mkInterleaver 4 3) + 2)
    = sel 0 [0; 1; 2; 3; 4; 5; 6; 7; 8; 9; 10; 11]
        (0 * (block_size (mkInterleaver 4 3) * depth (mkInterleaver 4 3))
         + 2 * block_size (mkInterleaver 4 3) + 1).
Proof.
  apply (interleave_column_wise (mkInterleaver 4 3)
           [0; 1; 2; 3; 4; 5; 6; 7; 8; 9; 10; 11] (repeat 0 12) 0 1 2);
    simpl; lia.
Defined.

(** X4.  An input shorter than one block ([block_size * depth] bytes) is
    not interleaved at all: [interleave] copies it unchanged, and leaves the
    rest of the output buffer as it was. *)
Theorem interleave_short_input_copied
  (config : InterleaverConfig) (input output : list Z) :
  0 < block_size config -> 0 < depth config ->
  block_size config * depth config <= 2147483647 ->
  (length input <= length output)%nat ->
  Z.of_nat (length input) < block_size config * depth config ->
  interleave config input output
  = Ok (input ++ skipn (length input) output).
Proof.
  intros Hbs Hd _ Hl Hshort.
  destruct (interleave_spec config input output Hbs Hd Hl)
    as (out & Hout & Hlo & _ & Htail & Hrest).
  rewrite Hout. f_equal.
  rewrite Z.quot_small in Htail by lia.
  assert (Hfirst : firstn (length input) out = input).
  { apply firstn_eq_by_sel; [lia | reflexivity |].
    intros j Hj. apply Htail. lia. }
  rewrite <- (firstn_skipn (length input) out).
  rewrite Hfirst. f_equal.
  apply nth_ext with (d := 0) (d' := 0).
  - rewrite !length_skipn. lia.
  - intros n Hn. rewrite !nth_skipn.
    pose proof (Hrest (Z.of_nat (length input + n)) ltac:(lia)) as E.
    unfold sel in E. rewrite Nat2Z.id in E. exact E.
Qed.

Lemma interleave_short_input_copied_witness :
  interleave (mkInterleaver 4 3) [7; 8; 9] [1; 1; 1; 1; 1]
  = Ok ([7; 8; 9] ++ skipn (length [7; 8; 9]) [1; 1; 1; 1; 1]).
Proof.
  apply (interleave_short_input_copied (mkInterleaver 4 3) [7; 8; 9]
           [1; 1; 1; 1; 1]);
    simpl; lia.
Defined.

(** ** The field laws of the table arithmetic *)

Section GaloisFieldLaws.

Variables m poly : Z.
Hypothesis Hm : 3 <= m <= 16.
Hypothesis Hprim : is_primitive m poly = true.

Let q : Z := Z.shiftl 1 m.
Let a (i : Z) : Z := alpha_pow poly q (Z.to_nat i).

Lemma alpha_pow_0 : a 0 = 1.
Proof. reflexivity. Qed.

Lemma alpha_pow_bounds (j : Z) : 0 <= j <= q - 2 -> 1 <= a j < q.
Proof.
  intros Hj.
  pose proof (a_range m poly Hm Hprim j) as Hr.
  pose proof (a_nonzero m poly Hm Hprim j ltac:(fold q; lia)) as Hnz.
  unfold a. fold q in Hr, Hnz. lia.
Qed.

(** The powers of [alpha] exhaust the non-zero elements. *)
Lemma alpha_pow_surjective (x : Z) :
  1 <= x < q -> exists j, 0 <= j <= q - 2 /\ a j = x.
Proof.
  intros Hx.
  pose proof (prim_q_ge m Hm) as Hq. fold q in Hq.
  set (n := Z.to_nat (q - 1)).
  set (l := map (fun i => a (Z.of_nat i)) (seq 0 n)).
  set (l' := map Z.of_nat (seq 1 n)).
  assert (Hnd : NoDup l).
  { unfold l. apply NoDup_map_NoDup_ForallPairs; [|apply seq_NoDup].
    intros i j Hi Hj E. apply in_seq in Hi, Hj.
    apply Nat2Z.inj.
    apply (a_inj m poly Hm Hprim); [fold q; lia | fold q; lia | exact E]. }
  assert (Hincl : incl l l').
  { intros y Hy. unfold l in Hy. apply in_map_iff in Hy.
    destruct Hy as (i & <- & Hi). apply in_seq in Hi.
    pose proof (alpha_pow_bounds (Z.of_nat i) ltac:(lia)) as Hr.
    unfold l'. apply in_map_iff.
    exists (Z.to_nat (a (Z.of_nat i))). split; [lia|].
    apply in_seq. lia. }
  assert (Hx' : In x l').
  { unfold l'. apply in_map_iff. exists (Z.to_nat x). split; [lia|].
    apply in_seq. lia. }
  assert (Hback : incl l' l).
  { apply NoDup_length_incl; [exact Hnd | | exact Hincl].
    unfold l, l'. rewrite !length_map, !length_seq. lia. }
  apply Hback in Hx'. unfold l in Hx'. apply in_map_iff in Hx'.
  destruct Hx' as (i & E & Hi). apply in_seq in Hi.
  exists (Z.of_nat i). split; [lia | exact E].
Qed.

(** What the arithmetic needs to know of the tables of a field. *)
Lemma gf_init_tables (gf : GaloisField) :
  gf_init m poly = Ok gf ->
  field_size gf = q /\
  (forall j, 0 <= j <= q - 2 -> sel 0 (exp_table gf) j = a j) /\
  (forall j, 0 <= j <= q - 2 -> sel 0 (log_table gf) (a j) = j) /\
  (forall j, 0 <= j <= q - 2 -> 1 <= a j < q).
Proof.
  intros Hinit.
  pose proof (prim_q_ge m Hm) as Hq. fold q in Hq.
  pose proof (prim_deg m poly Hprim) as Hd.
  destruct (gf_build_tables_ok m poly Hm Hprim)
    as (gf' & Hbuild & Hfs & Hexp & Hexpq & Hlog & Hlog1 & Hrng & Hinv).
  assert (gf = gf') as ->.
  { unfold gf_init, RS_MAX_SYMBOL_SIZE in Hinit.
    replace ((3 <=? m) && (m <=? 16)) with true in Hinit
      by (symmetry; apply andb_true_iff; split; apply Z.leb_le; lia).
    replace (0 <? poly) with true in Hinit by (symmetry; apply Z.ltb_lt; lia).
    cbn [negb] in Hinit. cbv zeta in Hinit. rewrite Hbuild in Hinit.
    congruence. }
  split; [exact Hfs|]. split; [exact Hexp|]. split.
  - intros j Hj. destruct (Z.eq_dec j 0) as [->|Hne].
    + rewrite alpha_pow_0. exact Hlog1.
    + apply Hlog. fold q. lia.
  - exact alpha_pow_bounds.
Qed.

(** Multiplication and division add and subtract exponents modulo
    [q - 1]. *)
Lemma gf_mul_alpha (gf : GaloisField) (i j : Z) :
  gf_init m poly = Ok gf ->
  0 <= i <= q - 2 -> 0 <= j <= q - 2 ->
  gf_mul gf (a i) (a j) = a ((i + j) mod (q - 1)).
Proof.
  intros Hinit Hi Hj.
  destruct (gf_init_tables gf Hinit) as (Hfs & Hexp & Hlog & Hrng).
  pose proof (Hrng i Hi). pose proof (Hrng j Hj).
  unfold gf_mul.
  replace (a i =? 0) with false by (symmetry; apply Z.eqb_neq; lia).
  replace (a j =? 0) with false by (symmetry; apply Z.eqb_neq; lia).
  cbn [orb]. cbv zeta. rewrite Hfs, !Hlog by lia.
  destruct (Z.leb_spec (q - 1) (i + j)).
  - rewrite Hexp by lia. f_equal.
    apply Z.mod_unique with (q := 1); lia.
  - rewrite Hexp by lia. f_equal.
    symmetry. apply Z.mod_small. lia.
Qed.

Lemma gf_div_alpha (gf : GaloisField) (i j : Z) :
  gf_init m poly = Ok gf ->
  0 <= i <= q - 2 -> 0 <= j <= q - 2 ->
  gf_div gf (a i) (a j) = a ((i - j) mod (q - 1)).
Proof.
  intros Hinit Hi Hj.
  destruct (gf_init_tables gf Hinit) as (Hfs & Hexp & Hlog & Hrng).
  pose proof (Hrng i Hi). pose proof (Hrng j Hj).
  unfold gf_div.
  replace (a i =? 0) with false by (symmetry; apply Z.eqb_neq; lia).
  replace (a j =? 0) with false by (symmetry; apply Z.eqb_neq; lia).
  cbv zeta. rewrite Hfs, !Hlog by lia.
  destruct (Z.ltb_spec (i - j) 0).
  - rewrite Hexp by lia. f_equal.
    apply Z.mod_unique with (q := -1); lia.
  - rewrite Hexp by lia. f_equal.
    symmetry. apply Z.mod_small. lia.
Qed.

Lemma gf_pow_alpha (gf : GaloisField) (i e : Z) :
  gf_init m poly = Ok gf ->
  0 <= i <= q - 2 -> 0 <= e ->
  gf_pow gf (a i) e = a ((i * e) mod (q - 1)).
Proof.
  intros Hinit Hi He.
  pose proof (prim_q_ge m Hm) as Hq. fold q in Hq.
  destruct (gf_init_tables gf Hinit) as (Hfs & Hexp & Hlog & Hrng).
  pose proof (Hrng i Hi).
  unfold gf_pow.
  replace (a i =? 0) with false by (symmetry; apply Z.eqb_neq; lia).
  destruct (Z.eqb_spec e 0) as [->|Hne].
  - rewrite Z.mul_0_r, Z.mod_0_l by lia. rewrite alpha_pow_0. reflexivity.
  - cbv zeta. rewrite Hfs, Hlog by lia.
    rewrite Z.rem_mod_nonneg by nia.
    apply Hexp.
    pose proof (Z.mod_pos_bound (i * e) (q - 1) ltac:(lia)). lia.
Qed.

Lemma gf_inv_alpha (gf : GaloisField) (i : Z) :
  gf_init m poly = Ok gf ->
  0 <= i <= q - 2 ->
  gf_inv gf (a i) = a ((- i) mod (q - 1)).
Proof.
  intros Hinit Hi.
  pose proof (prim_q_ge m Hm) as Hq. fold q in Hq.
  pose proof (prim_deg m poly Hprim) as Hd.
  destruct (gf_init_tables gf Hinit) as (Hfs & Hexp & Hlog & Hrng).
  pose proof (Hrng i Hi) as Hai.
  destruct (gf_build_tables_ok m poly Hm Hprim)
    as (gf' & Hbuild & _ & _ & Hexpq & _ & _ & _ & Hinv).
  assert (gf = gf') as <-.
  { unfold gf_init, RS_MAX_SYMBOL_SIZE in Hinit.
    replace ((3 <=? m) && (m <=? 16)) with true in Hinit
      by (symmetry; apply andb_true_iff; split; apply Z.leb_le; lia).
    replace (0 <? poly) with true in Hinit by (symmetry; apply Z.ltb_lt; lia).
    cbn [negb] in Hinit. cbv zeta in Hinit. rewrite Hbuild in Hinit.
    congruence. }
  fold q in Hexpq, Hinv.
  unfold gf_inv.
  replace (a i =? 0) with false by (symmetry; apply Z.eqb_neq; lia).
  rewrite Hinv by lia. rewrite Hlog by lia.
  destruct (Z.eq_dec i 0) as [->|Hne].
  - rewrite Z.sub_0_r, Hexpq. cbn [Z.opp].
    rewrite Z.mod_0_l by lia. symmetry. apply alpha_pow_0.
  - rewrite Hexp by lia. f_equal.
    apply Z.mod_unique with (q := -1); lia.
Qed.

End GaloisFieldLaws.

Lemma gf_mul_0_r (gf : GaloisField) (x : Z) : gf_mul gf x 0 = 0.
Proof. unfold gf_mul. rewrite orb_true_r. reflexivity. Qed.

(** X5.  In a field built by [gf_init] from a primitive polynomial,
    division undoes multiplication and multiplication undoes division, for
    every element [x] and every non-zero element [y]. *)
Theorem gf_mul_div_cancel (m poly : Z) (gf : GaloisField) (x y : Z) :
  3 <= m <= 16 ->
  is_primitive m poly = true ->
  gf_init m poly = Ok gf ->
  0 <= x < 2 ^ m -> 1 <= y < 2 ^ m ->
  gf_div gf (gf_mul gf x y) y = x /\ gf_mul gf (gf_div gf x y) y = x.
Proof.
  intros Hm Hprim Hinit Hx Hy.
  rewrite <- Z.shiftl_1_l in Hx, Hy.
  pose proof (prim_q_ge m Hm) as Hq.
  destruct (Z.eq_dec x 0) as [->|Hx0].
  - split; reflexivity.
  - destruct (alpha_pow_surjective m poly Hm Hprim x ltac:(lia))
      as (i & Hi & <-).
    destruct (alpha_pow_surjective m poly Hm Hprim y Hy) as (j & Hj & <-).
      assert (Hn : 0 < Z.shiftl 1 m - 1) by lia.
    pose proof (Z.mod_pos_bound (i + j) (Z.shiftl 1 m - 1) Hn).
    pose proof (Z.mod_pos_bound (i - j) (Z.shiftl 1 m - 1) Hn).
    split.
    + rewrite (gf_mul_alpha m poly Hm Hprim gf i j Hinit Hi Hj).
      rewrite (gf_div_alpha m poly Hm Hprim gf _ j Hinit) by lia.
      f_equal. f_equal.
      rewrite Zminus_mod_idemp_l.
      replace (i + j - j) with i by lia. apply Z.mod_small. lia.
    + rewrite (gf_div_alpha m poly Hm Hprim gf i j Hinit Hi Hj).
      rewrite (gf_mul_alpha m poly Hm Hprim gf _ j Hinit) by lia.
      f_equal. f_equal.
      rewrite Zplus_mod_idemp_l.
      replace (i - j + j) with i by lia. apply Z.mod_small. lia.
Qed.

Lemma gf_mul_div_cancel_witness :
  gf_div (match gf_init 3 0xb with Ok gf => gf | _ => mkGF 0 0 0 [] [] [] end)
    (gf_mul (match gf_init 3 0xb with Ok gf => gf | _ => mkGF 0 0 0 [] [] [] end)
       5 6) 6 = 5 /\
  gf_mul (match gf_init 3 0xb with Ok gf => gf | _ => mkGF 0 0 0 [] [] [] end)
    (gf_div (match gf_init 3 0xb with Ok gf => gf | _ => mkGF 0 0 0 [] [] [] end)
       5 6) 6 = 5.
Proof.
  apply (gf_mul_div_cancel 3 0xb);
    [lia | vm_compute; reflexivity | vm_compute; reflexivity | lia | lia].
Defined.

(** X6.  The table multiplication is associative on the whole field, zero
    included. *)
Theorem gf_mul_assoc (m poly : Z) (gf : GaloisField) (x y z : Z) :
  3 <= m <= 16 ->
  is_primitive m poly = true ->
  gf_init m poly = Ok gf ->
  0 <= x < 2 ^ m -> 0 <= y < 2 ^ m -> 0 <= z < 2 ^ m ->
  gf_mul gf (gf_mul gf x y) z = gf_mul gf x (gf_mul gf y z).
Proof.
  intros Hm Hprim Hinit Hx Hy Hz.
  rewrite <- Z.shiftl_1_l in Hx, Hy, Hz.
  pose proof (prim_q_ge m Hm) as Hq.
  destruct (Z.eq_dec x 0) as [->|Hx0]; [reflexivity|].
  destruct (Z.eq_dec y 0) as [->|Hy0].
  { rewrite gf_mul_0_r. change (gf_mul gf 0 z) with 0.
    rewrite gf_mul_0_r. reflexivity. }
  destruct (Z.eq_dec z 0) as [->|Hz0].
  { rewrite !gf_mul_0_r. reflexivity. }
  destruct (alpha_pow_surjective m poly Hm Hprim x ltac:(lia))
    as (i & Hi & <-).
  destruct (alpha_pow_surjective m poly Hm Hprim y ltac:(lia))
    as (j & Hj & <-).
  destruct (alpha_pow_surjective m poly Hm Hprim z ltac:(lia))
    as (k & Hk & <-).
  assert (Hn : 0 < Z.shiftl 1 m - 1) by lia.
  pose proof (Z.mod_pos_bound (i + j) (Z.shiftl 1 m - 1) Hn).
  pose proof (Z.mod_pos_bound (j + k) (Z.shiftl 1 m - 1) Hn).
  rewrite (gf_mul_alpha m poly Hm Hprim gf i j Hinit Hi Hj).
  rewrite (gf_mul_alpha m poly Hm Hprim gf _ k Hinit) by lia.
  rewrite (gf_mul_alpha m poly Hm Hprim gf j k Hinit Hj Hk).
  rewrite (gf_mul_alpha m poly Hm Hprim gf i _ Hinit) by lia.
  f_equal. f_equal.
  rewrite Zplus_mod_idemp_l, Zplus_mod_idemp_r. f_equal. lia.
Qed.

Lemma gf_mul_assoc_witness :
  gf_mul (match gf_init 3 0xb with Ok gf => gf | _ => mkGF 0 0 0 [] [] [] end)
    (gf_mul (match gf_init 3 0xb with Ok gf => gf | _ => mkGF 0 0 0 [] [] [] end)
       3 5) 7
  = gf_mul (match gf_init 3 0xb with Ok gf => gf | _ => mkGF 0 0 0 [] [] [] end)
      3 (gf_mul (match gf_init 3 0xb with Ok gf => gf | _ => mkGF 0 0 0 [] [] [] end)
           5 7).
Proof.
  apply (gf_mul_assoc 3 0xb);
    [lia | vm_compute; reflexivity | vm_compute; reflexivity | lia | lia | lia].
Defined.

(** X7.  The table multiplication stays inside the field, has [1] as its
    neutral element, and has no zero divisors: a product is zero only when
    one of the factors is. *)
Theorem gf_mul_closed_unit_nonzero (m poly : Z) (gf : GaloisField) (x y : Z) :
  3 <= m <= 16 ->
  is_primitive m poly = true ->
  gf_init m poly = Ok gf ->
  0 <= x < 2 ^ m -> 0 <= y < 2 ^ m ->
  0 <= gf_mul gf x y < 2 ^ m /\
  gf_mul gf x 1 = x /\
  (gf_mul gf x y = 0 <-> x = 0 \/ y = 0).
Proof.
  intros Hm Hprim Hinit Hx Hy.
  rewrite <- Z.shiftl_1_l in *.
  pose proof (prim_q_ge m Hm) as Hq.
  destruct (Z.eq_dec x 0) as [->|Hx0].
  { split; [|split]; [change (gf_mul gf 0 y) with 0; lia | reflexivity |].
    split; [intros _; left; reflexivity | reflexivity]. }
  destruct (alpha_pow_surjective m poly Hm Hprim x ltac:(lia))
    as (i & Hi & Ex).
  assert (Hone : gf_mul gf x 1 = x).
  { rewrite <- Ex. rewrite <- (a_0 m poly) at 2.
    rewrite (gf_mul_alpha m poly Hm Hprim gf i 0 Hinit Hi) by lia.
    f_equal. f_equal. rewrite Z.add_0_r. apply Z.mod_small. lia. }
  destruct (Z.eq_dec y 0) as [->|Hy0].
  { rewrite gf_mul_0_r. split; [lia|]. split; [exact Hone|].
    split; [intros _; right; reflexivity | reflexivity]. }
  destruct (alpha_pow_surjective m poly Hm Hprim y ltac:(lia))
    as (j & Hj & Ey).
  assert (Hn : 0 < Z.shiftl 1 m - 1) by lia.
  pose proof (Z.mod_pos_bound (i + j) (Z.shiftl 1 m - 1) Hn) as Hb.
  pose proof (alpha_pow_bounds m poly Hm Hprim
                ((i + j) mod (Z.shiftl 1 m - 1)) ltac:(lia)) as Hr.
  assert (E : gf_mul gf x y
              = alpha_pow poly (Z.shiftl 1 m)
                  (Z.to_nat ((i + j) mod (Z.shiftl 1 m - 1)))).
  { rewrite <- Ex, <- Ey. apply gf_mul_alpha; assumption. }
  rewrite E. split; [lia|]. split; [exact Hone|].
  split; [intros E0; lia | intros [E0|E0]; lia].
Qed.

Lemma gf_mul_closed_unit_nonzero_witness :
  0 <= gf_mul (match gf_init 3 0xb with Ok gf => gf | _ => mkGF 0 0 0 [] [] [] end)
         6 7 < 2 ^ 3 /\
  gf_mul (match gf_init 3 0xb with Ok gf => gf | _ => mkGF 0 0 0 [] [] [] end)
    6 1 = 6 /\
  (gf_mul (match gf_init 3 0xb with Ok gf => gf | _ => mkGF 0 0 0 [] [] [] end)
     6 7 = 0 <-> 6 = 0 \/ 7 = 0).
Proof.
  apply (gf_mul_closed_unit_nonzero 3 0xb);
    [lia | vm_compute; reflexivity | vm_compute; reflexivity | lia | lia].
Defined.

(** X8.  [gf_pow] is repeated multiplication: the power with exponent
    [e + 1] is the power with exponent [e] times the base, for every field
    element and every exponent from 0 on (in C as long as the product of the
    logarithm and the exponent is an [int], which [e < 32767] ensures). *)
Theorem gf_pow_succ (m poly : Z) (gf : GaloisField) (x e : Z) :
  3 <= m <= 16 ->
  is_primitive m poly = true ->
  gf_init m poly = Ok gf ->
  0 <= x < 2 ^ m -> 0 <= e < 32767 ->
  gf_pow gf x (e + 1) = gf_mul gf (gf_pow gf x e) x.
Proof.
  intros Hm Hprim Hinit Hx He.
  rewrite <- Z.shiftl_1_l in *.
  pose proof (prim_q_ge m Hm) as Hq.
  destruct (Z.eq_dec x 0) as [->|Hx0].
  { rewrite gf_mul_0_r. reflexivity. }
  destruct (alpha_pow_surjective m poly Hm Hprim x ltac:(lia))
    as (i & Hi & <-).
  assert (Hn : 0 < Z.shiftl 1 m - 1) by lia.
  pose proof (Z.mod_pos_bound (i * e) (Z.shiftl 1 m - 1) Hn).
  rewrite !(gf_pow_alpha m poly Hm Hprim gf i _ Hinit Hi) by lia.
  rewrite (gf_mul_alpha m poly Hm Hprim gf _ i Hinit) by lia.
  f_equal. f_equal.
  rewrite Zplus_mod_idemp_l. f_equal. lia.
Qed.

Lemma gf_pow_succ_witness :
  gf_pow (match gf_init 3 0xb with Ok gf => gf | _ => mkGF 0 0 0 [] [] [] end)
    3 (4 + 1)
  = gf_mul (match gf_init 3 0xb with Ok gf => gf | _ => mkGF 0 0 0 [] [] [] end)
      (gf_pow (match gf_init 3 0xb with Ok gf => gf | _ => mkGF 0 0 0 [] [] [] end)
         3 4) 3.
Proof.
  apply (gf_pow_succ 3 0xb);
    [lia | vm_compute; reflexivity | vm_compute; reflexivity | lia | lia].
Defined.

(** X9.  Division is multiplication by the inverse taken from the inverse
    table: [gf_div x y = gf_mul x (gf_inv y)] for every element [x] and
    every non-zero element [y]. *)
Theorem gf_div_mul_inv (m poly : Z) (gf : GaloisField) (x y : Z) :
  3 <= m <= 16 ->
  is_primitive m poly = true ->
  gf_init m poly = Ok gf ->
  0 <= x < 2 ^ m -> 1 <= y < 2 ^ m ->
  gf_div gf x y = gf_mul gf x (gf_inv gf y).
Proof.
  intros Hm Hprim Hinit Hx Hy.
  rewrite <- Z.shiftl_1_l in *.
  pose proof (prim_q_ge m Hm) as Hq.
  destruct (Z.eq_dec x 0) as [->|Hx0]; [reflexivity|].
  destruct (alpha_pow_surjective m poly Hm Hprim x ltac:(lia))
    as (i & Hi & <-).
  destruct (alpha_pow_surjective m poly Hm Hprim y Hy) as (j & Hj & <-).
  assert (Hn : 0 < Z.shiftl 1 m - 1) by lia.
  pose proof (Z.mod_pos_bound (- j) (Z.shiftl 1 m - 1) Hn).
  rewrite (gf_div_alpha m poly Hm Hprim gf i j Hinit Hi Hj).
  rewrite (gf_inv_alpha m poly Hm Hprim gf j Hinit Hj).
  rewrite (gf_mul_alpha m poly Hm Hprim gf i _ Hinit Hi) by lia.
  f_equal. f_equal.
  rewrite Zplus_mod_idemp_r. f_equal.
Qed.

Lemma gf_div_mul_inv_witness :
  gf_div (match gf_init 3 0xb with Ok gf => gf | _ => mkGF 0 0 0 [] [] [] end)
    5 6
  = gf_mul (match gf_init 3 0xb with Ok gf => gf | _ => mkGF 0 0 0 [] [] [] end)
      5 (gf_inv (match gf_init 3 0xb with Ok gf => gf | _ => mkGF 0 0 0 [] [] [] end)
           6).
Proof.
  apply (gf_div_mul_inv 3 0xb);
    [lia | vm_compute; reflexivity | vm_compute; reflexivity | lia | lia].
Defined.

(** ** The degree check and the table of default polynomials *)

(** The shifting loop of [rs_is_primitive_poly_valid] counts the bits of
    its argument. *)
Lemma poly_degree_loop_log2 (fuel : nat) (temp degree : Z) :
  0 < temp <= Z.of_nat fuel ->
  poly_degree_loop fuel temp degree = degree + Z.log2 temp + 1.
Proof.
  revert temp degree. induction fuel as [|f IH]; intros temp degree Ht.
  - lia.
  - cbn [poly_degree_loop].
    destruct (Z.ltb_spec 0 temp) as [_|]; [|lia].
    destruct (Z.eq_dec temp 1) as [->|Hne].
    + change (Z.shiftr 1 1) with 0. change (Z.log2 1) with 0.
      destruct f; cbn [poly_degree_loop]; [lia|].
      change (0 <? 0) with false. cbv iota. lia.
    + assert (H2 : 1 <= Z.log2 temp)
        by (change 1 with (Z.log2 2); apply Z.log2_le_mono; lia).
      assert (Hs : Z.shiftr temp 1 = temp / 2)
        by (rewrite Z.shiftr_div_pow2 by lia; reflexivity).
      assert (Hl : Z.log2 (Z.shiftr temp 1) = Z.log2 temp - 1)
        by (rewrite Z.log2_shiftr by lia; lia).
      rewrite IH.
      * rewrite Hl. lia.
      * rewrite Hs. split.
        -- apply Z.div_str_pos. lia.
        -- assert (temp / 2 < temp) by (apply Z.div_lt; lia). lia.
Qed.

(** A polynomial of degree [m] passes the check. *)
Lemma poly_of_degree_valid (m p : Z) :
  3 <= m <= 16 -> 2 ^ m <= p < 2 ^ (m + 1) ->
  rs_is_primitive_poly_valid m p = true.
Proof.
  intros Hm Hr. unfold rs_is_primitive_poly_valid, RS_MAX_SYMBOL_SIZE.
  destruct (Z.ltb_spec m 3); [lia|].
  destruct (Z.ltb_spec 16 m); [lia|]. cbn [orb].
  assert (0 < 2 ^ m) by (apply Z.pow_pos_nonneg; lia).
  destruct (Z.leb_spec p 0); [lia|].
  cbv zeta. rewrite poly_degree_loop_log2 by lia.
  replace (0 + Z.log2 p + 1 - 1) with (Z.log2 p) by lia.
  apply Z.eqb_eq. apply Z.log2_unique; [lia | exact Hr].
Qed.

(** X10.  [rs_is_primitive_poly_valid] accepts a polynomial exactly when
    the symbol size [m] is in [3, 16] and the polynomial has degree [m],
    that is [2^m <= p < 2^(m+1)]: it looks at the degree only, not at
    whether the polynomial is primitive. *)
Theorem rs_is_primitive_poly_valid_iff_degree (m p : Z) :
  rs_is_primitive_poly_valid m p = true <->
  3 <= m <= 16 /\ 2 ^ m <= p < 2 ^ (m + 1).
Proof.
  split; [|intros (Hm & Hr); apply poly_of_degree_valid; assumption].
  unfold rs_is_primitive_poly_valid, RS_MAX_SYMBOL_SIZE.
  destruct (Z.ltb_spec m 3) as [Hm3|Hm3]; cbn [orb]; [discriminate|].
  destruct (Z.ltb_spec 16 m) as [Hm16|Hm16]; [discriminate|].
  destruct (Z.leb_spec p 0) as [Hp|Hp]; [discriminate|].
  cbv zeta. rewrite poly_degree_loop_log2 by lia.
  replace (0 + Z.log2 p + 1 - 1) with (Z.log2 p) by lia.
  intros E. apply Z.eqb_eq in E. subst m.
  split; [lia|]. replace (Z.log2 p + 1) with (Z.succ (Z.log2 p)) by lia.
  apply Z.log2_spec. exact Hp.
Qed.

(** X11.  For every symbol size from 3 to 12 the table of defaults holds a
    polynomial that passes [rs_is_primitive_poly_valid], is primitive, and
    from which [gf_init] builds the field. *)
Theorem default_primitive_poly_builds_field (m : Z) :
  3 <= m <= 12 ->
  rs_is_primitive_poly_valid m (rs_get_default_primitive_poly m) = true /\
  is_primitive m (rs_get_default_primitive_poly m) = true /\
  exists gf, gf_init m (rs_get_default_primitive_poly m) = Ok gf.
Proof.
  intros Hm.
  assert (Hin : In (m, rs_get_default_primitive_poly m) primitive_polys).
  { assert (Hc : m = 3 \/ m = 4 \/ m = 5 \/ m = 6 \/ m = 7 \/ m = 8 \/
                 m = 9 \/ m = 10 \/ m = 11 \/ m = 12) by lia.
    unfold primitive_polys.
    repeat (destruct Hc as [->|Hc]; [cbn; tauto|]).
    subst m. cbn. tauto. }
  pose proof primitive_polys_are_primitive as Hall.
  rewrite forallb_forall in Hall.
  pose proof (Hall _ Hin) as Hprim. cbn [fst snd] in Hprim.
  pose proof (prim_deg m _ Hprim) as Hd.
  rewrite Z.shiftl_1_l in Hd.
  split; [|split].
  - apply poly_of_degree_valid; [lia|].
    rewrite Z.pow_add_r by lia. change (2 ^ 1) with 2. lia.
  - exact Hprim.
  - destruct (gf_build_tables_ok m _ ltac:(lia) Hprim) as (gf & Hbuild & _).
    exists gf. unfold gf_init, RS_MAX_SYMBOL_SIZE.
    replace ((3 <=? m) && (m <=? 16)) with true
      by (symmetry; apply andb_true_iff; split; apply Z.leb_le; lia).
    assert (0 < 2 ^ m) by (apply Z.pow_pos_nonneg; lia).
    replace (0 <? rs_get_default_primitive_poly m) with true
      by (symmetry; apply Z.ltb_lt; lia).
    exact Hbuild.
Qed.

Lemma default_primitive_poly_builds_field_witness :
  rs_is_primitive_poly_valid 8 (rs_get_default_primitive_poly 8) = true /\
  is_primitive 8 (rs_get_default_primitive_poly 8) = true /\
  exists gf, gf_init 8 (rs_get_default_primitive_poly 8) = Ok gf.
Proof.
  apply (default_primitive_poly_builds_field 8). lia.
Defined.

(** ** The generator polynomial *)

Lemma for_down_invariant {St : Type} (P : Z -> St -> Prop)
      (body : Z -> St -> St) (hi lo : Z) (s : St) :
  lo - 1 <= hi ->
  P hi s ->
  (forall i s', lo <= i <= hi -> P i s' -> P (i - 1) (body i s')) ->
  P (lo - 1) (for_down hi lo body s).
Proof.
  intros Hle H0 Hstep. unfold for_down.
  remember (Z.to_nat (hi - lo + 1)) as c eqn:Ec.
  revert hi s Hle H0 Hstep Ec.
  induction c as [|c IH]; intros hi s Hle H0 Hstep Ec; cbn [for_down_loop].
  - replace (lo - 1) with hi by lia. exact H0.
  - apply IH; [lia | apply Hstep; [lia | exact H0] | | lia].
    intros i s' Hi. apply Hstep. lia.
Qed.

(** One round of [rs_generate_generator_polynomial] keeps the buffer's
    length and puts the leading [1] one cell further up. *)
Lemma generator_round (gf : GaloisField) (root deg : Z) (g : list Z) :
  0 <= deg -> deg + 1 < Z.of_nat (length g) -> sel 0 g deg = 1 ->
  let temp := firstn (Z.to_nat (deg + 1)) g in
  let g1 := for_down deg 0 (fun j g => upd g (j + 1) (sel 0 temp j)) g in
  let g2 := upd g1 0 0 in
  let g3 :=
    for_range 0 (deg + 1)
      (fun j g => upd g j (gf_add (sel 0 g j) (gf_mul gf root (sel 0 temp j))))
      g2 in
  length g3 = length g /\ sel 0 g3 (deg + 1) = 1.
Proof.
  intros Hd Hlen Hlead temp g1 g2 g3.
  assert (Ht : sel 0 temp deg = 1).
  { unfold temp. rewrite sel_firstn by lia. exact Hlead. }
  assert (H1 : length g1 = length g /\ sel 0 g1 (deg + 1) = 1).
  { pose (P := fun (j : Z) (g' : list Z) =>
        length g' = length g /\ (j < deg -> sel 0 g' (deg + 1) = 1)).
    assert (HP : P (0 - 1) g1).
    { unfold g1. apply (for_down_invariant P); unfold P.
      - lia.
      - split; [reflexivity | lia].
      - intros j g' Hj (Hl & Hc). split; [rewrite length_upd; exact Hl|].
        intros _. destruct (Z.eq_dec j deg) as [->|Hne].
        + rewrite sel_upd_same by lia. exact Ht.
        + rewrite sel_upd_other by lia. apply Hc. lia. }
    destruct HP as (Hl & Hc). split; [exact Hl | apply Hc; lia]. }
  destruct H1 as (Hl1 & Hc1).
  assert (H2 : length g2 = length g /\ sel 0 g2 (deg + 1) = 1).
  { unfold g2. split; [rewrite length_upd; exact Hl1|].
    rewrite sel_upd_other by lia. exact Hc1. }
  destruct H2 as (Hl2 & Hc2).
  pose (Q := fun (j : Z) (g' : list Z) =>
      length g' = length g /\ sel 0 g' (deg + 1) = 1).
  assert (HQ : Q (deg + 1) g3).
  { unfold g3. apply (for_range_invariant Q); unfold Q.
    - lia.
    - split; assumption.
    - intros j g' Hj (Hl & Hc). split; [rewrite length_upd; exact Hl|].
      rewrite sel_upd_other by lia. exact Hc. }
  exact HQ.
Qed.

(** X12.  A codec that [rs_init] builds has a generator polynomial of
    degree [n - k] with leading coefficient 1, stored with the constant term
    first in [n - k + 1] cells; and [rs_init] builds a codec only when
    [n - k] is at most 256. *)
Theorem rs_init_generator_monic (cfg : RSConfig) (n k : Z) (rs : RSCodec) :
  rs_init cfg n k = Ok rs ->
  gen_poly_degree rs = n - k /\
  Z.of_nat (length (generator_poly rs)) = n - k + 1 /\
  sel 0 (generator_poly rs) (n - k) = 1 /\
  n - k <= 256.
Proof.
  intros Hinit.
  destruct (rs_init_fields _ _ _ _ Hinit) as (_ & _ & _ & _ & Hkn).
  unfold rs_init in Hinit.
  destruct ((k <? n) && (0 <? k)); cbn [negb] in Hinit; [|discriminate].
  destruct (n <=? _); cbn [negb] in Hinit; [|discriminate].
  cbv zeta in Hinit.
  destruct (gf_init _ _) as [gf| |]; cbn [bind] in Hinit; try discriminate.
  unfold rs_generate_generator_polynomial in Hinit.
  cbn [rs_num_roots generator_poly rs_gf rs_fcr] in Hinit.
  set (L := Z.to_nat (n - k + 1)) in *.
  pose (P := fun (i : Z) (st : result (list Z * Z)) =>
    match st with
    | Ok (g, deg) =>
        deg = i /\ length g = L /\ sel 0 g i = 1 /\ i <= 256
    | Err _ => False
    | Fault => True
    end).
  match type of Hinit with
  | context [for_range 0 (n - k) ?body ?s0] =>
      assert (HP : P (n - k) (for_range 0 (n - k) body s0))
  end.
  { apply (for_range_invariant P); unfold P.
    - lia.
    - split; [reflexivity|]. split; [rewrite length_upd; apply repeat_length|].
      split; [|lia]. apply sel_upd_same. rewrite repeat_length. lia.
    - intros i [[g deg]| |] Hi; cbn [bind]; [|contradiction|trivial].
      intros (-> & Hl & Hlead & Hi256).
      unfold RS_MAX_PARITY_SYMBOLS.
      destruct (Z.ltb_spec (255 + 1) (i + 1)) as [|Hsmall]; [trivial|].
      destruct (generator_round gf (gf_pow gf 2 (cfg_fcr cfg + i)) i g
                  ltac:(lia) ltac:(lia) Hlead) as (Hl3 & Hc3).
      split; [reflexivity|]. split; [rewrite Hl3; exact Hl|].
      split; [exact Hc3 | lia]. }
  unfold P in HP.
  destruct (for_range 0 (n - k) _ _) as [[g deg]| |]; cbn [bind] in Hinit;
    try discriminate.
  injection Hinit as <-. cbn.
  destruct HP as (-> & Hl & Hlead & H256).
  split; [reflexivity|]. split; [lia|]. split; assumption.
Qed.

Lemma rs_init_generator_monic_witness :
  gen_poly_degree
    (match rs_init (mkRSConfig 3 4 1 0xb 1) 7 3 with
     | Ok rs => rs
     | _ => mkRS (mkGF 0 0 0 [] [] []) 0 0 0 0 0 0 [] 0 []
     end) = 7 - 3 /\
  Z.of_nat (length (generator_poly
    (match rs_init (mkRSConfig 3 4 1 0xb 1) 7 3 with
     | Ok rs => rs
     | _ => mkRS (mkGF 0 0 0 [] [] []) 0 0 0 0 0 0 [] 0 []
     end))) = 7 - 3 + 1 /\
  sel 0 (generator_poly
    (match rs_init (mkRSConfig 3 4 1 0xb 1) 7 3 with
     | Ok rs => rs
     | _ => mkRS (mkGF 0 0 0 [] [] []) 0 0 0 0 0 0 [] 0 []
     end)) (7 - 3) = 1 /\
  7 - 3 <= 256.
Proof.
  apply (rs_init_generator_monic (mkRSConfig 3 4 1 0xb 1) 7 3).
  vm_compute; reflexivity.
Defined.

(** X13.  [rs_init] does not check the number of parity symbols against
    [RS_MAX_PARITY_SYMBOLS]: with more than 256 of them (which the code
    lengths of symbol sizes from 9 on allow) the generator polynomial no
    longer fits the scratch array of [rs_generate_generator_polynomial] and
    the copy into it runs past its end. *)
Theorem rs_init_parity_overflow (cfg : RSConfig) (n k : Z) (gf : GaloisField) :
  gf_init (cfg_symbol_size cfg) (cfg_primitive_poly cfg) = Ok gf ->
  0 < k -> n <= 2 ^ cfg_symbol_size cfg - 1 -> 256 < n - k ->
  rs_init cfg n k = Fault.
Proof.
  intros Hgf Hk Hn Hroots.
  unfold rs_init.
  replace ((k <? n) && (0 <? k)) with true
    by (symmetry; apply andb_true_iff; split; apply Z.ltb_lt; lia).
  rewrite Z.shiftl_1_l.
  replace (n <=? 2 ^ cfg_symbol_size cfg - 1) with true
    by (symmetry; apply Z.leb_le; lia).
  cbn [negb]. cbv zeta. rewrite Hgf. cbn [bind].
  unfold rs_generate_generator_polynomial.
  cbn [rs_num_roots generator_poly rs_gf rs_fcr].
  pose (P := fun (i : Z) (st : result (list Z * Z)) =>
    if i <=? 256 then exists g, st = Ok (g, i) else st = Fault).
  match goal with
  | |- context [for_range 0 (n - k) ?body ?s0] =>
      assert (HP : P (n - k) (for_range 0 (n - k) body s0))
  end.
  { apply (for_range_invariant P); unfold P.
    - lia.
    - cbn. eexists. reflexivity.
    - intros i st Hi.
      destruct (Z.leb_spec i 256) as [Hle|Hgt].
      + intros (g & ->). cbn [bind]. unfold RS_MAX_PARITY_SYMBOLS.
        destruct (Z.ltb_spec (255 + 1) (i + 1)) as [Hbig|Hsmall].
        * destruct (Z.leb_spec (i + 1) 256); [lia | reflexivity].
        * destruct (Z.leb_spec (i + 1) 256); [|lia].
          eexists. reflexivity.
      + intros ->. cbn [bind].
        destruct (Z.leb_spec (i + 1) 256); [lia | reflexivity]. }
  unfold P in HP.
  destruct (Z.leb_spec (n - k) 256); [lia|].
  rewrite HP. reflexivity.
Qed.

Lemma rs_init_parity_overflow_witness :
  rs_init (mkRSConfig 9 260 1 0x211 1) 300 40 = Fault.
Proof.
  apply (rs_init_parity_overflow (mkRSConfig 9 260 1 0x211 1) 300 40
           (match gf_init 9 0x211 with
            | Ok gf => gf
            | _ => mkGF 0 0 0 [] [] []
            end));
    [vm_compute; reflexivity | lia | cbn; lia | lia].
Defined.

(** ** The LDPC construction and encoder, in general *)

(** A property that every round of a loop keeps holds after the loop,
    whatever its bounds. *)
Lemma for_range_preserves {St : Type} (P : St -> Prop)
      (body : Z -> St -> St) (lo hi : Z) (s : St) :
  P s -> (forall i s', P s' -> P (body i s')) -> P (for_range lo hi body s).
Proof.
  intros H0 Hstep. unfold for_range.
  generalize (Z.to_nat (hi - lo)) as c. intros c.
  revert lo s H0. induction c as [|c IH]; intros lo s H0; cbn [for_loop].
  - exact H0.
  - apply IH. apply Hstep. exact H0.
Qed.

(** X14.  The LDPC codec can only be built for rate 1/2: the standard
    construction pairs every variable degree [dv] with the check degree
    [2 * dv], and the regular matrix needs [n * dv = (n - k) * dc], so for
    [n <> 2 * k] no codec is returned. A request that fails the parameter
    checks, [0 < k < n <= LDPC_MAX_CODE_LENGTH], ends in
    [FSO_ERROR_INVALID_PARAM]. A request that passes them fails the degree
    check after [ldpc_init] has allocated [H] and [G], and the clean-up of
    [fec_init] then frees the pointers of two structures that were never
    initialised: the behaviour is undefined, not a clean error. *)
Theorem fec_init_ldpc_only_rate_half (max_iter k n : Z) :
  n <> 2 * k ->
  fec_init_ldpc max_iter k n
  = if (k <? n) && (0 <? k) && (n <=? LDPC_MAX_CODE_LENGTH) then Fault
    else Err FSO_ERROR_INVALID_PARAM.
Proof.
  intros Hne. unfold fec_init_ldpc.
  destruct ((k <? n) && (0 <? k)) eqn:E1; cbn [negb andb]; [|reflexivity].
  cbv zeta. unfold ldpc_init. rewrite E1. cbn [negb].
  destruct (n <=? LDPC_MAX_CODE_LENGTH); cbn [negb bind]; [|reflexivity].
  unfold ldpc_generate_standard_matrix.
  match goal with
  | |- context [if ?c then _ else Err FSO_ERROR_INVALID_PARAM] =>
      destruct c; [|reflexivity]
  end.
  cbv zeta.
  assert (Hreg : forall ldpc dv,
            0 < dv -> ldpc_n ldpc = n -> ldpc_m ldpc = n - k ->
            ldpc_create_regular_matrix ldpc dv (2 * dv)
            = Err FSO_ERROR_INVALID_PARAM).
  { intros ldpc dv Hdv Hn Hm. unfold ldpc_create_regular_matrix.
    rewrite Hn, Hm.
    destruct (Z.eqb_spec (n * dv) ((n - k) * (2 * dv))) as [E|_];
      [|reflexivity].
    exfalso. apply Hne. nia. }
  repeat match goal with
  | |- context [if ?c then _ else _] => destruct c
  end;
  match goal with
  | |- match ldpc_create_regular_matrix ?l ?dv ?dc with _ => _ end = _ =>
      change dc with (2 * dv); rewrite (Hreg l dv);
      [reflexivity | lia | reflexivity | reflexivity]
  end.
Qed.

Lemma fec_init_ldpc_only_rate_half_witness :
  3072 <> 2 * 2048 /\ fec_init_ldpc 50 2048 3072 = Fault.
Proof.
  split; [lia|].
  apply (fec_init_ldpc_only_rate_half 50 2048 3072). lia.
Defined.

(** X15.  [ldpc_encode] is systematic and binary for every codec with a
    generator matrix: it returns [n] cells, the first [k] of which are the
    least significant bits of the [k] input bytes, and every cell is 0 or
    1. *)
Theorem ldpc_encode_systematic_binary
        (ldpc : LDPCCodec) (data : list Z) (encoded_len : Z) :
  Z.of_nat (length data) = ldpc_k ldpc ->
  ldpc_n ldpc <= encoded_len ->
  0 <= ldpc_k ldpc <= ldpc_n ldpc ->
  row_ptr (ldpc_G ldpc) <> [] ->
  exists c,
    ldpc_encode ldpc data encoded_len = Ok c /\
    Z.of_nat (length c) = ldpc_n ldpc /\
    (forall i, 0 <= i < ldpc_k ldpc ->
       sel 0 c i = Z.land (sel 0 data i) 1) /\
    (forall i, 0 <= i < ldpc_n ldpc -> sel 0 c i = 0 \/ sel 0 c i = 1).
Proof.
  intros Hlen Hcap Hkn Hrp. unfold ldpc_encode.
  rewrite Hlen, Z.eqb_refl. cbn [negb].
  replace (ldpc_n ldpc <=? encoded_len) with true
    by (symmetry; apply Z.leb_le; lia).
  cbn [negb].
  destruct (row_ptr (ldpc_G ldpc)) as [|rp0 rps] eqn:Erp; [congruence|].
  rewrite <- Erp. clear Erp Hrp rp0 rps.
  cbv zeta. eexists. split; [reflexivity|].
  set (k := ldpc_k ldpc) in *. set (n := ldpc_n ldpc) in *.
  set (G := ldpc_G ldpc).
  assert (Hbit : forall x, Z.land x 1 = 0 \/ Z.land x 1 = 1).
  { intros x. pose proof (Z.land_ones x 1 ltac:(lia)) as E.
    change (Z.ones 1) with 1 in E. change (2 ^ 1) with 2 in E. rewrite E.
    pose proof (Z.mod_pos_bound x 2 ltac:(lia)). lia. }
  pose (Q := fun (e : list Z) =>
      Z.of_nat (length e) = encoded_len /\
      (forall j, 0 <= j < encoded_len -> sel 0 e j = 0 \/ sel 0 e j = 1)).
  set (e1 := for_range 0 k (fun i e => upd e i (Z.land (sel 0 data i) 1))
                      (repeat 0 (Z.to_nat encoded_len))).
  assert (H1 : Q e1 /\
               (forall i, 0 <= i < k -> sel 0 e1 i = Z.land (sel 0 data i) 1)).
  { pose (P := fun (i : Z) (e : list Z) =>
        Q e /\
        (forall j, 0 <= j < i -> sel 0 e j = Z.land (sel 0 data j) 1)).
    assert (HP : P k e1).
    { unfold e1. apply (for_range_invariant P); unfold P, Q.
      - lia.
      - split; [split|].
        + rewrite repeat_length. lia.
        + intros j _. left. apply sel_repeat.
        + intros; lia.
      - intros i e Hi ((Hl & Hbin) & Hlow).
        split; [split|].
        + rewrite length_upd. exact Hl.
        + intros j Hj. destruct (Z.eq_dec j i) as [->|Hne].
          * rewrite sel_upd_same by lia. apply Hbit.
          * rewrite sel_upd_other by lia. apply Hbin. exact Hj.
        + intros j Hj. destruct (Z.eq_dec j i) as [->|Hne].
          * apply sel_upd_same. lia.
          * rewrite sel_upd_other by lia. apply Hlow. lia. }
    exact HP. }
  destruct H1 as (HQ1 & Hlow1).
  pose (Q2 := fun (e : list Z) =>
      Q e /\ (forall j, 0 <= j < k -> sel 0 e j = Z.land (sel 0 data j) 1)).
  assert (Hflip : forall e c,
            Q2 e -> k <= c -> Q2 (upd e c (Z.lxor (sel 0 e c) 1))).
  { intros e c ((Hl & Hbin) & Hlow) Hc. unfold Q2, Q.
    split; [split|].
    - rewrite length_upd. exact Hl.
    - intros j Hj. destruct (Z.eq_dec j c) as [->|Hne].
      + rewrite sel_upd_same by lia.
        destruct (Hbin c Hj) as [->| ->]; [right | left]; reflexivity.
      + rewrite sel_upd_other by lia. apply Hbin. exact Hj.
    - intros j Hj. rewrite sel_upd_other by lia. apply Hlow. exact Hj. }
  match goal with
  | |- context [firstn _ (for_range 0 k ?body e1)] =>
      assert (H2 : Q2 (for_range 0 k body e1))
  end.
  { apply for_range_preserves; [unfold Q2; auto|].
    intros i e He.
    destruct (Z.land (sel 0 data i) 1 =? 1); [|exact He].
    apply for_range_preserves; [exact He|].
    intros j e' He'.
    destruct (k <=? sel 0 (col_indices G) j) eqn:Ec; cbn [andb]; [|exact He'].
    destruct (sel 0 (values G) j =? 1); [|exact He'].
    apply Hflip; [exact He'|]. apply Z.leb_le. exact Ec. }
  destruct H2 as ((Hl2 & Hbin2) & Hlow2).
  set (e2 := for_range 0 k _ e1) in *.
  split; [rewrite length_firstn; lia|]. split.
  - intros i Hi. rewrite sel_firstn by lia. apply Hlow2. exact Hi.
  - intros i Hi. rewrite sel_firstn by lia. apply Hbin2. lia.
Qed.

Lemma ldpc_encode_systematic_binary_witness :
  exists c,
    ldpc_encode ldpc_4_2 [1; 3] 4 = Ok c /\
    Z.of_nat (length c) = ldpc_n ldpc_4_2 /\
    (forall i, 0 <= i < ldpc_k ldpc_4_2 ->
       sel 0 c i = Z.land (sel 0 [1; 3] i) 1) /\
    (forall i, 0 <= i < ldpc_n ldpc_4_2 -> sel 0 c i = 0 \/ sel 0 c i = 1).
Proof.
  apply (ldpc_encode_systematic_binary ldpc_4_2 [1; 3] 4);
    [reflexivity | vm_compute; discriminate | vm_compute; split; discriminate
    | vm_compute; discriminate].
Defined.

(** ** Sparse-matrix access *)

Lemma for_range_ext {St : Type} (f g : Z -> St -> St) (lo hi : Z) (s : St) :
  (forall i s', lo <= i < hi -> f i s' = g i s') ->
  for_range lo hi f s = for_range lo hi g s.
Proof.
  unfold for_range. intros H.
  remember (Z.to_nat (hi - lo)) as c eqn:Ec.
  revert lo s H Ec. induction c as [|c IH]; intros lo s H Ec; cbn [for_loop].
  - reflexivity.
  - rewrite (H lo s) by lia. apply IH; [|lia].
    intros i s' Hi. apply H. lia.
Qed.

(** X16.  On a matrix that [sparse_matrix_init] has just built,
    [sparse_matrix_set] can store entry (0, 0) only: for every other valid
    position the zeroed elements all sort before it, the insertion point is
    [nnz], and the new element is written one cell past the end of the
    element array. *)
Theorem sparse_matrix_set_fresh_overflow
        (nrows ncols count : Z) (matrix : SparseMatrix) (r c v : Z) :
  sparse_matrix_init nrows ncols count = Ok matrix ->
  0 <= r < nrows -> 0 <= c < ncols ->
  r <> 0 \/ c <> 0 ->
  sparse_matrix_set matrix r c v = Fault.
Proof.
  intros Hinit Hr Hc Hpos. unfold sparse_matrix_init in Hinit.
  destruct ((0 <? nrows) && (0 <? ncols) && (0 <=? count)) eqn:E;
    cbn [negb] in Hinit; [|discriminate].
  apply andb_true_iff in E as [_ Hcount]. apply Z.leb_le in Hcount.
  assert (Hm : rows matrix = nrows /\ cols matrix = ncols /\
               nnz matrix = count /\
               elements matrix = repeat elem0 (Z.to_nat count)).
  { destruct (Z.ltb_spec 0 count); injection Hinit as <-; cbn;
      repeat split; try reflexivity.
    replace (Z.to_nat count) with 0%nat by lia. reflexivity. }
  destruct Hm as (Hrows & Hcols & Hnnz & Hes). clear Hinit.
  unfold sparse_matrix_set. rewrite Hrows, Hcols, Hnnz, Hes.
  replace ((0 <=? r) && (r <? nrows)) with true
    by (symmetry; apply andb_true_iff; split; [apply Z.leb_le | apply Z.ltb_lt]; lia).
  replace ((0 <=? c) && (c <? ncols)) with true
    by (symmetry; apply andb_true_iff; split; [apply Z.leb_le | apply Z.ltb_lt]; lia).
  cbn [negb]. cbv zeta.
  pose (P := fun (i : Z) (st : option Z * Z) => st = (None, i)).
  match goal with
  | |- context [for_range 0 count ?body ?s0] =>
      assert (HP : P count (for_range 0 count body s0))
  end.
  { apply (for_range_invariant P); unfold P.
    - exact Hcount.
    - reflexivity.
    - intros i st Hi ->. rewrite sel_repeat. cbn [row col elem0].
      destruct (Z.eqb_spec 0 r) as [<-|Hr0].
      + destruct (Z.eqb_spec 0 c) as [<-|Hc0]; [lia|]. cbn [andb].
        change (0 <? 0) with false. cbn [orb].
        destruct (Z.ltb_spec 0 c); [reflexivity | lia].
      + cbn [andb]. destruct (Z.ltb_spec 0 r); [reflexivity | lia]. }
  unfold P in HP. rewrite HP.
  rewrite Z.ltb_irrefl. cbn [bind].
  rewrite repeat_length, Z2Nat.id by lia.
  rewrite Z.ltb_irrefl. reflexivity.
Qed.

Lemma sparse_matrix_set_fresh_overflow_witness :
  sparse_matrix_set
    (match sparse_matrix_init 2 3 4 with
     | Ok mx => mx
     | _ => null_matrix
     end) 1 2 1 = Fault.
Proof.
  apply (sparse_matrix_set_fresh_overflow 2 3 4 _ 1 2 1);
    [reflexivity | lia | lia | left; lia].
Defined.

(** The least stored index of a position that is stored. *)
Lemma first_stored (es : list SparseElement) (r c count : Z) :
  (exists i, 0 <= i < count /\
             row (sel elem0 es i) = r /\ col (sel elem0 es i) = c) ->
  exists i0, 0 <= i0 < count /\
             row (sel elem0 es i0) = r /\ col (sel elem0 es i0) = c /\
             forall j, 0 <= j < i0 ->
               (row (sel elem0 es j) =? r) && (col (sel elem0 es j) =? c)
               = false.
Proof.
  intros (i & Hi & Hri & Hci).
  assert (H : forall n : nat,
            (exists i0, 0 <= i0 < Z.of_nat n /\
               row (sel elem0 es i0) = r /\ col (sel elem0 es i0) = c /\
               forall j, 0 <= j < i0 ->
                 (row (sel elem0 es j) =? r) && (col (sel elem0 es j) =? c)
                 = false) \/
            (forall j, 0 <= j < Z.of_nat n ->
               (row (sel elem0 es j) =? r) && (col (sel elem0 es j) =? c)
               = false)).
  { induction n as [|n IH].
    - right. intros j Hj. lia.
    - destruct IH as [(i0 & Hi0 & H0)|Hnone].
      + left. exists i0. split; [lia | exact H0].
      + destruct ((row (sel elem0 es (Z.of_nat n)) =? r)
                  && (col (sel elem0 es (Z.of_nat n)) =? c)) eqn:E.
        * left. exists (Z.of_nat n). apply andb_true_iff in E as [E1 E2].
          apply Z.eqb_eq in E1, E2. split; [lia|]. split; [exact E1|].
          split; [exact E2 | exact Hnone].
        * right. intros j Hj. destruct (Z.eq_dec j (Z.of_nat n)) as [->|Hne].
          -- exact E.
          -- apply Hnone. lia. }
  destruct (H (Z.to_nat (i + 1))) as [(i0 & Hi0 & H0)|Hnone].
  - exists i0. split; [lia | exact H0].
  - specialize (Hnone i ltac:(lia)). rewrite Hri, Hci, !Z.eqb_refl in Hnone.
    discriminate.
Qed.

(** What [sparse_matrix_get] returns in terms of the first stored element
    of the position. *)
Lemma sparse_matrix_get_first (matrix : SparseMatrix) (r c i0 : Z) :
  0 <= r < rows matrix -> 0 <= c < cols matrix ->
  0 <= i0 < nnz matrix ->
  row (sel elem0 (elements matrix) i0) = r ->
  col (sel elem0 (elements matrix) i0) = c ->
  (forall j, 0 <= j < i0 ->
     (row (sel elem0 (elements matrix) j) =? r)
     && (col (sel elem0 (elements matrix) j) =? c) = false) ->
  sparse_matrix_get matrix r c = value (sel elem0 (elements matrix) i0).
Proof.
  intros Hr Hc Hi0 Hrow Hcol Hfirst. unfold sparse_matrix_get.
  destruct (Z.ltb_spec r 0); [lia|].
  destruct (Z.leb_spec (rows matrix) r); [lia|].
  destruct (Z.ltb_spec c 0); [lia|].
  destruct (Z.leb_spec (cols matrix) c); [lia|]. cbn [orb].
  pose (P := fun (i : Z) (found : option Z) =>
    found = if i <=? i0 then None
            else Some (value (sel elem0 (elements matrix) i0))).
  match goal with
  | |- context [for_range 0 (nnz matrix) ?body ?s0] =>
      assert (HP : P (nnz matrix) (for_range 0 (nnz matrix) body s0))
  end.
  { apply (for_range_invariant P); unfold P.
    - lia.
    - destruct (Z.leb_spec 0 i0); [reflexivity | lia].
    - intros i found Hi ->.
      destruct (Z.leb_spec i i0) as [Hle|Hgt].
      + destruct (Z.eq_dec i i0) as [->|Hne].
        * rewrite Hrow, Hcol, !Z.eqb_refl. cbn [andb].
          destruct (Z.leb_spec (i0 + 1) i0); [lia | reflexivity].
        * rewrite Hfirst by lia.
          destruct (Z.leb_spec (i + 1) i0); [reflexivity | lia].
      + destruct (Z.leb_spec (i + 1) i0); [lia | reflexivity]. }
  unfold P in HP. rewrite HP.
  destruct (Z.leb_spec (nnz matrix) i0); [lia | reflexivity].
Qed.

Lemma sparse_matrix_get_none (matrix : SparseMatrix) (r c : Z) :
  (forall j, 0 <= j < nnz matrix ->
     (row (sel elem0 (elements matrix) j) =? r)
     && (col (sel elem0 (elements matrix) j) =? c) = false) ->
  sparse_matrix_get matrix r c = 0.
Proof.
  intros Hnone. unfold sparse_matrix_get.
  destruct ((r <? 0) || (rows matrix <=? r) || (c <? 0) || (cols matrix <=? c));
    [reflexivity|].
  destruct (Z_lt_le_dec (nnz matrix) 0) as [Hneg|Hpos].
  { rewrite for_range_empty by lia. reflexivity. }
  pose (P := fun (i : Z) (found : option Z) => found = None).
  match goal with
  | |- context [for_range 0 (nnz matrix) ?body ?s0] =>
      assert (HP : P (nnz matrix) (for_range 0 (nnz matrix) body s0))
  end.
  { apply (for_range_invariant P); unfold P.
    - lia.
    - reflexivity.
    - intros i found Hi ->. rewrite Hnone by lia. reflexivity. }
  unfold P in HP. rewrite HP. reflexivity.
Qed.

(** X17.  Setting a position that the matrix already stores succeeds, and
    [sparse_matrix_get] then returns the new value there and the old value
    everywhere else. *)
Theorem sparse_matrix_set_get_stored
        (matrix : SparseMatrix) (r c v : Z) :
  0 <= r < rows matrix -> 0 <= c < cols matrix ->
  nnz matrix <= Z.of_nat (length (elements matrix)) ->
  (exists i, 0 <= i < nnz matrix /\
             row (sel elem0 (elements matrix) i) = r /\
             col (sel elem0 (elements matrix) i) = c) ->
  exists matrix',
    sparse_matrix_set matrix r c v = Ok matrix' /\
    sparse_matrix_get matrix' r c = v /\
    forall r' c', r' <> r \/ c' <> c ->
      sparse_matrix_get matrix' r' c' = sparse_matrix_get matrix r' c'.
Proof.
  intros Hr Hc Hlen Hstored.
  destruct (first_stored _ _ _ _ Hstored) as (i0 & Hi0 & Hrow & Hcol & Hfirst).
  unfold sparse_matrix_set.
  replace ((0 <=? r) && (r <? rows matrix)) with true
    by (symmetry; apply andb_true_iff; split; [apply Z.leb_le | apply Z.ltb_lt]; lia).
  replace ((0 <=? c) && (c <? cols matrix)) with true
    by (symmetry; apply andb_true_iff; split; [apply Z.leb_le | apply Z.ltb_lt]; lia).
  cbn [negb]. cbv zeta.
  pose (P := fun (i : Z) (st : option Z * Z) =>
    if i <=? i0 then fst st = None else fst st = Some i0).
  match goal with
  | |- context [for_range 0 (nnz matrix) ?body ?s0] =>
      assert (HP : P (nnz matrix) (for_range 0 (nnz matrix) body s0))
  end.
  { apply (for_range_invariant P); unfold P.
    - lia.
    - destruct (Z.leb_spec 0 i0); [reflexivity | lia].
    - intros i [found ins] Hi. cbn [fst].
      destruct (Z.leb_spec i i0) as [Hle|Hgt].
      + intros ->. destruct (Z.eq_dec i i0) as [->|Hne].
        * rewrite Hrow, Hcol, !Z.eqb_refl. cbn [andb fst].
          destruct (Z.leb_spec (i0 + 1) i0); [lia | reflexivity].
        * rewrite Hfirst by lia.
          destruct (Z.leb_spec (i + 1) i0); [|lia].
          destruct (_ || _); reflexivity.
      + intros ->. destruct (Z.leb_spec (i + 1) i0); [lia | reflexivity]. }
  unfold P in HP.
  destruct (for_range 0 (nnz matrix) _ _) as [found ins]. cbn [fst] in HP.
  destruct (Z.leb_spec (nnz matrix) i0); [lia|]. subst found.
  rewrite Hrow, Hcol.
  set (es' := upd (elements matrix) i0 (mkElem r c v)).
  eexists. split; [reflexivity|].
  assert (Hsame : sel elem0 es' i0 = mkElem r c v)
    by (unfold es'; apply sel_upd_same; lia).
  assert (Hother : forall j, 0 <= j -> j <> i0 ->
            sel elem0 es' j = sel elem0 (elements matrix) j)
    by (intros j Hj Hne; unfold es'; apply sel_upd_other; lia).
  split.
  - rewrite (sparse_matrix_get_first _ r c i0); cbn [set_elements rows cols nnz elements];
      fold es'; try rewrite Hsame; try reflexivity; try lia.
    intros j Hj. rewrite Hother by lia. apply Hfirst. exact Hj.
  - intros r' c' Hne. unfold sparse_matrix_get.
    cbn [set_elements rows cols nnz elements]. fold es'.
    destruct (_ || _); [reflexivity|].
    match goal with
    | |- match for_range 0 _ ?f _ with _ => _ end
         = match for_range 0 _ ?g _ with _ => _ end =>
        rewrite (for_range_ext f g)
    end; [reflexivity|].
    intros i [x|] Hi; [reflexivity|].
    destruct (Z.eq_dec i i0) as [->|Hni].
    + rewrite Hsame. cbn [row col value]. rewrite Hrow, Hcol.
      replace ((r =? r') && (c =? c')) with false; [reflexivity|].
      symmetry. apply andb_false_iff.
      destruct Hne; [left | right]; apply Z.eqb_neq; congruence.
    + rewrite Hother by lia. reflexivity.
Qed.

Lemma sparse_matrix_set_get_stored_witness :
  exists matrix',
    sparse_matrix_set
      (mkSparse 2 2 2 [mkElem 0 1 1; mkElem 1 0 1] [] [] []) 1 0 5
    = Ok matrix' /\
    sparse_matrix_get matrix' 1 0 = 5 /\
    forall r' c', r' <> 1 \/ c' <> 0 ->
      sparse_matrix_get matrix' r' c'
      = sparse_matrix_get
          (mkSparse 2 2 2 [mkElem 0 1 1; mkElem 1 0 1] [] [] []) r' c'.
Proof.
  apply (sparse_matrix_set_get_stored
           (mkSparse 2 2 2 [mkElem 0 1 1; mkElem 1 0 1] [] [] []) 1 0 5);
    [cbn; lia | cbn; lia | cbn; lia |].
  exists 1. cbn. repeat split; lia.
Defined.

(** ** The element order of the CSR form *)

Lemma elem_gt_false (a b : SparseElement) :
  elem_gt a b = false <->
  row a < row b \/ (row a = row b /\ col a <= col b).
Proof.
  unfold elem_gt.
  destruct (Z.ltb_spec (row b) (row a)); destruct (Z.eqb_spec (row a) (row b));
    destruct (Z.ltb_spec (col b) (col a)); cbn; split; intros; try lia;
    try discriminate.
Qed.

Lemma elem_gt_true (a b : SparseElement) :
  elem_gt a b = true <->
  row b < row a \/ (row a = row b /\ col b < col a).
Proof.
  unfold elem_gt.
  destruct (Z.ltb_spec (row b) (row a)); destruct (Z.eqb_spec (row a) (row b));
    destruct (Z.ltb_spec (col b) (col a)); cbn; split; intros; try lia;
    try discriminate; try reflexivity.
Qed.

(** Exchanging two cells of an array permutes it. *)
Lemma swap_permutation {A : Type} (d : A) (l : list A) (i j : Z) :
  0 <= i < Z.of_nat (length l) -> 0 <= j < Z.of_nat (length l) ->
  Permutation (upd (upd l i (sel d l j)) j (sel d l i)) l.
Proof.
  intros Hi Hj. apply Permutation_sym.
  apply (Permutation_nth l _ d). cbv zeta.
  split; [rewrite !length_upd; reflexivity|].
  exists (fun x => if Nat.eqb x (Z.to_nat i) then Z.to_nat j
                   else if Nat.eqb x (Z.to_nat j) then Z.to_nat i else x).
  split; [|split].
  - intros x Hx.
    destruct (Nat.eqb_spec x (Z.to_nat i)); [lia|].
    destruct (Nat.eqb_spec x (Z.to_nat j)); lia.
  - intros x y Hx Hy.
    destruct (Nat.eqb_spec x (Z.to_nat i)); destruct (Nat.eqb_spec y (Z.to_nat i));
      destruct (Nat.eqb_spec x (Z.to_nat j));
      destruct (Nat.eqb_spec y (Z.to_nat j)); lia.
  - intros x Hx.
    assert (Ex : x = Z.to_nat (Z.of_nat x)) by lia.
    rewrite Ex at 1.
    fold (sel d (upd (upd l i (sel d l j)) j (sel d l i)) (Z.of_nat x)).
    destruct (Nat.eqb_spec x (Z.to_nat i)) as [Exi|Nxi].
    + replace (Z.of_nat x) with i by lia.
      destruct (Z.eq_dec i j) as [->|Hij].
      * rewrite sel_upd_same by (rewrite length_upd; lia). reflexivity.
      * rewrite sel_upd_other by lia. rewrite sel_upd_same by lia. reflexivity.
    + destruct (Nat.eqb_spec x (Z.to_nat j)) as [Exj|Nxj].
      * replace (Z.of_nat x) with j by lia.
        rewrite sel_upd_same by (rewrite length_upd; lia). reflexivity.
      * rewrite !sel_upd_other by lia. unfold sel. rewrite Nat2Z.id.
        reflexivity.
Qed.

Lemma skipn_upd_lt {A : Type} (l : list A) (i : Z) (v : A) (n : nat) :
  i < Z.of_nat n -> skipn n (upd l i v) = skipn n l.
Proof.
  intros Hi. destruct (Z_lt_le_dec i 0) as [Hneg|Hpos].
  { unfold upd. destruct (Z.ltb_spec i 0); [reflexivity | lia]. }
  apply nth_ext with (d := v) (d' := v).
  - rewrite !length_skipn, length_upd. reflexivity.
  - intros p Hp. rewrite !nth_skipn.
    pose proof (sel_upd_other v l i (Z.of_nat (n + p)) v ltac:(lia) ltac:(lia))
      as Hs.
    unfold sel in Hs. rewrite Nat2Z.id in Hs. exact Hs.
Qed.

(** The exchange sort of [sparse_matrix_to_csr]. *)
Lemma csr_sort (es0 : list SparseElement) (n : Z) :
  0 < n <= Z.of_nat (length es0) ->
  let es :=
    for_range 0 (n - 1)
      (fun i es =>
         for_range (i + 1) n
           (fun j es =>
              if elem_gt (sel elem0 es i) (sel elem0 es j) then
                let temp := sel elem0 es i in
                upd (upd es i (sel elem0 es j)) j temp
              else es)
           es)
      es0 in
  length es = length es0 /\
  Permutation es es0 /\
  skipn (Z.to_nat n) es = skipn (Z.to_nat n) es0 /\
  forall p q, 0 <= p < q -> q < n ->
    elem_gt (sel elem0 es p) (sel elem0 es q) = false.
Proof.
  intros Hn. cbv zeta.
  pose (base := fun (es : list SparseElement) =>
    length es = length es0 /\ Permutation es es0 /\
    skipn (Z.to_nat n) es = skipn (Z.to_nat n) es0).
  pose (P := fun (i : Z) (es : list SparseElement) =>
    base es /\
    forall p q, 0 <= p < i -> p < q < n ->
      elem_gt (sel elem0 es p) (sel elem0 es q) = false).
  match goal with
  | |- context [for_range 0 (n - 1) ?body es0] =>
      assert (HP : P (n - 1) (for_range 0 (n - 1) body es0))
  end.
  { apply (for_range_invariant P); unfold P.
    - lia.
    - split; [unfold base; auto | intros; lia].
    - intros i es Hi (Hbase & Hsorted).
      pose (Q := fun (j : Z) (es' : list SparseElement) =>
        base es' /\
        (forall p q, 0 <= p < i -> p < q < n ->
           elem_gt (sel elem0 es' p) (sel elem0 es' q) = false) /\
        (forall q, i < q < j ->
           elem_gt (sel elem0 es' i) (sel elem0 es' q) = false)).
      match goal with
      | |- context [for_range (i + 1) n ?body es] =>
          assert (HQ : Q n (for_range (i + 1) n body es))
      end.
      { apply (for_range_invariant Q); unfold Q.
        - lia.
        - split; [exact Hbase|]. split; [exact Hsorted | intros; lia].
        - intros j es' Hj ((Hl & Hperm & Hskip) & Hpre & Hrow).
          destruct (elem_gt (sel elem0 es' i) (sel elem0 es' j)) eqn:Egt.
          + cbv zeta.
            set (es2 := upd (upd es' i (sel elem0 es' j)) j (sel elem0 es' i)).
            assert (Hi2 : sel elem0 es2 i = sel elem0 es' j).
            { unfold es2. rewrite sel_upd_other by lia.
              apply sel_upd_same. lia. }
            assert (Hj2 : sel elem0 es2 j = sel elem0 es' i).
            { unfold es2. apply sel_upd_same. rewrite length_upd. lia. }
            assert (Ho2 : forall q, 0 <= q -> q <> i -> q <> j ->
                      sel elem0 es2 q = sel elem0 es' q).
            { intros q Hq Hqi Hqj. unfold es2.
              rewrite !sel_upd_other by lia. reflexivity. }
            split; [|split].
            * split; [unfold es2; rewrite !length_upd; exact Hl|]. split.
              -- apply Permutation_trans with (l' := es'); [|exact Hperm].
                 apply swap_permutation; lia.
              -- unfold es2. rewrite !skipn_upd_lt by lia. exact Hskip.
            * intros p q Hp Hq. rewrite (Ho2 p) by lia.
              destruct (Z.eq_dec q i) as [->|Hqi];
                [rewrite Hi2; apply Hpre; lia|].
              destruct (Z.eq_dec q j) as [->|Hqj].
              -- rewrite Hj2. apply Hpre; lia.
              -- rewrite Ho2 by lia. apply Hpre; lia.
            * intros q Hq. rewrite Hi2.
              apply elem_gt_true in Egt.
              destruct (Z.eq_dec q j) as [->|Hqj].
              -- rewrite Hj2. apply elem_gt_false. lia.
              -- rewrite Ho2 by lia.
                 pose proof (Hrow q ltac:(lia)) as Hle.
                 apply elem_gt_false in Hle. apply elem_gt_false. lia.
          + split; [split; auto|]. split; [exact Hpre|].
            intros q Hq. destruct (Z.eq_dec q j) as [->|Hqj];
              [exact Egt | apply Hrow; lia]. }
      destruct HQ as (Hb & Hpre & Hrow). split; [exact Hb|].
      intros p q Hp Hq. destruct (Z.eq_dec p i) as [->|Hpi].
      + apply Hrow. lia.
      + apply Hpre; lia. }
  destruct HP as ((Hl & Hperm & Hskip) & Hsorted).
  split; [exact Hl|]. split; [exact Hperm|]. split; [exact Hskip|].
  intros p q Hp Hq. apply Hsorted; lia.
Qed.

(** X27.  [sparse_matrix_to_csr] sorts the stored elements in row-major
    order without losing or inventing any (the first [nnz] cells are a
    permutation of what they were), and writes the column and the value of
    every element, in that order, into [col_indices] and [values]. *)
Theorem sparse_matrix_to_csr_sorted (matrix : SparseMatrix) :
  0 < nnz matrix <= Z.of_nat (length (elements matrix)) ->
  nnz matrix <= Z.of_nat (length (col_indices matrix)) ->
  nnz matrix <= Z.of_nat (length (values matrix)) ->
  let csr := sparse_matrix_to_csr matrix in
  nnz csr = nnz matrix /\
  Permutation (firstn (Z.to_nat (nnz matrix)) (elements csr))
              (firstn (Z.to_nat (nnz matrix)) (elements matrix)) /\
  (forall p q, 0 <= p < q -> q < nnz matrix ->
     row (sel elem0 (elements csr) p) < row (sel elem0 (elements csr) q) \/
     (row (sel elem0 (elements csr) p) = row (sel elem0 (elements csr) q) /\
      col (sel elem0 (elements csr) p) <= col (sel elem0 (elements csr) q))) /\
  (forall i, 0 <= i < nnz matrix ->
     sel 0 (col_indices csr) i = col (sel elem0 (elements csr) i) /\
     sel 0 (values csr) i = value (sel elem0 (elements csr) i)).
Proof.
  intros Hn Hci Hvs. cbv zeta. unfold sparse_matrix_to_csr.
  destruct (Z.eqb_spec (nnz matrix) 0) as [E|_]; [lia|].
  cbv zeta.
  destruct (csr_sort (elements matrix) (nnz matrix) Hn)
    as (Hl & Hperm & Hskip & Hsorted).
  set (es := for_range 0 (nnz matrix - 1) _ (elements matrix)) in *.
  pose (P := fun (i : Z) (st : Z * list Z * list Z * list Z) =>
    let '(_, _, ci, vs) := st in
    length ci = length (col_indices matrix) /\
    length vs = length (values matrix) /\
    forall j, 0 <= j < i ->
      sel 0 ci j = col (sel elem0 es j) /\
      sel 0 vs j = value (sel elem0 es j)).
  match goal with
  | |- context [for_range 0 (nnz matrix) ?body ?s0] =>
      assert (HP : P (nnz matrix) (for_range 0 (nnz matrix) body s0))
  end.
  { apply (for_range_invariant P); unfold P.
    - lia.
    - split; [reflexivity|]. split; [reflexivity | intros; lia].
    - intros i [[[cr rp] ci] vs] Hi (Hlc & Hlv & Hdone).
      destruct (fill_row_ptr _ _ _ _ _) as [cr' rp'].
      split; [rewrite length_upd; exact Hlc|].
      split; [rewrite length_upd; exact Hlv|].
      intros j Hj. destruct (Z.eq_dec j i) as [->|Hne].
      + rewrite !sel_upd_same by lia. split; reflexivity.
      + rewrite !sel_upd_other by lia. apply Hdone. lia. }
  unfold P in HP.
  destruct (for_range 0 (nnz matrix) _ _) as [[[cr rp] ci] vs].
  destruct HP as (_ & _ & Hsync).
  destruct (fill_row_ptr _ _ _ _ _) as [cr' rp'].
  cbn [nnz elements col_indices values].
  split; [reflexivity|]. split; [|split].
  - apply Permutation_app_inv_r with (l := skipn (Z.to_nat (nnz matrix)) es).
    rewrite firstn_skipn. rewrite Hskip, firstn_skipn. exact Hperm.
  - intros p q Hp Hq. apply elem_gt_false. apply Hsorted; lia.
  - exact Hsync.
Qed.

Lemma sparse_matrix_to_csr_sorted_witness :
  nnz (sparse_matrix_to_csr matrix_2_3) = nnz matrix_2_3 /\
  Permutation
    (firstn (Z.to_nat (nnz matrix_2_3)) (elements (sparse_matrix_to_csr matrix_2_3)))
    (firstn (Z.to_nat (nnz matrix_2_3)) (elements matrix_2_3)) /\
  (forall p q, 0 <= p < q -> q < nnz matrix_2_3 ->
     row (sel elem0 (elements (sparse_matrix_to_csr matrix_2_3)) p)
     < row (sel elem0 (elements (sparse_matrix_to_csr matrix_2_3)) q) \/
     (row (sel elem0 (elements (sparse_matrix_to_csr matrix_2_3)) p)
      = row (sel elem0 (elements (sparse_matrix_to_csr matrix_2_3)) q) /\
      col (sel elem0 (elements (sparse_matrix_to_csr matrix_2_3)) p)
      <= col (sel elem0 (elements (sparse_matrix_to_csr matrix_2_3)) q))) /\
  (forall i, 0 <= i < nnz matrix_2_3 ->
     sel 0 (col_indices (sparse_matrix_to_csr matrix_2_3)) i
     = col (sel elem0 (elements (sparse_matrix_to_csr matrix_2_3)) i) /\
     sel 0 (values (sparse_matrix_to_csr matrix_2_3)) i
     = value (sel elem0 (elements (sparse_matrix_to_csr matrix_2_3)) i)).
Proof.
  apply (sparse_matrix_to_csr_sorted matrix_2_3); cbn; lia.
Defined.

(** The [while (current_row < bound)] loop writes [i] into the cells
    [current_row + 1 .. bound] of [row_ptr] and leaves the others. *)
Lemma fill_row_ptr_spec (fuel : nat) (current_row bound : Z) (rp : list Z)
      (i : Z) :
  fuel = Z.to_nat (bound - current_row) ->
  0 <= current_row -> bound < Z.of_nat (length rp) ->
  let '(current_row', rp') := fill_row_ptr fuel current_row bound rp i in
  current_row' = Z.max current_row bound /\
  length rp' = length rp /\
  (forall r, current_row < r <= bound -> sel 0 rp' r = i) /\
  (forall r, 0 <= r -> r <= current_row \/ bound < r ->
     sel 0 rp' r = sel 0 rp r).
Proof.
  revert current_row rp.
  induction fuel as [|f IH]; intros cr rp Hf Hcr Hb; cbn [fill_row_ptr].
  - split; [lia|]. split; [reflexivity|]. split; [intros; lia | auto].
  - destruct (Z.ltb_spec cr bound) as [Hlt|Hge]; [|lia].
    specialize (IH (cr + 1) (upd rp (cr + 1) i) ltac:(lia) ltac:(lia)
                   ltac:(rewrite length_upd; lia)).
    destruct (fill_row_ptr f (cr + 1) bound (upd rp (cr + 1) i) i)
      as [cr' rp'].
    destruct IH as (Hcr' & Hl & Hnew & Hold).
    rewrite length_upd in Hl.
    split; [lia|]. split; [exact Hl|]. split.
    + intros r Hr. destruct (Z.eq_dec r (cr + 1)) as [->|Hne].
      * rewrite Hold by lia. apply sel_upd_same. lia.
      * apply Hnew. lia.
    + intros r Hr0 Hr. rewrite Hold by lia.
      apply sel_upd_other; lia.
Qed.

(** X30.  [sparse_matrix_to_csr] builds a correct row index: when the
    stored elements have rows in [0, rows) and [row_ptr] has [rows + 1]
    cells, afterwards [row_ptr[0] = 0], [row_ptr[rows] = nnz], and for every
    row [r] the elements of that row are exactly those at the positions
    [row_ptr[r] .. row_ptr[r+1] - 1]. *)
Theorem sparse_matrix_to_csr_row_ptr (matrix : SparseMatrix) :
  0 < nnz matrix <= Z.of_nat (length (elements matrix)) ->
  Z.of_nat (length (row_ptr matrix)) = rows matrix + 1 ->
  (forall j, 0 <= j < nnz matrix ->
     0 <= row (sel elem0 (elements matrix) j) < rows matrix) ->
  sel 0 (row_ptr (sparse_matrix_to_csr matrix)) 0 = 0 /\
  sel 0 (row_ptr (sparse_matrix_to_csr matrix)) (rows matrix) = nnz matrix /\
  forall r i, 0 <= r < rows matrix -> 0 <= i < nnz matrix ->
    (sel 0 (row_ptr (sparse_matrix_to_csr matrix)) r <= i
       < sel 0 (row_ptr (sparse_matrix_to_csr matrix)) (r + 1)
     <-> row (sel elem0 (elements (sparse_matrix_to_csr matrix)) i) = r).
Proof.
  intros Hn Hrp Hrows. unfold sparse_matrix_to_csr.
  destruct (Z.eqb_spec (nnz matrix) 0) as [E|_]; [lia|].
  cbv zeta.
  destruct (csr_sort (elements matrix) (nnz matrix) Hn)
    as (Hl & Hperm & Hskip & Hsorted).
  set (es := for_range 0 (nnz matrix - 1) _ (elements matrix)) in *.
  set (n := nnz matrix) in *. set (m := rows matrix) in *.
  assert (Hrow_le : forall p q, 0 <= p <= q -> q < n ->
            row (sel elem0 es p) <= row (sel elem0 es q)).
  { intros p q Hp Hq. destruct (Z.eq_dec p q) as [->|Hne]; [lia|].
    pose proof (Hsorted p q ltac:(lia) Hq) as Hle.
    apply elem_gt_false in Hle. lia. }
  assert (Hrng : forall j, 0 <= j < n -> 0 <= row (sel elem0 es j) < m).
  { intros j Hj.
    assert (Hperm' : Permutation (firstn (Z.to_nat n) es)
                                 (firstn (Z.to_nat n) (elements matrix))).
    { apply Permutation_app_inv_r with (l := skipn (Z.to_nat n) es).
      rewrite firstn_skipn. rewrite Hskip, firstn_skipn. exact Hperm. }
    assert (Hin : In (sel elem0 es j) (firstn (Z.to_nat n) es)).
    { replace (sel elem0 es j)
        with (nth (Z.to_nat j) (firstn (Z.to_nat n) es) elem0).
      - apply nth_In. rewrite length_firstn. lia.
      - rewrite nth_firstn.
        destruct (Nat.ltb_spec (Z.to_nat j) (Z.to_nat n)); [reflexivity | lia]. }
    apply (Permutation_in _ Hperm') in Hin.
    apply (In_nth _ _ elem0) in Hin. destruct Hin as (k & Hk & Ek).
    rewrite length_firstn in Hk.
    rewrite nth_firstn in Ek.
    destruct (Nat.ltb_spec k (Z.to_nat n)) as [Hkn|]; [|lia].
    rewrite <- Ek.
    pose proof (Hrows (Z.of_nat k) ltac:(lia)) as Hr.
    unfold sel in Hr. rewrite Nat2Z.id in Hr. exact Hr. }
  pose (B := fun (r v : Z) =>
    0 <= v <= n /\
    forall j, 0 <= j < n -> (row (sel elem0 es j) < r <-> j < v)).
  pose (P := fun (i : Z) (st : Z * list Z * list Z * list Z) =>
    let '(cr, rp, _, _) := st in
    0 <= cr < m /\ Z.of_nat (length rp) = m + 1 /\
    (forall j, 0 <= j < i -> row (sel elem0 es j) <= cr) /\
    (forall j, i <= j < n -> cr <= row (sel elem0 es j)) /\
    (forall r, 0 <= r <= cr -> B r (sel 0 rp r))).
  assert (Hm : 0 < m) by (specialize (Hrng 0 ltac:(lia)); lia).
  match goal with
  | |- context [for_range 0 n ?body ?s0] =>
      assert (HP : P n (for_range 0 n body s0))
  end.
  { apply (for_range_invariant P); unfold P.
    - lia.
    - split; [lia|]. split; [rewrite length_upd; exact Hrp|].
      split; [intros; lia|]. split.
      + intros j Hj. apply Hrng. lia.
      + intros r Hr. replace r with 0 by lia.
        rewrite sel_upd_same by lia. unfold B. split; [lia|].
        intros j Hj. pose proof (Hrng j Hj). lia.
    - intros i [[[cr rp] ci] vs] Hi (Hcr & Hlen & Hbefore & Hafter & HB).
      pose proof (Hafter i ltac:(lia)) as Hcri.
      pose proof (Hrng i Hi) as Hri.
      pose proof (fill_row_ptr_spec
                    (Z.to_nat (row (sel elem0 es i) - cr)) cr
                    (row (sel elem0 es i)) rp i eq_refl ltac:(lia) ltac:(lia))
        as Hfill.
      destruct (fill_row_ptr _ cr (row (sel elem0 es i)) rp i) as [cr' rp'].
      destruct Hfill as (Hcr' & Hl' & Hnew & Hold).
      rewrite Z.max_r in Hcr' by lia. subst cr'.
      split; [lia|]. split; [lia|]. split; [|split].
      + intros j Hj. apply Hrow_le; lia.
      + intros j Hj. apply Hrow_le; lia.
      + intros r Hr. destruct (Z_le_gt_dec r cr) as [Hle|Hgt].
        * rewrite Hold by lia. apply HB. lia.
        * rewrite Hnew by lia. unfold B. split; [lia|].
          intros j Hj. split.
          -- intros Hlt. destruct (Z_lt_le_dec j i) as [|Hji]; [assumption|].
             pose proof (Hrow_le i j ltac:(lia) ltac:(lia)). lia.
          -- intros Hji. pose proof (Hbefore j ltac:(lia)). lia. }
  unfold P in HP.
  destruct (for_range 0 n _ _) as [[[cr rp] ci] vs].
  destruct HP as (Hcr & Hlen & Hbefore & _ & HB).
  pose proof (fill_row_ptr_spec (Z.to_nat (m - cr)) cr m rp n eq_refl
                ltac:(lia) ltac:(lia)) as Hfill.
  destruct (fill_row_ptr _ cr m rp n) as [cr' rp'].
  destruct Hfill as (_ & Hl' & Hnew & Hold).
  cbn [row_ptr elements].
  assert (HBall : forall r, 0 <= r <= m -> B r (sel 0 rp' r)).
  { intros r Hr. destruct (Z_le_gt_dec r cr) as [Hle|Hgt].
    - rewrite Hold by lia. apply HB. lia.
    - rewrite Hnew by lia. unfold B. split; [lia|].
      intros j Hj. pose proof (Hbefore j Hj). lia. }
  split; [|split].
  - destruct (HBall 0 ltac:(lia)) as (Hv & Hj0).
    destruct (Z.eq_dec (sel 0 rp' 0) 0) as [E0|N0]; [exact E0|].
    pose proof (proj2 (Hj0 0 ltac:(lia)) ltac:(lia)).
    pose proof (Hrng 0 ltac:(lia)). lia.
  - apply Hnew. lia.
  - intros r i Hr Hi.
    destruct (HBall r ltac:(lia)) as (_ & Hlo).
    destruct (HBall (r + 1) ltac:(lia)) as (_ & Hhi).
    specialize (Hlo i Hi). specialize (Hhi i Hi).
    split; intros H; lia.
Qed.

Lemma sparse_matrix_to_csr_row_ptr_witness :
  sel 0 (row_ptr (sparse_matrix_to_csr matrix_2_3)) 0 = 0 /\
  sel 0 (row_ptr (sparse_matrix_to_csr matrix_2_3)) (rows matrix_2_3)
  = nnz matrix_2_3 /\
  forall r i, 0 <= r < rows matrix_2_3 -> 0 <= i < nnz matrix_2_3 ->
    (sel 0 (row_ptr (sparse_matrix_to_csr matrix_2_3)) r <= i
       < sel 0 (row_ptr (sparse_matrix_to_csr matrix_2_3)) (r + 1)
     <-> row (sel elem0 (elements (sparse_matrix_to_csr matrix_2_3)) i) = r).
Proof.
  apply (sparse_matrix_to_csr_row_ptr matrix_2_3); [cbn; lia | reflexivity |].
  intros j Hj.
  assert (Hc : j = 0 \/ j = 1 \/ j = 2) by (cbn in Hj; lia).
  destruct Hc as [->|[->| ->]]; vm_compute;
    (split; [discriminate | reflexivity]).
Defined.

(** ** Hard and soft decisions *)

Section LDPCSoftHard.
Local Open Scope R_scope.

Lemma fso_db_to_linear_pos (db_value : R) : 0 < fso_db_to_linear db_value.
Proof. unfold fso_db_to_linear, Rpower. apply exp_pos. Qed.

Lemma sel_firstn_any {A : Type} (d : A) (l : list A) (k : nat) (i : Z) :
  (0 <= i < Z.of_nat k)%Z -> sel d (firstn k l) i = sel d l i.
Proof.
  intros H. unfold sel. rewrite nth_firstn.
  destruct (Nat.ltb_spec (Z.to_nat i) k); [reflexivity | lia].
Qed.

(** X18.  Turning hard bits into log-likelihood ratios with
    [ldpc_hard_to_soft] and back with [ldpc_soft_to_hard] gives 0 for every
    zero byte and 1 for every non-zero byte, at every SNR above 0 dB; on a
    sequence of bits it is the identity. *)
Theorem ldpc_hard_soft_round_trip
        (bits : list Z) (llr_buf : list R) (bits_buf : list Z) (snr_db : R) :
  snr_db > 0 ->
  (length bits <= length llr_buf)%nat ->
  (length bits <= length bits_buf)%nat ->
  exists llr out,
    ldpc_hard_to_soft bits llr_buf snr_db = Ok llr /\
    ldpc_soft_to_hard (firstn (length bits) llr) bits_buf = Ok out /\
    firstn (length bits) out
    = map (fun b => if (b =? 0)%Z then 0%Z else 1%Z) bits.
Proof.
  intros Hsnr Hl1 Hl2. unfold ldpc_hard_to_soft.
  destruct (Rgt_dec snr_db 0.0) as [_|Hn]; [|exfalso; apply Hn; lra].
  destruct (Z.ltb_spec (Z.of_nat (length llr_buf)) (Z.of_nat (length bits)));
    [lia|].
  cbv zeta.
  pose proof (fso_db_to_linear_pos snr_db) as Hpos.
  set (mag := 2.0 * fso_db_to_linear snr_db).
  assert (Hmag : 0 < mag) by (unfold mag; lra).
  set (n := Z.of_nat (length bits)).
  pose (P := fun (i : Z) (l : list R) =>
    length l = length llr_buf /\
    (forall j, (0 <= j < i)%Z ->
       sel 0 l j = if (sel 0%Z bits j =? 0)%Z then mag else - mag)).
  match goal with
  | |- context [for_range 0 n ?body llr_buf] =>
      assert (HP : P n (for_range 0 n body llr_buf));
      [|set (llr := for_range 0 n body llr_buf) in *]
  end.
  { apply (for_range_invariant P); unfold P.
    - unfold n. lia.
    - split; [reflexivity | intros; lia].
    - intros i l Hi (Hl & Hlow). split; [rewrite length_upd; exact Hl|].
      intros j Hj. destruct (Z.eq_dec j i) as [->|Hne].
      + apply sel_upd_same. unfold n in Hi. lia.
      + rewrite sel_upd_other by lia. apply Hlow. lia. }
  destruct HP as (Hllen & Hllr).
  exists llr. unfold ldpc_soft_to_hard.
  assert (Hfl : length (firstn (length bits) llr) = length bits)
    by (rewrite length_firstn; lia).
  rewrite Hfl. fold n.
  destruct (Z.ltb_spec (Z.of_nat (length bits_buf)) n); [unfold n in *; lia|].
  eexists. split; [reflexivity|]. split; [reflexivity|].
  pose (Q := fun (i : Z) (b : list Z) =>
    length b = length bits_buf /\
    (forall j, (0 <= j < i)%Z ->
       sel 0%Z b j = if (sel 0%Z bits j =? 0)%Z then 0%Z else 1%Z)).
  match goal with
  | |- context [for_range 0 n ?body bits_buf] =>
      assert (HQ : Q n (for_range 0 n body bits_buf));
      [|set (out := for_range 0 n body bits_buf) in *]
  end.
  { apply (for_range_invariant Q); unfold Q.
    - unfold n. lia.
    - split; [reflexivity | intros; lia].
    - intros i b Hi (Hl & Hlow). split; [rewrite length_upd; exact Hl|].
      intros j Hj. destruct (Z.eq_dec j i) as [->|Hne].
      + rewrite sel_upd_same by (unfold n in *; lia).
        rewrite sel_firstn_any by (unfold n in Hi; lia).
        rewrite Hllr by lia.
        destruct (sel 0%Z bits i =? 0)%Z.
        * destruct (Rlt_dec mag 0.0); [lra | reflexivity].
        * destruct (Rlt_dec (- mag) 0.0); [reflexivity | lra].
      + rewrite sel_upd_other by lia. apply Hlow. lia. }
  destruct HQ as (Holen & Hout).
  apply firstn_eq_by_sel.
  - lia.
  - apply length_map.
  - intros j Hj. rewrite (Hout j) by (unfold n; lia).
    unfold sel. symmetry.
    exact (map_nth (fun b : Z => if (b =? 0)%Z then 0%Z else 1%Z) bits 0%Z
                   (Z.to_nat j)).
Qed.

Lemma ldpc_hard_soft_round_trip_witness :
  exists llr out,
    ldpc_hard_to_soft [1; 0; 0; 1]%Z [0; 0; 0; 0] 3 = Ok llr /\
    ldpc_soft_to_hard (firstn (length [1; 0; 0; 1]%Z) llr) [0; 0; 0; 0]%Z
    = Ok out /\
    firstn (length [1; 0; 0; 1]%Z) out
    = map (fun b => if (b =? 0)%Z then 0%Z else 1%Z) [1; 0; 0; 1]%Z.
Proof.
  apply (ldpc_hard_soft_round_trip [1; 0; 0; 1]%Z [0; 0; 0; 0] [0; 0; 0; 0]%Z 3);
    [lra | simpl; lia | simpl; lia].
Defined.

End LDPCSoftHard.

(** ** Modulation on a noisy channel *)

(** The OOK threshold is never below one half: the noise term is added to
    it, never subtracted. *)
Lemma ook_threshold_at_least_half (snr : R) :
  (0.5 <= ook_calculate_threshold snr <= 0.7)%R.
Proof.
  unfold ook_calculate_threshold.
  destruct (Rge_dec snr 10.0); [lra|].
  cbv zeta.
  assert (Hpos : (0 < 0.5 / fso_db_to_linear snr)%R).
  { apply Rdiv_lt_0_compat; [lra|].
    unfold fso_db_to_linear, Rpower. apply exp_pos. }
  destruct (Rgt_dec _ 0.7); destruct (Rlt_dec _ 0.3); lra.
Qed.

(** X19.  OOK demodulation tolerates noise at every SNR setting: received
    samples that stay below 0.5 for a 0 bit and reach 0.7 for a 1 bit are
    decoded to the bytes that were sent. *)
Theorem ook_demodulate_noise_margin
        (data : list Z) (symbols : list R) (snr : R) :
  data <> [] -> bytes data ->
  Z.of_nat (length symbols) = 8 * Z.of_nat (length data) ->
  (forall i, 0 <= i < 8 * Z.of_nat (length data) ->
     if data_bit data i =? 0 then (sel 0%R symbols i < 0.5)%R
     else (0.7 <= sel 0%R symbols i)%R) ->
  ook_demodulate symbols snr = Ok data.
Proof.
  intros Hne Hb Hl Hs.
  assert (Hlen : 0 < Z.of_nat (length data)).
  { destruct data; [congruence | cbn [length]; lia]. }
  rewrite (ook_demodulate_decisions symbols snr _ Hlen Hl).
  f_equal. apply bytes_of_decisions_bits; [exact Hb|].
  intros i Hi. specialize (Hs i Hi).
  pose proof (ook_threshold_at_least_half snr) as Ht.
  unfold ook_decision.
  destruct (data_bit data i =? 0); cbn [negb];
    destruct (Rge_dec _ _); try reflexivity; lra.
Qed.

Lemma ook_demodulate_noise_margin_witness :
  ook_demodulate [0.9; 0.1; 0.8; 0.2; 0.3; 0.75; 0.4; 1.2]%R 3 = Ok [0xA5].
Proof.
  apply (ook_demodulate_noise_margin [0xA5]
           [0.9; 0.1; 0.8; 0.2; 0.3; 0.75; 0.4; 1.2]%R 3);
    [discriminate | repeat constructor; lia | reflexivity |].
  intros i Hi.
  assert (Hc : i = 0 \/ i = 1 \/ i = 2 \/ i = 3 \/ i = 4 \/ i = 5 \/ i = 6 \/
               i = 7) by (cbn in Hi; lia).
  destruct Hc as [->|[->|[->|[->|[->|[->|[->| ->]]]]]]];
    vm_compute (data_bit _ _ =? 0); unfold sel;
    vm_compute (Z.to_nat _); cbn [nth]; lra.
Defined.

(** Flipping the top bit of a byte changes its first transmitted bit and no
    other. *)
Lemma flip_top_bit :
  forallb (fun b =>
    (0 <=? Z.lxor b 128) && (Z.lxor b 128 <? 256) &&
    Bool.eqb (negb (Z.land (Z.shiftr (Z.lxor b 128) 7) 1 =? 0))
             (Z.land (Z.shiftr b 7) 1 =? 0) &&
    forallb (fun k =>
               Z.land (Z.shiftr (Z.lxor b 128) k) 1 =? Z.land (Z.shiftr b k) 1)
            [0; 1; 2; 3; 4; 5; 6])
    byte_values = true.
Proof. vm_compute. reflexivity. Qed.

(** X20.  A DPSK receiver whose reference phase does not match the
    transmitter's still recovers the data: only the first bit of the
    transfer, the most significant bit of the first byte, depends on the
    receiver's state, every later bit is decoded against the symbol before
    it. *)
Theorem dpsk_unsynchronised_receiver
        (fuel : nat) (data : list Z) (tx rx : DPSKState) :
  (1 <= fuel)%nat ->
  data <> [] -> bytes data ->
  (- FSO_PI <= dpsk_reference tx <= FSO_PI)%R ->
  exists symbols tx' out rx',
    dpsk_modulate fuel data tx = Ok (symbols, tx') /\
    dpsk_demodulate symbols rx = Ok (out, rx') /\
    (out = data \/ out = Z.lxor (hd 0 data) 128 :: tl data).
Proof.
  intros Hfuel Hne Hb Hphi.
  destruct (dpsk_modulate_symbols fuel data tx Hne) as (symbols & Hm & Hl & Hs).
  assert (Hlen : 0 < Z.of_nat (length data)).
  { destruct data; [congruence | cbn [length]; lia]. }
  destruct (dpsk_demodulate_decisions symbols rx _ Hlen Hl) as (rx' & Hd).
  exists symbols. eexists. eexists. exists rx'.
  split; [exact Hm|]. split; [exact Hd|].
  set (ref := fso_complex_from_polar 1.0 (dpsk_reference rx)).
  assert (Hlater : forall i, 1 <= i < 8 * Z.of_nat (length data) ->
            dpsk_decision symbols ref i = negb (data_bit data i =? 0)).
  { intros i Hi.
    apply (dpsk_decision_modulated fuel data (dpsk_reference tx));
      [exact Hfuel | exact Hphi | exact Hs | lia | left; lia]. }
  destruct (Bool.bool_dec (dpsk_decision symbols ref 0)
                          (negb (data_bit data 0 =? 0))) as [E0|N0].
  - left. apply bytes_of_decisions_bits; [exact Hb|].
    intros i Hi. destruct (Z.eq_dec i 0) as [->|Hi0];
      [exact E0 | apply Hlater; lia].
  - right. destruct data as [|b0 rest]; [congruence|]. cbn [hd tl].
    inversion Hb as [|? ? Hb0 Hrest]; subst.
    pose proof flip_top_bit as Hflip. rewrite forallb_forall in Hflip.
    specialize (Hflip b0 (in_byte_values b0 Hb0)).
    apply andb_true_iff in Hflip as [Hflip Hlow].
    apply andb_true_iff in Hflip as [Hflip Htop].
    apply andb_true_iff in Hflip as [Hge Hlt].
    apply Z.leb_le in Hge. apply Z.ltb_lt in Hlt.
    apply Bool.eqb_prop in Htop. rewrite forallb_forall in Hlow.
    change (Z.of_nat (length (b0 :: rest)))
      with (Z.of_nat (length (Z.lxor b0 128 :: rest))).
    apply bytes_of_decisions_bits.
    + constructor; [lia | exact Hrest].
    + intros i Hi. cbn [length] in Hi.
      destruct (Z.eq_dec i 0) as [->|Hi0].
      * unfold data_bit in *. change (0 / 8) with 0 in *.
        change (7 - 0 mod 8) with 7 in *.
        change (sel 0 (Z.lxor b0 128 :: rest) 0) with (Z.lxor b0 128).
        change (sel 0 (b0 :: rest) 0) with b0 in N0.
        rewrite Htop.
        destruct (dpsk_decision symbols ref 0);
          destruct (Z.land (Z.shiftr b0 7) 1 =? 0); cbn in *; congruence.
      * rewrite Hlater by (cbn [length]; lia). f_equal. f_equal.
        unfold data_bit.
        destruct (Z_lt_le_dec i 8) as [Hsmall|Hbig].
        -- rewrite Z.div_small by lia. rewrite Z.mod_small by lia.
           change (sel 0 (Z.lxor b0 128 :: rest) 0) with (Z.lxor b0 128).
           change (sel 0 (b0 :: rest) 0) with b0.
           symmetry. apply Z.eqb_eq. apply Hlow.
           assert (Hc : 7 - i = 0 \/ 7 - i = 1 \/ 7 - i = 2 \/ 7 - i = 3 \/
                        7 - i = 4 \/ 7 - i = 5 \/ 7 - i = 6) by lia.
           destruct Hc as [->|[->|[->|[->|[->|[->| ->]]]]]]; cbn; tauto.
        -- assert (Hq : 1 <= i / 8) by (apply Z.div_le_lower_bound; lia).
           unfold sel.
           destruct (Z.to_nat (i / 8)) as [|p] eqn:Ep; [lia | reflexivity].
Qed.

Lemma dpsk_unsynchronised_receiver_witness :
  exists symbols tx' out rx',
    dpsk_modulate 1 [0x9C; 0x35] (mkDPSK 0 0) = Ok (symbols, tx') /\
    dpsk_demodulate symbols (mkDPSK 2 1) = Ok (out, rx') /\
    (out = [0x9C; 0x35] \/
     out = Z.lxor (hd 0 [0x9C; 0x35]) 128 :: tl [0x9C; 0x35]).
Proof.
  apply (dpsk_unsynchronised_receiver 1 [0x9C; 0x35] (mkDPSK 0 0) (mkDPSK 2 1));
    [lia | discriminate | repeat constructor; lia |].
  pose proof FSO_PI_pos. unfold dpsk_reference. cbn. lra.
Defined.

(** The slot search of [ppm_demodulate] returns the slot whose sample is
    strictly the largest of its window. *)
Lemma ppm_argmax_strict (symbols : list R) (off ppm_order c : Z) :
  0 <= c < ppm_order ->
  (forall s, 0 <= s < ppm_order -> s <> c ->
     (sel 0%R symbols (off + s) < sel 0%R symbols (off + c))%R) ->
  for_range 1 ppm_order
    (fun slot '(max_slot, max_value) =>
       if Rgt_dec (sel 0%R symbols (off + slot)) max_value
       then (slot, sel 0%R symbols (off + slot))
       else (max_slot, max_value))
    (0, sel 0%R symbols off)
  = (c, sel 0%R symbols (off + c)).
Proof.
  intros Hc Hs.
  pose (P := fun (s : Z) (st : Z * R) =>
    if c <? s then st = (c, sel 0%R symbols (off + c))
    else (snd st < sel 0%R symbols (off + c))%R).
  match goal with
  | |- for_range 1 ppm_order ?body ?s0 = _ =>
      assert (H : P ppm_order (for_range 1 ppm_order body s0))
  end.
  { apply (for_range_invariant P); unfold P.
    - lia.
    - destruct (Z.ltb_spec c 1).
      + replace c with 0 by lia. rewrite Z.add_0_r. reflexivity.
      + cbn [snd]. replace off with (off + 0) at 1 by lia. apply Hs; lia.
    - intros s [ms mv] Hsr. cbn [snd].
      destruct (Z.ltb_spec c s) as [Hlt|Hge].
      + intros E. injection E as -> ->.
        pose proof (Hs s ltac:(lia) ltac:(lia)).
        destruct (Rgt_dec _ _); [lra|].
        destruct (Z.ltb_spec c (s + 1)); [reflexivity | lia].
      + intros Hmv. destruct (Z.eq_dec s c) as [->|Hne].
        * destruct (Rgt_dec _ _); [|lra].
          destruct (Z.ltb_spec c (c + 1)); [reflexivity | lia].
        * pose proof (Hs s ltac:(lia) Hne).
          destruct (Z.ltb_spec c (s + 1)); [lia|].
          destruct (Rgt_dec _ _); cbn [snd]; lra. }
  unfold P in H.
  destruct (Z.ltb_spec c ppm_order); [exact H | lia].
Qed.

(** X21.  PPM demodulation decides by the largest sample of each symbol
    window: whatever the noise, as long as in every window the sample of the
    pulse slot is strictly larger than the samples of the other slots, the
    bytes that were sent are recovered. *)
Theorem ppm_demodulate_strongest_slot
        (data : list Z) (symbols : list R) (ppm_order num_symbols : Z) :
  data <> [] -> bytes data ->
  ppm_order_ok ppm_order = true ->
  8 * Z.of_nat (length data) = num_symbols * ppm_bits_per_symbol ppm_order ->
  Z.of_nat (length symbols) = num_symbols * ppm_order ->
  (forall j s, 0 <= j < num_symbols -> 0 <= s < ppm_order ->
     s <> ppm_pulse_slot data (ppm_bits_per_symbol ppm_order) j ->
     (sel 0%R symbols (j * ppm_order + s)
      < sel 0%R symbols
          (j * ppm_order
           + ppm_pulse_slot data (ppm_bits_per_symbol ppm_order) j))%R) ->
  ppm_demodulate symbols ppm_order = Ok data.
Proof.
  intros Hne Hb Hok Hn Hl Hs. unfold ppm_demodulate.
  assert (Hlen : 0 < Z.of_nat (length data)).
  { destruct data; [congruence | cbn [length]; lia]. }
  pose proof (ppm_order_ok_bits ppm_order Hok) as Ho.
  set (b := ppm_bits_per_symbol ppm_order) in *.
  assert (Hb14 : 1 <= b <= 4 /\ 2 <= ppm_order <= 16)
    by (destruct Ho as [[-> ->]|[[-> ->]|[[-> ->]|[-> ->]]]]; lia).
  assert (Hnpos : 0 < num_symbols) by nia.
  rewrite Hl.
  destruct (Z.ltb_spec 0 (num_symbols * ppm_order)) as [_|]; [|nia].
  rewrite Z.rem_mul by lia. rewrite Z.quot_mul by lia.
  rewrite Hok. cbn [negb Z.eqb]. cbv zeta.
  assert (Hnb : Z.quot (num_symbols * b + 7) 8 = Z.of_nat (length data)).
  { rewrite <- Hn. rewrite Z.quot_div_nonneg by lia.
    Z.div_mod_to_equations. lia. }
  rewrite Hnb. rewrite Nat2Z.id. rewrite <- clear_from_0.
  pose (P := fun (j : Z) (st : list Z * Z * Z) =>
               st = (clear_from data (j * b), j * b, j * ppm_order)).
  match goal with
  | |- context [for_range 0 num_symbols ?body ?s0] =>
      assert (H : P num_symbols (for_range 0 num_symbols body s0))
  end.
  { apply (for_range_invariant P); unfold P.
    - lia.
    - reflexivity.
    - intros j st Hj ->. cbv beta iota.
      assert (Hfit : j * b + b <= 8 * Z.of_nat (length data)) by nia.
      destruct (ppm_pulse_slot_range data ppm_order b j Hb Ho ltac:(lia) Hfit)
        as [Hc Hins].
      rewrite (ppm_argmax_strict symbols (j * ppm_order) ppm_order
                 (ppm_pulse_slot data b j) Hc)
        by (intros s Hsr Hsc; apply Hs; lia).
      destruct (Z.leb_spec (j * b + b) (num_symbols * b)); [|nia].
      rewrite Z.mod_small by lia.
      rewrite Hins. f_equal; [f_equal|]; [f_equal; lia | lia | lia]. }
  unfold P in H. rewrite H. rewrite <- Hn. rewrite clear_from_full.
  reflexivity.
Qed.

Lemma ppm_demodulate_strongest_slot_witness :
  ppm_demodulate
    [0.1; 0.2; 0.9; 0.3;  0.2; 0.8; 0.1; 0.3;
     0.1; 0.3; 0.2; 0.7;  0.6; 0.1; 0.2; 0.3]%R 4 = Ok [0x9C].
Proof.
  apply (ppm_demodulate_strongest_slot [0x9C]
           [0.1; 0.2; 0.9; 0.3;  0.2; 0.8; 0.1; 0.3;
            0.1; 0.3; 0.2; 0.7;  0.6; 0.1; 0.2; 0.3]%R 4 4);
    [discriminate | repeat constructor; lia | reflexivity | reflexivity
    | reflexivity |].
  intros j s Hj Hs.
  assert (Hjc : j = 0 \/ j = 1 \/ j = 2 \/ j = 3) by lia.
  assert (Hsc : s = 0 \/ s = 1 \/ s = 2 \/ s = 3) by lia.
  destruct Hjc as [->|[->|[->| ->]]];
    destruct Hsc as [->|[->|[->| ->]]];
    vm_compute (ppm_pulse_slot _ _ _); intros Hne; try congruence;
    unfold sel; vm_compute (Z.to_nat _); cbn [nth]; lra.
Defined.

(** X28.  PPM sends exactly one pulse per symbol: for data that fill a
    whole number of symbols, [ppm_modulate] returns [ppm_order] samples per
    symbol, and in every symbol window one sample is 1.0 and all the others
    are 0.0. *)
Theorem ppm_modulate_one_pulse_per_symbol
        (data : list Z) (ppm_order num_symbols : Z) :
  data <> [] -> bytes data ->
  ppm_order_ok ppm_order = true ->
  8 * Z.of_nat (length data) = num_symbols * ppm_bits_per_symbol ppm_order ->
  exists symbols,
    ppm_modulate data ppm_order = Ok symbols /\
    Z.of_nat (length symbols) = num_symbols * ppm_order /\
    forall j, 0 <= j < num_symbols ->
      exists c, 0 <= c < ppm_order /\
        forall s, 0 <= s < ppm_order ->
          sel 0%R symbols (j * ppm_order + s)
          = if s =? c then 1.0%R else 0.0%R.
Proof.
  intros Hne Hb Hok Hn.
  destruct (ppm_modulate_symbols data ppm_order num_symbols Hne Hb Hok Hn)
    as (symbols & Hm & Hl & Hs).
  exists symbols. split; [exact Hm|]. split; [exact Hl|].
  intros j Hj.
  pose proof (ppm_order_ok_bits ppm_order Hok) as Ho.
  set (b := ppm_bits_per_symbol ppm_order) in *.
  assert (Hb14 : 1 <= b <= 4)
    by (destruct Ho as [[_ ->]|[[_ ->]|[[_ ->]|[_ ->]]]]; lia).
  assert (Hfit : j * b + b <= 8 * Z.of_nat (length data)) by nia.
  destruct (ppm_pulse_slot_range data ppm_order b j Hb Ho ltac:(lia) Hfit)
    as [Hc _].
  exists (ppm_pulse_slot data b j). split; [exact Hc|].
  intros s Hsr. apply Hs; assumption.
Qed.

Lemma ppm_modulate_one_pulse_per_symbol_witness :
  exists symbols,
    ppm_modulate [0x9C] 4 = Ok symbols /\
    Z.of_nat (length symbols) = 4 * 4 /\
    forall j, 0 <= j < 4 ->
      exists c, 0 <= c < 4 /\
        forall s, 0 <= s < 4 ->
          sel 0%R symbols (j * 4 + s) = if s =? c then 1.0%R else 0.0%R.
Proof.
  apply (ppm_modulate_one_pulse_per_symbol [0x9C] 4 4);
    [discriminate | repeat constructor; lia | reflexivity | reflexivity].
Defined.

(** X29.  DPSK is a constant-envelope modulation: [dpsk_modulate] returns
    eight symbols per byte, and every one of them has magnitude 1, whatever
    the data and the transmitter's state. *)
Theorem dpsk_modulate_constant_envelope
        (fuel : nat) (data : list Z) (state : DPSKState) :
  data <> [] ->
  exists symbols state',
    dpsk_modulate fuel data state = Ok (symbols, state') /\
    Z.of_nat (length symbols) = 8 * Z.of_nat (length data) /\
    forall i, 0 <= i < 8 * Z.of_nat (length data) ->
      (real (sel (mkComplex 0 0) symbols i) * real (sel (mkComplex 0 0) symbols i)
       + imag (sel (mkComplex 0 0) symbols i) * imag (sel (mkComplex 0 0) symbols i)
       = 1)%R.
Proof.
  intros Hne.
  destruct (dpsk_modulate_symbols fuel data state Hne)
    as (symbols & Hm & Hl & Hs).
  exists symbols. eexists. split; [exact Hm|]. split; [exact Hl|].
  intros i Hi.
  pose proof (Hs (Z.to_nat i) ltac:(lia)) as E.
  rewrite Z2Nat.id in E by lia. rewrite E.
  unfold fso_complex_from_polar. cbn [real imag].
  match goal with
  | |- context [cos ?x] => pose proof (sin2_cos2 x) as Hsc
  end.
  unfold Rsqr in Hsc. lra.
Qed.

Lemma dpsk_modulate_constant_envelope_witness :
  exists symbols state',
    dpsk_modulate 1 [0x9C] (mkDPSK 0 0) = Ok (symbols, state') /\
    Z.of_nat (length symbols) = 8 * Z.of_nat (length [0x9C]) /\
    forall i, 0 <= i < 8 * Z.of_nat (length [0x9C]) ->
      (real (sel (mkComplex 0 0) symbols i) * real (sel (mkComplex 0 0) symbols i)
       + imag (sel (mkComplex 0 0) symbols i) * imag (sel (mkComplex 0 0) symbols i)
       = 1)%R.
Proof.
  apply (dpsk_modulate_constant_envelope 1 [0x9C] (mkDPSK 0 0)). discriminate.
Defined.

(** ** Channel: scintillation and losses *)

Section ChannelLosses.
Local Open Scope R_scope.

(** X22.  The scintillation index is non-negative, never decreases when the
    Rytov variance grows (also across the switch from the weak-turbulence
    formula to the exponential one at 0.3), and saturates at 10. *)
Theorem scintillation_index_monotone_bounded (r1 r2 : R) :
  0 <= r1 <= r2 ->
  0 <= channel_calculate_scintillation_index r1
    <= channel_calculate_scintillation_index r2 /\
  channel_calculate_scintillation_index r2 <= 10.
Proof.
  intros Hr. unfold channel_calculate_scintillation_index.
  assert (Hexp : forall x, 0 < x -> 1 + x < exp x)
    by (intros x Hx; apply exp_ineq1; lra).
  destruct (Rlt_dec r1 0.3) as [H1|H1]; destruct (Rlt_dec r2 0.3) as [H2|H2];
    cbv zeta.
  - lra.
  - pose proof (Hexp (4.0 * r2) ltac:(lra)).
    destruct (Rgt_dec _ _); lra.
  - lra.
  - pose proof (Hexp (4.0 * r1) ltac:(lra)).
    assert (Hmono : exp (4.0 * r1) <= exp (4.0 * r2)).
    { destruct (Req_dec r1 r2) as [->|Hne]; [lra|].
      left. apply exp_increasing. lra. }
    destruct (Rgt_dec (exp (4.0 * r1) - 1.0) 10.0);
      destruct (Rgt_dec (exp (4.0 * r2) - 1.0) 10.0); lra.
Qed.

Lemma scintillation_index_monotone_bounded_witness :
  0 <= channel_calculate_scintillation_index 0.2
    <= channel_calculate_scintillation_index 0.5 /\
  channel_calculate_scintillation_index 0.5 <= 10.
Proof.
  apply (scintillation_index_monotone_bounded 0.2 0.5). lra.
Defined.

Lemma log10_mult (x y : R) :
  0 < x -> 0 < y -> log10 (x * y) = log10 x + log10 y.
Proof.
  intros Hx Hy. unfold log10. rewrite ln_mult by assumption.
  assert (0 < ln 10) by (rewrite <- ln_1; apply ln_increasing; lra).
  field. lra.
Qed.

Lemma log10_pos (x : R) : 1 < x -> 0 < log10 x.
Proof.
  intros Hx. unfold log10.
  assert (0 < ln 10) by (rewrite <- ln_1; apply ln_increasing; lra).
  assert (0 < ln x) by (rewrite <- ln_1; apply ln_increasing; lra).
  apply Rdiv_lt_0_compat; assumption.
Qed.

(** X23.  Free-space path loss follows the inverse-square law: stretching
    the link by a factor [c] adds [20 * log10 c] dB, whatever the
    wavelength; doubling the distance adds [20 * log10 2] dB (about 6.02
    dB). *)
Theorem path_loss_distance_scaling (distance wavelength c : R) :
  0 < distance -> 0 < wavelength -> 0 < c ->
  channel_calculate_path_loss (c * distance) wavelength
  = channel_calculate_path_loss distance wavelength + 20.0 * log10 c.
Proof.
  intros Hd Hw Hc. unfold channel_calculate_path_loss. cbv zeta.
  pose proof FSO_PI_pos as Hpi.
  replace (4.0 * FSO_PI * (c * distance) / wavelength)
    with (c * (4.0 * FSO_PI * distance / wavelength)) by (field; lra).
  rewrite log10_mult; [lra | exact Hc |].
  apply Rdiv_lt_0_compat; [|exact Hw].
  apply Rmult_lt_0_compat; [lra | exact Hd].
Qed.

Lemma path_loss_distance_scaling_witness :
  channel_calculate_path_loss (2 * 1000) 1.55e-6
  = channel_calculate_path_loss 1000 1.55e-6 + 20.0 * log10 2.
Proof.
  apply (path_loss_distance_scaling 1000 1.55e-6 2); lra.
Defined.

(** X24.  With a receiver aperture of positive size the geometric loss is
    never negative, and it is zero exactly when the beam radius
    [divergence * distance] does not exceed the aperture radius. *)
Theorem geometric_loss_nonnegative
        (distance divergence receiver_aperture : R) :
  0 < receiver_aperture ->
  0 <= channel_calculate_geometric_loss distance divergence receiver_aperture /\
  (channel_calculate_geometric_loss distance divergence receiver_aperture = 0
   <-> divergence * distance <= receiver_aperture / 2).
Proof.
  intros Ha. unfold channel_calculate_geometric_loss. cbv zeta.
  destruct (Rle_dec (divergence * distance) (receiver_aperture / 2.0))
    as [Hle|Hgt].
  - split; [lra|]. split; intros; lra.
  - assert (Hr : 1 < divergence * distance / (receiver_aperture / 2.0)).
    { apply Rmult_lt_reg_r with (r := receiver_aperture / 2.0); [lra|].
      replace (divergence * distance / (receiver_aperture / 2.0)
               * (receiver_aperture / 2.0))
        with (divergence * distance) by (field; lra).
      lra. }
    pose proof (log10_pos _ Hr) as Hlog.
    split; [lra|]. split; intros; lra.
Qed.

Lemma geometric_loss_nonnegative_witness :
  0 <= channel_calculate_geometric_loss 1000 0.001 0.1 /\
  (channel_calculate_geometric_loss 1000 0.001 0.1 = 0
   <-> 0.001 * 1000 <= 0.1 / 2).
Proof.
  apply (geometric_loss_nonnegative 1000 0.001 0.1). lra.
Defined.

(** X25.  For a positive wavelength the fog attenuation of the Kim model
    is positive and bounded for every visibility, zero and negative values
    included: visibilities below 10 m are treated as 10 m, so the
    attenuation never exceeds its value at 10 m,
    [391 * (lambda_nm / 550) ^ (-1.3)] dB/km. *)
Theorem fog_attenuation_bounded (visibility wavelength : R) :
  0 < wavelength ->
  0 < calculate_fog_attenuation visibility wavelength
    <= calculate_fog_attenuation 10 wavelength /\
  calculate_fog_attenuation 10 wavelength
  = 391 * Rpower (wavelength * 1e9 / 550.0) (- (1.3)).
Proof.
  intros Hwavelength.
  unfold calculate_fog_attenuation. cbv zeta.
  set (f := Rpower (wavelength * 1e9 / 550.0) (- (1.3))).
  assert (Hf : 0 < f) by (unfold f, Rpower; apply exp_pos).
  destruct (Rlt_dec (10 / 1000.0) 0.01) as [Hc|_]; [lra|].
  assert (E10 : 3.91 / (10 / 1000.0) = 391) by lra.
  rewrite E10. split; [|reflexivity].
  destruct (Rlt_dec (visibility / 1000.0) 0.01) as [Hlt|Hge].
  - replace (3.91 / 0.01) with 391 by lra.
    split; [nra | lra].
  - assert (Hv : 0.01 <= visibility / 1000.0) by lra.
    assert (Hq : 0 < 3.91 / (visibility / 1000.0) <= 391).
    { split.
      - apply Rdiv_lt_0_compat; lra.
      - apply Rmult_le_reg_r with (r := visibility / 1000.0); [lra|].
        replace (3.91 / (visibility / 1000.0) * (visibility / 1000.0))
          with 3.91 by (field; lra).
        lra. }
    split; [nra | nra].
Qed.

Lemma fog_attenuation_bounded_witness :
  0 < 1.55e-6 /\
  0 < calculate_fog_attenuation 200 1.55e-6
    <= calculate_fog_attenuation 10 1.55e-6 /\
  calculate_fog_attenuation 10 1.55e-6
  = 391 * Rpower (1.55e-6 * 1e9 / 550.0) (- (1.3)).
Proof.
  split; [lra|].
  apply (fog_attenuation_bounded 200 1.55e-6). lra.
Defined.

End ChannelLosses.

(** ** Beam tracker: threshold and report *)

(** X26.  After [beam_track_set_threshold] has stored a threshold in
    [0, 1], [beam_track_check_misalignment] reports a valid measurement as
    misaligned (returns 1) exactly when it is below that threshold and as
    aligned (returns 0) otherwise, the stored flag agrees with the value
    returned, and the measurement is recorded as the current signal
    strength. *)
Theorem beam_threshold_then_check (tracker : BeamTracker) (threshold s : Q) :
  (0 <= threshold)%Q -> (threshold <= 1)%Q -> (0 <= s)%Q ->
  fst (beam_track_set_threshold tracker threshold) = FSO_SUCCESS /\
  (snd (beam_track_check_misalignment
          (snd (beam_track_set_threshold tracker threshold)) s) = 1
   <-> (s < threshold)%Q) /\
  (snd (beam_track_check_misalignment
          (snd (beam_track_set_threshold tracker threshold)) s) = 0
   <-> (threshold <= s)%Q) /\
  (misaligned (fst (beam_track_check_misalignment
                      (snd (beam_track_set_threshold tracker threshold)) s))
   <> 0 <-> (s < threshold)%Q) /\
  signal_strength (fst (beam_track_check_misalignment
                          (snd (beam_track_set_threshold tracker threshold)) s))
  = s.
Proof.
  intros Ht0 Ht1 Hs. unfold beam_track_set_threshold.
  destruct (Qlt_le_dec threshold 0) as [Hn|_];
    [exfalso; apply (Qlt_not_le _ _ Hn Ht0)|].
  destruct (Qlt_le_dec 1 threshold) as [Hn|_];
    [exfalso; apply (Qlt_not_le _ _ Hn Ht1)|].
  cbn [fst snd]. split; [reflexivity|].
  unfold beam_track_check_misalignment.
  destruct (Qlt_le_dec s 0) as [Hn|_];
    [exfalso; apply (Qlt_not_le _ _ Hn Hs)|].
  cbn [signal_threshold misaligned azimuth elevation signal_strength
       reacquisition_mode].
  destruct (Qlt_le_dec s threshold) as [Hlt|Hge].
  - assert (Hnle : ~ (threshold <= s)%Q) by (apply Qlt_not_le; exact Hlt).
    destruct (Z.eqb_spec (misaligned tracker) 0) as [E|E];
      cbn [fst snd misaligned signal_strength negb];
      repeat split; intros; try assumption; try reflexivity;
      try discriminate; try contradiction.
  - assert (Hnlt : ~ (s < threshold)%Q) by (apply Qle_not_lt; exact Hge).
    destruct (Z.eqb_spec (misaligned tracker) 0) as [E|E];
      cbn [fst snd misaligned signal_strength negb];
      repeat split; intros; try assumption; try reflexivity;
      try discriminate; try contradiction.
Qed.

Lemma beam_threshold_then_check_witness :
  fst (beam_track_set_threshold tracker_aligned (1 # 2)) = FSO_SUCCESS /\
  (snd (beam_track_check_misalignment
          (snd (beam_track_set_threshold tracker_aligned (1 # 2))) (3 # 10)) = 1
   <-> (3 # 10 < 1 # 2)%Q) /\
  (snd (beam_track_check_misalignment
          (snd (beam_track_set_threshold tracker_aligned (1 # 2))) (3 # 10)) = 0
   <-> (1 # 2 <= 3 # 10)%Q) /\
  (misaligned (fst (beam_track_check_misalignment
                      (snd (beam_track_set_threshold tracker_aligned (1 # 2)))
                      (3 # 10)))
   <> 0 <-> (3 # 10 < 1 # 2)%Q) /\
  signal_strength (fst (beam_track_check_misalignment
                          (snd (beam_track_set_threshold tracker_aligned (1 # 2)))
                          (3 # 10)))
  = 3 # 10.
Proof.
  apply (beam_threshold_then_check tracker_aligned (1 # 2) (3 # 10));
    discriminate.
Defined.

